(** * IFC antenna insertion: placement solver, relationship rewiring and
    owner-history harmonisation

    A shallow embedding of [IFC_insert_antenna.py].  The numeric code is
    written over an interface of scalar operations and instantiated at
    binary64 floating-point numbers, what Python and numpy compute with;
    what is proved about rounding follows from the library's specification
    of binary64, with the real numbers as the values of the format. *)

From Stdlib Require Import List String Ascii Bool Arith ZArith Lia.
From Stdlib Require Import Floats Reals Lra Psatz.
Import ListNotations.

Set Warnings "-inexact-float".
Set Implicit Arguments.
Open Scope string_scope.
Open Scope list_scope.

(* ================================================================== *)
(** * Exceptions and results *)

(** The exceptions the module can raise.  The first five are the
    [ValueError]s raised by the module itself, told apart by the place that
    raises them; [NumpyShapeError] is the [ValueError] numpy raises on
    operands of incompatible shape; [IndexError] and [ZeroDivisionError]
    are Python's. *)
Inductive exn : Type :=
| NoAxisFoundError
| DegenerateVectorError
| NoCandidateError
| InvalidIndexError
| NoAntennaError
| NumpyShapeError
| IndexError
| ZeroDivisionError.

Definition is_ValueError (e : exn) : bool :=
  match e with
  | IndexError | ZeroDivisionError => false
  | _ => true
  end.

Inductive result (A : Type) : Type :=
| Ok (a : A)
| Raise (e : exn).
Arguments Ok {A} a.
Arguments Raise {A} e.

Definition bind {A B : Type} (r : result A) (k : A -> result B) : result B :=
  match r with
  | Ok a => k a
  | Raise e => Raise e
  end.

Notation "x <- r ;; k" := (bind r (fun x => k))
  (at level 61, r at next level, right associativity).

(* ================================================================== *)
(** * Scalars *)

(** The operations of Python's [float] that the module uses. *)
Class Scalar (F : Type) : Type := {
  f_zero : F;                 (* 0.0 *)
  f_one : F;                  (* 1.0 *)
  f_half : F;                 (* 0.5 *)
  EPS : F;                    (* 1e-9 *)
  fadd : F -> F -> F;
  fsub : F -> F -> F;
  fmul : F -> F -> F;
  fdiv : F -> F -> F;
  fsqrt : F -> F;
  fabs : F -> F;
  fltb : F -> F -> bool;      (* a < b *)
  fleb : F -> F -> bool;      (* a <= b *)
  feqb : F -> F -> bool       (* a == b *)
}.

#[export] Instance float_Scalar : Scalar float := {
  f_zero := 0%float;
  f_one := 1%float;
  f_half := 0.5%float;
  EPS := 1e-9%float;
  fadd := PrimFloat.add;
  fsub := PrimFloat.sub;
  fmul := PrimFloat.mul;
  fdiv := PrimFloat.div;
  fsqrt := PrimFloat.sqrt;
  fabs := PrimFloat.abs;
  fltb := PrimFloat.ltb;
  fleb := PrimFloat.leb;
  feqb := PrimFloat.eqb
}.

(* ================================================================== *)
(** * The numpy operations on one-dimensional arrays *)

Module np.
Section Arrays.
Context {F : Type} {SF : Scalar F}.

(** Element-wise binary operation with numpy's broadcasting rule for two
    one-dimensional arrays: equal lengths, or one operand of length one. *)
Definition broadcast (op : F -> F -> F) (a b : list F) : result (list F) :=
  if Nat.eqb (List.length a) (List.length b) then Ok (map (fun p => op (fst p) (snd p)) (combine a b))
  else match a, b with
       | [x], _ => Ok (map (fun y => op x y) b)
       | _, [y] => Ok (map (fun x => op x y) a)
       | _, _ => Raise NumpyShapeError
       end.

Definition add : list F -> list F -> result (list F) := broadcast fadd.
Definition subtract : list F -> list F -> result (list F) := broadcast fsub.

(** [s * v], [v * s] and [v / s] for a scalar [s]. *)
Definition scale (s : F) (v : list F) : list F := map (fun x => fmul s x) v.
Definition times (v : list F) (s : F) : list F := map (fun x => fmul x s) v.
Definition divide (v : list F) (s : F) : list F := map (fun x => fdiv x s) v.

(** [v[i]]. *)
Definition item (v : list F) (i : nat) : result F :=
  match nth_error v i with
  | Some x => Ok x
  | None => Raise IndexError
  end.

(** [np.linalg.norm(v)]: the square root of [v.dot(v)]. *)
Definition dot (a b : list F) : F :=
  fold_left (fun acc p => fadd acc (fmul (fst p) (snd p))) (combine a b) f_zero.

Definition linalg_norm (v : list F) : F := fsqrt (dot v v).

(** [np.cross(a, b)] for two arrays of three components; any other length
    of [b] that the solver can pass (more than three) is refused by numpy. *)
Definition cross (a b : list F) : result (list F) :=
  match a, b with
  | [a0; a1; a2], [b0; b1; b2] =>
      Ok [fsub (fmul a1 b2) (fmul a2 b1);
          fsub (fmul a2 b0) (fmul a0 b2);
          fsub (fmul a0 b1) (fmul a1 b0)]
  | _, _ => Raise NumpyShapeError
  end.

End Arrays.
End np.

(* ================================================================== *)
(** * Member geometry *)

Section Geometry.
Context {F : Type} {SF : Scalar F}.

(** The entities the extractor walks, as the attributes it reads from them.
    A point is the list of its coordinates. *)
Inductive curve : Type :=
| IfcIndexedPolyCurve (CoordList : list (list F))   (* curve.Points.CoordList *)
| IfcPolyline (Points : list (list F))              (* point.Coordinates of curve.Points *)
| OtherCurve.

(** A swept-area profile: [OuterCurve] is [None] when the profile has no
    such attribute or it is unset, [InnerCurves] is empty when absent. *)
Record profile : Type := {
  OuterCurve : option curve;
  InnerCurves : list curve
}.

Inductive representation_item : Type :=
| CurveItem (c : curve)
| IfcExtrudedAreaSolid (SweptArea : profile)
| OtherItem.

Record representation : Type := {
  RepresentationIdentifier : option string;
  Items : list representation_item
}.

Record representation_map : Type := {
  MappedRepresentation : representation
}.

(** [RepresentationMaps] is [None] when the attribute is unset. *)
Record column_type : Type := {
  RepresentationMaps : option (list representation_map)
}.

(** An [IfcColumn] of a schema whose columns have the inverse attribute
    [IsTypedBy] (IFC4 and later): its id, the relating types of
    [IsTypedBy], and the relating structures of [ContainedInStructure].
    On a column of an IFC2X3 model the access [column.IsTypedBy] raises
    AttributeError; such columns are outside this type. *)
Record IfcColumn : Type := {
  id : Z;
  IsTypedBy : list column_type;
  ContainedInStructure : list Z
}.

(** [values.append(0.0)] when [len(values) == 2]. *)
Definition pad_2d (values : list F) : list F :=
  if Nat.eqb (List.length values) 2 then values ++ [f_zero] else values.

Definition read_curve_points (c : curve) : list (list F) :=
  match c with
  | IfcIndexedPolyCurve coord_list =>
      fold_left (fun points xyz => points ++ [pad_2d xyz]) coord_list []
  | IfcPolyline pts =>
      fold_left (fun points coords => points ++ [pad_2d coords]) pts []
  | OtherCurve => []
  end.

Definition read_polycurve_points (e : representation_item) : list (list F) :=
  match e with
  | CurveItem c => read_curve_points c
  | _ => []
  end.

Definition identifier_is (r : representation) (name : string) : bool :=
  match RepresentationIdentifier r with
  | Some s => String.eqb s name
  | None => false
  end.

(** The loop of [get_column_axis_points] over the representation maps;
    [None] when it falls through. *)
Fixpoint axis_loop (maps : list representation_map) : option (list F * list F) :=
  match maps with
  | [] => None
  | representation_map :: rest =>
      let representation := MappedRepresentation representation_map in
      if negb (identifier_is representation "Axis") then axis_loop rest
      else match Items representation with
           | [] => axis_loop rest
           | curve :: _ =>
               let points := read_polycurve_points curve in
               if Nat.ltb (List.length points) 2 then axis_loop rest
               else Some (hd [] points, last points [])
           end
  end.

Definition get_column_axis_points (column : IfcColumn) : result (list F * list F) :=
  match IsTypedBy column with
  | [] => Raise NoAxisFoundError
  | column_type :: _ =>
      match axis_loop (match RepresentationMaps column_type with
                       | Some maps => maps
                       | None => []
                       end) with
      | Some p => Ok p
      | None => Raise NoAxisFoundError
      end
  end.

(** Python's [max] over a non-empty sequence: a later element replaces the
    running maximum when it compares greater. *)
Definition py_max (first : F) (others : list F) : F :=
  fold_left (fun best x => if fltb best x then x else best) others first.

(** [max(norm(point[:2]) for point in points)], [None] on no points. *)
Definition max_planar_norm (points : list (list F)) : option F :=
  match map (fun point => np.linalg_norm (firstn 2 point)) points with
  | [] => None
  | r :: rs => Some (py_max r rs)
  end.

Fixpoint first_extruded_solid (items : list representation_item) : option profile :=
  match items with
  | [] => None
  | IfcExtrudedAreaSolid swept :: _ => Some swept
  | _ :: rest => first_extruded_solid rest
  end.

Fixpoint body_loop (maps : list representation_map) : option profile :=
  match maps with
  | [] => None
  | representation_map :: rest =>
      let representation := MappedRepresentation representation_map in
      if negb (identifier_is representation "Body") then body_loop rest
      else match first_extruded_solid (Items representation) with
           | Some solid => Some solid
           | None => body_loop rest
           end
  end.

Definition get_column_profile_info (column : IfcColumn) : F * F :=
  match IsTypedBy column with
  | [] => (f_zero, f_zero)
  | column_type :: _ =>
      match body_loop (match RepresentationMaps column_type with
                       | Some maps => maps
                       | None => []
                       end) with
      | None => (f_zero, f_zero)
      | Some profile =>
          let outer_radius :=
            match OuterCurve profile with
            | Some outer =>
                match max_planar_norm (read_curve_points outer) with
                | Some r => r
                | None => f_zero
                end
            | None => f_zero
            end in
          let inner_radius :=
            match InnerCurves profile with
            | first_inner :: _ =>
                match max_planar_norm (read_curve_points first_inner) with
                | Some r => r
                | None => f_zero
                end
            | [] => f_zero
            end in
          (outer_radius, inner_radius)
      end
  end.

End Geometry.

(* ================================================================== *)
(** * Placement solver *)

Section Placement.
Context {F : Type} {SF : Scalar F}.

Record LegPlacement : Type := {
  leg : IfcColumn (F:=F);
  axis_start : list F;
  axis_end : list F;
  center_at_height : list F;
  insertion_point : list F;
  direction : list F;
  radial_offset : F
}.

Definition normalize (vector : list F) : result (list F) :=
  let norm := np.linalg_norm vector in
  if fltb norm EPS then Raise DegenerateVectorError
  else Ok (np.divide vector norm).

Definition global_up : list F := [f_zero; f_zero; f_one].
Definition world_x : list F := [f_one; f_zero; f_zero].

(** The three-way choice of the radial offset. *)
Definition choose_radial_offset (outer_radius inner_radius : F) : F :=
  if fltb f_zero outer_radius && fltb f_zero inner_radius
     && fltb inner_radius outer_radius
  then fmul (fadd outer_radius inner_radius) f_half
  else if fltb f_zero outer_radius then fmul outer_radius f_half
  else f_zero.

(** The body of the loop over the columns, from the subtraction on: either
    [continue] ([Ok None]), a candidate to append, or an exception. *)
Definition placement_on_axis (target_height_model_units : F) (column : IfcColumn)
    (axis_start axis_end : list F) : result (option LegPlacement) :=
  delta <- np.subtract axis_end axis_start ;;
  dz <- np.item delta 2 ;;
  if fltb (fabs dz) EPS then Ok None
  else
    z0 <- np.item axis_start 2 ;;
    let t := fdiv (fsub target_height_model_units z0) dz in
    if fltb t f_zero || fltb f_one t then Ok None
    else
      direction <- normalize delta ;;
      center <- np.add axis_start (np.scale t delta) ;;
      radial_dir <- np.cross global_up direction ;;
      radial_dir <- (if fltb (np.linalg_norm radial_dir) EPS
                     then np.cross world_x direction
                     else Ok radial_dir) ;;
      radial_dir <- normalize radial_dir ;;
      let (outer_radius, inner_radius) := get_column_profile_info column in
      let radial_offset := choose_radial_offset outer_radius inner_radius in
      insertion <- np.add center (np.times radial_dir radial_offset) ;;
      Ok (Some {| leg := column;
                  axis_start := axis_start;
                  axis_end := axis_end;
                  center_at_height := center;
                  insertion_point := insertion;
                  direction := direction;
                  radial_offset := radial_offset |}).

(** The loop [for column in segment_model.by_type("IfcColumn")], with the
    list [candidates] it appends to. *)
Fixpoint collect_candidates (target_height_model_units : F)
    (columns : list IfcColumn) (candidates : list LegPlacement)
    : result (list LegPlacement) :=
  match columns with
  | [] => Ok candidates
  | column :: rest =>
      match get_column_axis_points column with
      | Raise e =>
          if is_ValueError e
          then collect_candidates target_height_model_units rest candidates
          else Raise e
      | Ok (axis_start, axis_end) =>
          c <- placement_on_axis target_height_model_units column axis_start axis_end ;;
          match c with
          | None => collect_candidates target_height_model_units rest candidates
          | Some placement =>
              collect_candidates target_height_model_units rest
                                 (candidates ++ [placement])
          end
      end
  end.

(** [columns] is [segment_model.by_type("IfcColumn")], in the order the
    model yields it. *)
Definition compute_leg_placement (columns : list IfcColumn)
    (target_height_model_units : F) (leg_index : Z) : result LegPlacement :=
  candidates <- collect_candidates target_height_model_units columns [] ;;
  match candidates with
  | [] => Raise NoCandidateError
  | _ =>
      if (leg_index <? 0)%Z || (leg_index >=? Z.of_nat (List.length candidates))%Z
      then Raise InvalidIndexError
      else match nth_error candidates (Z.to_nat leg_index) with
           | Some c => Ok c
           | None => Raise IndexError
           end
  end.

End Placement.

(** A closed outline through the four points at distance [r] from the
    origin on the two axes; its largest planar norm is [r]. *)
Definition square_outline (r : float) : curve :=
  IfcIndexedPolyCurve [[r; 0%float]; [0%float; r]; [PrimFloat.opp r; 0%float];
                       [0%float; PrimFloat.opp r]; [r; 0%float]].

Definition column_with (ident : Z) (p0 p1 : list float) (outer : option curve) : IfcColumn :=
  {| id := ident;
     IsTypedBy :=
       [ {| RepresentationMaps := Some
              [ {| MappedRepresentation :=
                     {| RepresentationIdentifier := Some "Body"%string;
                        Items := [IfcExtrudedAreaSolid
                                    {| OuterCurve := outer; InnerCurves := [] |}] |} |};
                {| MappedRepresentation :=
                     {| RepresentationIdentifier := Some "Axis"%string;
                        Items := [CurveItem (IfcPolyline [p0; p1])] |} |} ] |} ];
     ContainedInStructure := [1%Z] |}.

Definition scenario_column : IfcColumn :=
  column_with 10 [0; 0; 0]%float [0; 0; 6]%float (Some (square_outline 0.2)).

(* ================================================================== *)
(** * Member geometry, stated declaratively *)

Section GeometrySpec.
Context {F : Type} {SF : Scalar F}.

(** A 2-D point becomes 3-D by appending z = 0; other points are kept. *)
Definition to_3d (p : list F) : list F :=
  match p with
  | [x; y] => [x; y; f_zero]
  | _ => p
  end.

(** The point list of a curve item: indexed point-cloud curves and
    explicit polylines are read, anything else has no points. *)
Definition curve_point_list (e : representation_item) : list (list F) :=
  match e with
  | CurveItem (IfcIndexedPolyCurve coord_list) => map to_3d coord_list
  | CurveItem (IfcPolyline pts) => map to_3d pts
  | _ => []
  end.

(** The point lists of the first items ([Items[0]], whatever entity that
    is) of the representations identified as "Axis", in the order of the
    representation maps.  An item that is not a curve has no points. *)
Definition axis_point_lists (t : column_type) : list (list (list F)) :=
  flat_map (fun rm => match Items (MappedRepresentation rm) with
                      | first :: _ => [curve_point_list first]
                      | [] => []
                      end)
           (filter (fun rm => identifier_is (MappedRepresentation rm) "Axis")
                   (match RepresentationMaps t with Some maps => maps | None => [] end)).

(** The extractor the solver calls: the end points of the first of these
    point lists that has at least two points. *)
Definition axisEndpoints (member : IfcColumn) : result (list F * list F) :=
  match IsTypedBy member with
  | [] => Raise NoAxisFoundError
  | t :: _ =>
      match find (fun pts => Nat.leb 2 (List.length pts)) (axis_point_lists t) with
      | Some pts => Ok (hd [] pts, last pts [])
      | None => Raise NoAxisFoundError
      end
  end.

(** ** The extractor as the specification words it

    The specification reads the point list of the first curve item of an
    "Axis" representation: the first of its items that is a curve, which
    need not be the item at index 0. *)

(** A representation is identified as [name] when its identifier is set
    and is that very string. *)
Definition identified_as (r : representation (F:=F)) (name : string) : bool :=
  match RepresentationIdentifier r with
  | Some s => if string_dec s name then true else false
  | None => false
  end.

Definition is_curve_item (e : representation_item (F:=F)) : bool :=
  match e with
  | CurveItem _ => true
  | _ => false
  end.

(** The point lists of the first curve items of the representations
    identified as "Axis", in the order of the representation maps. *)
Definition first_curve_item_point_lists (t : column_type) : list (list (list F)) :=
  flat_map (fun rm => match find is_curve_item (Items (MappedRepresentation rm)) with
                      | Some c => [curve_point_list c]
                      | None => []
                      end)
           (filter (fun rm => identified_as (MappedRepresentation rm) "Axis")
                   (match RepresentationMaps t with Some maps => maps | None => [] end)).

Definition axisEndpoints_of_first_curve_item (member : IfcColumn)
    : result (list F * list F) :=
  match IsTypedBy member with
  | [] => Raise NoAxisFoundError
  | t :: _ =>
      match find (fun pts => Nat.leb 2 (List.length pts))
                 (first_curve_item_point_lists t) with
      | Some pts => Ok (hd [] pts, last pts [])
      | None => Raise NoAxisFoundError
      end
  end.

(** Every "Axis" representation of the member's type that has items has a
    curve as its first item. *)
Definition first_items_are_curves (member : IfcColumn) : bool :=
  match IsTypedBy member with
  | [] => true
  | t :: _ =>
      forallb (fun rm => match Items (MappedRepresentation rm) with
                         | first :: _ => is_curve_item first
                         | [] => true
                         end)
              (filter (fun rm => identified_as (MappedRepresentation rm) "Axis")
                      (match RepresentationMaps t with Some maps => maps | None => [] end))
  end.

End GeometrySpec.

(** A column whose "Axis" representation lists an item that is not a curve
    before its two-point polyline. *)
Definition curve_second_column : IfcColumn :=
  {| id := 13;
     IsTypedBy :=
       [ {| RepresentationMaps := Some
              [ {| MappedRepresentation :=
                     {| RepresentationIdentifier := Some "Axis"%string;
                        Items := [OtherItem;
                                  CurveItem (IfcPolyline [[0; 0; 0]%float;
                                                          [0; 0; 6]%float])] |} |} ] |} ];
     ContainedInStructure := [1%Z] |}.

(* ================================================================== *)
(** * Donor selection *)

(** An [IfcCommunicationsAppliance] of the donor model: [PredefinedType] is
    [None] when the attribute is missing or unset. *)
Record IfcCommunicationsAppliance : Type := {
  appliance_id : Z;
  PredefinedType : option string
}.

(** [str.upper] and [str.lower] on ASCII text.  A character outside ASCII
    never maps to one of the letters of ANTENNA, so the comparison below
    gives the same answer on every Python string. *)
Definition upper_ascii (c : ascii) : ascii :=
  let n := nat_of_ascii c in
  if Nat.leb 97 n && Nat.leb n 122 then ascii_of_nat (n - 32) else c.

Definition lower_ascii (c : ascii) : ascii :=
  let n := nat_of_ascii c in
  if Nat.leb 65 n && Nat.leb n 90 then ascii_of_nat (n + 32) else c.

Fixpoint upper (s : string) : string :=
  match s with
  | EmptyString => EmptyString
  | String c rest => String (upper_ascii c) (upper rest)
  end.

Fixpoint lower (s : string) : string :=
  match s with
  | EmptyString => EmptyString
  | String c rest => String (lower_ascii c) (lower rest)
  end.

(** [str(getattr(antenna, "PredefinedType", "") or "")]. *)
Definition predefined_of (antenna : IfcCommunicationsAppliance) : string :=
  match PredefinedType antenna with
  | Some s => s
  | None => EmptyString
  end.

Fixpoint antenna_loop (antennas : list IfcCommunicationsAppliance)
    : option IfcCommunicationsAppliance :=
  match antennas with
  | [] => None
  | antenna :: rest =>
      if String.eqb (upper (predefined_of antenna)) "ANTENNA" then Some antenna
      else antenna_loop rest
  end.

(** [antennas] is [antenna_model.by_type("IfcCommunicationsAppliance")]. *)
Definition find_source_antenna (antennas : list IfcCommunicationsAppliance)
    : result IfcCommunicationsAppliance :=
  match antennas with
  | [] => Raise NoAntennaError
  | first :: _ =>
      match antenna_loop antennas with
      | Some antenna => Ok antenna
      | None => Ok first
      end
  end.

(** Case-insensitive comparison: equality after case folding. *)
Definition equal_ignoring_case (s t : string) : bool :=
  String.eqb (lower s) (lower t).

Definition is_antenna (a : IfcCommunicationsAppliance) : bool :=
  match PredefinedType a with
  | Some s => equal_ignoring_case s "ANTENNA"
  | None => false
  end.

(* ================================================================== *)
(** * Placement solver, as the specification words it *)

Section PlacementSpec.
Context {F : Type} {SF : Scalar F}.

Definition vec3 : Type := (F * F * F)%type.

Definition as_array (v : vec3) : list F := let '(x, y, z) := v in [x; y; z].

Definition as_vec3 (l : list F) : option vec3 :=
  match l with
  | [x; y; z] => Some (x, y, z)
  | _ => None
  end.

Definition v_z (v : vec3) : F := snd v.

Definition v_sub (a b : vec3) : vec3 :=
  let '(a0, a1, a2) := a in let '(b0, b1, b2) := b in
  (fsub a0 b0, fsub a1 b1, fsub a2 b2).

Definition v_add (a b : vec3) : vec3 :=
  let '(a0, a1, a2) := a in let '(b0, b1, b2) := b in
  (fadd a0 b0, fadd a1 b1, fadd a2 b2).

(** [s·v], and [v·s] with the scalar on the right. *)
Definition v_scale (s : F) (v : vec3) : vec3 :=
  let '(x, y, z) := v in (fmul s x, fmul s y, fmul s z).

Definition v_times (v : vec3) (s : F) : vec3 :=
  let '(x, y, z) := v in (fmul x s, fmul y s, fmul z s).

Definition v_cross (a b : vec3) : vec3 :=
  let '(a0, a1, a2) := a in let '(b0, b1, b2) := b in
  (fsub (fmul a1 b2) (fmul a2 b1),
   fsub (fmul a2 b0) (fmul a0 b2),
   fsub (fmul a0 b1) (fmul a1 b0)).

Definition v_norm (v : vec3) : F := np.linalg_norm (as_array v).

(** [normalize(v)]: the degenerate-vector error below ε, else v/‖v‖. *)
Definition v_normalize (v : vec3) : result vec3 :=
  if fltb (v_norm v) EPS then Raise DegenerateVectorError
  else let '(x, y, z) := v in
       Ok (fdiv x (v_norm v), fdiv y (v_norm v), fdiv z (v_norm v)).

Definition globalUp : vec3 := (f_zero, f_zero, f_one).
Definition worldX : vec3 := (f_one, f_zero, f_zero).

Record Candidate : Type := {
  member : IfcColumn (F:=F);
  p_first : vec3;
  p_last : vec3;
  center : vec3;
  insertionPoint : vec3;
  unit_direction : vec3;
  radialOffset : F
}.

(** Mid-wall when both radii are positive and inner < outer; else half the
    outer radius when it is positive; else 0. *)
Definition radial_offset_rule (outer inner : F) : F :=
  if fltb f_zero outer
  then if fltb f_zero inner && fltb inner outer
       then fmul (fadd outer inner) f_half
       else fmul outer f_half
  else f_zero.

(** Steps 1 to 6 for one member: [Ok None] when it is skipped. *)
Definition candidate_of (targetHeight : F) (m : IfcColumn) : result (option Candidate) :=
  match axisEndpoints m with
  | Raise _ => Ok None
  | Ok (a, b) =>
      match as_vec3 a, as_vec3 b with
      | Some p0, Some p1 =>
          let delta := v_sub p1 p0 in
          if fltb (fabs (v_z delta)) EPS then Ok None
          else
            let t := fdiv (fsub targetHeight (v_z p0)) (v_z delta) in
            if fltb t f_zero || fltb f_one t then Ok None
            else
              dir <- v_normalize delta ;;
              let c := v_add p0 (v_scale t delta) in
              let primary := v_cross globalUp dir in
              radial <- v_normalize (if fltb (v_norm primary) EPS
                                     then v_cross worldX dir
                                     else primary) ;;
              let offset := radial_offset_rule (fst (get_column_profile_info m))
                                               (snd (get_column_profile_info m)) in
              Ok (Some {| member := m;
                          p_first := p0;
                          p_last := p1;
                          center := c;
                          insertionPoint := v_add c (v_times radial offset);
                          unit_direction := dir;
                          radialOffset := offset |})
      | _, _ => Raise NumpyShapeError
      end
  end.

(** The candidates of the members, in model iteration order. *)
Fixpoint candidates_of (targetHeight : F) (members : list IfcColumn)
    : result (list Candidate) :=
  match members with
  | [] => Ok []
  | m :: rest =>
      c <- candidate_of targetHeight m ;;
      cs <- candidates_of targetHeight rest ;;
      Ok (match c with Some x => x :: cs | None => cs end)
  end.

Definition placementSolver (members : list IfcColumn) (targetHeight : F)
    (index : Z) : result Candidate :=
  cs <- candidates_of targetHeight members ;;
  if Nat.eqb (List.length cs) 0 then Raise NoCandidateError
  else if (0 <=? index)%Z && (index <? Z.of_nat (List.length cs))%Z
       then match nth_error cs (Z.to_nat index) with
            | Some c => Ok c
            | None => Raise InvalidIndexError
            end
       else Raise InvalidIndexError.

Definition to_LegPlacement (c : Candidate) : LegPlacement :=
  {| leg := member c;
     axis_start := as_array (p_first c);
     axis_end := as_array (p_last c);
     center_at_height := as_array (center c);
     insertion_point := as_array (insertionPoint c);
     direction := as_array (unit_direction c);
     radial_offset := radialOffset c |}.

(** Every axis the extractor returns has two points of three coordinates. *)
Definition axes_3d (columns : list IfcColumn) : bool :=
  forallb (fun c => match get_column_axis_points c with
                    | Ok (a, b) => Nat.eqb (List.length a) 3 && Nat.eqb (List.length b) 3
                    | Raise _ => true
                    end) columns.

(** The coordinate lists a curve item holds, before any padding. *)
Definition raw_points (e : representation_item) : list (list F) :=
  match e with
  | CurveItem (IfcIndexedPolyCurve coord_list) => coord_list
  | CurveItem (IfcPolyline pts) => pts
  | _ => []
  end.

(** Every point of every curve item of the members' types has two or three
    coordinates. *)
Definition planar_or_spatial (p : list F) : bool :=
  Nat.eqb (List.length p) 2 || Nat.eqb (List.length p) 3.

Definition points_2d_or_3d (columns : list IfcColumn) : bool :=
  forallb (fun c =>
    forallb (fun t =>
      forallb (fun rm =>
        forallb (fun e => forallb planar_or_spatial (raw_points e))
                (Items (MappedRepresentation rm)))
        (match RepresentationMaps t with Some maps => maps | None => [] end))
      (IsTypedBy c)) columns.

End PlacementSpec.

Definition map_result {A B : Type} (f : A -> B) (r : result A) : result B :=
  match r with
  | Ok a => Ok (f a)
  | Raise e => Raise e
  end.

(** A member whose axis is so long that the square of its length exceeds
    the binary64 range. *)
Definition overflow_column : IfcColumn :=
  column_with 11 [0; 0; 0]%float [0; 0; 1e200]%float None.

(* ================================================================== *)
(** * The model graph *)

(** An entity's handle: its numeric id inside its own model. *)
Abbreviation handle := nat (only parsing).

(** An attribute value: unset, a scalar, a reference, or a list of
    references. *)
Inductive value : Type :=
| VNull
| VStr (s : string)
| VInt (z : Z)
| VRef (h : handle)
| VRefs (hs : list handle).

Record entity : Type := {
  ifc_class : string;
  attributes : list (string * value)
}.

(** A model: its entities by handle, in the order the model yields them. *)
Definition file : Type := list (handle * entity).

(** The schema's subtype test behind [entity.is_a(name)].  The schema is
    not part of the repository; the code is modelled for any schema. *)
Class Schema : Type := {
  is_subtype : string -> string -> bool;
  is_subtype_refl : forall c, is_subtype c c = true
}.

(** [ifcopenshell.guid.new()]: the [n]-th identifier the generator hands
    out in a run. *)
Class GuidSource : Type := {
  guid_of_call : nat -> string
}.

Section Model.
Context {schema : Schema}.

(** [entity.is_a(name)]. *)
Definition is_a (e : entity) (name : string) : bool :=
  is_subtype (ifc_class e) name.

(** [entity.<name>]: the value of an attribute, unset when the entity
    does not hold it. *)
Definition get_attr (e : entity) (name : string) : value :=
  match find (fun a => String.eqb (fst a) name) (attributes e) with
  | Some a => snd a
  | None => VNull
  end.

(** [entity.<name> = v]. *)
Fixpoint assign (attrs : list (string * value)) (name : string) (v : value)
    : list (string * value) :=
  match attrs with
  | [] => [(name, v)]
  | a :: rest =>
      if String.eqb (fst a) name then (name, v) :: rest
      else a :: assign rest name v
  end.

Definition set_attr (e : entity) (name : string) (v : value) : entity :=
  {| ifc_class := ifc_class e; attributes := assign (attributes e) name v |}.

(** Modelled from the spec: [entityByHandle(model, handle)], which the
    code calls as [model.by_id]; the code tests its result for truth, so a
    missing handle is [None]. *)
Definition by_id (model : file) (h : handle) : option entity :=
  match find (fun p => Nat.eqb (fst p) h) model with
  | Some p => Some (snd p)
  | None => None
  end.

(** Modelled from the spec: [entitiesOfType(model, typeName)], the handles
    of the entities of a class or of one of its subclasses, in the order of
    the list [model].  The library yields them by ascending id; the list of
    a model is read in that order where the order of the result matters. *)
Definition by_type (model : file) (name : string) : list handle :=
  map fst (filter (fun p => is_a (snd p) name) model).

Definition value_refers (h : handle) (v : value) : bool :=
  match v with
  | VRef r => Nat.eqb r h
  | VRefs rs => existsb (Nat.eqb h) rs
  | _ => false
  end.

Definition refers_to (h : handle) (e : entity) : bool :=
  existsb (fun a => value_refers h (snd a)) (attributes e).

(** Modelled from the spec: [getInverseReferences(model, entity)], the
    entities that hold a forward reference to [h], from a scan of the model. *)
Definition get_inverse (model : file) (h : handle) : list handle :=
  map fst (filter (fun p => refers_to h (snd p)) model).

Definition detach_value (h : handle) (v : value) : value :=
  match v with
  | VRef r => if Nat.eqb r h then VNull else v
  | VRefs rs => VRefs (filter (fun r => negb (Nat.eqb r h)) rs)
  | _ => v
  end.

Definition detach (h : handle) (e : entity) : entity :=
  {| ifc_class := ifc_class e;
     attributes := map (fun a => (fst a, detach_value h (snd a))) (attributes e) |}.

(** Modelled from the spec: [removeEntity(model, entity)].  The library
    deletes the instance, unsets the attributes that referenced it and
    drops it from the reference lists that held it. *)
Definition remove (model : file) (h : handle) : file :=
  map (fun p => (fst p, detach h (snd p)))
      (filter (fun p => negb (Nat.eqb (fst p) h)) model).

Definition fresh_handle (model : file) : handle :=
  S (list_max (map fst model)).

(** Modelled from the spec: [createEntity(model, typeName, attributes)];
    the new entity takes the next free handle and comes last. *)
Definition create_entity (model : file) (name : string)
    (attrs : list (string * value)) : handle * file :=
  (fresh_handle model,
   model ++ [(fresh_handle model, {| ifc_class := name; attributes := attrs |})]).

(** In-place mutation of the entity with handle [h]. *)
Definition update (model : file) (h : handle) (f : entity -> entity) : file :=
  map (fun p => if Nat.eqb (fst p) h then (fst p, f (snd p)) else p) model.

Definition first_owner_history (model : file) : option handle :=
  match by_type model "IfcOwnerHistory" with
  | h :: _ => Some h
  | [] => None
  end.

(** A reference-valued attribute of the entity with handle [h]; [None]
    when the entity is missing or the attribute is not a reference. *)
Definition ref_attr (model : file) (h : handle) (name : string) : option handle :=
  match by_id model h with
  | Some e => match get_attr e name with
              | VRef r => Some r
              | _ => None
              end
  | None => None
  end.

End Model.

(* ================================================================== *)
(** * The insertion session *)

(** One call of [target_model.remove]: the entity removed, the part it
    plays in the owner-history chain, and what [get_inverse] gave for it in
    the model the call was made on. *)
Inductive chain_role : Type :=
| HistoryRecord
| ApplicationRecord
| UserRecord
| PersonRecord
| OrganizationRecord.

Record removal : Type := {
  removed_entity : handle;
  removed_as : chain_role;
  referrers_then : list handle
}.

(** The state the pipeline threads: the target model, the migrator's
    [migrated_ids] dictionary (source handle to target handle, in insertion
    order), the number of identifiers drawn so far, and two histories kept
    for the proofs: the clones the migrator created and the removals made. *)
Record session : Type := {
  model : file;
  migrated_ids : list (handle * handle);
  guid_calls : nat;
  cloned : list (handle * handle);
  removals : list removal
}.

Definition with_model (s : session) (m : file) : session :=
  {| model := m;
     migrated_ids := migrated_ids s;
     guid_calls := guid_calls s;
     cloned := cloned s;
     removals := removals s |}.

Section Rewiring.
Context {schema : Schema} {guid : GuidSource}.

(** [ifcopenshell.guid.new()]. *)
Definition guid_new (s : session) : string * session :=
  (guid_of_call (guid_calls s),
   {| model := model s;
      migrated_ids := migrated_ids s;
      guid_calls := S (guid_calls s);
      cloned := cloned s;
      removals := removals s |}).

(** [first_owner_history(model) or entity.OwnerHistory]. *)
Definition owner_history_or (m : file) (h : handle) : value :=
  match first_owner_history m with
  | Some oh => VRef oh
  | None => match by_id m h with
            | Some e => get_attr e "OwnerHistory"
            | None => VNull
            end
  end.

Definition relates_structure (container : handle) (e : entity) : bool :=
  is_a e "IfcRelContainedInSpatialStructure"
  && match get_attr e "RelatingStructure" with
     | VRef c => Nat.eqb c container
     | _ => false
     end.

(** The inverse attribute [container.ContainsElements]. *)
Definition ContainsElements (m : file) (container : handle) : list handle :=
  map fst (filter (fun p => relates_structure container (snd p)) m).

(** [list(relation.RelatedElements or [])]. *)
Definition RelatedElements (m : file) (relation : handle) : list handle :=
  match by_id m relation with
  | Some e => match get_attr e "RelatedElements" with
              | VRefs l => l
              | _ => []
              end
  | None => []
  end.

Definition attach_to_container (s : session) (container product : handle) : session :=
  match ContainsElements (model s) container with
  | relation :: _ =>
      let current := RelatedElements (model s) relation in
      if existsb (Nat.eqb product) current then s
      else with_model s
             (update (model s) relation
                     (fun e => set_attr e "RelatedElements" (VRefs (current ++ [product]))))
  | [] =>
      let owner_history := owner_history_or (model s) product in
      let (g, s1) := guid_new s in
      with_model s1
        (snd (create_entity (model s1) "IfcRelContainedInSpatialStructure"
                [("GlobalId", VStr g);
                 ("OwnerHistory", owner_history);
                 ("Name", VNull);
                 ("Description", VNull);
                 ("RelatedElements", VRefs [product]);
                 ("RelatingStructure", VRef container)]))
  end.

(** The related-elements list of the container: that of its first
    containment relation. *)
Definition container_elements (m : file) (container : handle) : list handle :=
  match ContainsElements m container with
  | relation :: _ => RelatedElements m relation
  | [] => []
  end.

End Rewiring.

(* ================================================================== *)
(** * A concrete schema fragment, identifier source and models *)

(** The supertype of each IFC4 class that the examples use. *)
Definition ifc4_supertype (c : string) : option string :=
  if String.eqb c "IfcColumn" then Some "IfcBuildingElement"
  else if String.eqb c "IfcBuildingElement" then Some "IfcElement"
  else if String.eqb c "IfcCommunicationsAppliance" then Some "IfcFlowTerminal"
  else if String.eqb c "IfcFlowTerminal" then Some "IfcDistributionFlowElement"
  else if String.eqb c "IfcDistributionFlowElement" then Some "IfcDistributionElement"
  else if String.eqb c "IfcDistributionElement" then Some "IfcElement"
  else if String.eqb c "IfcElement" then Some "IfcProduct"
  else if String.eqb c "IfcBuildingStorey" then Some "IfcSpatialStructureElement"
  else if String.eqb c "IfcSpatialStructureElement" then Some "IfcSpatialElement"
  else if String.eqb c "IfcSpatialElement" then Some "IfcProduct"
  else if String.eqb c "IfcProduct" then Some "IfcObject"
  else if String.eqb c "IfcObject" then Some "IfcObjectDefinition"
  else if String.eqb c "IfcCommunicationsApplianceType" then Some "IfcFlowTerminalType"
  else if String.eqb c "IfcFlowTerminalType" then Some "IfcDistributionFlowElementType"
  else if String.eqb c "IfcDistributionFlowElementType" then Some "IfcDistributionElementType"
  else if String.eqb c "IfcDistributionElementType" then Some "IfcElementType"
  else if String.eqb c "IfcElementType" then Some "IfcTypeProduct"
  else if String.eqb c "IfcTypeProduct" then Some "IfcTypeObject"
  else if String.eqb c "IfcTypeObject" then Some "IfcObjectDefinition"
  else if String.eqb c "IfcObjectDefinition" then Some "IfcRoot"
  else if String.eqb c "IfcRelDefinesByType" then Some "IfcRelDefines"
  else if String.eqb c "IfcRelDefinesByProperties" then Some "IfcRelDefines"
  else if String.eqb c "IfcRelDefines" then Some "IfcRelationship"
  else if String.eqb c "IfcRelAssociatesMaterial" then Some "IfcRelAssociates"
  else if String.eqb c "IfcRelAssociates" then Some "IfcRelationship"
  else if String.eqb c "IfcRelContainedInSpatialStructure" then Some "IfcRelConnects"
  else if String.eqb c "IfcRelConnects" then Some "IfcRelationship"
  else if String.eqb c "IfcRelationship" then Some "IfcRoot"
  else if String.eqb c "IfcPropertySet" then Some "IfcPropertySetDefinition"
  else if String.eqb c "IfcPropertySetDefinition" then Some "IfcPropertyDefinition"
  else if String.eqb c "IfcPropertyDefinition" then Some "IfcRoot"
  else None.

Fixpoint ifc4_is_subtype_within (depth : nat) (c name : string) : bool :=
  String.eqb c name
  || match depth with
     | 0 => false
     | S d => match ifc4_supertype c with
              | Some parent => ifc4_is_subtype_within d parent name
              | None => false
              end
     end.

#[export] Instance ifc4_fragment : Schema := {
  is_subtype := ifc4_is_subtype_within 12;
  is_subtype_refl := fun c =>
    f_equal (fun b : bool =>
               b || match ifc4_supertype c with
                    | Some parent => ifc4_is_subtype_within 11 parent c
                    | None => false
                    end)
            (String.eqb_refl c)
}.

(** An identifier source that never repeats: the [n]-th identifier is
    a tag followed by [n] strokes. *)
Fixpoint strokes (n : nat) : string :=
  match n with
  | 0 => EmptyString
  | S k => String "I" (strokes k)
  end.

#[export] Instance stroke_guids : GuidSource := {
  guid_of_call := fun n => String "$" (strokes n)
}.

Definition mk_entity (name : string) (attrs : list (string * value)) : entity :=
  {| ifc_class := name; attributes := attrs |}.

(** A segment model: a storey, a column, the owner-history chain, and the
    containment of the column in the storey. *)
Definition segment_example : file :=
  [ (1, mk_entity "IfcPerson" []);
    (2, mk_entity "IfcOrganization" []);
    (3, mk_entity "IfcPersonAndOrganization"
          [("ThePerson", VRef 1); ("TheOrganization", VRef 2)]);
    (4, mk_entity "IfcApplication" [("ApplicationDeveloper", VRef 2)]);
    (5, mk_entity "IfcOwnerHistory"
          [("OwningUser", VRef 3); ("OwningApplication", VRef 4)]);
    (6, mk_entity "IfcBuildingStorey"
          [("GlobalId", VStr "storey"); ("OwnerHistory", VRef 5)]);
    (7, mk_entity "IfcColumn"
          [("GlobalId", VStr "column"); ("OwnerHistory", VRef 5)]);
    (8, mk_entity "IfcRelContainedInSpatialStructure"
          [("GlobalId", VStr "containment"); ("OwnerHistory", VRef 5);
           ("RelatedElements", VRefs [7]); ("RelatingStructure", VRef 6)]) ].

Definition session_of (m : file) : session :=
  {| model := m; migrated_ids := []; guid_calls := 0; cloned := []; removals := [] |}.

(* ================================================================== *)
(** * Identifier refresh and owner-history harmonisation *)

Section Harmonizing.
Context {schema : Schema} {guid : GuidSource}.

(** The loop of [refresh_migrated_root_guids] over
    [migrator.migrated_ids.values()]. *)
Fixpoint refresh_loop (target_ids : list handle) (s : session) : session :=
  match target_ids with
  | [] => s
  | target_id :: rest =>
      match by_id (model s) target_id with
      | Some entity =>
          if is_a entity "IfcRoot"
          then let (g, s1) := guid_new s in
               refresh_loop rest
                 (with_model s1
                    (update (model s1) target_id
                            (fun e => set_attr e "GlobalId" (VStr g))))
          else refresh_loop rest s
      | None => refresh_loop rest s
      end
  end.

Definition refresh_migrated_root_guids (s : session) : session :=
  refresh_loop (map snd (migrated_ids s)) s.

(** [target_model.remove(entity)], entered in the history of removals. *)
Definition model_remove (role : chain_role) (h : handle) (s : session) : session :=
  {| model := remove (model s) h;
     migrated_ids := migrated_ids s;
     guid_calls := guid_calls s;
     cloned := cloned s;
     removals := removals s ++
                 [{| removed_entity := h;
                     removed_as := role;
                     referrers_then := get_inverse (model s) h |}] |}.

(** [remove_if_orphan(model, entity)]; [role] only labels the entry in the
    history of removals. *)
Definition remove_if_orphan (role : chain_role) (s : session)
    (entity : option handle) : session :=
  match entity with
  | None => s
  | Some h =>
      match get_inverse (model s) h with
      | _ :: _ => s
      | [] => model_remove role h s
      end
  end.

(** [set.add]. *)
Definition set_add (members : list handle) (h : handle) : list handle :=
  if existsb (Nat.eqb h) members then members else members ++ [h].

(** The first loop: the manifest's target ids that the model resolves. *)
Definition migrated_entities (s : session) : list handle :=
  filter (fun target_id => match by_id (model s) target_id with
                           | Some _ => true
                           | None => false
                           end)
         (map snd (migrated_ids s)).

(** The second loop: collects the obsolete owner histories and points every
    migrated root entity to the target's record. *)
Fixpoint retarget_loop (target_owner_history : handle) (entities : list handle)
    (m : file) (migrated_owner_histories : list handle) : file * list handle :=
  match entities with
  | [] => (m, migrated_owner_histories)
  | entity :: rest =>
      match by_id m entity with
      | None => retarget_loop target_owner_history rest m migrated_owner_histories
      | Some e =>
          let histories1 :=
            if is_a e "IfcOwnerHistory"
            then set_add migrated_owner_histories entity
            else migrated_owner_histories in
          if is_a e "IfcRoot"
          then
            let histories2 :=
              match get_attr e "OwnerHistory" with
              | VRef owner_history =>
                  if negb (Nat.eqb owner_history target_owner_history)
                  then set_add histories1 owner_history
                  else histories1
              | _ => histories1
              end in
            retarget_loop target_owner_history rest
              (update m entity
                      (fun x => set_attr x "OwnerHistory" (VRef target_owner_history)))
              histories2
          else retarget_loop target_owner_history rest m histories1
      end
  end.

(** The body of the third loop, for one collected owner history. *)
Definition remove_obsolete (target_owner_history : handle) (s : session)
    (owner_history : handle) : session :=
  if Nat.eqb owner_history target_owner_history then s
  else
    match get_inverse (model s) owner_history with
    | _ :: _ => s
    | [] =>
        let owning_application := ref_attr (model s) owner_history "OwningApplication" in
        let owning_user := ref_attr (model s) owner_history "OwningUser" in
        let person := match owning_user with
                      | Some u => ref_attr (model s) u "ThePerson"
                      | None => None
                      end in
        let organization := match owning_user with
                            | Some u => ref_attr (model s) u "TheOrganization"
                            | None => None
                            end in
        let s1 := model_remove HistoryRecord owner_history s in
        let s2 := remove_if_orphan ApplicationRecord s1 owning_application in
        let s3 := remove_if_orphan UserRecord s2 owning_user in
        let s4 := remove_if_orphan PersonRecord s3 person in
        remove_if_orphan OrganizationRecord s4 organization
    end.

(** [iteration] is the order in which Python iterates over the set
    [migrated_owner_histories]; the language leaves it open, so it is a
    parameter. *)
Definition harmonize_migrated_owner_history
    (iteration : list handle -> list handle) (s : session)
    (target_owner_history : option handle) : session :=
  match target_owner_history with
  | None => s
  | Some toh =>
      let (m1, migrated_owner_histories) :=
        retarget_loop toh (migrated_entities s) (model s) [] in
      fold_left (remove_obsolete toh) (iteration migrated_owner_histories)
                (with_model s m1)
  end.

(** No entity names [h] as application, user, person or organization. *)
Definition chain_attributes : list string :=
  ["OwningApplication"; "OwningUser"; "ThePerson"; "TheOrganization"].

Definition names_in_chain (h : handle) (e : entity) : bool :=
  existsb (fun name => match get_attr e name with
                       | VRef r => Nat.eqb r h
                       | _ => false
                       end) chain_attributes.

Definition outside_chain (m : file) (h : handle) : bool :=
  forallb (fun p => negb (names_in_chain h (snd p))) m.

Definition role_rank (r : chain_role) : nat :=
  match r with
  | HistoryRecord => 0
  | ApplicationRecord => 1
  | UserRecord => 2
  | PersonRecord => 3
  | OrganizationRecord => 4
  end.

(** A sequence of removals is a sequence of cascades: each starts with an
    owner-history record and goes on by strictly increasing rank. *)
Fixpoint cascade_from (previous : nat) (roles : list chain_role) : bool :=
  match roles with
  | [] => true
  | r :: rest =>
      (Nat.eqb (role_rank r) 0 || Nat.ltb previous (role_rank r))
      && cascade_from (role_rank r) rest
  end.

Definition cascade_ordered (roles : list chain_role) : bool :=
  match roles with
  | [] => true
  | r :: rest => Nat.eqb (role_rank r) 0 && cascade_from 0 rest
  end.

(** The chain of an owner-history record in a model: the record, and the
    application, user, person and organization it leads to. *)
Definition chain_of (m : file) (owner_history : handle)
    : list (chain_role * option handle) :=
  let owning_user := ref_attr m owner_history "OwningUser" in
  [ (HistoryRecord, Some owner_history);
    (ApplicationRecord, ref_attr m owner_history "OwningApplication");
    (UserRecord, owning_user);
    (PersonRecord, match owning_user with
                   | Some u => ref_attr m u "ThePerson"
                   | None => None
                   end);
    (OrganizationRecord, match owning_user with
                         | Some u => ref_attr m u "TheOrganization"
                         | None => None
                         end) ].

Definition in_chain (m : file) (owner_history : handle) (ev : removal) : Prop :=
  In (removed_as ev, Some (removed_entity ev)) (chain_of m owner_history).

(** The target's record is in the model and nothing names it in a chain. *)
Definition keeps_record (toh : handle) (m : file) : Prop :=
  by_id m toh <> None /\ outside_chain m toh = true.

(** Removals of entities that had no referrer when they were removed. *)
Definition orphan_removals (evs : list removal) : Prop :=
  Forall (fun ev => referrers_then ev = []) evs.

End Harmonizing.

(** The segment model after a migration: the clone of the antenna (9) with
    the owner history copied from the donor (10) and its chain (11 to 14). *)
Definition migrated_example : session :=
  {| model := segment_example ++
       [ (9, mk_entity "IfcCommunicationsAppliance"
               [("GlobalId", VStr "donor-antenna"); ("OwnerHistory", VRef 10)]);
         (10, mk_entity "IfcOwnerHistory"
               [("OwningUser", VRef 12); ("OwningApplication", VRef 11)]);
         (11, mk_entity "IfcApplication" [("ApplicationDeveloper", VRef 14)]);
         (12, mk_entity "IfcPersonAndOrganization"
               [("ThePerson", VRef 13); ("TheOrganization", VRef 14)]);
         (13, mk_entity "IfcPerson" []);
         (14, mk_entity "IfcOrganization" []) ];
     migrated_ids := [(14, 14); (21, 11); (13, 13); (22, 12); (23, 10); (20, 9)];
     guid_calls := 0;
     cloned := [];
     removals := [] |}.

(* ================================================================== *)
(** * Global identifiers of a model *)

Section Identifiers.
Context {schema : Schema}.

Definition is_root (m : file) (h : handle) : bool :=
  match by_id m h with
  | Some e => is_a e "IfcRoot"
  | None => false
  end.

Definition global_id (m : file) (h : handle) : value :=
  match by_id m h with
  | Some e => get_attr e "GlobalId"
  | None => VNull
  end.

(** The identifiers held anywhere in a model. *)
Definition global_ids (m : file) : list value :=
  map (fun p => get_attr (snd p) "GlobalId") m.

(** The number of the identifier that the refresh loop leaves on [h]:
    that of the last visit of [h] among the root entities of [target_ids],
    when the first identifier drawn has number [n]. *)
Fixpoint stamp_of (m : file) (target_ids : list handle) (n : nat) (h : handle)
    : option nat :=
  match target_ids with
  | [] => None
  | t :: rest =>
      if is_root m t
      then match stamp_of m rest (S n) h with
           | Some k => Some k
           | None => if Nat.eqb t h then Some n else None
           end
      else stamp_of m rest n h
  end.

End Identifiers.

(** A donor model: the antenna (20) with its owner-history chain, its type
    (30), a material (40) shared by two association relations, a property
    set (50) and the four relations that point at the antenna. *)
Definition donor_example : file :=
  [ (13, mk_entity "IfcPerson" []);
    (14, mk_entity "IfcOrganization" []);
    (22, mk_entity "IfcPersonAndOrganization"
           [("ThePerson", VRef 13); ("TheOrganization", VRef 14)]);
    (21, mk_entity "IfcApplication" [("ApplicationDeveloper", VRef 14)]);
    (23, mk_entity "IfcOwnerHistory"
           [("OwningUser", VRef 22); ("OwningApplication", VRef 21)]);
    (20, mk_entity "IfcCommunicationsAppliance"
           [("GlobalId", VStr "donor-antenna"); ("OwnerHistory", VRef 23);
            ("PredefinedType", VStr "ANTENNA")]);
    (30, mk_entity "IfcCommunicationsApplianceType"
           [("GlobalId", VStr "donor-type"); ("OwnerHistory", VRef 23)]);
    (40, mk_entity "IfcMaterial" [("Name", VStr "steel")]);
    (50, mk_entity "IfcPropertySet"
           [("GlobalId", VStr "donor-pset"); ("OwnerHistory", VRef 23)]);
    (60, mk_entity "IfcRelDefinesByType"
           [("GlobalId", VStr "donor-typing"); ("OwnerHistory", VRef 23);
            ("RelatedObjects", VRefs [20]); ("RelatingType", VRef 30)]);
    (61, mk_entity "IfcRelDefinesByProperties"
           [("GlobalId", VStr "donor-properties"); ("OwnerHistory", VRef 23);
            ("RelatedObjects", VRefs [20]); ("RelatingPropertyDefinition", VRef 50)]);
    (62, mk_entity "IfcRelAssociatesMaterial"
           [("GlobalId", VStr "donor-material-1"); ("OwnerHistory", VRef 23);
            ("RelatedObjects", VRefs [20]); ("RelatingMaterial", VRef 40)]);
    (63, mk_entity "IfcRelAssociatesMaterial"
           [("GlobalId", VStr "donor-material-2"); ("OwnerHistory", VRef 23);
            ("RelatedObjects", VRefs [20; 30]); ("RelatingMaterial", VRef 40)]) ].

(* ================================================================== *)
(** * The command-line tool *)

Section CommandLine.
Context {F : Type} {SF : Scalar F}.

(** [argparse.Namespace]: the parsed arguments. *)
Record Namespace : Type := {
  segment_ifc : string;
  antenna_ifc : string;
  output_ifc : string;
  height_m : F;
  azimuth_deg : F;
  leg_index : Z
}.

(** What [main] consults outside its arguments: which paths exist, the
    columns of the opened segment model, its unit scale, and the rest of
    the pipeline after the placement (donor selection, migration, frame
    construction, rewiring, refresh, harmonisation, write), which either
    completes or raises. *)
Record Environment : Type := {
  path_exists : string -> bool;
  segment_columns : list (IfcColumn (F:=F));
  unit_scale_to_si : F;
  insert_and_write : LegPlacement (F:=F) -> result unit
}.

(** How a call of [main] ends: with a returned status or with an
    exception that nothing catches. *)
Inductive outcome : Type :=
| Returned (status : Z)
| Uncaught (e : exn).

Definition main (env : Environment) (args : Namespace) : outcome :=
  if negb (path_exists env (segment_ifc args)) then Returned 2
  else if negb (path_exists env (antenna_ifc args)) then Returned 2
  else if fleb (height_m args) f_zero then Returned 2
  else if feqb (unit_scale_to_si env) f_zero then Uncaught ZeroDivisionError
  else
    let target_height_units := fdiv (height_m args) (unit_scale_to_si env) in
    match compute_leg_placement (segment_columns env) target_height_units
                                (leg_index args) with
    | Raise e => Uncaught e
    | Ok leg_placement =>
        match ContainedInStructure (leg leg_placement) with
        | [] => Returned 2
        | _ :: _ =>
            match insert_and_write env leg_placement with
            | Raise e => Uncaught e
            | Ok _ => Returned 0
            end
        end
    end.

(** [sys.exit(main())]: the returned status, or 1 when the interpreter ends
    on an uncaught exception. *)
Definition exit_code (o : outcome) : Z :=
  match o with
  | Returned status => status
  | Uncaught _ => 1
  end.

(** The checks [main] makes itself before it calls the solver, and the
    division by the unit scale going through. *)
Definition inputs_accepted (env : Environment) (args : Namespace) : bool :=
  path_exists env (segment_ifc args)
  && path_exists env (antenna_ifc args)
  && negb (fleb (height_m args) f_zero)
  && negb (feqb (unit_scale_to_si env) f_zero).

End CommandLine.

(** A run on the scenario model in which every file exists and the rest of
    the pipeline succeeds. *)
Definition scenario_environment : Environment :=
  {| path_exists := fun _ => true;
     segment_columns := [scenario_column];
     unit_scale_to_si := 1%float;
     insert_and_write := fun _ => Ok tt |}.

Definition scenario_arguments (index : Z) : Namespace :=
  {| segment_ifc := "SEGMENT.ifc";
     antenna_ifc := "ANTENA.ifc";
     output_ifc := "SEGMENT_WITH_ANTENNA.ifc";
     height_m := 3%float;
     azimuth_deg := 123%float;
     leg_index := index |}.

(* ================================================================== *)
(** * The migrator and the relationship rewirer *)

(** Computations on the session that may fail: a Python exception, or the
    recursion bound of [migrate] reached. *)
Definition M (A : Type) : Type := session -> option (A * session).

Definition ret {A : Type} (a : A) : M A := fun s => Some (a, s).

Definition fail {A : Type} : M A := fun _ => None.

Definition mbind {A B : Type} (c : M A) (k : A -> M B) : M B :=
  fun s => match c s with
           | Some (a, s') => k a s'
           | None => None
           end.

Notation "x <~ c ;; k" := (mbind c (fun x => k))
  (at level 61, c at next level, right associativity).

(** A Python [dict] from handles to handles, in insertion order. *)
Fixpoint dict_get (d : list (handle * handle)) (k : handle) : option handle :=
  match d with
  | [] => None
  | (k', v) :: rest => if Nat.eqb k' k then Some v else dict_get rest k
  end.

Fixpoint dict_set (d : list (handle * handle)) (k v : handle)
    : list (handle * handle) :=
  match d with
  | [] => [(k, v)]
  | (k', v') :: rest =>
      if Nat.eqb k' k then (k, v) :: rest else (k', v') :: dict_set rest k v
  end.

Section Migration.
Context {schema : Schema} {guid : GuidSource}.

(** [setattr(target, name, v)] on an entity of the target model. *)
Definition set_target_attr (target : handle) (name : string) (v : value) : M unit :=
  fun s => Some (tt, with_model s (update (model s) target
                                          (fun e => set_attr e name v))).

(** The copy of attribute values, given the function that migrates one
    referenced entity. *)
Section Migrator.
Variable migrate_entity : handle -> M handle.

Fixpoint migrate_refs (hs : list handle) : M (list handle) :=
  match hs with
  | [] => ret []
  | h :: rest =>
      t <~ migrate_entity h ;;
      ts <~ migrate_refs rest ;;
      ret (t :: ts)
  end.

(** A reference is replaced by the clone of what it points at; a scalar is
    copied by value. *)
Definition migrate_value (v : value) : M value :=
  match v with
  | VRef h => t <~ migrate_entity h ;; ret (VRef t)
  | VRefs hs => ts <~ migrate_refs hs ;; ret (VRefs ts)
  | _ => ret v
  end.

Fixpoint migrate_attributes (target : handle) (attrs : list (string * value))
    : M unit :=
  match attrs with
  | [] => ret tt
  | a :: rest =>
      v <~ migrate_value (snd a) ;;
      _ <~ set_target_attr target (fst a) v ;;
      migrate_attributes target rest
  end.

End Migrator.

(** Modelled from the spec: the Object Graph Migrator's
    [migrate(rootEntity, targetModel)], which the repository takes from
    [ifcopenshell.util.schema.Migrator].  An entity already cloned in the
    session is answered from the identity cache, keyed by source handle;
    otherwise the clone is created, entered in the cache (so that shared
    and cyclic references reuse it), and its attributes are filled by
    recursive deep copy.  [fuel] bounds the depth of the recursion. *)
Fixpoint migrate (source : file) (fuel : nat) (element : handle) : M handle :=
  match fuel with
  | 0 => fail
  | S fuel' =>
      fun s =>
        match dict_get (migrated_ids s) element with
        | Some t => Some (t, s)
        | None =>
            match by_id source element with
            | None => None
            | Some e =>
                let (t, m1) := create_entity (model s) (ifc_class e) [] in
                let s1 := {| model := m1;
                             migrated_ids := dict_set (migrated_ids s) element t;
                             guid_calls := guid_calls s;
                             cloned := cloned s ++ [(element, t)];
                             removals := removals s |} in
                match migrate_attributes (migrate source fuel') t (attributes e) s1 with
                | Some (_, s2) => Some (t, s2)
                | None => None
                end
            end
        end
  end.

(** [target_model.create_entity(name, GlobalId=guid.new(),
    OwnerHistory=owner_history, Name=relation.Name,
    Description=relation.Description, ...)]. *)
Definition create_relation (name : string) (owner_history : value)
    (relation : entity) (links : list (string * value)) : M handle :=
  fun s =>
    let (g, s1) := guid_new s in
    let (h, m) := create_entity (model s1) name
                    ([("GlobalId", VStr g);
                      ("OwnerHistory", owner_history);
                      ("Name", get_attr relation "Name");
                      ("Description", get_attr relation "Description")] ++ links) in
    Some (h, with_model s1 m).

Section Rewirer.
Variable source_model : file.
Variable fuel : nat.
Variables source_antenna target_antenna : handle.

(** The loop over [relation.RelatedObjects] of a material association. *)
Fixpoint related_loop (objects : list handle) (related_objects : list handle)
    : M (list handle) :=
  match objects with
  | [] => ret related_objects
  | source_related :: rest =>
      if Nat.eqb source_related source_antenna
      then related_loop rest (related_objects ++ [target_antenna])
      else match by_id source_model source_related with
           | None => fail
           | Some e =>
               if is_a e "IfcTypeObject"
               then t <~ migrate source_model fuel source_related ;;
                    related_loop rest (related_objects ++ [t])
               else related_loop rest related_objects
           end
  end.

Definition refs_of (v : value) : list handle :=
  match v with
  | VRefs l => l
  | _ => []
  end.

(** The body of the loop over the inverse relations.  It yields the
    type cache and the relation it created, if any. *)
Definition rewire (owner_history : value) (migrated_type_cache : list (handle * handle))
    (relation : handle) : M (list (handle * handle) * option handle) :=
  match by_id source_model relation with
  | None => fail
  | Some rel =>
      if is_a rel "IfcRelDefinesByType" then
        match get_attr rel "RelatingType" with
        | VRef source_type =>
            cached <~ match dict_get migrated_type_cache source_type with
                      | Some target_type => ret (target_type, migrated_type_cache)
                      | None =>
                          target_type <~ migrate source_model fuel source_type ;;
                          ret (target_type,
                               dict_set migrated_type_cache source_type target_type)
                      end ;;
            h <~ create_relation "IfcRelDefinesByType" owner_history rel
                   [("RelatedObjects", VRefs [target_antenna]);
                    ("RelatingType", VRef (fst cached))] ;;
            ret (snd cached, Some h)
        | _ => fail
        end
      else if is_a rel "IfcRelDefinesByProperties" then
        match get_attr rel "RelatingPropertyDefinition" with
        | VRef source_pset =>
            target_pset <~ migrate source_model fuel source_pset ;;
            h <~ create_relation "IfcRelDefinesByProperties" owner_history rel
                   [("RelatedObjects", VRefs [target_antenna]);
                    ("RelatingPropertyDefinition", VRef target_pset)] ;;
            ret (migrated_type_cache, Some h)
        | _ => fail
        end
      else if is_a rel "IfcRelAssociatesMaterial" then
        match get_attr rel "RelatingMaterial" with
        | VRef source_material =>
            target_material <~ migrate source_model fuel source_material ;;
            related_objects <~ related_loop (refs_of (get_attr rel "RelatedObjects")) [] ;;
            match related_objects with
            | [] => ret (migrated_type_cache, None)
            | _ :: _ =>
                h <~ create_relation "IfcRelAssociatesMaterial" owner_history rel
                       [("RelatedObjects", VRefs related_objects);
                        ("RelatingMaterial", VRef target_material)] ;;
                ret (migrated_type_cache, Some h)
            end
        | _ => fail
        end
      else ret (migrated_type_cache, None)
  end.

(** The loop over [source_model.get_inverse(source_antenna)]; it yields
    each source relation with the relation created for it. *)
Fixpoint rewire_loop (owner_history : value)
    (migrated_type_cache : list (handle * handle)) (relations : list handle)
    : M (list (handle * handle)) :=
  match relations with
  | [] => ret []
  | relation :: rest =>
      r <~ rewire owner_history migrated_type_cache relation ;;
      rewired <~ rewire_loop owner_history (fst r) rest ;;
      ret (match snd r with
           | Some h => (relation, h) :: rewired
           | None => rewired
           end)
  end.

Definition rewire_relations : M (list (handle * handle)) :=
  fun s =>
    rewire_loop (owner_history_or (model s) target_antenna) []
                (get_inverse source_model source_antenna) s.

Definition copy_inverse_relations : M unit :=
  _ <~ rewire_relations ;; ret tt.

End Rewirer.

(** The material a source relation associates, when it is a material
    association that the loop treats as one. *)
Definition associated_material (source_model : file) (relation : handle)
    : option handle :=
  match by_id source_model relation with
  | Some rel =>
      if is_a rel "IfcRelDefinesByType" then None
      else if is_a rel "IfcRelDefinesByProperties" then None
      else if is_a rel "IfcRelAssociatesMaterial"
           then match get_attr rel "RelatingMaterial" with
                | VRef m => Some m
                | _ => None
                end
           else None
  | None => None
  end.

(** The clones that the migrator created for a source entity. *)
Definition clones_of (s : session) (source_entity : handle) : list handle :=
  map snd (filter (fun p => Nat.eqb (fst p) source_entity) (cloned s)).

(** The identity cache and the history of clones agree: every source
    entity was cloned at most once and the cache holds exactly the clones. *)
Definition cache_consistent (s : session) : Prop :=
  NoDup (map fst (cloned s))
  /\ forall k t, dict_get (migrated_ids s) k = Some t <-> In (k, t) (cloned s).

End Migration.

Section SessionOrder.
Context {schema : Schema}.

(** From [s] to [s'] the identity cache only gained entries, the entities
    of the model were left as they were, and the cache stayed consistent
    with the history of clones. *)
Definition grows (s s' : session) : Prop :=
  (forall k t, dict_get (migrated_ids s) k = Some t ->
               dict_get (migrated_ids s') k = Some t)
  /\ (forall h e, by_id (model s) h = Some e -> by_id (model s') h = Some e)
  /\ (cache_consistent s -> cache_consistent s').

(** The same, except that the entity [target] may have been written to. *)
Definition grows_around (target : handle) (s s' : session) : Prop :=
  (forall k t, dict_get (migrated_ids s) k = Some t ->
               dict_get (migrated_ids s') k = Some t)
  /\ (forall h e, h <> target -> by_id (model s) h = Some e ->
                  by_id (model s') h = Some e)
  /\ (cache_consistent s -> cache_consistent s').

(** What a pair of the rewirer's result stands for: the relation [r'] was
    created by the call, and when [r] associates a material, [r'] relates
    the clone that the identity cache holds for it. *)
Definition rewired_ok (source_model : file) (s s' : session) (r r' : handle) : Prop :=
  by_id (model s) r' = None
  /\ by_id (model s') r' <> None
  /\ forall m, associated_material source_model r = Some m ->
       exists t, dict_get (migrated_ids s') m = Some t
                 /\ ref_attr (model s') r' "RelatingMaterial" = Some t.

(** [relation.RelatedObjects] in the source model. *)
Definition related_objects_of (source_model : file) (relation : handle) : list handle :=
  match by_id source_model relation with
  | Some rel => refs_of (get_attr rel "RelatedObjects")
  | None => []
  end.

End SessionOrder.

(** A migration that brought an owner-history record (10) with the same
    content as the target's own record (5). *)
Definition twin_record_example : session :=
  {| model := segment_example ++
       [ (9, mk_entity "IfcCommunicationsAppliance"
               [("GlobalId", VStr "donor-antenna"); ("OwnerHistory", VRef 10)]);
         (10, mk_entity "IfcOwnerHistory"
               [("OwningUser", VRef 3); ("OwningApplication", VRef 4)]) ];
     migrated_ids := [(20, 9); (23, 10)];
     guid_calls := 0;
     cloned := [];
     removals := [] |}.

(** The session after the donor antenna (20) was migrated into the segment
    model, and after its inverse relations were rewired. *)
Definition antenna_session : session :=
  match migrate donor_example 20 20 (session_of segment_example) with
  | Some (_, s) => s
  | None => session_of segment_example
  end.

Definition rewired_session : session :=
  match copy_inverse_relations donor_example 20 20 9 antenna_session with
  | Some (_, s) => s
  | None => antenna_session
  end.

Section Termination.
Context {schema : Schema}.

(** The handles a value holds. *)
Definition value_refs (v : value) : list handle :=
  match v with
  | VRef h => [h]
  | VRefs hs => hs
  | _ => []
  end.

(** Every reference held in the model resolves in it. *)
Definition closed (m : file) : Prop :=
  forall h e a r,
    In (h, e) m -> In a (attributes e) -> In r (value_refs (snd a)) ->
    In r (map fst m).

(** The entities of the source model that the session has not cloned yet:
    the measure that bounds the depth of [migrate]. *)
Definition uncached (source : file) (s : session) : nat :=
  List.length (filter (fun h => match dict_get (migrated_ids s) h with
                                | None => true
                                | Some _ => false
                                end)
                      (map fst source)).

(** The relating attribute of each kind of relation the rewirer handles is
    a reference. *)
Definition relating_attribute_set (rel : entity) : Prop :=
  (is_a rel "IfcRelDefinesByType" = true ->
     exists x, get_attr rel "RelatingType" = VRef x)
  /\ (is_a rel "IfcRelDefinesByProperties" = true ->
        exists x, get_attr rel "RelatingPropertyDefinition" = VRef x)
  /\ (is_a rel "IfcRelAssociatesMaterial" = true ->
        exists x, get_attr rel "RelatingMaterial" = VRef x).

End Termination.

(* ================================================================== *)
(** * The candidates of the placement solver *)

Section Candidates.
Context {F : Type} {SF : Scalar F}.

(** The columns for which the loop of [compute_leg_placement] appends a
    candidate: the axis is found and the loop body reaches [append]. *)
Definition accepts (target_height_model_units : F) (column : IfcColumn) : bool :=
  match get_column_axis_points column with
  | Ok (axis_start, axis_end) =>
      match placement_on_axis target_height_model_units column axis_start axis_end with
      | Ok (Some _) => true
      | _ => false
      end
  | Raise _ => false
  end.

(** The point lists the curves of a profile hold. *)
Definition curve_points (c : curve) : list (list F) :=
  match c with
  | IfcIndexedPolyCurve coord_list => coord_list
  | IfcPolyline pts => pts
  | OtherCurve => []
  end.

(** The representation maps of a type, [RepresentationMaps or []]. *)
Definition maps_of (t : column_type (F:=F)) : list (representation_map (F:=F)) :=
  match RepresentationMaps t with
  | Some maps => maps
  | None => []
  end.

End Candidates.

(** A column without a type: the extractor finds no axis for it. *)
Definition untyped_column : IfcColumn (F:=float) :=
  {| id := 12; IsTypedBy := []; ContainedInStructure := [] |}.

(* ================================================================== *)
(** * Removals and references in a model *)

(** From [m] to [m'] entities were removed and nothing else happened:
    every handle resolves as before or not at all. *)
Definition only_removes (m m' : file) : Prop :=
  forall h, by_id m' h = by_id m h \/ by_id m' h = None.

(** The test behind [closed]. *)
Definition closedb (m : file) : bool :=
  forallb (fun p =>
    forallb (fun a =>
      forallb (fun r => existsb (Nat.eqb r) (map fst m)) (value_refs (snd a)))
      (attributes (snd p))) m.

(* ================================================================== *)
(** * The local frame of the antenna *)

(** The constant 0.999 that bounds the cosine between the two orientation
    vectors. *)
Class Tolerance (F : Type) : Type := {
  nearly_parallel : F
}.

#[export] Instance float_Tolerance : Tolerance float := {
  nearly_parallel := 0.999%float
}.

(** The exceptions of [create_axis_placement]: its own [ValueError] on
    nearly parallel orientation vectors, the error of [np.linalg.inv] on a
    matrix it cannot invert, and those of the operations it calls. *)
Inductive frame_exn : Type :=
| ParallelOrientationError
| LinAlgError
| Raised (e : exn).

Inductive frame_result (A : Type) : Type :=
| Built (a : A)
| Failed (e : frame_exn).
Arguments Built {A} a.
Arguments Failed {A} e.

Section AxisPlacement.
Context {F : Type} {SF : Scalar F} {TF : Tolerance F}.

(** A two-dimensional array, as the list of its rows. *)
Definition matrix : Type := list (list F).

(** [np.identity(4)]. *)
Definition identity4 : matrix :=
  [[f_one; f_zero; f_zero; f_zero];
   [f_zero; f_one; f_zero; f_zero];
   [f_zero; f_zero; f_one; f_zero];
   [f_zero; f_zero; f_zero; f_one]].

(** [m @ v] for a two-dimensional [m] and a one-dimensional [v], each
    component summed in index order; numpy refuses a vector whose length is
    not the number of columns. *)
Definition matmul (m : matrix) (v : list F) : result (list F) :=
  if forallb (fun row => Nat.eqb (List.length row) (List.length v)) m
  then Ok (map (fun row => np.dot row v) m)
  else Raise NumpyShapeError.

(** [m[:3, :3]]. *)
Definition upper_left_3 (m : matrix) : matrix := map (firstn 3) (firstn 3 m).

(** [(float(v[0]), float(v[1]), float(v[2]))]. *)
Definition coordinates (v : list F) : result (list F) :=
  a <- np.item v 0 ;;
  b <- np.item v 1 ;;
  c <- np.item v 2 ;;
  Ok [a; b; c].

(** The [IfcAxis2Placement3D] created, with the coordinates of the
    [IfcCartesianPoint] and of the two [IfcDirection]s it refers to. *)
Record IfcAxis2Placement3D : Type := {
  Location : list F;
  Axis : list F;
  RefDirection : list F
}.

(** The two library functions the frame is computed with:
    [ifcopenshell.util.placement.get_local_placement], which gives the 4x4
    matrix of a placement, and [np.linalg.inv], which gives no matrix when
    it raises. *)
Variable placement : Type.
Variable get_local_placement : placement -> matrix.
Variable linalg_inv : matrix -> option matrix.

(** The numeric part, up to the test of the two directions. *)
Definition local_frame (inverse_reference : matrix) (point_world x_world z_world : list F)
    : result (list F * list F * list F) :=
  p0 <- np.item point_world 0 ;;
  p1 <- np.item point_world 1 ;;
  p2 <- np.item point_world 2 ;;
  point_local <- matmul inverse_reference [p0; p1; p2; f_one] ;;
  let rotation_inverse := upper_left_3 inverse_reference in
  x_rotated <- matmul rotation_inverse x_world ;;
  x_local <- normalize x_rotated ;;
  z_rotated <- matmul rotation_inverse z_world ;;
  z_local <- normalize z_rotated ;;
  Ok (point_local, x_local, z_local).

Definition create_axis_placement (reference_placement : option placement)
    (point_world x_world z_world : list F) : frame_result IfcAxis2Placement3D :=
  let reference_matrix :=
    match reference_placement with
    | Some p => get_local_placement p
    | None => identity4
    end in
  match linalg_inv reference_matrix with
  | None => Failed LinAlgError
  | Some inverse_reference =>
      match local_frame inverse_reference point_world x_world z_world with
      | Raise e => Failed (Raised e)
      | Ok (point_local, x_local, z_local) =>
          if fltb nearly_parallel (fabs (np.dot x_local z_local))
          then Failed ParallelOrientationError
          else
            match (location <- coordinates point_local ;;
                   axis <- coordinates z_local ;;
                   ref_direction <- coordinates x_local ;;
                   Ok {| Location := location;
                         Axis := axis;
                         RefDirection := ref_direction |}) with
            | Raise e => Failed (Raised e)
            | Ok axis_placement => Built axis_placement
            end
      end
  end.

End AxisPlacement.

(** The three kinds of relation the rewirer copies, each with the
    attribute that holds the relating entity. *)
Definition rewired_kinds : list (string * string) :=
  [("IfcRelDefinesByType", "RelatingType");
   ("IfcRelDefinesByProperties", "RelatingPropertyDefinition");
   ("IfcRelAssociatesMaterial", "RelatingMaterial")].

(** The relation that the rewirer creates for the source relation [rel]:
    its class and relating attribute are one of the three kinds, it takes
    the identifier number [k], the owner history chosen for the run and the
    name and description of the source relation, it relates [objs] to [v]. *)
Definition rewired_relation {guid : GuidSource} (k : nat) (owner_history : value)
    (rel : entity) (name relating : string) (objs : list handle) (v : handle) : entity :=
  {| ifc_class := name;
     attributes := [("GlobalId", VStr (guid_of_call k));
                    ("OwnerHistory", owner_history);
                    ("Name", get_attr rel "Name");
                    ("Description", get_attr rel "Description");
                    ("RelatedObjects", VRefs objs);
                    (relating, VRef v)] |}.

Section Rewired.
Context {schema : Schema} {guid : GuidSource}.

(** The related objects of the copy of a material association, given the
    related objects of the source relation and the migrator's manifest:
    the target antenna for each occurrence of the source antenna, its
    clone for each other related object that is a type object, and nothing
    for any other related object, in the order of the source relation. *)
Fixpoint related_images (source_model : file) (source_antenna target_antenna : handle)
    (ids : list (handle * handle)) (objects : list handle) : option (list handle) :=
  match objects with
  | [] => Some []
  | source_related :: rest =>
      match related_images source_model source_antenna target_antenna ids rest with
      | None => None
      | Some images =>
          if Nat.eqb source_related source_antenna then Some (target_antenna :: images)
          else match by_id source_model source_related with
               | None => None
               | Some e =>
                   if is_a e "IfcTypeObject"
                   then match dict_get ids source_related with
                        | Some t => Some (t :: images)
                        | None => None
                        end
                   else Some images
               end
      end
  end.

(** In the session [s'] the relation [r'] is the copy of the source
    relation [r] that took the identifier number [k]: it relates [objs] to
    the clone of the relating entity of [r], where [objs] is the target
    antenna alone for the two defining relations and, for a material
    association, exactly the images of its related objects, of which there
    is at least one. *)
Definition created_for (source_model : file) (source_antenna target_antenna : handle)
    (owner_history : value) (s' : session) (k : nat) (r r' : handle) : Prop :=
  exists rel name relating objs source_relating v,
    by_id source_model r = Some rel
    /\ In (name, relating) rewired_kinds
    /\ is_a rel name = true
    /\ get_attr rel relating = VRef source_relating
    /\ dict_get (migrated_ids s') source_relating = Some v
    /\ objs <> []
    /\ (name <> "IfcRelAssociatesMaterial" -> objs = [target_antenna])
    /\ (name = "IfcRelAssociatesMaterial" ->
        related_images source_model source_antenna target_antenna (migrated_ids s')
                       (refs_of (get_attr rel "RelatedObjects")) = Some objs)
    /\ by_id (model s') r'
       = Some (rewired_relation k owner_history rel name relating objs v).

End Rewired.

(* ================================================================== *)
(** * The last steps of [main] *)

Section Finish.
Context {schema : Schema} {guid : GuidSource}.

(** The calls that end [main] before the model is written: the relations
    of the donor antenna are rewired, the antenna is attached to the
    container, the identifiers of the migrated root entities are refreshed,
    the owner histories are harmonised, and the antenna takes one more
    identifier.  The last assignment fails on an antenna that is no longer
    in the model. *)
Definition finish_insertion (iteration : list handle -> list handle)
    (source_model : file) (fuel : nat)
    (source_antenna target_antenna target_container : handle)
    (target_owner_history : option handle) : M unit :=
  _ <~ copy_inverse_relations source_model fuel source_antenna target_antenna ;;
  fun s =>
    let s1 := attach_to_container s target_container target_antenna in
    let s2 := refresh_migrated_root_guids s1 in
    let s3 := harmonize_migrated_owner_history iteration s2 target_owner_history in
    let (g, s4) := guid_new s3 in
    match by_id (model s4) target_antenna with
    | None => None
    | Some _ =>
        Some (tt, with_model s4 (update (model s4) target_antenna
                                        (fun e => set_attr e "GlobalId" (VStr g))))
    end.

End Finish.

(** * Binary64 numbers as real numbers

    The operations of binary64 are those of the library's [SpecFloat]; the
    definitions below give a number of the format its real value and state
    the bounds the proofs about the solver use. *)

Ltac zdiv := rewrite ?Z.div2_div in *; Z.to_euclidean_division_equations; lia.

Section Binary64Values.
Local Open Scope Z_scope.
Local Open Scope R_scope.

Definition bpow (e : Z) : R := powerRZ 2 e.

Definition F2R (m e : Z) : R := IZR m * bpow e.

(** The value of a floating-point number that is neither infinite nor
    not-a-number; [0] stands for the others. *)
Definition SF2R (x : spec_float) : R :=
  match x with
  | S754_finite s m e => F2R (cond_Zopp s (Z.pos m)) e
  | _ => 0
  end.

Definition is_finite_SF (x : spec_float) : bool :=
  match x with
  | S754_zero _ | S754_finite _ _ _ => true
  | _ => false
  end.

(** Finite and not negative. *)
Definition is_nonneg_SF (x : spec_float) : bool :=
  match x with
  | S754_zero _ | S754_finite false _ _ => true
  | _ => false
  end.

(** [z] is infinite, or finite with an absolute value of at least [c]. *)
Definition at_least (c : R) (z : spec_float) : Prop :=
  (exists s, z = S754_infinity s)
  \/ (is_finite_SF z = true /\ c <= Rabs (SF2R z)).

(** [z], when finite, has an absolute value of at most [2 ^ j], and it is
    finite when that bound is within the format. *)
Definition at_most (j : Z) (z : spec_float) : Prop :=
  (is_finite_SF z = true -> Rabs (SF2R z) <= bpow j)
  /\ ((j <= 1023)%Z -> is_finite_SF z = true).

(** A bound that rounding does not cross from above: a power of two that
    is at least the smallest positive number, or a positive number of the
    format. *)
Definition threshold (c : R) : Prop :=
  (exists j, (-1074 <= j)%Z /\ c = bpow j)
  \/ (exists mc ec,
        valid_binary (S754_finite false mc ec) = true /\ c = F2R (Z.pos mc) ec).

Definition B2R (x : float) : R := SF2R (Prim2SF x).

Definition finite (x : float) : Prop := is_finite_SF (Prim2SF x) = true.

Definition nonneg (x : float) : Prop := is_nonneg_SF (Prim2SF x) = true.

Definition is_NaN (x : float) : Prop := Prim2SF x = S754_nan.

Definition is_plus_infinity (x : float) : Prop := Prim2SF x = S754_infinity false.

(** Not negative: finite and so, or plus infinity. *)
Definition nonneg_ext (x : float) : Prop := is_plus_infinity x \/ nonneg x.

(** At least [c]: plus infinity, or finite, not negative and so. *)
Definition ge_ext (c : R) (x : float) : Prop :=
  is_plus_infinity x \/ (nonneg x /\ c <= B2R x).

Definition is_signed_zero (x : float) : Prop := exists s, Prim2SF x = S754_zero s.

End Binary64Values.

(** * The guards of the placement solver *)

(** The running sum of squares of [np.dot v v], from [acc] on. *)
Definition dot_from (acc : float) (v : list float) : float :=
  fold_left (fun acc p => (acc + fst p * snd p)%float) (combine v v) acc.

Section Step3.
Context {F : Type} {SF : Scalar F}.

(** The axis vector of a member that passes the two guards of the solver
    and so reaches the normalisation of its axis. *)
Definition reaches_step_3 (target_height_model_units : F)
    (axis_start axis_end : list F) : option (list F) :=
  match np.subtract axis_end axis_start with
  | Raise _ => None
  | Ok delta =>
      match np.item delta 2 with
      | Raise _ => None
      | Ok dz =>
          if fltb (fabs dz) EPS then None
          else match np.item axis_start 2 with
               | Raise _ => None
               | Ok z0 =>
                   let t := fdiv (fsub target_height_model_units z0) dz in
                   if fltb t f_zero || fltb f_one t then None else Some delta
               end
      end
  end.

End Step3.

(** In binary64: the computed length of a vector of finite components has
    overflowed to plus infinity. *)
Definition axis_overflows (delta : list float) : bool :=
  (np.linalg_norm delta =? infinity)%float && forallb PrimFloat.is_finite delta.

(** No member that reaches the normalisation has an axis vector whose
    computed length has overflowed. *)
Definition no_axis_overflow (target_height_model_units : float)
    (columns : list (IfcColumn (F:=float))) : bool :=
  forallb (fun column =>
             match get_column_axis_points column with
             | Raise _ => true
             | Ok (axis_start, axis_end) =>
                 match reaches_step_3 target_height_model_units axis_start axis_end with
                 | None => true
                 | Some delta => negb (axis_overflows delta)
                 end
             end) columns.

(* ================================================================== *)
(** * Theorems *)

(** ** Member geometry extractor *)

Section GeometryFacts.
Context {F : Type} {SF : Scalar F}.

Lemma pad_2d_to_3d (p : list F) : pad_2d p = to_3d p.
Proof.
  unfold pad_2d, to_3d.
  destruct p as [|x [|y [|z q]]]; reflexivity.
Qed.

Lemma append_loop_map (A B : Type) (f : A -> B) (l : list A) (acc : list B) :
  fold_left (fun points x => points ++ [f x]) l acc = acc ++ map f l.
Proof.
  revert acc; induction l as [|x l IH]; intros acc; simpl.
  - now rewrite app_nil_r.
  - rewrite IH, <- app_assoc. reflexivity.
Qed.

Lemma read_polycurve_points_spec (e : representation_item) :
  read_polycurve_points e = curve_point_list e.
Proof.
  destruct e as [[cl|pts|]| |]; simpl; try reflexivity;
    rewrite append_loop_map; simpl; apply map_ext, pad_2d_to_3d.
Qed.

Lemma axis_loop_spec (maps : list (representation_map (F:=F))) :
  axis_loop maps =
  match find (fun pts => Nat.leb 2 (List.length pts))
             (flat_map (fun rm => match Items (MappedRepresentation rm) with
                                  | first :: _ => [curve_point_list first]
                                  | [] => []
                                  end)
                       (filter (fun rm => identifier_is (MappedRepresentation rm) "Axis") maps)) with
  | Some pts => Some (hd [] pts, last pts [])
  | None => None
  end.
Proof.
  induction maps as [|rm maps IH]; simpl; [reflexivity|].
  destruct (identifier_is (MappedRepresentation rm) "Axis"); simpl; [|exact IH].
  destruct (Items (MappedRepresentation rm)) as [|first items]; simpl; [exact IH|].
  rewrite read_polycurve_points_spec.
  destruct (curve_point_list first) as [|p [|q pts]]; simpl; try exact IH; reflexivity.
Qed.

Lemma get_column_axis_points_refines (column : IfcColumn (F:=F)) :
  get_column_axis_points column = axisEndpoints column.
Proof.
  unfold get_column_axis_points, axisEndpoints, axis_point_lists.
  destruct (IsTypedBy column) as [|t ts]; [reflexivity|].
  rewrite axis_loop_spec.
  destruct (find _ _); reflexivity.
Qed.

Lemma identifier_is_spec (r : representation (F:=F)) (name : string) :
  identifier_is r name = true <-> RepresentationIdentifier r = Some name.
Proof.
  unfold identifier_is. destruct (RepresentationIdentifier r) as [s|].
  - rewrite String.eqb_eq. split; [now intros ->|now intros [= ->]].
  - split; discriminate.
Qed.

Lemma identifier_is_identified_as (r : representation (F:=F)) (name : string) :
  identifier_is r name = identified_as r name.
Proof.
  unfold identifier_is, identified_as.
  destruct (RepresentationIdentifier r) as [s|]; [|reflexivity].
  destruct (string_dec s name) as [->|Hne].
  - apply String.eqb_refl.
  - now apply String.eqb_neq.
Qed.

Lemma first_curve_item_point_lists_first_item (maps : list (representation_map (F:=F))) :
  forallb (fun rm => match Items (MappedRepresentation rm) with
                     | first :: _ => is_curve_item first
                     | [] => true
                     end)
          (filter (fun rm => identified_as (MappedRepresentation rm) "Axis") maps) = true ->
  flat_map (fun rm => match find is_curve_item (Items (MappedRepresentation rm)) with
                      | Some c => [curve_point_list c]
                      | None => []
                      end)
           (filter (fun rm => identified_as (MappedRepresentation rm) "Axis") maps)
  = flat_map (fun rm => match Items (MappedRepresentation rm) with
                        | first :: _ => [curve_point_list first]
                        | [] => []
                        end)
             (filter (fun rm => identifier_is (MappedRepresentation rm) "Axis") maps).
Proof.
  induction maps as [|rm maps IH]; simpl; [reflexivity|].
  rewrite identifier_is_identified_as.
  destruct (identified_as (MappedRepresentation rm) "Axis"); simpl; [|exact IH].
  intros H. apply andb_prop in H as [Hfirst Hrest].
  rewrite (IH Hrest).
  destruct (Items (MappedRepresentation rm)) as [|first items]; [reflexivity|].
  simpl. now rewrite Hfirst.
Qed.

Lemma get_column_axis_points_first_curve_item (column : IfcColumn (F:=F)) :
  first_items_are_curves column = true ->
  get_column_axis_points column = axisEndpoints_of_first_curve_item column.
Proof.
  intros H. rewrite get_column_axis_points_refines.
  unfold axisEndpoints, axisEndpoints_of_first_curve_item, first_items_are_curves,
    axis_point_lists, first_curve_item_point_lists in *.
  destruct (IsTypedBy column) as [|t ts]; [reflexivity|].
  now rewrite (first_curve_item_point_lists_first_item _ H).
Qed.

(** C8: [get_column_axis_points] reads the item at index 0 of each
    representation identified as "Axis": it returns the first and last
    point of the first such point list with at least two points, reading
    indexed poly-curves and polylines with 2-D points padded by z = 0, and
    raises the no-axis error when the member has no type or no such
    representation exists.  A representation is identified as "Axis"
    exactly when its identifier is that string.  Whenever the first item
    of every "Axis" representation is a curve, this is the first curve item
    the specification names. *)
Theorem get_column_axis_points_spec (column : IfcColumn (F:=F)) :
  get_column_axis_points column = axisEndpoints column
  /\ (first_items_are_curves column = true ->
      get_column_axis_points column = axisEndpoints_of_first_curve_item column)
  /\ (forall (r : representation (F:=F)) (name : string),
        identifier_is r name = true <-> RepresentationIdentifier r = Some name)
  /\ (forall coord_list,
        read_polycurve_points (CurveItem (IfcIndexedPolyCurve coord_list))
        = map to_3d coord_list)
  /\ (forall pts,
        read_polycurve_points (CurveItem (IfcPolyline pts)) = map to_3d pts)
  /\ (forall x y : F, to_3d [x; y] = [x; y; f_zero]).
Proof.
  split; [apply get_column_axis_points_refines|].
  split; [apply get_column_axis_points_first_curve_item|].
  split; [apply identifier_is_spec|].
  repeat split.
  - intros cl. now rewrite read_polycurve_points_spec.
  - intros pts. now rewrite read_polycurve_points_spec.
Qed.

End GeometryFacts.

(** On the scenario column, whose "Axis" representation starts with its
    polyline, the code returns what the specification's words give. *)
Lemma get_column_axis_points_spec_witness :
  first_items_are_curves scenario_column = true
  /\ get_column_axis_points scenario_column
     = axisEndpoints_of_first_curve_item scenario_column.
Proof.
  split; [reflexivity|].
  apply (proj1 (proj2 (get_column_axis_points_spec scenario_column))).
  reflexivity.
Defined.

(** Where an item that is not a curve comes first, the first curve item
    of the "Axis" representation has two points, and the specification's
    words give its end points, while [get_column_axis_points] reads the
    item at index 0, finds no points and raises the no-axis error. *)
Lemma axis_curve_after_other_item_is_not_read :
  axisEndpoints_of_first_curve_item curve_second_column
  = Ok ([0; 0; 0]%float, [0; 0; 6]%float)
  /\ get_column_axis_points curve_second_column = Raise NoAxisFoundError.
Proof. split; reflexivity. Qed.

(** ** Donor selection *)

Lemma lower_upper_ascii (c : ascii) : lower_ascii (upper_ascii c) = lower_ascii c.
Proof. destruct c as [[] [] [] [] [] [] [] []]; reflexivity. Qed.

Lemma upper_lower_ascii (c : ascii) : upper_ascii (lower_ascii c) = upper_ascii c.
Proof. destruct c as [[] [] [] [] [] [] [] []]; reflexivity. Qed.

Lemma lower_upper (s : string) : lower (upper s) = lower s.
Proof. induction s as [|c s IH]; simpl; [|rewrite lower_upper_ascii, IH]; reflexivity. Qed.

Lemma upper_lower (s : string) : upper (lower s) = upper s.
Proof. induction s as [|c s IH]; simpl; [|rewrite upper_lower_ascii, IH]; reflexivity. Qed.

(** The test of the loop is the case-insensitive comparison. *)
Lemma upper_is_ANTENNA (s : string) :
  String.eqb (upper s) "ANTENNA" = equal_ignoring_case s "ANTENNA".
Proof.
  unfold equal_ignoring_case.
  destruct (String.eqb_spec (upper s) "ANTENNA") as [E|E];
    destruct (String.eqb_spec (lower s) (lower "ANTENNA")) as [E'|E']; try reflexivity.
  - exfalso; apply E'. now rewrite <- (lower_upper s), E.
  - exfalso; apply E. rewrite <- (upper_lower s), E'. reflexivity.
Qed.

Lemma loop_test_is_antenna (a : IfcCommunicationsAppliance) :
  String.eqb (upper (predefined_of a)) "ANTENNA" = is_antenna a.
Proof.
  unfold predefined_of, is_antenna.
  destruct (PredefinedType a) as [s|]; [apply upper_is_ANTENNA | reflexivity].
Qed.

Lemma antenna_loop_find (antennas : list IfcCommunicationsAppliance) :
  antenna_loop antennas = find is_antenna antennas.
Proof.
  induction antennas as [|a rest IH]; simpl; [reflexivity|].
  rewrite loop_test_is_antenna, IH. reflexivity.
Qed.

(** C9: on a donor model with at least one appliance, the selection is the
    first appliance whose predefined type is ANTENNA up to case, and the
    first appliance of the model when there is none; it raises exactly when
    the model has no appliance. *)
Theorem find_source_antenna_spec (antennas : list IfcCommunicationsAppliance) :
  find_source_antenna antennas =
    match antennas with
    | [] => Raise NoAntennaError
    | first :: _ =>
        match find is_antenna antennas with
        | Some antenna => Ok antenna
        | None => Ok first
        end
    end
  /\ ((exists e, find_source_antenna antennas = Raise e) <-> antennas = [])
  /\ is_antenna {| appliance_id := 1; PredefinedType := Some "Antenna"%string |} = true
  /\ is_antenna {| appliance_id := 1; PredefinedType := Some "ROUTER"%string |} = false
  /\ is_antenna {| appliance_id := 1; PredefinedType := None |} = false.
Proof.
  split; [|split; [|repeat split]].
  - unfold find_source_antenna. now rewrite antenna_loop_find.
  - unfold find_source_antenna. split.
    + intros [e He]. destruct antennas as [|a rest]; [reflexivity|].
      destruct (antenna_loop (a :: rest)); discriminate.
    + intros ->. now exists NoAntennaError.
Qed.

(** ** Placement solver *)

Section PlacementFacts.
Context {F : Type} {SF : Scalar F}.

Lemma as_vec3_array (l : list F) (v : vec3) : as_vec3 l = Some v -> l = as_array v.
Proof.
  destruct l as [|x [|y [|z [|w l]]]]; simpl; try discriminate.
  intros [= <-]. reflexivity.
Qed.

Lemma as_vec3_length (l : list F) :
  List.length l = 3 -> exists v, as_vec3 l = Some v.
Proof.
  destruct l as [|x [|y [|z [|w l]]]]; simpl; try discriminate.
  intros _. now exists (x, y, z).
Qed.

Lemma normalize_array (v : vec3) :
  normalize (as_array v) = map_result as_array (v_normalize v).
Proof.
  unfold normalize, v_normalize, v_norm.
  destruct (fltb (np.linalg_norm (as_array v)) EPS); [reflexivity|].
  destruct v as [[x y] z]. reflexivity.
Qed.

Lemma choose_radial_offset_rule (outer inner : F) :
  choose_radial_offset outer inner = radial_offset_rule outer inner.
Proof.
  unfold choose_radial_offset, radial_offset_rule.
  destruct (fltb f_zero outer), (fltb f_zero inner), (fltb inner outer); reflexivity.
Qed.

(** The loop body on a three-dimensional axis computes steps 1 to 6. *)
Lemma placement_on_axis_spec (target : F) (column : IfcColumn) (p0 p1 : vec3) :
  axisEndpoints column = Ok (as_array p0, as_array p1) ->
  placement_on_axis target column (as_array p0) (as_array p1)
  = map_result (option_map to_LegPlacement) (candidate_of target column).
Proof.
  intros Hax. unfold candidate_of. rewrite Hax.
  destruct p0 as [[x0 y0] z0], p1 as [[x1 y1] z1].
  unfold placement_on_axis. cbn [as_array as_vec3 v_sub v_z snd].
  change (np.subtract [x1; y1; z1] [x0; y0; z0])
    with (Ok (A:=list F) (as_array (v_sub (x1, y1, z1) (x0, y0, z0)))).
  cbn [bind v_sub as_array]. unfold np.item. cbn [nth_error bind].
  destruct (fltb (fabs (fsub z1 z0)) EPS); [reflexivity|].
  destruct (fltb _ f_zero || fltb f_one _); [reflexivity|].
  change [fsub x1 x0; fsub y1 y0; fsub z1 z0]
    with (as_array (fsub x1 x0, fsub y1 y0, fsub z1 z0)).
  rewrite normalize_array.
  destruct (v_normalize (fsub x1 x0, fsub y1 y0, fsub z1 z0)) as [[[dx dy] dz]|e];
    [|reflexivity].
  cbn [map_result bind as_array].
  set (t := fdiv (fsub target z0) (fsub z1 z0)).
  change (np.add [x0; y0; z0] (np.scale t [fsub x1 x0; fsub y1 y0; fsub z1 z0]))
    with (Ok (A:=list F)
            (as_array (v_add (x0, y0, z0) (v_scale t (fsub x1 x0, fsub y1 y0, fsub z1 z0))))).
  cbn [bind].
  change (np.cross global_up [dx; dy; dz])
    with (Ok (A:=list F) (as_array (v_cross globalUp (dx, dy, dz)))).
  cbn [bind].
  change (np.cross world_x [dx; dy; dz])
    with (Ok (A:=list F) (as_array (v_cross worldX (dx, dy, dz)))).
  fold (v_norm (v_cross globalUp (dx, dy, dz))).
  set (primary := v_cross globalUp (dx, dy, dz)).
  assert (Hsel :
    (if fltb (v_norm primary) EPS
     then Ok (as_array (v_cross worldX (dx, dy, dz)))
     else Ok (as_array primary))
    = Ok (A:=list F) (as_array (if fltb (v_norm primary) EPS
                    then v_cross worldX (dx, dy, dz) else primary))).
  { destruct (fltb (v_norm primary) EPS); reflexivity. }
  rewrite Hsel. cbn [bind]. rewrite normalize_array.
  destruct (v_normalize _) as [[[rx ry] rz]|e]; [|reflexivity].
  cbn [map_result bind].
  destruct (get_column_profile_info column) as [outer inner].
  cbn [fst snd]. rewrite choose_radial_offset_rule.
  reflexivity.
Qed.

Lemma axisEndpoints_raises (m : IfcColumn (F:=F)) (e : exn) :
  axisEndpoints m = Raise e -> is_ValueError e = true.
Proof.
  unfold axisEndpoints.
  destruct (IsTypedBy m); [intros [= <-]; reflexivity|].
  destruct (find _ _); [discriminate | intros [= <-]; reflexivity].
Qed.

Lemma collect_candidates_spec (target : F) (columns : list IfcColumn)
    (acc : list LegPlacement) :
  axes_3d columns = true ->
  collect_candidates target columns acc
  = (cs <- candidates_of target columns ;; Ok (acc ++ map to_LegPlacement cs)).
Proof.
  revert acc; induction columns as [|c columns IH]; intros acc H3; simpl.
  - now rewrite app_nil_r.
  - simpl in H3. apply andb_true_iff in H3 as [Hc H3].
    pose proof (get_column_axis_points_refines c) as Hspec.
    rewrite Hspec in Hc |- *.
    destruct (axisEndpoints c) as [[a b]|e] eqn:Hax.
    + apply andb_true_iff in Hc as [Ha Hb].
      apply Nat.eqb_eq in Ha, Hb.
      destruct (as_vec3_length a Ha) as [p0 Hp0], (as_vec3_length b Hb) as [p1 Hp1].
      apply as_vec3_array in Hp0, Hp1. subst a b.
      rewrite (placement_on_axis_spec target c p0 p1 Hax).
      destruct (candidate_of target c) as [[x|]|e]; cbn [map_result option_map bind].
      * rewrite (IH _ H3).
        destruct (candidates_of target columns); cbn [bind]; [|reflexivity].
        simpl. now rewrite <- app_assoc.
      * rewrite (IH _ H3). destruct (candidates_of target columns); reflexivity.
      * reflexivity.
    + rewrite (axisEndpoints_raises _ Hax).
      unfold candidate_of. rewrite Hax. cbn [bind].
      rewrite (IH _ H3). destruct (candidates_of target columns); reflexivity.
Qed.

Lemma to_3d_length (p : list F) :
  planar_or_spatial p = true -> List.length (to_3d p) = 3.
Proof.
  unfold planar_or_spatial.
  destruct p as [|x [|y [|z [|w p]]]]; simpl; try discriminate; reflexivity.
Qed.

Lemma curve_point_list_raw (e : representation_item) :
  curve_point_list e = map to_3d (raw_points e).
Proof. destruct e as [[cl|pts|]| |]; reflexivity. Qed.

Lemma endpoints_3d (raw : list (list F)) :
  forallb planar_or_spatial raw = true ->
  2 <= List.length (map to_3d raw) ->
  List.length (hd [] (map to_3d raw)) = 3
  /\ List.length (last (map to_3d raw) []) = 3.
Proof.
  intros Hall Hlen. rewrite forallb_forall in Hall.
  assert (Hin : forall q, In q (map to_3d raw) -> List.length q = 3).
  { intros q Hq. apply in_map_iff in Hq as [p [<- Hp]].
    apply to_3d_length. now apply Hall. }
  destruct (map to_3d raw) as [|q qs] eqn:E; [simpl in Hlen; lia|].
  split.
  - apply Hin. now left.
  - apply Hin. rewrite <- E.
    destruct (exists_last (l:=map to_3d raw)) as (front & z & Hz);
      [rewrite E; discriminate|].
    rewrite Hz, last_last. apply in_or_app. right. now left.
Qed.

(** Points of two or three coordinates give axes of three coordinates. *)
Lemma points_2d_or_3d_axes (columns : list IfcColumn) :
  points_2d_or_3d columns = true -> axes_3d columns = true.
Proof.
  unfold points_2d_or_3d, axes_3d. rewrite !forallb_forall.
  intros Hall c Hc. specialize (Hall c Hc).
  rewrite get_column_axis_points_refines. unfold axisEndpoints, axis_point_lists.
  destruct (IsTypedBy c) as [|t ts]; [reflexivity|].
  simpl in Hall. apply andb_true_iff in Hall as [Ht _].
  rewrite forallb_forall in Ht.
  destruct (find _ _) as [pts|] eqn:Hfind; [|reflexivity].
  apply find_some in Hfind as [Hin Hlen]. apply Nat.leb_le in Hlen.
  apply in_flat_map in Hin as (rm & Hrm & Hpts).
  apply filter_In in Hrm as [Hrm _]. specialize (Ht rm Hrm).
  destruct (Items (MappedRepresentation rm)) as [|first items]; [contradiction|].
  destruct Hpts as [<-|[]].
  simpl in Ht. apply andb_true_iff in Ht as [Hfirst _].
  rewrite curve_point_list_raw in Hlen |- *.
  destruct (endpoints_3d _ Hfirst Hlen) as [-> ->]. reflexivity.
Qed.

Lemma compute_leg_placement_spec (columns : list IfcColumn) (target : F) (index : Z) :
  axes_3d columns = true ->
  compute_leg_placement columns target index
  = map_result to_LegPlacement (placementSolver columns target index).
Proof.
  intros H3. unfold compute_leg_placement, placementSolver.
  rewrite (collect_candidates_spec target columns [] H3).
  destruct (candidates_of target columns) as [cs|e]; cbn [bind app]; [|reflexivity].
  destruct cs as [|c cs]; [reflexivity|].
  change (map to_LegPlacement (c :: cs))
    with (to_LegPlacement c :: map to_LegPlacement cs).
  cbv iota.
  change (to_LegPlacement c :: map to_LegPlacement cs)
    with (map to_LegPlacement (c :: cs)).
  rewrite length_map, nth_error_map.
  change (Nat.eqb (List.length (c :: cs)) 0) with false. cbv iota.
  set (n := Z.of_nat (List.length (c :: cs))).
  assert (Hn : nth_error (c :: cs) (Z.to_nat index) = None ->
               (n <= Z.of_nat (Z.to_nat index))%Z).
  { intros Hnone. apply nth_error_None in Hnone. unfold n. lia. }
  destruct (Z.ltb_spec index 0), (Z.leb_spec 0 index), (Z.ltb_spec index n),
    (Z.geb_spec index n); try lia; cbn [orb andb]; try reflexivity.
  destruct (nth_error (c :: cs) (Z.to_nat index)); [reflexivity|].
  specialize (Hn eq_refl). lia.
Qed.

End PlacementFacts.

(** C1 fails as stated: on the vertical member from (0,0,0) to (0,0,6) with
    outer radius 0.2 and target height 3.0, the solver does not return the
    insertion point (0.1, 0, 3). *)
Lemma scenario_insertion_point_is_not_x_offset :
  ~ (exists p, compute_leg_placement [scenario_column] 3%float 0 = Ok p
               /\ insertion_point p = [0.1; 0; 3]%float).
Proof.
  intros [p [Hp Hins]].
  vm_compute in Hp. injection Hp as <-.
  vm_compute in Hins. discriminate Hins.
Qed.

(** C1, amended: on every model whose curve points have two or three
    coordinates, the solver is the specification's steps 1 to 6 over the
    members in model order, with the no-candidate and invalid-index
    failures (a degenerate-vector error of normalize propagates); and on the
    scenario member it returns center (0,0,3), direction (0,0,1), offset
    0.1 and insertion point (0, -0.1, 3). *)
Theorem compute_leg_placement_refines_solver :
  (forall (F : Type) (SF : Scalar F) (columns : list IfcColumn) (target : F) (index : Z),
      points_2d_or_3d columns = true ->
      compute_leg_placement columns target index
      = map_result to_LegPlacement (placementSolver columns target index))
  /\ (exists p, compute_leg_placement [scenario_column] 3%float 0 = Ok p
                /\ leg p = scenario_column
                /\ center_at_height p = [0; 0; 3]%float
                /\ direction p = [0; 0; 1]%float
                /\ radial_offset p = 0.1%float
                /\ insertion_point p = [0; -0.1; 3]%float).
Proof.
  split.
  - intros F SF columns target index H3.
    now apply compute_leg_placement_spec, points_2d_or_3d_axes.
  - eexists. split; [vm_compute; reflexivity|].
    repeat split.
Qed.

Lemma compute_leg_placement_refines_solver_witness :
  points_2d_or_3d [scenario_column] = true
  /\ compute_leg_placement [scenario_column] 3%float 0
     = map_result to_LegPlacement (placementSolver [scenario_column] 3%float 0).
Proof.
  split.
  - vm_compute. reflexivity.
  - apply (proj1 compute_leg_placement_refines_solver). vm_compute. reflexivity.
Defined.

(** ** The model graph *)

Section ModelFacts.
Context {schema : Schema}.

Lemma get_attr_assign_same (attrs : list (string * value)) (name : string) (v : value) :
  find (fun a => String.eqb (fst a) name) (assign attrs name v) = Some (name, v).
Proof.
  induction attrs as [|a attrs IH]; simpl.
  - now rewrite String.eqb_refl.
  - destruct (String.eqb (fst a) name) eqn:E; simpl.
    + now rewrite String.eqb_refl.
    + now rewrite E.
Qed.

Lemma get_attr_assign_other (attrs : list (string * value)) (name other : string)
    (v : value) :
  other <> name ->
  find (fun a => String.eqb (fst a) other) (assign attrs name v)
  = find (fun a => String.eqb (fst a) other) attrs.
Proof.
  intros Hne. induction attrs as [|a attrs IH]; simpl.
  - destruct (String.eqb_spec name other); [congruence | reflexivity].
  - destruct (String.eqb_spec (fst a) name) as [E|E]; simpl.
    + destruct (String.eqb_spec name other); [congruence|].
      destruct (String.eqb_spec (fst a) other); [congruence | reflexivity].
    + destruct (String.eqb (fst a) other); [reflexivity | exact IH].
Qed.

Lemma get_attr_set_same (e : entity) (name : string) (v : value) :
  get_attr (set_attr e name v) name = v.
Proof. unfold get_attr, set_attr; simpl. now rewrite get_attr_assign_same. Qed.

Lemma get_attr_set_other (e : entity) (name other : string) (v : value) :
  other <> name -> get_attr (set_attr e name v) other = get_attr e other.
Proof.
  intros Hne. unfold get_attr, set_attr; simpl.
  now rewrite get_attr_assign_other.
Qed.

Lemma is_a_set_attr (e : entity) (name cls : string) (v : value) :
  is_a (set_attr e name v) cls = is_a e cls.
Proof. reflexivity. Qed.

Lemma by_id_update (m : file) (h h' : handle) (f : entity -> entity) :
  by_id (update m h f) h' =
  if Nat.eqb h' h then option_map f (by_id m h') else by_id m h'.
Proof.
  unfold by_id, update.
  induction m as [|[k e] m IH]; simpl.
  - now destruct (Nat.eqb h' h).
  - destruct (Nat.eqb_spec k h) as [->|Hk]; simpl.
    + destruct (Nat.eqb_spec h h') as [<-|Hh]; simpl.
      * now rewrite Nat.eqb_refl.
      * exact IH.
    + destruct (Nat.eqb_spec k h') as [->|Hk']; simpl.
      * destruct (Nat.eqb_spec h' h); [congruence | reflexivity].
      * exact IH.
Qed.

Lemma filter_update (m : file) (h : handle) (f : entity -> entity)
    (test : entity -> bool) :
  (forall e, test (f e) = test e) ->
  map fst (filter (fun p => test (snd p)) (update m h f))
  = map fst (filter (fun p => test (snd p)) m).
Proof.
  intros Hf. unfold update. induction m as [|[k e] m IH]; simpl; [reflexivity|].
  destruct (Nat.eqb k h); simpl; rewrite ?Hf; destruct (test e); simpl;
    now rewrite IH.
Qed.

Lemma fresh_handle_above (m : file) (k : handle) :
  In k (map fst m) -> k < fresh_handle m.
Proof.
  intros Hin. unfold fresh_handle.
  pose proof (list_max_le (map fst m) (list_max (map fst m))) as [Hle _].
  specialize (Hle (Nat.le_refl _)).
  rewrite Forall_forall in Hle. specialize (Hle k Hin). lia.
Qed.

Lemma by_id_in (m : file) (h : handle) (e : entity) :
  by_id m h = Some e -> In (h, e) m.
Proof.
  unfold by_id. destruct (find (fun p => Nat.eqb (fst p) h) m) as [[k e']|] eqn:Hf; [|discriminate].
  intros [= <-]. apply find_some in Hf as [Hin Hk].
  simpl in Hk. apply Nat.eqb_eq in Hk. now subst k.
Qed.

Lemma by_id_none (m : file) (h : handle) :
  ~ In h (map fst m) -> by_id m h = None.
Proof.
  intros Hn. unfold by_id. destruct (find (fun p => Nat.eqb (fst p) h) m) as [[k e]|] eqn:Hf; [|reflexivity].
  apply find_some in Hf as [Hin Hk]. simpl in Hk. apply Nat.eqb_eq in Hk. subst k.
  exfalso; apply Hn. now apply (in_map fst) in Hin.
Qed.

Lemma by_id_some_of_in (m : file) (h : handle) :
  In h (map fst m) -> exists e, by_id m h = Some e.
Proof.
  intros Hin. unfold by_id.
  destruct (find (fun p => Nat.eqb (fst p) h) m) as [[k e]|] eqn:Hf; [now exists e|].
  apply in_map_iff in Hin as [[k e] [Hk Hin]]. simpl in Hk. subst k.
  apply (find_none _ _ Hf) in Hin. simpl in Hin.
  now rewrite Nat.eqb_refl in Hin.
Qed.

Lemma by_id_app (m m' : file) (h : handle) :
  by_id (m ++ m') h = match by_id m h with
                      | Some e => Some e
                      | None => by_id m' h
                      end.
Proof.
  unfold by_id. induction m as [|[k e] m IH]; simpl; [reflexivity|].
  destruct (Nat.eqb k h); [reflexivity | exact IH].
Qed.

Lemma by_id_fresh (m : file) : by_id m (fresh_handle m) = None.
Proof.
  apply by_id_none. intros Hin. apply fresh_handle_above in Hin. lia.
Qed.

End ModelFacts.

(** ** Attaching to the spatial container *)

Section AttachFacts.
Context {schema : Schema} {guid : GuidSource}.

Lemma relates_structure_set_related (c : handle) (e : entity) (v : value) :
  relates_structure c (set_attr e "RelatedElements" v) = relates_structure c e.
Proof.
  unfold relates_structure. rewrite is_a_set_attr, get_attr_set_other;
    [reflexivity | discriminate].
Qed.

Lemma ContainsElements_in (m : file) (c r : handle) :
  In r (ContainsElements m c) -> In r (map fst m).
Proof.
  unfold ContainsElements. intros Hin.
  apply in_map_iff in Hin as [p [<- Hp]].
  apply filter_In in Hp as [Hp _]. now apply in_map.
Qed.

Lemma existsb_eqb_In (x : handle) (l : list handle) :
  existsb (Nat.eqb x) l = true <-> In x l.
Proof.
  rewrite existsb_exists. split.
  - intros [y [Hin Hy]]. apply Nat.eqb_eq in Hy. now subst.
  - intros Hin. exists x. split; [exact Hin | apply Nat.eqb_refl].
Qed.

Lemma count_occ_snoc (l : list handle) (x : handle) :
  count_occ Nat.eq_dec (l ++ [x]) x = S (count_occ Nat.eq_dec l x).
Proof.
  rewrite count_occ_app, (count_occ_cons_eq Nat.eq_dec [] eq_refl). simpl. lia.
Qed.

(** The branch that finds a containment relation. *)
Lemma attach_existing (s : session) (container product relation : handle)
    (rest : list handle) :
  ContainsElements (model s) container = relation :: rest ->
  let old := RelatedElements (model s) relation in
  let s1 := attach_to_container s container product in
  ContainsElements (model s1) container = relation :: rest
  /\ RelatedElements (model s1) relation
     = (if existsb (Nat.eqb product) old then old else old ++ [product]).
Proof.
  intros Hc old s1. unfold s1, attach_to_container. rewrite Hc. fold old.
  destruct (existsb (Nat.eqb product) old) eqn:Hin; [now split|].
  simpl. split.
  - unfold ContainsElements. rewrite filter_update; [exact Hc|].
    intros e. apply relates_structure_set_related.
  - assert (Hr : In relation (map fst (model s))).
    { apply (ContainsElements_in (model s) container). rewrite Hc. now left. }
    apply by_id_some_of_in in Hr as [e He].
    unfold RelatedElements. rewrite by_id_update, Nat.eqb_refl, He. simpl.
    now rewrite get_attr_set_same.
Qed.

(** The branch that creates the containment relation. *)
Lemma attach_created (s : session) (container product : handle) :
  ContainsElements (model s) container = [] ->
  let s1 := attach_to_container s container product in
  model s1 = model s ++
    [(fresh_handle (model s),
      {| ifc_class := "IfcRelContainedInSpatialStructure";
         attributes := [("GlobalId", VStr (guid_of_call (guid_calls s)));
                        ("OwnerHistory", owner_history_or (model s) product);
                        ("Name", VNull);
                        ("Description", VNull);
                        ("RelatedElements", VRefs [product]);
                        ("RelatingStructure", VRef container)] |})]
  /\ ContainsElements (model s1) container = [fresh_handle (model s)]
  /\ RelatedElements (model s1) (fresh_handle (model s)) = [product].
Proof.
  intros Hc s1. unfold s1, attach_to_container. rewrite Hc. simpl.
  split; [reflexivity|]. split.
  - unfold ContainsElements in *. rewrite filter_app, map_app, Hc. simpl.
    unfold relates_structure, is_a, get_attr. simpl.
    now rewrite is_subtype_refl, Nat.eqb_refl.
  - unfold RelatedElements. rewrite by_id_app, by_id_fresh.
    unfold by_id; simpl. now rewrite Nat.eqb_refl.
Qed.

(** C7: a second [attach_to_container] with the same container and product
    changes nothing and the product occurs once in the container's
    related-elements list; an existing containment relation keeps its
    elements and gains the product at the end when it is not yet there;
    without one, a relation holding exactly the product is created. *)
Theorem attach_to_container_once (s : session) (container product : handle) :
  count_occ Nat.eq_dec (container_elements (model s) container) product <= 1 ->
  let s1 := attach_to_container s container product in
  attach_to_container s1 container product = s1
  /\ count_occ Nat.eq_dec (container_elements (model s1) container) product = 1
  /\ (forall relation rest,
        ContainsElements (model s) container = relation :: rest ->
        let old := RelatedElements (model s) relation in
        ContainsElements (model s1) container = relation :: rest
        /\ RelatedElements (model s1) relation
           = (if existsb (Nat.eqb product) old then old else old ++ [product]))
  /\ (ContainsElements (model s) container = [] ->
        model s1 = model s ++
          [(fresh_handle (model s),
            {| ifc_class := "IfcRelContainedInSpatialStructure";
               attributes := [("GlobalId", VStr (guid_of_call (guid_calls s)));
                              ("OwnerHistory", owner_history_or (model s) product);
                              ("Name", VNull);
                              ("Description", VNull);
                              ("RelatedElements", VRefs [product]);
                              ("RelatingStructure", VRef container)] |})]
        /\ container_elements (model s1) container = [product]).
Proof.
  intros Hcount s1.
  assert (Hafter : forall relation rest,
             ContainsElements (model s1) container = relation :: rest ->
             In product (RelatedElements (model s1) relation) ->
             attach_to_container s1 container product = s1).
  { intros relation rest Hc Hin. unfold attach_to_container at 1. rewrite Hc.
    apply existsb_eqb_In in Hin. now rewrite Hin. }
  destruct (ContainsElements (model s) container) as [|relation rest] eqn:Hc.
  - destruct (attach_created s container product Hc) as (Hm & Hc1 & Hr1).
    fold s1 in Hm, Hc1, Hr1.
    assert (He : container_elements (model s1) container = [product]).
    { unfold container_elements. now rewrite Hc1. }
    split; [|split; [|split]].
    + apply (Hafter _ _ Hc1). rewrite Hr1. now left.
    + rewrite He. simpl. destruct (Nat.eq_dec product product); [lia | congruence].
    + discriminate.
    + intros _. now split.
  - destruct (attach_existing s container product Hc) as (Hc1 & Hr1).
    fold s1 in Hc1, Hr1.
    unfold container_elements in Hcount. rewrite Hc in Hcount.
    set (old := RelatedElements (model s) relation) in *.
    assert (Hin1 : In product (RelatedElements (model s1) relation)).
    { rewrite Hr1. destruct (existsb (Nat.eqb product) old) eqn:Hin.
      - now apply existsb_eqb_In.
      - apply in_or_app. right. now left. }
    split; [|split; [|split]].
    + now apply (Hafter _ _ Hc1).
    + unfold container_elements. rewrite Hc1, Hr1.
      destruct (existsb (Nat.eqb product) old) eqn:Hin.
      * apply existsb_eqb_In in Hin.
        apply (count_occ_In Nat.eq_dec) in Hin. lia.
      * rewrite count_occ_snoc.
        assert (Hnot : ~ In product old).
        { intros Hp. apply existsb_eqb_In in Hp. congruence. }
        apply (count_occ_not_In Nat.eq_dec) in Hnot. lia.
    + intros relation0 rest0 [= <- <-]. now split.
    + discriminate.
Qed.

End AttachFacts.

Lemma attach_to_container_once_witness :
  count_occ Nat.eq_dec (container_elements (model migrated_example) 6) 9 <= 1
  /\ attach_to_container (attach_to_container migrated_example 6 9) 6 9
     = attach_to_container migrated_example 6 9
  /\ container_elements (model (attach_to_container migrated_example 6 9)) 6 = [7; 9].
Proof.
  split; [vm_compute; lia|]. split; [|vm_compute; reflexivity].
  apply (attach_to_container_once migrated_example 6 9).
  vm_compute. lia.
Defined.

(** ** Owner-history harmonisation *)

Section HarmonizeFacts.
Context {schema : Schema} {guid : GuidSource}.

Lemma get_attr_detach (h : handle) (e : entity) (name : string) :
  get_attr (detach h e) name = detach_value h (get_attr e name).
Proof.
  unfold get_attr, detach; simpl.
  induction (attributes e) as [|a attrs IH]; simpl; [reflexivity|].
  destruct (String.eqb (fst a) name); [reflexivity | exact IH].
Qed.

Lemma by_id_remove (m : file) (h h' : handle) :
  h' <> h -> by_id (remove m h) h' = option_map (detach h) (by_id m h').
Proof.
  intros Hne. unfold by_id, remove.
  induction m as [|[k e] m IH]; simpl; [reflexivity|].
  destruct (Nat.eqb_spec k h) as [->|Hk]; simpl.
  - destruct (Nat.eqb_spec h h'); [congruence | exact IH].
  - destruct (Nat.eqb k h'); [reflexivity | exact IH].
Qed.

Lemma names_in_chain_detach (toh h : handle) (e : entity) :
  names_in_chain toh (detach h e) = true -> names_in_chain toh e = true.
Proof.
  unfold names_in_chain. rewrite !existsb_exists.
  intros [name [Hin Hv]]. exists name. split; [exact Hin|].
  rewrite get_attr_detach in Hv.
  destruct (get_attr e name) as [| | |r|rs]; simpl in Hv; try discriminate.
  destruct (Nat.eqb r h); [discriminate | exact Hv].
Qed.

Lemma names_in_chain_retarget (toh : handle) (e : entity) (v : value) :
  names_in_chain toh (set_attr e "OwnerHistory" v) = names_in_chain toh e.
Proof.
  unfold names_in_chain, chain_attributes. simpl.
  rewrite !get_attr_set_other by discriminate. reflexivity.
Qed.

Lemma outside_chain_remove (m : file) (toh h : handle) :
  outside_chain m toh = true -> outside_chain (remove m h) toh = true.
Proof.
  unfold outside_chain, remove. rewrite !forallb_forall.
  intros Hall p Hin. apply in_map_iff in Hin as [q [<- Hq]].
  apply filter_In in Hq as [Hq _]. specialize (Hall q Hq). simpl.
  destruct (names_in_chain toh (detach h (snd q))) eqn:E; [|reflexivity].
  apply names_in_chain_detach in E. now rewrite E in Hall.
Qed.

Lemma outside_chain_retarget (m : file) (toh h : handle) (v : value) :
  outside_chain m toh = true ->
  outside_chain (update m h (fun x => set_attr x "OwnerHistory" v)) toh = true.
Proof.
  unfold outside_chain, update. rewrite !forallb_forall.
  intros Hall p Hin. apply in_map_iff in Hin as [q [<- Hq]].
  specialize (Hall q Hq).
  destruct (Nat.eqb (fst q) h); [|exact Hall].
  simpl. now rewrite names_in_chain_retarget.
Qed.

Lemma chain_reference_differs (m : file) (toh h r : handle) (name : string) :
  outside_chain m toh = true ->
  In name chain_attributes ->
  ref_attr m h name = Some r ->
  r <> toh.
Proof.
  intros Hout Hname Href. unfold ref_attr in Href.
  destruct (by_id m h) as [e|] eqn:He; [|discriminate].
  apply by_id_in in He.
  unfold outside_chain in Hout. rewrite forallb_forall in Hout.
  specialize (Hout _ He). simpl in Hout. apply negb_true_iff in Hout.
  intros ->.
  destruct (get_attr e name) as [| | |r'|] eqn:Hv; try discriminate.
  injection Href as ->.
  assert (Hex : names_in_chain toh e = true).
  { unfold names_in_chain. apply existsb_exists. exists name.
    split; [exact Hname|]. rewrite Hv. apply Nat.eqb_refl. }
  congruence.
Qed.

Lemma keeps_record_remove (toh h : handle) (role : chain_role) (s : session) :
  h <> toh -> keeps_record toh (model s) ->
  keeps_record toh (model (model_remove role h s)).
Proof.
  intros Hne [Hin Hout]. split; simpl.
  - rewrite by_id_remove by congruence.
    destruct (by_id (model s) toh); [discriminate | congruence].
  - now apply outside_chain_remove.
Qed.

Lemma keeps_record_orphan (toh : handle) (role : chain_role) (s : session)
    (entity : option handle) :
  (forall h, entity = Some h -> h <> toh) ->
  keeps_record toh (model s) ->
  keeps_record toh (model (remove_if_orphan role s entity)).
Proof.
  intros Hne Hk. unfold remove_if_orphan.
  destruct entity as [h|]; [|exact Hk].
  destruct (get_inverse (model s) h); [|exact Hk].
  apply keeps_record_remove; [now apply Hne | exact Hk].
Qed.

Lemma keeps_record_obsolete (toh : handle) (s : session) (owner_history : handle) :
  keeps_record toh (model s) ->
  keeps_record toh (model (remove_obsolete toh s owner_history)).
Proof.
  intros Hk. unfold remove_obsolete.
  destruct (Nat.eqb_spec owner_history toh) as [|Hne]; [exact Hk|].
  destruct (get_inverse (model s) owner_history); [|exact Hk].
  destruct Hk as [Hin Hout].
  assert (Hchain : forall h name r, In name chain_attributes ->
                     ref_attr (model s) h name = Some r -> r <> toh).
  { intros h name r Hname Href.
    eapply chain_reference_differs; eassumption. }
  repeat apply keeps_record_orphan.
  - intros h Hh. destruct (ref_attr (model s) owner_history "OwningUser") as [u|];
      [|discriminate].
    apply (Hchain u "TheOrganization" h); [simpl; tauto | exact Hh].
  - intros h Hh. destruct (ref_attr (model s) owner_history "OwningUser") as [u|];
      [|discriminate].
    apply (Hchain u "ThePerson" h); [simpl; tauto | exact Hh].
  - intros h Hh. apply (Hchain owner_history "OwningUser" h); [simpl; tauto | exact Hh].
  - intros h Hh.
    apply (Hchain owner_history "OwningApplication" h); [simpl; tauto | exact Hh].
  - apply keeps_record_remove; [exact Hne | now split].
Qed.

Lemma keeps_record_retarget (toh : handle) (entities : list handle) (m : file)
    (acc : list handle) :
  keeps_record toh m ->
  keeps_record toh (fst (retarget_loop toh entities m acc)).
Proof.
  revert m acc; induction entities as [|x entities IH]; intros m acc Hk; simpl;
    [exact Hk|].
  destruct (by_id m x) as [e|]; [|now apply IH].
  destruct (is_a e "IfcRoot"); [|now apply IH].
  apply IH. destruct Hk as [Hin Hout]. split.
  - rewrite by_id_update. destruct (Nat.eqb toh x); [|exact Hin].
    destruct (by_id m toh); [discriminate | congruence].
  - now apply outside_chain_retarget.
Qed.

(** C5: the harmonizer leaves the target model's own owner-history record
    in the model, whatever the migrated records look like and in whatever
    order the collected set is visited. *)
Theorem harmonize_keeps_target_owner_history
    (iteration : list handle -> list handle) (s : session) (toh : handle) :
  by_id (model s) toh <> None ->
  outside_chain (model s) toh = true ->
  by_id (model (harmonize_migrated_owner_history iteration s (Some toh))) toh <> None.
Proof.
  intros Hin Hout. unfold harmonize_migrated_owner_history.
  pose proof (@keeps_record_retarget toh (migrated_entities s) (model s) []
                (conj Hin Hout)) as Hk.
  destruct (retarget_loop toh (migrated_entities s) (model s) []) as [m1 histories].
  simpl in Hk.
  assert (Hfold : forall l s0, keeps_record toh (model s0) ->
                    keeps_record toh (model (fold_left (remove_obsolete toh) l s0))).
  { induction l as [|x l IH]; intros s0 H0; simpl; [exact H0|].
    apply IH. now apply keeps_record_obsolete. }
  apply (Hfold (iteration histories) (with_model s m1) Hk).
Qed.

End HarmonizeFacts.

Lemma harmonize_keeps_target_owner_history_witness :
  by_id (model twin_record_example) 5 <> None
  /\ outside_chain (model twin_record_example) 5 = true
  /\ by_id (model (harmonize_migrated_owner_history (fun l => l)
                     twin_record_example (Some 5))) 5 <> None
  /\ map fst (model (harmonize_migrated_owner_history (fun l => l)
                       twin_record_example (Some 5)))
     = [1; 2; 3; 4; 5; 6; 7; 8; 9].
Proof.
  split; [|split; [|split]].
  - vm_compute. discriminate.
  - vm_compute. reflexivity.
  - apply (@harmonize_keeps_target_owner_history ifc4_fragment (fun l => l)
             twin_record_example 5).
    + vm_compute. discriminate.
    + vm_compute. reflexivity.
  - vm_compute. reflexivity.
Defined.

Section CascadeFacts.
Context {schema : Schema} {guid : GuidSource}.

Lemma remove_if_orphan_history (role : chain_role) (s : session)
    (entity : option handle) :
  exists evs,
    removals (remove_if_orphan role s entity) = removals s ++ evs
    /\ orphan_removals evs
    /\ (map removed_as evs = [] \/ map removed_as evs = [role])
    /\ Forall (fun ev => removed_as ev = role /\ entity = Some (removed_entity ev)) evs.
Proof.
  unfold remove_if_orphan.
  destruct entity as [h|].
  - destruct (get_inverse (model s) h) eqn:Hinv.
    + eexists. split; [reflexivity|]. split; [|split].
      * constructor; [exact Hinv | constructor].
      * now right.
      * constructor; [now split | constructor].
    + exists []. rewrite app_nil_r.
      split; [reflexivity|]. split; [constructor|]. split; [now left | constructor].
  - exists []. rewrite app_nil_r.
    split; [reflexivity|]. split; [constructor|]. split; [now left | constructor].
Qed.

Lemma cascade_from_app (previous : nat) (a b : list chain_role) :
  cascade_from previous a = true ->
  cascade_ordered b = true ->
  cascade_from previous (a ++ b) = true.
Proof.
  revert previous; induction a as [|r a IH]; intros previous Ha Hb; simpl.
  - destruct b as [|r b]; [reflexivity|].
    simpl in Hb |- *. apply andb_true_iff in Hb as [Hr Hb].
    rewrite Hr. apply Nat.eqb_eq in Hr. now rewrite Hr.
  - simpl in Ha. apply andb_true_iff in Ha as [Hr Ha].
    rewrite Hr. simpl. now apply IH.
Qed.

Lemma cascade_ordered_app (a b : list chain_role) :
  cascade_ordered a = true -> cascade_ordered b = true ->
  cascade_ordered (a ++ b) = true.
Proof.
  intros Ha Hb. destruct a as [|r a]; [exact Hb|].
  simpl in Ha |- *. apply andb_true_iff in Ha as [Hr Ha].
  rewrite Hr. simpl. now apply cascade_from_app.
Qed.

Lemma remove_obsolete_history (toh : handle) (s : session) (owner_history : handle) :
  exists evs,
    removals (remove_obsolete toh s owner_history) = removals s ++ evs
    /\ orphan_removals evs
    /\ cascade_ordered (map removed_as evs) = true
    /\ Forall (in_chain (model s) owner_history) evs.
Proof.
  unfold remove_obsolete.
  destruct (Nat.eqb owner_history toh).
  { exists []. rewrite app_nil_r. repeat split; constructor. }
  destruct (get_inverse (model s) owner_history) eqn:Hinv.
  2:{ exists []. rewrite app_nil_r. repeat split; constructor. }
  set (app := ref_attr (model s) owner_history "OwningApplication").
  set (user := ref_attr (model s) owner_history "OwningUser").
  set (person := match user with Some u => ref_attr (model s) u "ThePerson" | None => None end).
  set (org := match user with Some u => ref_attr (model s) u "TheOrganization" | None => None end).
  set (s1 := model_remove HistoryRecord owner_history s).
  destruct (remove_if_orphan_history ApplicationRecord s1 app) as (e2 & H2 & O2 & R2 & N2).
  set (s2 := remove_if_orphan ApplicationRecord s1 app) in *.
  destruct (remove_if_orphan_history UserRecord s2 user) as (e3 & H3 & O3 & R3 & N3).
  set (s3 := remove_if_orphan UserRecord s2 user) in *.
  destruct (remove_if_orphan_history PersonRecord s3 person) as (e4 & H4 & O4 & R4 & N4).
  set (s4 := remove_if_orphan PersonRecord s3 person) in *.
  destruct (remove_if_orphan_history OrganizationRecord s4 org) as (e5 & H5 & O5 & R5 & N5).
  exists ({| removed_entity := owner_history; removed_as := HistoryRecord;
             referrers_then := get_inverse (model s) owner_history |}
          :: e2 ++ e3 ++ e4 ++ e5).
  split; [|split; [|split]].
  - rewrite H5, H4, H3, H2. unfold s1; simpl.
    rewrite <- !app_assoc. reflexivity.
  - constructor; [exact Hinv|].
    unfold orphan_removals in *. rewrite !Forall_app. tauto.
  - simpl. rewrite !map_app.
    destruct R2 as [-> | ->], R3 as [-> | ->], R4 as [-> | ->], R5 as [-> | ->];
      reflexivity.
  - constructor; [left; reflexivity|].
    rewrite !Forall_app. repeat split.
    + eapply Forall_impl; [|exact N2]. intros ev [Hr He].
      unfold in_chain, chain_of. rewrite Hr, <- He. right; left. reflexivity.
    + eapply Forall_impl; [|exact N3]. intros ev [Hr He].
      unfold in_chain, chain_of. rewrite Hr, <- He. do 2 right; left. reflexivity.
    + eapply Forall_impl; [|exact N4]. intros ev [Hr He].
      unfold in_chain, chain_of. rewrite Hr, <- He. do 3 right; left. reflexivity.
    + eapply Forall_impl; [|exact N5]. intros ev [Hr He].
      unfold in_chain, chain_of. rewrite Hr, <- He. do 4 right; left. reflexivity.
Qed.

(** C6: every removal the harmonizer makes is of an entity that
    [get_inverse] found without referrer in the model the removal was made
    on, and the removals come in cascades: the owner-history record, then
    its application, its user, the person and the organization, in this
    order, each only when orphaned by then; a cascade removes nothing but
    the record and what it named. *)
Theorem harmonize_removes_only_orphans
    (iteration : list handle -> list handle) (s : session)
    (target_owner_history : option handle) :
  (exists evs,
     removals (harmonize_migrated_owner_history iteration s target_owner_history)
     = removals s ++ evs
     /\ Forall (fun ev => referrers_then ev = []) evs
     /\ cascade_ordered (map removed_as evs) = true)
  /\ (forall toh s0 owner_history,
        exists evs,
          removals (remove_obsolete toh s0 owner_history) = removals s0 ++ evs
          /\ Forall (fun ev => referrers_then ev = []) evs
          /\ cascade_ordered (map removed_as evs) = true
          /\ Forall (in_chain (model s0) owner_history) evs).
Proof.
  split; [|intros toh s0 oh; apply remove_obsolete_history].
  unfold harmonize_migrated_owner_history.
  destruct target_owner_history as [toh|].
  2:{ exists []. rewrite app_nil_r. repeat split. constructor. }
  destruct (retarget_loop toh (migrated_entities s) (model s) []) as [m1 histories].
  assert (Hfold : forall l s0, exists evs,
             removals (fold_left (remove_obsolete toh) l s0) = removals s0 ++ evs
             /\ orphan_removals evs
             /\ cascade_ordered (map removed_as evs) = true).
  { induction l as [|x l IH]; intros s0; simpl.
    - exists []. rewrite app_nil_r. repeat split. constructor.
    - destruct (remove_obsolete_history toh s0 x) as (e1 & H1 & O1 & C1 & _).
      destruct (IH (remove_obsolete toh s0 x)) as (e2 & H2 & O2 & C2).
      exists (e1 ++ e2). split; [|split].
      + rewrite H2, H1. now rewrite app_assoc.
      + unfold orphan_removals in *. rewrite Forall_app. tauto.
      + rewrite map_app. now apply cascade_ordered_app. }
  destruct (Hfold (iteration histories) (with_model s m1)) as (evs & H & O & C).
  exists evs. split; [exact H | split; [exact O | exact C]].
Qed.

End CascadeFacts.

(** ** Identifier refresh *)

Section RefreshFacts.
Context {schema : Schema} {guid : GuidSource}.

Lemma assign_twice (attrs : list (string * value)) (name : string) (v w : value) :
  assign (assign attrs name v) name w = assign attrs name w.
Proof.
  induction attrs as [|a attrs IH]; simpl.
  - now rewrite String.eqb_refl.
  - destruct (String.eqb (fst a) name) eqn:E; simpl.
    + now rewrite String.eqb_refl.
    + now rewrite E, IH.
Qed.

Lemma set_attr_twice (e : entity) (name : string) (v w : value) :
  set_attr (set_attr e name v) name w = set_attr e name w.
Proof. unfold set_attr; simpl. now rewrite assign_twice. Qed.

Lemma is_root_update (m : file) (t h : handle) (name : string) (v : value) :
  is_root (update m t (fun e => set_attr e name v)) h = is_root m h.
Proof.
  unfold is_root. rewrite by_id_update.
  destruct (Nat.eqb h t); [|reflexivity].
  now destruct (by_id m h).
Qed.

Lemma stamp_of_ext (m m' : file) (l : list handle) (n : nat) (h : handle) :
  (forall x, is_root m' x = is_root m x) ->
  stamp_of m' l n h = stamp_of m l n h.
Proof.
  intros Hext. revert n; induction l as [|t l IH]; intros n; simpl; [reflexivity|].
  rewrite Hext. destruct (is_root m t); rewrite IH; reflexivity.
Qed.

Lemma stamp_of_bounds (m : file) (l : list handle) (n k : nat) (h : handle) :
  stamp_of m l n h = Some k ->
  n <= k < n + List.length (filter (is_root m) l).
Proof.
  revert n; induction l as [|t l IH]; intros n; simpl; [discriminate|].
  destruct (is_root m t); simpl.
  - destruct (stamp_of m l (S n) h) as [k'|] eqn:E.
    + intros [= <-]. apply IH in E. lia.
    + destruct (Nat.eqb t h); [intros [= <-]; lia | discriminate].
  - intros E. now apply IH in E.
Qed.

Lemma stamp_of_total (m : file) (l : list handle) (n : nat) (h : handle) :
  In h l -> is_root m h = true -> exists k, stamp_of m l n h = Some k.
Proof.
  revert n; induction l as [|t l IH]; intros n Hin Hroot; simpl; [contradiction|].
  destruct (is_root m t) eqn:Ht.
  - destruct (stamp_of m l (S n) h) as [k|] eqn:E; [now exists k|].
    destruct Hin as [->|Hin].
    + rewrite Nat.eqb_refl. now exists n.
    + destruct (IH (S n) Hin Hroot) as [k Hk]. congruence.
  - destruct Hin as [->|Hin]; [congruence | now apply IH].
Qed.

Lemma stamp_of_injective (m : file) (l : list handle) (n k : nat) (h1 h2 : handle) :
  stamp_of m l n h1 = Some k -> stamp_of m l n h2 = Some k -> h1 = h2.
Proof.
  revert n; induction l as [|t l IH]; intros n; simpl; [discriminate|].
  destruct (is_root m t); [|apply IH].
  destruct (stamp_of m l (S n) h1) as [k1|] eqn:E1,
           (stamp_of m l (S n) h2) as [k2|] eqn:E2.
  - intros [= <-] [= <-]. exact (IH _ E1 E2).
  - intros [= <-]. apply stamp_of_bounds in E1.
    destruct (Nat.eqb t h2); [intros [= <-]; lia | discriminate].
  - apply stamp_of_bounds in E2.
    destruct (Nat.eqb t h1); [intros [= <-] [= <-]; lia | discriminate].
  - destruct (Nat.eqb_spec t h1), (Nat.eqb_spec t h2); try discriminate.
    intros _ _. congruence.
Qed.

Lemma refresh_loop_cons (t : handle) (l : list handle) (s : session) :
  refresh_loop (t :: l) s
  = if is_root (model s) t
    then refresh_loop l
           (with_model (snd (guid_new s))
              (update (model s) t
                 (fun e => set_attr e "GlobalId" (VStr (guid_of_call (guid_calls s))))))
    else refresh_loop l s.
Proof.
  simpl. unfold is_root.
  destruct (by_id (model s) t) as [e|]; [|reflexivity].
  destruct (is_a e "IfcRoot"); reflexivity.
Qed.

(** What the loop leaves in the model and how many identifiers it draws. *)
Lemma refresh_loop_spec (l : list handle) (s : session) :
  guid_calls (refresh_loop l s)
  = guid_calls s + List.length (filter (is_root (model s)) l)
  /\ forall h,
       by_id (model (refresh_loop l s)) h
       = match stamp_of (model s) l (guid_calls s) h with
         | Some k => option_map (fun e => set_attr e "GlobalId" (VStr (guid_of_call k)))
                                (by_id (model s) h)
         | None => by_id (model s) h
         end.
Proof.
  revert s; induction l as [|t l IH]; intros s.
  - simpl. split; [lia | reflexivity].
  - rewrite refresh_loop_cons. cbn [filter stamp_of].
    destruct (is_root (model s) t) eqn:Hroot; [|apply IH].
    set (s1 := with_model _ _).
    destruct (IH s1) as [Hcalls Hid].
    assert (Hext : forall x, is_root (model s1) x = is_root (model s) x).
    { intros x. unfold s1; simpl. apply is_root_update. }
    assert (Hn1 : guid_calls s1 = S (guid_calls s)) by reflexivity.
    assert (Hm1 : forall h, by_id (model s1) h
                  = if Nat.eqb h t
                    then option_map
                           (fun e => set_attr e "GlobalId"
                                       (VStr (guid_of_call (guid_calls s))))
                           (by_id (model s) h)
                    else by_id (model s) h).
    { intros h. unfold s1; simpl. apply by_id_update. }
    split.
    + rewrite Hcalls, Hn1, (filter_ext _ _ Hext). simpl. lia.
    + intros h. rewrite Hid, (@stamp_of_ext _ _ _ _ _ Hext), Hn1, Hm1.
      destruct (stamp_of (model s) l (S (guid_calls s)) h) as [k|].
      * destruct (Nat.eqb h t); [|reflexivity].
        destruct (by_id (model s) h); simpl; [|reflexivity].
        now rewrite set_attr_twice.
      * rewrite (Nat.eqb_sym t h). now destruct (Nat.eqb h t).
Qed.

Lemma global_id_in (m : file) (h : handle) :
  In h (map fst m) -> In (global_id m h) (global_ids m).
Proof.
  intros Hin. apply by_id_some_of_in in Hin as [e He].
  unfold global_id, global_ids. rewrite He. apply by_id_in in He.
  now apply (in_map (fun p => get_attr (snd p) "GlobalId")) in He.
Qed.

(** C4: after the refresh, every root entity of the manifest carries an
    identifier drawn during the refresh; with an identifier source that
    never repeats and whose further identifiers occur in neither model,
    that identifier is absent from the source model and no other entity of
    the target model carries it. *)
Theorem refreshed_root_guids_are_fresh (source : file) (s : session) (t : handle) :
  (forall i j, guid_of_call i = guid_of_call j -> i = j) ->
  (forall k, guid_calls s <= k -> ~ In (VStr (guid_of_call k)) (global_ids source)) ->
  (forall k, guid_calls s <= k -> ~ In (VStr (guid_of_call k)) (global_ids (model s))) ->
  In t (map snd (migrated_ids s)) ->
  is_root (model s) t = true ->
  let s' := refresh_migrated_root_guids s in
  exists k,
    guid_calls s <= k < guid_calls s'
    /\ global_id (model s') t = VStr (guid_of_call k)
    /\ ~ In (global_id (model s') t) (global_ids source)
    /\ forall h, h <> t -> In h (map fst (model s')) ->
                 global_id (model s') h <> global_id (model s') t.
Proof.
  intros Hinj Hsrc Htgt Hin Hroot s'.
  destruct (refresh_loop_spec (map snd (migrated_ids s)) s) as [Hcalls Hid].
  fold (refresh_migrated_root_guids s) in Hcalls, Hid. fold s' in Hcalls, Hid.
  destruct (stamp_of_total (model s) (map snd (migrated_ids s)) (guid_calls s) t Hin Hroot)
    as [k Hk].
  pose proof (stamp_of_bounds _ _ _ _ Hk) as Hb.
  assert (Hgt : global_id (model s') t = VStr (guid_of_call k)).
  { unfold global_id. rewrite Hid, Hk.
    unfold is_root in Hroot.
    destruct (by_id (model s) t); [|discriminate].
    simpl. apply get_attr_set_same. }
  exists k. split; [lia|]. split; [exact Hgt|]. split.
  - rewrite Hgt. apply Hsrc. lia.
  - intros h Hne Hh. rewrite Hgt.
    assert (Hh0 : In h (map fst (model s))).
    { destruct (by_id_some_of_in _ _ Hh) as [e' He'].
      rewrite Hid in He'.
      destruct (by_id (model s) h) as [e0|] eqn:He0.
      - apply by_id_in in He0. now apply (in_map fst) in He0.
      - destruct (stamp_of _ _ _ h); discriminate. }
    unfold global_id. rewrite Hid.
    destruct (stamp_of (model s) (map snd (migrated_ids s)) (guid_calls s) h)
      as [k'|] eqn:Hk'.
    + destruct (by_id_some_of_in _ _ Hh0) as [e0 He0]. rewrite He0. simpl.
      rewrite get_attr_set_same. intros [= Heq].
      apply Hinj in Heq. subst k'.
      apply Hne. exact (stamp_of_injective _ _ _ _ _ Hk' Hk).
    + intros Heq.
      apply (Htgt k); [lia|]. rewrite <- Heq.
      now apply global_id_in.
Qed.

End RefreshFacts.

Lemma strokes_injective (i j : nat) : strokes i = strokes j -> i = j.
Proof.
  revert j; induction i as [|i IH]; intros [|j]; simpl; try discriminate.
  - reflexivity.
  - intros [= H]. f_equal. now apply IH.
Qed.

Lemma stroke_guids_never_repeat (i j : nat) :
  guid_of_call i = guid_of_call j -> i = j.
Proof. simpl. intros [= H]. now apply strokes_injective. Qed.

Lemma stroke_guids_not_in_donor (k : nat) :
  ~ In (VStr (guid_of_call k)) (global_ids donor_example).
Proof.
  simpl. intros H.
  repeat (destruct H as [H|H]; [discriminate H|]). exact H.
Qed.

Lemma stroke_guids_not_in_segment (k : nat) :
  ~ In (VStr (guid_of_call k)) (global_ids (model migrated_example)).
Proof.
  simpl. intros H.
  repeat (destruct H as [H|H]; [discriminate H|]). exact H.
Qed.

Lemma refreshed_root_guids_are_fresh_witness :
  In 9 (map snd (migrated_ids migrated_example))
  /\ is_root (model migrated_example) 9 = true
  /\ exists k,
       guid_calls migrated_example <= k
         < guid_calls (refresh_migrated_root_guids migrated_example)
       /\ global_id (model (refresh_migrated_root_guids migrated_example)) 9
          = VStr (guid_of_call k)
       /\ ~ In (global_id (model (refresh_migrated_root_guids migrated_example)) 9)
               (global_ids donor_example)
       /\ forall h, h <> 9 ->
            In h (map fst (model (refresh_migrated_root_guids migrated_example))) ->
            global_id (model (refresh_migrated_root_guids migrated_example)) h
            <> global_id (model (refresh_migrated_root_guids migrated_example)) 9.
Proof.
  split; [|split].
  - simpl. tauto.
  - vm_compute. reflexivity.
  - apply (@refreshed_root_guids_are_fresh ifc4_fragment stroke_guids
             donor_example migrated_example 9).
    + exact stroke_guids_never_repeat.
    + intros k _. apply stroke_guids_not_in_donor.
    + intros k _. apply stroke_guids_not_in_segment.
    + simpl. tauto.
    + vm_compute. reflexivity.
Defined.

(** ** Exit status of the command-line tool *)

(** C2 fails as stated: with one candidate and selection index 1 the
    solver's invalid-index error leaves [main] uncaught and the process
    status is 1, not 2. *)
Lemma index_equal_to_count_exits_with_1 :
  main scenario_environment (scenario_arguments 1) = Uncaught InvalidIndexError
  /\ exit_code (main scenario_environment (scenario_arguments 1)) <> 2%Z.
Proof. split; [vm_compute; reflexivity | vm_compute; discriminate]. Qed.

(** C2, amended: [main] returns 2 when the segment file or the antenna file
    is missing, when the elevation is not positive, and when the selected
    member is in no spatial structure; it returns 0 exactly when the
    placement is found, the member is contained and the rest of the
    pipeline completes; an error of the placement solver (no candidate,
    index out of range) is not caught and ends the process with status 1. *)
Theorem main_exit_status (F : Type) (SF : Scalar F)
    (env : Environment (F:=F)) (args : Namespace (F:=F)) :
  (path_exists env (segment_ifc args) = false -> main env args = Returned 2)
  /\ (path_exists env (antenna_ifc args) = false -> main env args = Returned 2)
  /\ (fleb (height_m args) f_zero = true -> main env args = Returned 2)
  /\ (inputs_accepted env args = true ->
      forall e,
        compute_leg_placement (segment_columns env)
          (fdiv (height_m args) (unit_scale_to_si env)) (leg_index args) = Raise e ->
        main env args = Uncaught e /\ exit_code (main env args) = 1%Z)
  /\ (inputs_accepted env args = true ->
      forall p,
        compute_leg_placement (segment_columns env)
          (fdiv (height_m args) (unit_scale_to_si env)) (leg_index args) = Ok p ->
        ContainedInStructure (leg p) = [] ->
        main env args = Returned 2)
  /\ (exit_code (main env args) = 0%Z <->
      inputs_accepted env args = true
      /\ exists p,
           compute_leg_placement (segment_columns env)
             (fdiv (height_m args) (unit_scale_to_si env)) (leg_index args) = Ok p
           /\ ContainedInStructure (leg p) <> []
           /\ insert_and_write env p = Ok tt).
Proof.
  unfold main, inputs_accepted.
  split; [intros ->; reflexivity|].
  split; [intros ->; now destruct (path_exists env (segment_ifc args))|].
  split; [intros ->; now destruct (path_exists env (segment_ifc args)),
                                  (path_exists env (antenna_ifc args))|].
  destruct (path_exists env (segment_ifc args));
    [|cbn; split; [discriminate | split; [discriminate|]];
      split; [discriminate | intros [? _]; discriminate]].
  destruct (path_exists env (antenna_ifc args));
    [|cbn; split; [discriminate | split; [discriminate|]];
      split; [discriminate | intros [? _]; discriminate]].
  destruct (fleb (height_m args) f_zero);
    [cbn; split; [discriminate | split; [discriminate|]];
      split; [discriminate | intros [? _]; discriminate]|].
  destruct (feqb (unit_scale_to_si env) f_zero);
    [cbn; split; [discriminate | split; [discriminate|]];
      split; [discriminate | intros [? _]; discriminate]|].
  cbn [negb andb].
  destruct (compute_leg_placement _ _ _) as [p|e].
  - split; [intros _ e; discriminate|].
    destruct (ContainedInStructure (leg p)) eqn:Hc.
    + split; [reflexivity|]. split; [discriminate|].
      intros (_ & q & [= <-] & Hne & _). congruence.
    + split; [intros _ q [= <-]; rewrite Hc; discriminate|].
      destruct (insert_and_write env p) as [[]|e] eqn:Hi.
      * split; [intros _; split; [reflexivity|]|reflexivity].
        exists p. rewrite Hc, Hi. repeat split. discriminate.
      * split; [discriminate|].
        intros (_ & q & [= <-] & _ & Hq). congruence.
  - split; [intros _ e' [= <-]; now split|].
    split; [intros _ q; discriminate|].
    split; [discriminate|].
    intros (_ & q & Hq & _). discriminate.
Qed.

Lemma main_exit_status_witness :
  inputs_accepted scenario_environment (scenario_arguments 1) = true
  /\ main scenario_environment (scenario_arguments 1) = Uncaught InvalidIndexError
  /\ exit_code (main scenario_environment (scenario_arguments 1)) = 1%Z.
Proof.
  split; [vm_compute; reflexivity|].
  apply (proj1 (proj2 (proj2 (proj2
           (@main_exit_status _ _ scenario_environment (scenario_arguments 1)))))).
  - vm_compute. reflexivity.
  - vm_compute. reflexivity.
Defined.

(** ** The migrator's identity cache *)

Section MigratorFacts.
Context {schema : Schema} {guid : GuidSource}.

Lemma dict_get_set (d : list (handle * handle)) (k v k' : handle) :
  dict_get (dict_set d k v) k' = if Nat.eqb k k' then Some v else dict_get d k'.
Proof.
  induction d as [|[k0 v0] d IH]; simpl.
  - reflexivity.
  - destruct (Nat.eqb_spec k0 k) as [->|Hne]; simpl.
    + now destruct (Nat.eqb k k').
    + destruct (Nat.eqb_spec k0 k') as [->|Hne'].
      * destruct (Nat.eqb_spec k k'); [congruence | reflexivity].
      * exact IH.
Qed.

Lemma grows_refl (s : session) : grows s s.
Proof. split; [|split]; auto. Qed.

Lemma grows_trans (s1 s2 s3 : session) : grows s1 s2 -> grows s2 s3 -> grows s1 s3.
Proof.
  intros (A1 & B1 & C1) (A2 & B2 & C2). split; [|split]; auto.
Qed.

Lemma grows_around_refl (t : handle) (s : session) : grows_around t s s.
Proof. split; [|split]; auto. Qed.

Lemma grows_around_trans (t : handle) (s1 s2 s3 : session) :
  grows_around t s1 s2 -> grows_around t s2 s3 -> grows_around t s1 s3.
Proof.
  intros (A1 & B1 & C1) (A2 & B2 & C2). split; [|split]; auto.
Qed.

Lemma grows_grows_around (t : handle) (s s' : session) :
  grows s s' -> grows_around t s s'.
Proof. intros (A & B & C). split; [|split]; auto. Qed.

Lemma set_target_attr_grows (t : handle) (name : string) (v : value)
    (s s' : session) (u : unit) :
  set_target_attr t name v s = Some (u, s') -> grows_around t s s'.
Proof.
  unfold set_target_attr. intros [= _ <-]. split; [|split]; auto.
  intros h e Hne He. simpl. rewrite by_id_update.
  destruct (Nat.eqb_spec h t); [congruence | exact He].
Qed.

Section AnyMigrator.
Variable migrate_entity : handle -> M handle.
Hypothesis migrate_entity_grows :
  forall h s t s', migrate_entity h s = Some (t, s') -> grows s s'.

Lemma migrate_refs_grows (hs : list handle) (s s' : session) (ts : list handle) :
  migrate_refs migrate_entity hs s = Some (ts, s') -> grows s s'.
Proof.
  revert s ts; induction hs as [|h hs IH]; intros s ts; simpl.
  - intros [= _ <-]. apply grows_refl.
  - unfold mbind.
    destruct (migrate_entity h s) as [[t s1]|] eqn:E1; [|discriminate].
    destruct (migrate_refs migrate_entity hs s1) as [[ts' s2]|] eqn:E2; [|discriminate].
    intros [= _ <-].
    eapply grows_trans; [eapply migrate_entity_grows; eassumption | eapply IH; eassumption].
Qed.

Lemma migrate_value_grows (v v' : value) (s s' : session) :
  migrate_value migrate_entity v s = Some (v', s') -> grows s s'.
Proof.
  destruct v as [| | |h|hs]; simpl; unfold ret, mbind;
    try (intros [= _ <-]; apply grows_refl).
  - destruct (migrate_entity h s) as [[t s1]|] eqn:E; [|discriminate].
    intros [= _ <-]. eapply migrate_entity_grows; eassumption.
  - destruct (migrate_refs migrate_entity hs s) as [[ts s1]|] eqn:E; [|discriminate].
    intros [= _ <-]. eapply migrate_refs_grows; eassumption.
Qed.

Lemma migrate_attributes_grows (target : handle) (attrs : list (string * value))
    (s s' : session) (u : unit) :
  migrate_attributes migrate_entity target attrs s = Some (u, s') ->
  grows_around target s s'.
Proof.
  revert s; induction attrs as [|a attrs IH]; intros s; simpl.
  - intros [= _ <-]. apply grows_around_refl.
  - unfold mbind.
    destruct (migrate_value migrate_entity (snd a) s) as [[v s1]|] eqn:E1; [|discriminate].
    destruct (set_target_attr target (fst a) v s1) as [[[] s2]|] eqn:E2; [|discriminate].
    intros E3.
    eapply grows_around_trans.
    { apply grows_grows_around. eapply migrate_value_grows; eassumption. }
    eapply grows_around_trans.
    { eapply set_target_attr_grows; eassumption. }
    eapply IH; eassumption.
Qed.

End AnyMigrator.

Lemma cache_consistent_clone (s : session) (element t : handle) (m : file) :
  dict_get (migrated_ids s) element = None ->
  cache_consistent s ->
  cache_consistent {| model := m;
                      migrated_ids := dict_set (migrated_ids s) element t;
                      guid_calls := guid_calls s;
                      cloned := cloned s ++ [(element, t)];
                      removals := removals s |}.
Proof.
  intros Hnone [Hnd Hiff]. split; simpl.
  - rewrite map_app. simpl. apply NoDup_app.
    + exact Hnd.
    + constructor; [intros [] | constructor].
    + intros k Hin [<-|[]].
      apply in_map_iff in Hin as [[k v] [Hk Hin]]. simpl in Hk; subst k.
      apply Hiff in Hin. congruence.
  - intros k v. rewrite dict_get_set, in_app_iff. simpl.
    destruct (Nat.eqb_spec element k) as [<-|Hne].
    + split.
      * intros [= <-]. right. now left.
      * intros [Hin|[[= <-]|[]]]; [|reflexivity].
        apply Hiff in Hin. congruence.
    + rewrite Hiff. split; [tauto|].
      intros [Hin|[[= Hk _]|[]]]; [exact Hin | congruence].
Qed.

(** A successful [migrate] only adds to the session and leaves its answer
    in the identity cache. *)
Lemma migrate_grows (source : file) (fuel : nat) :
  forall element s t s',
    migrate source fuel element s = Some (t, s') ->
    grows s s' /\ dict_get (migrated_ids s') element = Some t.
Proof.
  induction fuel as [|fuel IH]; intros element s t s'; simpl; [discriminate|].
  destruct (dict_get (migrated_ids s) element) as [t0|] eqn:Hget.
  - intros [= <- <-]. split; [apply grows_refl | exact Hget].
  - destruct (by_id source element) as [e|]; [|discriminate].
    set (s1 := {| model := _; migrated_ids := _; guid_calls := _;
                  cloned := _; removals := _ |}).
    destruct (migrate_attributes _ _ _ s1) as [[[] s2]|] eqn:Hattrs; [|discriminate].
    intros [= <- <-].
    apply migrate_attributes_grows in Hattrs;
      [|intros h0 sa ta sb Hm; exact (proj1 (IH _ _ _ _ Hm))].
    destruct Hattrs as (A & B & C).
    assert (Hcached : dict_get (migrated_ids s1) element = Some (fresh_handle (model s))).
    { unfold s1; simpl. now rewrite dict_get_set, Nat.eqb_refl. }
    split; [|now apply A].
    split; [|split].
    + intros k v Hk. apply A. unfold s1; simpl. rewrite dict_get_set.
      destruct (Nat.eqb_spec element k); [congruence | exact Hk].
    + intros h e0 He0. apply B.
      * intros ->. rewrite by_id_fresh in He0. discriminate.
      * unfold s1; simpl. now rewrite by_id_app, He0.
    + intros Hc. apply C. now apply cache_consistent_clone.
Qed.

Lemma migrate_again (source : file) (fuel fuel' : nat) (element : handle)
    (s s1 : session) (t : handle) :
  migrate source fuel element s = Some (t, s1) ->
  migrate source (S fuel') element s1 = Some (t, s1).
Proof.
  intros Hm. apply migrate_grows in Hm as [_ Hget].
  simpl. now rewrite Hget.
Qed.

End MigratorFacts.

(** ** The relationship rewirer *)

Section RewirerFacts.
Context {schema : Schema} {guid : GuidSource}.
Variable source_model : file.
Variable fuel : nat.
Variables source_antenna target_antenna : handle.

Lemma create_relation_spec (name : string) (owner_history : value) (rel : entity)
    (links : list (string * value)) (s s' : session) (h : handle) :
  create_relation name owner_history rel links s = Some (h, s') ->
  grows s s'
  /\ by_id (model s) h = None
  /\ by_id (model s') h
     = Some {| ifc_class := name;
               attributes := [("GlobalId", VStr (guid_of_call (guid_calls s)));
                              ("OwnerHistory", owner_history);
                              ("Name", get_attr rel "Name");
                              ("Description", get_attr rel "Description")] ++ links |}.
Proof.
  unfold create_relation. simpl. intros [= <- <-]. simpl.
  split; [|split].
  - split; [|split]; auto.
    intros h e He. simpl. now rewrite by_id_app, He.
  - apply by_id_fresh.
  - rewrite by_id_app, by_id_fresh. unfold by_id; simpl.
    now rewrite Nat.eqb_refl.
Qed.

Lemma related_loop_grows (objects acc res : list handle) (s s' : session) :
  related_loop source_model fuel source_antenna target_antenna objects acc s
  = Some (res, s') ->
  grows s s' /\ ((acc <> [] \/ In source_antenna objects) -> res <> []).
Proof.
  revert acc s; induction objects as [|x objects IH]; intros acc s; simpl.
  - intros [= <- <-]. split; [apply grows_refl|]. intros [H|[]]. exact H.
  - destruct (Nat.eqb_spec x source_antenna) as [->|Hne].
    + intros Hl. apply IH in Hl as [Hg Hres]. split; [exact Hg|].
      intros _. apply Hres. left. now destruct acc.
    + destruct (by_id source_model x) as [e|]; [|discriminate].
      destruct (is_a e "IfcTypeObject").
      * unfold mbind.
        destruct (migrate source_model fuel x s) as [[t s1]|] eqn:Hm; [|discriminate].
        intros Hl. apply IH in Hl as [Hg Hres].
        apply migrate_grows in Hm as [Hg1 _].
        split; [eapply grows_trans; eassumption|].
        intros _. apply Hres. left. now destruct acc.
      * intros Hl. apply IH in Hl as [Hg Hres]. split; [exact Hg|].
        intros [H|[H|H]]; [apply Hres; now left | congruence | apply Hres; now right].
Qed.

(** One step of the loop over the inverse relations. *)
Lemma rewire_spec (owner_history : value) (cache cache' : list (handle * handle))
    (relation : handle) (created : option handle) (s s' : session) :
  rewire source_model fuel source_antenna target_antenna owner_history cache relation s
  = Some ((cache', created), s') ->
  grows s s'
  /\ (forall h, created = Some h ->
        by_id (model s) h = None
        /\ by_id (model s') h <> None
        /\ forall m, associated_material source_model relation = Some m ->
             exists t, dict_get (migrated_ids s') m = Some t
                       /\ ref_attr (model s') h "RelatingMaterial" = Some t)
  /\ (forall m, associated_material source_model relation = Some m ->
        In source_antenna (related_objects_of source_model relation) ->
        created <> None).
Proof.
  unfold rewire, associated_material, related_objects_of.
  destruct (by_id source_model relation) as [rel|]; [|discriminate].
  destruct (is_a rel "IfcRelDefinesByType").
  { destruct (get_attr rel "RelatingType") as [| | |source_type|]; try discriminate.
    unfold mbind.
    destruct (dict_get cache source_type) as [target_type|].
    - unfold ret at 1.
      destruct (create_relation _ _ _ _ s) as [[h s1]|] eqn:Hc; [|discriminate].
      intros [= <- <- <-].
      apply create_relation_spec in Hc as (Hg & Hnew & Hh).
      split; [exact Hg|]. split; [|discriminate].
      intros h0 [= <-]. split; [exact Hnew|]. split; [congruence | discriminate].
    - destruct (migrate source_model fuel source_type s) as [[t s1]|] eqn:Hm;
        [|discriminate].
      unfold ret at 1.
      destruct (create_relation _ _ _ _ s1) as [[h s2]|] eqn:Hc; [|discriminate].
      intros [= <- <- <-].
      apply migrate_grows in Hm as [Hg1 _].
      apply create_relation_spec in Hc as (Hg & Hnew & Hh).
      split; [eapply grows_trans; eassumption|]. split; [|discriminate].
      intros h0 [= <-]. split; [|split; [congruence | discriminate]].
      destruct (by_id (model s) h) as [e|] eqn:He; [|reflexivity].
      apply (proj1 (proj2 Hg1)) in He. congruence. }
  destruct (is_a rel "IfcRelDefinesByProperties").
  { destruct (get_attr rel "RelatingPropertyDefinition") as [| | |source_pset|];
      try discriminate.
    unfold mbind.
    destruct (migrate source_model fuel source_pset s) as [[t s1]|] eqn:Hm;
      [|discriminate].
    destruct (create_relation _ _ _ _ s1) as [[h s2]|] eqn:Hc; [|discriminate].
    intros [= <- <- <-].
    apply migrate_grows in Hm as [Hg1 _].
    apply create_relation_spec in Hc as (Hg & Hnew & Hh).
    split; [eapply grows_trans; eassumption|]. split; [|discriminate].
    intros h0 [= <-]. split; [|split; [congruence | discriminate]].
    destruct (by_id (model s) h) as [e|] eqn:He; [|reflexivity].
    apply (proj1 (proj2 Hg1)) in He. congruence. }
  destruct (is_a rel "IfcRelAssociatesMaterial").
  2:{ intros [= <- <- <-]. split; [apply grows_refl|].
      split; [discriminate | discriminate]. }
  destruct (get_attr rel "RelatingMaterial") as [| | |source_material|];
    try discriminate.
  unfold mbind.
  destruct (migrate source_model fuel source_material s) as [[t s1]|] eqn:Hm;
    [|discriminate].
  destruct (related_loop _ _ _ _ _ _ s1) as [[related s2]|] eqn:Hl; [|discriminate].
  apply migrate_grows in Hm as [Hg1 Hcached].
  apply related_loop_grows in Hl as [Hg2 Hnonempty].
  destruct related as [|r0 related].
  - intros [= <- <- <-].
    split; [eapply grows_trans; eassumption|]. split; [discriminate|].
    intros m _ Hin. exfalso. apply Hnonempty; [now right | reflexivity].
  - destruct (create_relation _ _ _ _ s2) as [[h s3]|] eqn:Hc; [|discriminate].
    intros [= <- <- <-].
    apply create_relation_spec in Hc as (Hg3 & Hnew & Hh).
    split; [eapply grows_trans; [eapply grows_trans|]; eassumption|].
    split; [|discriminate].
    intros h0 [= <-]. split; [|split; [congruence|]].
    + destruct (by_id (model s) h) as [e|] eqn:He; [|reflexivity].
      apply (proj1 (proj2 Hg1)) in He. apply (proj1 (proj2 Hg2)) in He. congruence.
    + intros m [= <-]. exists t. split.
      * apply (proj1 Hg3), (proj1 Hg2), Hcached.
      * unfold ref_attr. rewrite Hh. reflexivity.
Qed.

End RewirerFacts.

Section RewireLoopFacts.
Context {schema : Schema} {guid : GuidSource}.
Variable source_model : file.
Variable fuel : nat.
Variables source_antenna target_antenna : handle.

Lemma ref_attr_grows (s s' : session) (h t : handle) (name : string) :
  grows s s' ->
  ref_attr (model s) h name = Some t -> ref_attr (model s') h name = Some t.
Proof.
  intros (_ & Hframe & _). unfold ref_attr.
  destruct (by_id (model s) h) as [e|] eqn:He; [|discriminate].
  now rewrite (Hframe _ _ He).
Qed.

Lemma absent_before (s s' : session) (h : handle) :
  grows s s' -> by_id (model s') h = None -> by_id (model s) h = None.
Proof.
  intros (_ & Hframe & _) Hnone.
  destruct (by_id (model s) h) as [e|] eqn:He; [|reflexivity].
  apply Hframe in He. congruence.
Qed.

Lemma present_after (s s' : session) (h : handle) :
  grows s s' -> by_id (model s) h <> None -> by_id (model s') h <> None.
Proof.
  intros (_ & Hframe & _) Hsome.
  destruct (by_id (model s) h) as [e|] eqn:He; [|congruence].
  apply Hframe in He. congruence.
Qed.

Lemma rewire_loop_spec (owner_history : value) (relations : list handle) :
  forall (cache : list (handle * handle)) (s s' : session)
         (rewired : list (handle * handle)),
    rewire_loop source_model fuel source_antenna target_antenna owner_history
                cache relations s = Some (rewired, s') ->
    grows s s'
    /\ (forall r r', In (r, r') rewired -> In r relations /\ rewired_ok source_model s s' r r')
    /\ NoDup (map snd rewired)
    /\ (forall r m, In r relations ->
          associated_material source_model r = Some m ->
          In source_antenna (related_objects_of source_model r) ->
          exists r', In (r, r') rewired).
Proof.
  induction relations as [|x relations IH]; intros cache s s' rewired; simpl.
  - intros [= <- <-]. split; [apply grows_refl|].
    split; [intros r r' []|]. split; [constructor | intros r m []].
  - unfold mbind.
    destruct (rewire _ _ _ _ _ cache x s) as [[[cache1 created] s1]|] eqn:Hstep;
      [|discriminate].
    destruct (rewire_loop _ _ _ _ _ _ relations s1) as [[rest s2]|] eqn:Hrest;
      [|discriminate].
    intros [= <- <-].
    apply rewire_spec in Hstep as (Hg1 & Hcreated & Hcomplete).
    apply IH in Hrest as (Hg2 & Hrest & Hnodup & Hall).
    assert (Hlater : forall r r', In (r, r') rest -> In r (x :: relations)
                                                    /\ rewired_ok source_model s s2 r r').
    { intros r r' Hin. destruct (Hrest r r' Hin) as (Hr & Habs & Hpres & Hmat).
      split; [now right|]. split; [|split; assumption].
      eapply absent_before; eassumption. }
    split; [eapply grows_trans; eassumption|].
    simpl. destruct created as [h|].
    + destruct (Hcreated h eq_refl) as (Habs & Hpres & Hmat).
      split; [|split; [|]].
      * intros r r' [[= <- <-]|Hin]; [|now apply Hlater].
        split; [now left|]. split; [exact Habs|].
        split; [eapply present_after; eassumption|].
        intros m Hm. destruct (Hmat m Hm) as (t & Ht & Href).
        exists t. split; [now apply (proj1 Hg2) | eapply ref_attr_grows; eassumption].
      * simpl. constructor; [|exact Hnodup].
        intros Hin. apply in_map_iff in Hin as [[r r'] [Hr' Hin]].
        simpl in Hr'; subst r'.
        destruct (Hrest r h Hin) as (_ & Hnone & _). congruence.
      * intros r m [<-|Hr] Hm Hin.
        -- exists h. now left.
        -- destruct (Hall r m Hr Hm Hin) as [r' Hr']. exists r'. now right.
    + split; [exact Hlater|]. split; [exact Hnodup|].
      intros r m [<-|Hr] Hm Hin.
      * exfalso. now apply (Hcomplete m Hm Hin).
      * exact (Hall r m Hr Hm Hin).
Qed.

Lemma single_entry (l : list (handle * handle)) (m t : handle) :
  NoDup (map fst l) -> In (m, t) l ->
  map snd (filter (fun p => Nat.eqb (fst p) m) l) = [t].
Proof.
  induction l as [|[k v] l IH]; intros Hnd Hget; [contradiction|].
  simpl in Hnd. apply NoDup_cons_iff in Hnd as [Hk Hnd].
  simpl. destruct (Nat.eqb_spec k m) as [->|Hne].
  - destruct Hget as [[= <-]|Hin].
    + simpl. f_equal.
      assert (Hnone : filter (fun p => Nat.eqb (fst p) m) l = []).
      { clear -Hk. induction l as [|[k' v'] l IHl]; [reflexivity|].
        simpl in Hk |- *. destruct (Nat.eqb_spec k' m) as [->|_].
        - exfalso. apply Hk. now left.
        - apply IHl. intros Hin. apply Hk. now right. }
      now rewrite Hnone.
    + exfalso. apply Hk. now apply (in_map fst) in Hin.
  - destruct Hget as [[= Hkm _]|Hin]; [congruence|].
    now apply IH.
Qed.

Lemma clones_of_cached (s : session) (m t : handle) :
  cache_consistent s ->
  dict_get (migrated_ids s) m = Some t ->
  clones_of s m = [t].
Proof.
  intros [Hnd Hiff] Hget. apply Hiff in Hget.
  now apply single_entry.
Qed.

End RewireLoopFacts.

(** ** Termination of the migrator and of the rewirer *)

Section TerminationFacts.
Context {schema : Schema} {guid : GuidSource}.
Variable source : file.
Hypothesis source_closed : closed source.

Lemma uncached_shrinks (s s' : session) :
  (forall k t, dict_get (migrated_ids s) k = Some t ->
               dict_get (migrated_ids s') k = Some t) ->
  uncached source s' <= uncached source s.
Proof.
  intros Hext. unfold uncached.
  induction (map fst source) as [|h l IH]; simpl; [lia|].
  destruct (dict_get (migrated_ids s) h) as [t|] eqn:E.
  - now rewrite (Hext _ _ E).
  - destruct (dict_get (migrated_ids s') h); simpl; lia.
Qed.

Lemma uncached_bound (s : session) : uncached source s <= List.length source.
Proof.
  unfold uncached. rewrite <- (length_map fst source). apply filter_length_le.
Qed.

Lemma uncached_register (s s1 : session) (element t : handle) :
  In element (map fst source) ->
  dict_get (migrated_ids s) element = None ->
  migrated_ids s1 = dict_set (migrated_ids s) element t ->
  uncached source s1 < uncached source s.
Proof.
  intros Hin Hnone Hs1. unfold uncached. rewrite Hs1.
  induction (map fst source) as [|h l IH]; [contradiction|].
  simpl. rewrite dict_get_set.
  destruct (Nat.eqb_spec element h) as [<-|Hne].
  - rewrite Hnone. simpl.
    assert (Hle : List.length (filter (fun h => match dict_get (dict_set (migrated_ids s) element t) h with
                                        | None => true | Some _ => false end) l)
                  <= List.length (filter (fun h => match dict_get (migrated_ids s) h with
                                        | None => true | Some _ => false end) l)).
    { clear. induction l as [|x l IHl]; simpl; [lia|].
      rewrite dict_get_set. destruct (Nat.eqb element x).
      - destruct (dict_get (migrated_ids s) x); simpl; lia.
      - destruct (dict_get (migrated_ids s) x); simpl; lia. }
    lia.
  - destruct Hin as [->|Hin]; [congruence|].
    specialize (IH Hin).
    destruct (dict_get (migrated_ids s) h); simpl; lia.
Qed.

Section AnyTotalMigrator.
Variable migrate_entity : handle -> M handle.
Variable bound : nat.
Hypothesis migrate_entity_grows :
  forall h s t s', migrate_entity h s = Some (t, s') -> grows s s'.
Hypothesis migrate_entity_total :
  forall h s, In h (map fst source) -> uncached source s <= bound ->
              exists t s', migrate_entity h s = Some (t, s').

Lemma migrate_refs_total (hs : list handle) (s : session) :
  (forall h, In h hs -> In h (map fst source)) ->
  uncached source s <= bound ->
  exists ts s', migrate_refs migrate_entity hs s = Some (ts, s').
Proof.
  revert s; induction hs as [|h hs IH]; intros s Hin Hb; simpl.
  - now exists [], s.
  - unfold mbind.
    destruct (migrate_entity_total h s) as (t & s1 & E1);
      [apply Hin; now left | exact Hb|].
    rewrite E1.
    destruct (IH s1) as (ts & s2 & E2).
    + intros x Hx. apply Hin. now right.
    + apply migrate_entity_grows in E1 as (Hext & _).
      pose proof (uncached_shrinks s s1 Hext). lia.
    + rewrite E2. now exists (t :: ts), s2.
Qed.

Lemma migrate_value_total (v : value) (s : session) :
  (forall h, In h (value_refs v) -> In h (map fst source)) ->
  uncached source s <= bound ->
  exists v' s', migrate_value migrate_entity v s = Some (v', s').
Proof.
  intros Hin Hb. destruct v as [| | |h|hs]; simpl; unfold ret, mbind;
    try (eexists; eexists; reflexivity).
  - destruct (migrate_entity_total h s) as (t & s1 & E1);
      [apply Hin; now left | exact Hb|].
    rewrite E1. now eexists; eexists.
  - destruct (migrate_refs_total hs s Hin Hb) as (ts & s1 & E1).
    rewrite E1. now eexists; eexists.
Qed.

Lemma migrate_attributes_total (target : handle) (attrs : list (string * value))
    (s : session) :
  (forall a h, In a attrs -> In h (value_refs (snd a)) -> In h (map fst source)) ->
  uncached source s <= bound ->
  exists s', migrate_attributes migrate_entity target attrs s = Some (tt, s').
Proof.
  revert s; induction attrs as [|a attrs IH]; intros s Hin Hb; simpl.
  - now exists s.
  - unfold mbind.
    destruct (migrate_value_total (snd a) s) as (v & s1 & E1);
      [intros h Hh; apply (Hin a h); [now left | exact Hh] | exact Hb|].
    rewrite E1. unfold set_target_attr at 1.
    apply IH.
    + intros b h Hb' Hh. apply (Hin b h); [now right | exact Hh].
    + unfold uncached; simpl. fold (uncached source s1).
      apply migrate_value_grows in E1; [|exact migrate_entity_grows].
      destruct E1 as (Hext & _).
      pose proof (uncached_shrinks s s1 Hext). lia.
Qed.

End AnyTotalMigrator.

(** With more fuel than there are entities left to clone, [migrate]
    returns. *)
Lemma migrate_total (fuel : nat) :
  forall element s,
    In element (map fst source) ->
    uncached source s < fuel ->
    exists t s', migrate source fuel element s = Some (t, s').
Proof.
  induction fuel as [|fuel IH]; intros element s Hin Hfuel; [lia|].
  simpl.
  destruct (dict_get (migrated_ids s) element) as [t|] eqn:Hget;
    [now exists t, s|].
  destruct (by_id_some_of_in _ _ Hin) as [e He]. rewrite He.
  set (s1 := {| model := _; migrated_ids := _; guid_calls := _;
                cloned := _; removals := _ |}).
  assert (Hlt : uncached source s1 < uncached source s).
  { apply (uncached_register s s1 element (fresh_handle (model s)) Hin Hget).
    reflexivity. }
  destruct (migrate_attributes_total (migrate source fuel) (bound:=uncached source s1)
              (fun h sa ta sb Hm => proj1 (migrate_grows _ _ _ _ Hm))
              (fun h s0 Hh Hb => IH h s0 Hh ltac:(lia))
              (fresh_handle (model s)) (attributes e) s1) as (s2 & E2).
  - intros a h Ha Hh. apply by_id_in in He.
    exact (source_closed _ _ _ _ He Ha Hh).
  - lia.
  - rewrite E2. now eexists; eexists.
Qed.

Lemma migrate_returns (fuel : nat) (element : handle) (s : session) :
  In element (map fst source) ->
  List.length source < fuel ->
  exists t s', migrate source fuel element s = Some (t, s').
Proof.
  intros Hin Hfuel. apply migrate_total; [exact Hin|].
  pose proof (uncached_bound s). lia.
Qed.

End TerminationFacts.

Section RewirerTermination.
Context {schema : Schema} {guid : GuidSource}.
Variable source_model : file.
Hypothesis source_closed : closed source_model.
Variable fuel : nat.
Hypothesis enough_fuel : List.length source_model < fuel.
Variables source_antenna target_antenna : handle.

Lemma get_attr_in (e : entity) (name : string) (v : value) :
  get_attr e name = v -> v <> VNull -> In (name, v) (attributes e).
Proof.
  unfold get_attr. destruct (find _ (attributes e)) as [[n w]|] eqn:Hf.
  - simpl. intros <- _. apply find_some in Hf as [Hin Hn].
    simpl in Hn. apply String.eqb_eq in Hn. now subst n.
  - intros <- Hv. congruence.
Qed.

Lemma reference_resolves (r : handle) (rel : entity) (name : string) (x : handle) :
  by_id source_model r = Some rel ->
  get_attr rel name = VRef x ->
  In x (map fst source_model).
Proof.
  intros Hr Hx. apply by_id_in in Hr.
  apply get_attr_in in Hx; [|discriminate].
  apply (source_closed _ _ _ x Hr Hx). now left.
Qed.

Lemma related_loop_total (objects : list handle) :
  (forall x, In x objects -> In x (map fst source_model)) ->
  forall acc s, exists res s',
    related_loop source_model fuel source_antenna target_antenna objects acc s
    = Some (res, s').
Proof.
  induction objects as [|x objects IH]; intros Hin acc s; simpl.
  - now exists acc, s.
  - assert (Hrest : forall y, In y objects -> In y (map fst source_model))
      by (intros y Hy; apply Hin; now right).
    destruct (Nat.eqb x source_antenna); [now apply IH|].
    destruct (by_id_some_of_in source_model x (Hin x (or_introl eq_refl))) as [e He].
    rewrite He. destruct (is_a e "IfcTypeObject"); [|now apply IH].
    unfold mbind.
    assert (Hm : exists t s1, migrate source_model fuel x s = Some (t, s1))
      by (apply migrate_returns; [exact source_closed | apply Hin; now left
                                  | exact enough_fuel]).
    destruct Hm as (t & s1 & E).
    rewrite E. now apply IH.
Qed.

Lemma rewire_total (owner_history : value) (cache : list (handle * handle))
    (relation : handle) (rel : entity) (s : session) :
  by_id source_model relation = Some rel ->
  relating_attribute_set rel ->
  exists r s',
    rewire source_model fuel source_antenna target_antenna owner_history cache
           relation s = Some (r, s').
Proof.
  intros Hrel (Htype & Hpset & Hmat). unfold rewire. rewrite Hrel.
  destruct (is_a rel "IfcRelDefinesByType").
  { destruct (Htype eq_refl) as [x Hx]. rewrite Hx. unfold mbind.
    destruct (dict_get cache x) as [t|].
    - unfold ret at 1. unfold create_relation. simpl. now eexists; eexists.
    - assert (Hm : exists t s1, migrate source_model fuel x s = Some (t, s1))
        by (apply migrate_returns;
            [exact source_closed | eapply reference_resolves; eassumption
             | exact enough_fuel]).
      destruct Hm as (t & s1 & E).
      rewrite E. unfold ret at 1. unfold create_relation. simpl.
      now eexists; eexists. }
  destruct (is_a rel "IfcRelDefinesByProperties").
  { destruct (Hpset eq_refl) as [x Hx]. rewrite Hx. unfold mbind.
    assert (Hm : exists t s1, migrate source_model fuel x s = Some (t, s1))
      by (apply migrate_returns;
          [exact source_closed | eapply reference_resolves; eassumption
           | exact enough_fuel]).
    destruct Hm as (t & s1 & E).
    rewrite E. unfold create_relation. simpl. now eexists; eexists. }
  destruct (is_a rel "IfcRelAssociatesMaterial"); [|now eexists; eexists].
  destruct (Hmat eq_refl) as [x Hx]. rewrite Hx. unfold mbind.
  assert (Hm : exists t s1, migrate source_model fuel x s = Some (t, s1))
    by (apply migrate_returns;
        [exact source_closed | eapply reference_resolves; eassumption
         | exact enough_fuel]).
  destruct Hm as (t & s1 & E).
  rewrite E.
  destruct (related_loop_total (refs_of (get_attr rel "RelatedObjects"))) with
    (acc := @nil handle) (s := s1) as (res & s2 & E2).
  { intros y Hy. destruct (get_attr rel "RelatedObjects") as [| | | |l] eqn:Hl;
      try contradiction.
    apply by_id_in in Hrel. apply get_attr_in in Hl; [|discriminate].
    exact (source_closed _ _ _ y Hrel Hl Hy). }
  rewrite E2. destruct res as [|r0 res]; [now eexists; eexists|].
  unfold create_relation. simpl. now eexists; eexists.
Qed.

Lemma rewire_loop_total (owner_history : value) (relations : list handle) :
  (forall r, In r relations ->
     exists rel, by_id source_model r = Some rel /\ relating_attribute_set rel) ->
  forall cache s, exists rewired s',
    rewire_loop source_model fuel source_antenna target_antenna owner_history
                cache relations s = Some (rewired, s').
Proof.
  induction relations as [|x relations IH]; intros Hwf cache s; simpl.
  - now exists [], s.
  - unfold mbind.
    destruct (Hwf x (or_introl eq_refl)) as (rel & Hrel & Hset).
    destruct (rewire_total owner_history cache x s Hrel Hset) as ([c created] & s1 & E).
    rewrite E.
    destruct (IH (fun r Hr => Hwf r (or_intror Hr)) c s1) as (rest & s2 & E2).
    simpl. rewrite E2. now eexists; eexists.
Qed.

(** On a closed source model whose inverse relations have their relating
    attribute set, the rewirer returns once the fuel exceeds the size of
    the source model. *)
Lemma copy_inverse_relations_returns (s : session) :
  (forall r rel, In r (get_inverse source_model source_antenna) ->
                 by_id source_model r = Some rel -> relating_attribute_set rel) ->
  exists s',
    copy_inverse_relations source_model fuel source_antenna target_antenna s
    = Some (tt, s').
Proof.
  intros Hwf. unfold copy_inverse_relations, rewire_relations, mbind.
  destruct (rewire_loop_total (owner_history_or (model s) target_antenna)
              (get_inverse source_model source_antenna)) with
    (cache := @nil (handle * handle)) (s := s) as (rewired & s' & E).
  - intros r Hr.
    assert (Hin : In r (map fst source_model)).
    { unfold get_inverse in Hr. apply in_map_iff in Hr as [p [<- Hp]].
      apply filter_In in Hp as [Hp _]. now apply in_map. }
    destruct (by_id_some_of_in _ _ Hin) as [rel Hrel].
    exists rel. split; [exact Hrel | exact (Hwf r rel Hr Hrel)].
  - rewrite E. now exists s'.
Qed.

End RewirerTermination.

(** C3: within a session a second [migrate] of a source entity returns the
    clone of the first and changes nothing; so two inverse material
    associations of the donor that share one material are re-created as
    two relations that both reference the one clone the migrator made of
    that material.  On a closed source model, with more fuel than the
    model has entities, both [migrate] and the rewirer return. *)
Theorem shared_material_is_cloned_once {schema : Schema} {guid : GuidSource}
    (source_model : file) (fuel : nat) :
  (forall fuel' element s t s1,
      migrate source_model fuel element s = Some (t, s1) ->
      migrate source_model (S fuel') element s1 = Some (t, s1))
  /\ (forall source_antenna target_antenna s s' r1 r2 m,
        cache_consistent s ->
        copy_inverse_relations source_model fuel source_antenna target_antenna s
        = Some (tt, s') ->
        In r1 (get_inverse source_model source_antenna) ->
        In r2 (get_inverse source_model source_antenna) ->
        r1 <> r2 ->
        associated_material source_model r1 = Some m ->
        associated_material source_model r2 = Some m ->
        In source_antenna (related_objects_of source_model r1) ->
        In source_antenna (related_objects_of source_model r2) ->
        exists t r1' r2',
          clones_of s' m = [t]
          /\ r1' <> r2'
          /\ by_id (model s) r1' = None
          /\ by_id (model s) r2' = None
          /\ ref_attr (model s') r1' "RelatingMaterial" = Some t
          /\ ref_attr (model s') r2' "RelatingMaterial" = Some t)
  /\ (closed source_model ->
      List.length source_model < fuel ->
      (forall element s,
          In element (map fst source_model) ->
          exists t s1, migrate source_model fuel element s = Some (t, s1))
      /\ (forall source_antenna target_antenna s,
            (forall r rel, In r (get_inverse source_model source_antenna) ->
                           by_id source_model r = Some rel ->
                           relating_attribute_set rel) ->
            exists s',
              copy_inverse_relations source_model fuel source_antenna
                                     target_antenna s = Some (tt, s'))).
Proof.
  split; [|split].
  - intros fuel' element s t s1. apply migrate_again.
  - intros sa ta s s' r1 r2 m Hcons Hcopy Hr1 Hr2 Hne Hm1 Hm2 Hin1 Hin2.
    unfold copy_inverse_relations, mbind in Hcopy.
    destruct (rewire_relations source_model fuel sa ta s) as [[rewired s0]|] eqn:Hrw;
      [|discriminate].
    injection Hcopy as <-.
    unfold rewire_relations in Hrw.
    apply rewire_loop_spec in Hrw as (Hg & Hok & Hnodup & Hall).
    destruct (Hall r1 m Hr1 Hm1 Hin1) as [r1' Hp1].
    destruct (Hall r2 m Hr2 Hm2 Hin2) as [r2' Hp2].
    destruct (Hok _ _ Hp1) as (_ & Habs1 & _ & Hmat1).
    destruct (Hok _ _ Hp2) as (_ & Habs2 & _ & Hmat2).
    destruct (Hmat1 m Hm1) as (t & Ht & Href1).
    destruct (Hmat2 m Hm2) as (t' & Ht' & Href2).
    assert (t' = t) by congruence. subst t'.
    exists t, r1', r2'.
    split; [apply clones_of_cached; [now apply (proj2 (proj2 Hg)) | exact Ht]|].
    split; [|repeat split; assumption].
    intros <-.
    apply Hne.
    clear -Hp1 Hp2 Hnodup.
    induction rewired as [|[a b] l IH]; [contradiction|].
    simpl in Hnodup. apply NoDup_cons_iff in Hnodup as [Hb Hnd].
    destruct Hp1 as [E1|Hp1], Hp2 as [E2|Hp2].
    + congruence.
    + injection E1 as -> ->. exfalso. apply Hb. now apply (in_map snd) in Hp2.
    + injection E2 as -> ->. exfalso. apply Hb. now apply (in_map snd) in Hp1.
    + now apply IH.
  - intros Hclosed Hfuel. split.
    + intros element s Hin. now apply migrate_returns.
    + intros sa ta s Hwf. now apply copy_inverse_relations_returns.
Qed.

Lemma antenna_session_consistent : cache_consistent antenna_session.
Proof.
  assert (Hm : migrate donor_example 20 20 (session_of segment_example)
               = Some (9, antenna_session)) by (vm_compute; reflexivity).
  apply migrate_grows in Hm as [(_ & _ & Hc) _]. apply Hc.
  split; simpl; [constructor|]. intros k t. split; [discriminate | intros []].
Qed.

Lemma shared_material_is_cloned_once_witness :
  migrate donor_example 20 20 (session_of segment_example) = Some (9, antenna_session)
  /\ migrate donor_example 1 20 antenna_session = Some (9, antenna_session)
  /\ exists t r1' r2',
       clones_of rewired_session 40 = [t]
       /\ r1' <> r2'
       /\ by_id (model antenna_session) r1' = None
       /\ by_id (model antenna_session) r2' = None
       /\ ref_attr (model rewired_session) r1' "RelatingMaterial" = Some t
       /\ ref_attr (model rewired_session) r2' "RelatingMaterial" = Some t.
Proof.
  split; [vm_compute; reflexivity|]. split.
  - apply (proj1 (shared_material_is_cloned_once donor_example 20) 0 20
                 (session_of segment_example) 9 antenna_session).
    vm_compute. reflexivity.
  - apply (proj1 (proj2 (shared_material_is_cloned_once donor_example 20)) 20 9
                 antenna_session rewired_session 62 63 40).
    + exact antenna_session_consistent.
    + vm_compute. reflexivity.
    + vm_compute. tauto.
    + vm_compute. tauto.
    + discriminate.
    + vm_compute. reflexivity.
    + vm_compute. reflexivity.
    + vm_compute. tauto.
    + vm_compute. tauto.
Defined.

(* ================================================================== *)
(** * Further properties of the geometry extractor and the solver *)

Section CandidateFacts.
Context {F : Type} {SF : Scalar F}.

Lemma pad_2d_not_planar (p : list F) : List.length (pad_2d p) <> 2.
Proof.
  unfold pad_2d.
  destruct (Nat.eqb_spec (List.length p) 2) as [E|E]; [|exact E].
  rewrite length_app, E. simpl. lia.
Qed.

Lemma pad_2d_spatial (p : list F) : List.length p <> 2 -> pad_2d p = p.
Proof.
  intros E. unfold pad_2d.
  destruct (Nat.eqb_spec (List.length p) 2); [contradiction | reflexivity].
Qed.

Lemma read_curve_points_map (c : curve) :
  read_curve_points c = map pad_2d (curve_points c).
Proof.
  destruct c as [cl|pts|]; simpl; try reflexivity; now rewrite append_loop_map.
Qed.

Lemma read_polycurve_points_map (e : representation_item) :
  read_polycurve_points e = map pad_2d (raw_points e).
Proof.
  destruct e as [c| |]; try reflexivity.
  simpl. rewrite read_curve_points_map. now destruct c.
Qed.

(** X1: [read_polycurve_points] returns one point for every point the
    curve holds, never a point of two coordinates, and leaves the points
    of any other number of coordinates as they are. *)
Theorem read_polycurve_points_never_planar (e : representation_item (F:=F)) :
  List.length (read_polycurve_points e) = List.length (raw_points e)
  /\ (forall p, In p (read_polycurve_points e) -> List.length p <> 2)
  /\ (forall i p, nth_error (raw_points e) i = Some p -> List.length p <> 2 ->
                  nth_error (read_polycurve_points e) i = Some p).
Proof.
  rewrite read_polycurve_points_map. split; [apply length_map|]. split.
  - intros p Hin. apply in_map_iff in Hin as [q [<- _]]. apply pad_2d_not_planar.
  - intros i p Hi Hp. rewrite nth_error_map, Hi. simpl. now rewrite pad_2d_spatial.
Qed.

Lemma axis_loop_endpoints (maps : list (representation_map (F:=F))) (a b : list F) :
  axis_loop maps = Some (a, b) ->
  exists rm first items,
    In rm maps
    /\ identifier_is (MappedRepresentation rm) "Axis" = true
    /\ Items (MappedRepresentation rm) = first :: items
    /\ 2 <= List.length (read_polycurve_points first)
    /\ a = hd [] (read_polycurve_points first)
    /\ b = last (read_polycurve_points first) [].
Proof.
  induction maps as [|rm maps IH]; simpl; [discriminate|].
  assert (Hrest : axis_loop maps = Some (a, b) ->
            exists rm0 first items,
              (rm = rm0 \/ In rm0 maps)
              /\ identifier_is (MappedRepresentation rm0) "Axis" = true
              /\ Items (MappedRepresentation rm0) = first :: items
              /\ 2 <= List.length (read_polycurve_points first)
              /\ a = hd [] (read_polycurve_points first)
              /\ b = last (read_polycurve_points first) []).
  { intros H. destruct (IH H) as (rm0 & first & items & Hin & Hrest).
    exists rm0, first, items. split; [now right | exact Hrest]. }
  destruct (identifier_is (MappedRepresentation rm) "Axis") eqn:Hid; simpl;
    [|exact Hrest].
  destruct (Items (MappedRepresentation rm)) as [|first items] eqn:Hitems;
    [exact Hrest|].
  destruct (Nat.ltb_spec (List.length (read_polycurve_points first)) 2) as [Hlt|Hge];
    [exact Hrest|].
  intros [= <- <-]. exists rm, first, items.
  split; [now left|]. split; [exact Hid|]. split; [exact Hitems|].
  split; [exact Hge|]. split; reflexivity.
Qed.

Lemma last_in (A : Type) (l : list A) (d : A) : l <> [] -> In (last l d) l.
Proof.
  intros Hne. destruct (exists_last Hne) as (front & z & ->).
  rewrite last_last. apply in_or_app. right. now left.
Qed.

(** X2: the two points [get_column_axis_points] returns are the first and
    the last point read from the first item of an "Axis" representation of
    the column's first type, a curve of at least two points; neither has
    two coordinates. *)
Theorem get_column_axis_points_endpoints (column : IfcColumn (F:=F)) (a b : list F) :
  get_column_axis_points column = Ok (a, b) ->
  List.length a <> 2 /\ List.length b <> 2
  /\ exists t ts rm first items,
       IsTypedBy column = t :: ts
       /\ In rm (maps_of t)
       /\ identifier_is (MappedRepresentation rm) "Axis" = true
       /\ Items (MappedRepresentation rm) = first :: items
       /\ 2 <= List.length (read_polycurve_points first)
       /\ a = hd [] (read_polycurve_points first)
       /\ b = last (read_polycurve_points first) [].
Proof.
  unfold get_column_axis_points.
  destruct (IsTypedBy column) as [|t ts]; [discriminate|].
  fold (maps_of t).
  destruct (axis_loop (maps_of t)) as [[a0 b0]|] eqn:Hloop; [|discriminate].
  intros [= <- <-].
  destruct (axis_loop_endpoints _ Hloop) as (rm & first & items & Hin & Hid & Hit & Hlen & Ha & Hb).
  assert (Hall : forall p, In p (read_polycurve_points first) -> List.length p <> 2).
  { intros p Hp. rewrite read_polycurve_points_map in Hp.
    apply in_map_iff in Hp as [q [<- _]]. apply pad_2d_not_planar. }
  assert (Hne : read_polycurve_points first <> []).
  { intros E. rewrite E in Hlen. simpl in Hlen. lia. }
  split; [|split].
  - apply Hall. rewrite Ha.
    destruct (read_polycurve_points first); [congruence | now left].
  - apply Hall. rewrite Hb. now apply last_in.
  - exists t, ts, rm, first, items. split; [reflexivity|].
    repeat (split; [assumption|]). assumption.
Qed.

(** What the loop body hands to [append]. *)
Lemma placement_on_axis_fields (target : F) (column : IfcColumn)
    (a b : list F) (p : LegPlacement) :
  placement_on_axis target column a b = Ok (Some p) ->
  leg p = column /\ axis_start p = a /\ axis_end p = b
  /\ radial_offset p
     = choose_radial_offset (fst (get_column_profile_info column))
                            (snd (get_column_profile_info column)).
Proof.
  unfold placement_on_axis.
  destruct (np.subtract b a) as [delta|]; cbn [bind]; [|discriminate].
  destruct (np.item delta 2) as [dz|]; cbn [bind]; [|discriminate].
  destruct (fltb (fabs dz) EPS); [discriminate|].
  destruct (np.item a 2) as [z0|]; cbn [bind]; [|discriminate].
  destruct (_ || _); [discriminate|].
  destruct (normalize delta) as [d|]; cbn [bind]; [|discriminate].
  destruct (np.add a _) as [c|]; cbn [bind]; [|discriminate].
  destruct (np.cross global_up d) as [r|]; cbn [bind]; [|discriminate].
  destruct (if fltb _ EPS then _ else _) as [r'|]; cbn [bind]; [|discriminate].
  destruct (normalize r') as [r''|]; cbn [bind]; [|discriminate].
  destruct (get_column_profile_info column) as [o i].
  destruct (np.add c _) as [ins|]; cbn [bind]; [|discriminate].
  intros [= <-]. simpl. auto.
Qed.

(** The candidates the loop appends: one for each accepted column, in the
    order of the columns. *)
Lemma collect_candidates_legs (target : F) (columns : list IfcColumn) :
  forall acc cs,
    collect_candidates target columns acc = Ok cs ->
    exists news,
      cs = acc ++ news
      /\ map leg news = filter (accepts target) columns
      /\ Forall (fun p => exists a b,
                   get_column_axis_points (leg p) = Ok (a, b)
                   /\ placement_on_axis target (leg p) a b = Ok (Some p)) news.
Proof.
  induction columns as [|c columns IH]; intros acc cs; simpl.
  - intros [= <-]. exists []. rewrite app_nil_r. repeat split. constructor.
  - unfold accepts at 1.
    destruct (get_column_axis_points c) as [[a b]|e] eqn:Hax.
    + destruct (placement_on_axis target c a b) as [[pl|]|e] eqn:Hpl; cbn [bind];
        [| |discriminate].
      * intros H. destruct (IH _ _ H) as (news & -> & Hlegs & Hall).
        destruct (placement_on_axis_fields _ _ _ _ Hpl) as (Hleg & _).
        exists (pl :: news). split; [now rewrite <- app_assoc|]. split.
        -- simpl. now rewrite Hleg, Hlegs.
        -- constructor; [|exact Hall]. exists a, b. rewrite Hleg. now split.
      * intros H. exact (IH _ _ H).
    + destruct (is_ValueError e); [|discriminate].
      intros H. exact (IH _ _ H).
Qed.

(** The placement returned is the loop body's result on its own leg. *)
Lemma compute_leg_placement_candidate (columns : list IfcColumn) (target : F)
    (index : Z) (p : LegPlacement) :
  compute_leg_placement columns target index = Ok p ->
  (0 <= index < Z.of_nat (List.length (filter (accepts target) columns)))%Z
  /\ nth_error (filter (accepts target) columns) (Z.to_nat index) = Some (leg p)
  /\ exists a b, get_column_axis_points (leg p) = Ok (a, b)
                 /\ placement_on_axis target (leg p) a b = Ok (Some p).
Proof.
  unfold compute_leg_placement.
  destruct (collect_candidates target columns []) as [cs|] eqn:Hc; cbn [bind];
    [|discriminate].
  destruct (collect_candidates_legs _ _ _ Hc) as (news & -> & Hlegs & Hall).
  simpl. destruct news as [|c news]; [discriminate|].
  destruct (Z.ltb_spec index 0); [discriminate|].
  destruct (Z.geb_spec index (Z.of_nat (List.length (c :: news)))); [discriminate|].
  cbn [orb].
  destruct (nth_error (c :: news) (Z.to_nat index)) as [q|] eqn:Hn; [|discriminate].
  intros [= <-]. rewrite <- Hlegs, length_map. split; [lia|]. split.
  - now apply map_nth_error.
  - rewrite Forall_forall in Hall. apply Hall. eapply nth_error_In, Hn.
Qed.

(** X3: the leg that [compute_leg_placement] returns is the column at
    position [leg_index] among the columns, in model order, for which the
    loop appends a candidate; it is a column of the model, and the
    placement records the two axis points of that column. *)
Theorem compute_leg_placement_selects_in_model_order (columns : list IfcColumn)
    (target : F) (index : Z) (p : LegPlacement) :
  compute_leg_placement columns target index = Ok p ->
  (0 <= index < Z.of_nat (List.length (filter (accepts target) columns)))%Z
  /\ nth_error (filter (accepts target) columns) (Z.to_nat index) = Some (leg p)
  /\ In (leg p) columns
  /\ (Z.to_nat index < List.length columns)%nat
  /\ get_column_axis_points (leg p) = Ok (axis_start p, axis_end p).
Proof.
  intros H. destruct (compute_leg_placement_candidate _ _ _ H) as (Hidx & Hnth & a & b & Hax & Hpl).
  split; [exact Hidx|]. split; [exact Hnth|]. split; [|split].
  - apply nth_error_In in Hnth. now apply filter_In in Hnth.
  - pose proof (filter_length_le (accepts target) columns). lia.
  - destruct (placement_on_axis_fields _ _ _ _ Hpl) as (_ & -> & -> & _). exact Hax.
Qed.

End CandidateFacts.

Lemma compute_leg_placement_selects_in_model_order_witness :
  compute_leg_placement [untyped_column; scenario_column] 3%float 0
  = Ok {| leg := scenario_column;
          axis_start := [0; 0; 0]%float;
          axis_end := [0; 0; 6]%float;
          center_at_height := [0; 0; 3]%float;
          insertion_point := [0; -0.1; 3]%float;
          direction := [0; 0; 1]%float;
          radial_offset := 0.1%float |}
  /\ nth_error (filter (accepts 3%float) [untyped_column; scenario_column]) 0
     = Some scenario_column
  /\ get_column_axis_points scenario_column = Ok ([0; 0; 0]%float, [0; 0; 6]%float).
Proof.
  assert (H : compute_leg_placement [untyped_column; scenario_column] 3%float 0
              = Ok {| leg := scenario_column;
                      axis_start := [0; 0; 0]%float;
                      axis_end := [0; 0; 6]%float;
                      center_at_height := [0; 0; 3]%float;
                      insertion_point := [0; -0.1; 3]%float;
                      direction := [0; 0; 1]%float;
                      radial_offset := 0.1%float |})
    by (vm_compute; reflexivity).
  split; [exact H|].
  pose proof (compute_leg_placement_selects_in_model_order _ _ _ H) as (_ & Hnth & _ & _ & Hax).
  split; [exact Hnth | exact Hax].
Defined.

Lemma get_column_axis_points_endpoints_witness :
  get_column_axis_points scenario_column = Ok ([0; 0; 0]%float, [0; 0; 6]%float)
  /\ List.length [0; 0; 0]%float <> 2.
Proof.
  assert (H : get_column_axis_points scenario_column
              = Ok ([0; 0; 0]%float, [0; 0; 6]%float))
    by (vm_compute; reflexivity).
  split; [exact H|].
  exact (proj1 (get_column_axis_points_endpoints _ H)).
Defined.

(** ** The errors of the placement solver *)

Section SolverErrors.
Context {F : Type} {SF : Scalar F}.

(** On an axis of two points of three coordinates the loop body raises
    nothing but the degenerate-vector error of [normalize]. *)
Lemma placement_on_axis_raises (target : F) (column : IfcColumn)
    (x0 y0 z0 x1 y1 z1 : F) (e : exn) :
  placement_on_axis target column [x0; y0; z0] [x1; y1; z1] = Raise e ->
  e = DegenerateVectorError.
Proof.
  unfold placement_on_axis.
  change (np.subtract [x1; y1; z1] [x0; y0; z0])
    with (Ok (A:=list F) [fsub x1 x0; fsub y1 y0; fsub z1 z0]).
  cbn [bind np.item nth_error].
  destruct (fltb (fabs (fsub z1 z0)) EPS); [discriminate|].
  destruct (_ || _); [discriminate|].
  unfold normalize at 1.
  destruct (fltb _ EPS); cbn [bind]; [now intros [= <-]|].
  cbn [np.divide map np.scale].
  set (n := np.linalg_norm _). set (t := fdiv _ _).
  change (np.add [x0; y0; z0]
                 [fmul t (fsub x1 x0); fmul t (fsub y1 y0); fmul t (fsub z1 z0)])
    with (Ok (A:=list F) [fadd x0 (fmul t (fsub x1 x0)); fadd y0 (fmul t (fsub y1 y0));
                          fadd z0 (fmul t (fsub z1 z0))]).
  cbn [bind np.cross global_up world_x].
  match goal with
  | |- context [if ?c then Ok ?u else Ok ?v] =>
      replace (if c then Ok u else Ok v) with (Ok (A:=list F) (if c then u else v))
        by (destruct c; reflexivity)
  end.
  cbn [bind]. unfold normalize.
  destruct (fltb _ EPS); cbn [bind]; [now intros [= <-]|].
  destruct (get_column_profile_info column) as [outer inner].
  match goal with
  | |- context [np.divide (if ?c then ?u else ?v) ?m] =>
      destruct c; cbn [np.divide map np.times]
  end.
  all: match goal with
       | |- context [np.add ?u ?v] =>
           let r := eval cbv [np.add np.broadcast List.length Nat.eqb combine map fst snd] in (np.add u v) in
           change (np.add u v) with r
       end; cbn [bind]; discriminate.
Qed.

Lemma collect_candidates_raises (target : F) (columns : list IfcColumn) :
  axes_3d columns = true ->
  forall acc e,
    collect_candidates target columns acc = Raise e -> e = DegenerateVectorError.
Proof.
  induction columns as [|c columns IH]; intros H3 acc e; simpl; [discriminate|].
  simpl in H3. apply andb_true_iff in H3 as [Hc H3].
  destruct (get_column_axis_points c) as [[a b]|e0] eqn:Hax.
  - apply andb_true_iff in Hc as [Ha Hb]. apply Nat.eqb_eq in Ha, Hb.
    destruct a as [|x0 [|y0 [|z0 [|? ?]]]]; try discriminate.
    destruct b as [|x1 [|y1 [|z1 [|? ?]]]]; try discriminate.
    destruct (placement_on_axis target c [x0; y0; z0] [x1; y1; z1]) as [[pl|]|e1] eqn:Hpl;
      cbn [bind].
    + now apply IH.
    + now apply IH.
    + intros [= <-]. eapply placement_on_axis_raises, Hpl.
  - destruct (is_ValueError e0) eqn:Hv; [now apply IH|].
    rewrite get_column_axis_points_refines in Hax.
    apply axisEndpoints_raises in Hax. congruence.
Qed.

(** X4: on a model of a schema whose columns have the inverse attribute
    [IsTypedBy] (IFC4 and later, the columns of type [IfcColumn] here) and
    whose curve points have two or three coordinates, the only errors of
    [compute_leg_placement] are the no-candidate error, the invalid-index
    error and the degenerate-vector error of [normalize]: the no-axis error
    of the extractor never leaves the loop, numpy never refuses a shape,
    and the indexing of the candidate list never fails.  On an IFC2X3
    model the access [column.IsTypedBy] raises AttributeError instead. *)
Theorem compute_leg_placement_errors (columns : list IfcColumn) (target : F)
    (index : Z) (e : exn) :
  points_2d_or_3d columns = true ->
  compute_leg_placement columns target index = Raise e ->
  e = NoCandidateError \/ e = InvalidIndexError \/ e = DegenerateVectorError.
Proof.
  intros H3 H. apply points_2d_or_3d_axes in H3.
  unfold compute_leg_placement in H.
  destruct (collect_candidates target columns []) as [cs|e0] eqn:Hc; cbn [bind] in H.
  - destruct cs as [|c cs]; [injection H as <-; now left|].
    destruct (Z.ltb_spec index 0); [injection H as <-; right; now left|].
    destruct (Z.geb_spec index (Z.of_nat (List.length (c :: cs))));
      [injection H as <-; right; now left|].
    cbn [orb] in H.
    destruct (nth_error (c :: cs) (Z.to_nat index)) eqn:Hn; [discriminate|].
    apply nth_error_None in Hn. lia.
  - injection H as <-. right. right. eapply collect_candidates_raises; eassumption.
Qed.

End SolverErrors.

Lemma compute_leg_placement_errors_witness :
  points_2d_or_3d [overflow_column] = true
  /\ compute_leg_placement [overflow_column] 3%float 0 = Raise DegenerateVectorError
  /\ (DegenerateVectorError = NoCandidateError
      \/ DegenerateVectorError = InvalidIndexError
      \/ DegenerateVectorError = DegenerateVectorError).
Proof.
  assert (H3 : points_2d_or_3d [overflow_column] = true) by (vm_compute; reflexivity).
  assert (H : compute_leg_placement [overflow_column] 3%float 0
              = Raise DegenerateVectorError) by (vm_compute; reflexivity).
  split; [exact H3|]. split; [exact H|].
  exact (compute_leg_placement_errors _ _ _ H3 H).
Defined.

(* ================================================================== *)
(** * The placement solver in binary64 *)

(** ** Rounding to the format *)

Unset Implicit Arguments.

Section Binary64.
Local Open Scope Z_scope.

(** ** Digits *)

Lemma digits2_pos_bounds (m : positive) :
  2 ^ (Z.pos (digits2_pos m) - 1) <= Z.pos m < 2 ^ Z.pos (digits2_pos m).
Proof.
  induction m as [m IH|m IH|]; cbn [digits2_pos].
  - rewrite Pos2Z.inj_succ.
    replace (Z.succ (Z.pos (digits2_pos m)) - 1) with (Z.succ (Z.pos (digits2_pos m) - 1)) by lia.
    rewrite !Z.pow_succ_r by lia. lia.
  - rewrite Pos2Z.inj_succ.
    replace (Z.succ (Z.pos (digits2_pos m)) - 1) with (Z.succ (Z.pos (digits2_pos m) - 1)) by lia.
    rewrite !Z.pow_succ_r by lia. lia.
  - simpl. lia.
Qed.

Lemma Zdigits2_bounds (m : Z) :
  0 < m -> 2 ^ (Zdigits2 m - 1) <= m < 2 ^ Zdigits2 m.
Proof. destruct m as [|p|p]; try lia. intros _. apply digits2_pos_bounds. Qed.

Lemma Zdigits2_nonneg (m : Z) : 0 <= Zdigits2 m.
Proof. destruct m; simpl; lia. Qed.

Lemma Zdigits2_pos (m : Z) : 0 < m -> 0 < Zdigits2 m.
Proof. destruct m; simpl; lia. Qed.

Lemma pow2_lt_inv (a b : Z) : 0 <= a -> 2 ^ a < 2 ^ b -> a < b.
Proof.
  intros Ha H. destruct (Z.lt_ge_cases a b) as [|Hge]; [assumption|].
  destruct (Z.lt_ge_cases b 0) as [Hb|Hb].
  - rewrite (Z.pow_neg_r 2 b Hb) in H. pose proof (Z.pow_pos_nonneg 2 a). lia.
  - pose proof (Z.pow_le_mono_r 2 b a). lia.
Qed.

(** [m < 2 ^ d] bounds the number of digits. *)
Lemma Zdigits2_le (m d : Z) : 0 <= m -> 0 <= d -> m < 2 ^ d -> Zdigits2 m <= d.
Proof.
  intros Hm Hd H. destruct (Z.eq_dec m 0) as [->|Hne]; [simpl; lia|].
  pose proof (Zdigits2_bounds m) as Hb.
  assert (2 ^ (Zdigits2 m - 1) < 2 ^ d) by lia.
  apply pow2_lt_inv in H0; [lia|]. pose proof (Zdigits2_pos m). lia.
Qed.

Lemma Zdigits2_ge (m d : Z) : 0 <= d -> 2 ^ d <= m -> d < Zdigits2 m.
Proof.
  intros Hd H. pose proof (Z.pow_pos_nonneg 2 d).
  pose proof (Zdigits2_bounds m) as Hb.
  apply pow2_lt_inv; lia.
Qed.

(** ** Shifting to the right *)

Lemma shr_1_m (mrs : shr_record) :
  0 <= shr_m mrs -> shr_m (shr_1 mrs) = shr_m mrs / 2.
Proof.
  destruct mrs as [m r s]. cbn [shr_m]. intros Hm.
  rewrite <- Z.div2_div.
  destruct m as [|[p|p|]|p]; try reflexivity. lia.
Qed.

Lemma shr_1_nonneg (mrs : shr_record) : 0 <= shr_m mrs -> 0 <= shr_m (shr_1 mrs).
Proof.
  intros H. rewrite shr_1_m by assumption. apply Z.div_pos; lia.
Qed.

Lemma iter_pos_shr_1_m (n : positive) :
  forall mrs, 0 <= shr_m mrs ->
    shr_m (SpecFloat.iter_pos shr_1 n mrs) = shr_m mrs / 2 ^ Z.pos n
    /\ 0 <= shr_m (SpecFloat.iter_pos shr_1 n mrs).
Proof.
  induction n as [n IH|n IH|]; intros mrs Hm; cbn [SpecFloat.iter_pos].
  - destruct (IH (shr_1 mrs) (shr_1_nonneg _ Hm)) as [E1 P1].
    destruct (IH _ P1) as [E2 P2]. split; [|exact P2].
    rewrite E2, E1, shr_1_m by assumption.
    replace (Z.pos n~1) with (1 + Z.pos n + Z.pos n) by lia.
    rewrite !Z.pow_add_r by lia. rewrite !Z.div_div by (try apply Z.pow_nonneg; lia).
    f_equal. change (2 ^ 1) with 2. ring.
  - destruct (IH mrs Hm) as [E1 P1].
    destruct (IH _ P1) as [E2 P2]. split; [|exact P2].
    rewrite E2, E1.
    replace (Z.pos n~0) with (Z.pos n + Z.pos n) by lia.
    rewrite !Z.pow_add_r by lia. rewrite !Z.div_div by (try apply Z.pow_nonneg; lia).
    reflexivity.
  - split; [|now apply shr_1_nonneg]. now rewrite shr_1_m.
Qed.

Lemma shr_m_record_of_loc (m : Z) (l : location) : shr_m (shr_record_of_loc m l) = m.
Proof. destruct l as [|[| |]]; reflexivity. Qed.

Lemma shr_spec (mrs : shr_record) (e n : Z) :
  0 <= shr_m mrs -> 0 <= n ->
  shr_m (fst (shr mrs e n)) = shr_m mrs / 2 ^ n /\ snd (shr mrs e n) = e + n.
Proof.
  intros Hm Hn. destruct n as [|p|p]; cbn [shr fst snd]; try lia.
  - rewrite Z.div_1_r. lia.
  - split; [|reflexivity]. now apply iter_pos_shr_1_m.
Qed.

Lemma shr_nonpos (mrs : shr_record) (e n : Z) : n <= 0 -> shr mrs e n = (mrs, e).
Proof. destruct n; try reflexivity. lia. Qed.

Lemma round_nearest_even_bounds (m : Z) (l : location) :
  m <= round_nearest_even m l <= m + 1.
Proof.
  destruct l as [|[| |]]; cbn [round_nearest_even]; try lia.
  destruct (Z.even m); lia.
Qed.

Lemma fexp_spec (x : Z) : fexp prec emax x = Z.max (x - 53) (-1074).
Proof. reflexivity. Qed.

(** ** Rounding, up to one unit in the last place *)

(** [binary_round_aux] on the mantissa [mx] at the exponent [ex] yields the
    mantissa truncated at the exponent of the format, or its successor. *)
Lemma binary_round_aux_spec (s : bool) (mx ex : Z) (lx : location) :
  0 <= mx -> ex <= fexp prec emax (Zdigits2 mx + ex) ->
  let E := fexp prec emax (Zdigits2 mx + ex) in
  let m1 := mx / 2 ^ (E - ex) in
  m1 < 2 ^ 53
  /\ exists r, m1 <= r <= m1 + 1
     /\ ((r = 0 /\ binary_round_aux prec emax s mx ex lx = S754_zero s)
         \/ exists m' e',
              E <= e' <= E + 1
              /\ Z.pos m' * 2 ^ (e' - E) = r
              /\ (e' = E + 1 -> Z.pos m' = 2 ^ 52)
              /\ binary_round_aux prec emax s mx ex lx
                 = if e' <=? emax - prec then S754_finite s m' e'
                   else S754_infinity s).
Proof.
  intros Hmx Hex E m1.
  assert (Hm1 : m1 < 2 ^ 53).
  { unfold m1. apply Z.div_lt_upper_bound; [apply Z.pow_pos_nonneg; lia|].
    rewrite <- Z.pow_add_r by lia.
    destruct (Z.eq_dec mx 0) as [->|Hne]; [apply Z.pow_pos_nonneg; lia|].
    pose proof (Zdigits2_bounds mx) as Hb.
    apply Z.lt_le_trans with (2 ^ Zdigits2 mx); [lia|].
    apply Z.pow_le_mono_r; [lia|]. unfold E. rewrite fexp_spec in *. lia. }
  split; [exact Hm1|].
  assert (Hm1' : 0 <= m1) by (apply Z.div_pos; [lia | apply Z.pow_pos_nonneg; lia]).
  unfold binary_round_aux, shr_fexp.
  fold E.
  pose proof (shr_spec (shr_record_of_loc mx lx) ex (E - ex)) as Hs1.
  rewrite shr_m_record_of_loc in Hs1. specialize (Hs1 Hmx ltac:(lia)).
  destruct (shr (shr_record_of_loc mx lx) ex (E - ex)) as [mrs' e1].
  cbn [fst snd] in Hs1. destruct Hs1 as [Hm' He1]. fold m1 in Hm'.
  replace e1 with E by lia.
  set (r := round_nearest_even (shr_m mrs') (loc_of_shr_record mrs')).
  assert (Hr : m1 <= r <= m1 + 1).
  { unfold r. rewrite <- Hm'. apply round_nearest_even_bounds. }
  clearbody r. exists r. split; [exact Hr|].
  change (shr_record_of_loc r loc_Exact) with (Build_shr_record r false false).
  destruct (Z.eq_dec r 0) as [Hr0|Hr0].
  - left. split; [exact Hr0|]. subst r. cbn [Zdigits2].
    rewrite shr_nonpos by (unfold E; rewrite !fexp_spec; lia).
    reflexivity.
  - right.
    assert (Hrpos : 0 < r) by lia.
    pose proof (Zdigits2_bounds r Hrpos) as Hdr.
    destruct (Z.eq_dec r (2 ^ 53)) as [Hr53|Hr53].
    + exists (2 ^ 52)%positive, (E + 1).
      split; [lia|]. split.
      { replace (E + 1 - E) with 1 by lia. rewrite Hr53. reflexivity. }
      split; [reflexivity|].
      rewrite Hr53.
      replace (fexp prec emax (Zdigits2 (2 ^ 53) + E) - E) with 1
        by (change (Zdigits2 (2 ^ 53)) with 54; unfold E; rewrite !fexp_spec; lia).
      reflexivity.
    + assert (Hlt : r < 2 ^ 53) by lia.
      assert (Hd : Zdigits2 r <= 53) by (apply Zdigits2_le; lia).
      rewrite shr_nonpos by (unfold E; rewrite !fexp_spec; lia).
      cbn [shr_m].
      destruct r as [|p|p] eqn:Er; try lia.
      exists p, E. split; [lia|]. split.
      { rewrite Z.sub_diag. simpl. lia. }
      split; [lia|]. reflexivity.
Qed.

Lemma round_grid_normal (mx ex : Z) :
  0 <= mx -> ex <= fexp prec emax (Zdigits2 mx + ex) ->
  fexp prec emax (Zdigits2 mx + ex) = -1074
  \/ 2 ^ 52 <= mx / 2 ^ (fexp prec emax (Zdigits2 mx + ex) - ex).
Proof.
  intros Hmx Hex. rewrite fexp_spec in *.
  destruct (Z.max_spec (Zdigits2 mx + ex - 53) (-1074)) as [[Hlt ->]|[Hge ->]];
    [now left|right].
  destruct (Z.eq_dec mx 0) as [->|Hne]; [simpl in *; lia|].
  pose proof (Zdigits2_bounds mx) as Hb.
  rewrite Z.max_l in Hex by lia.
  apply Z.div_le_lower_bound; [apply Z.pow_pos_nonneg; lia|].
  rewrite <- Z.pow_add_r by lia.
  replace (Zdigits2 mx + ex - 53 - ex + 52) with (Zdigits2 mx - 1) by lia. lia.
Qed.

(** ** Real values *)

Local Open Scope R_scope.

Lemma bpow_gt_0 (e : Z) : 0 < bpow e.
Proof. apply powerRZ_lt. lra. Qed.

Lemma bpow_add (a b : Z) : bpow (a + b) = bpow a * bpow b.
Proof. apply powerRZ_add. lra. Qed.

Lemma bpow_IZR (k : Z) : (0 <= k)%Z -> IZR (2 ^ k) = bpow k.
Proof.
  intros Hk. destruct k as [|p|p]; try lia.
  - reflexivity.
  - unfold bpow. rewrite <- Zpower_pos_powerRZ. reflexivity.
Qed.

Lemma bpow_le (a b : Z) : (a <= b)%Z -> bpow a <= bpow b.
Proof.
  intros H. replace b with (a + (b - a))%Z by lia.
  rewrite bpow_add, <- (bpow_IZR (b - a)) by lia.
  pose proof (bpow_gt_0 a).
  assert (1 <= IZR (2 ^ (b - a))).
  { apply IZR_le. pose proof (Z.pow_pos_nonneg 2 (b - a)). lia. }
  nra.
Qed.

Lemma bpow_lt (a b : Z) : (a < b)%Z -> bpow a < bpow b.
Proof.
  intros H. replace b with (a + (b - a))%Z by lia.
  rewrite bpow_add, <- (bpow_IZR (b - a)) by lia.
  pose proof (bpow_gt_0 a).
  assert (2 <= IZR (2 ^ (b - a))).
  { apply IZR_le. replace (b - a)%Z with (Z.succ (b - a - 1)) by lia.
    rewrite Z.pow_succ_r by lia. pose proof (Z.pow_pos_nonneg 2 (b - a - 1)). lia. }
  nra.
Qed.

Lemma bpow_lt_inv (a b : Z) : bpow a < bpow b -> (a < b)%Z.
Proof.
  intros H. destruct (Z.lt_ge_cases a b) as [|Hge]; [assumption|].
  apply bpow_le in Hge. lra.
Qed.

Lemma bpow_le_inv (a b : Z) : bpow a <= bpow b -> (a <= b)%Z.
Proof.
  intros H. destruct (Z.le_gt_cases a b) as [|Hgt]; [assumption|].
  apply bpow_lt in Hgt. lra.
Qed.

Lemma F2R_digits (m e : Z) :
  (0 < m)%Z -> bpow (Zdigits2 m - 1 + e) <= F2R m e < bpow (Zdigits2 m + e).
Proof.
  intros Hm. pose proof (Zdigits2_bounds m Hm) as [Hl Hu].
  pose proof (Zdigits2_pos m Hm) as Hd.
  unfold F2R.
  rewrite !bpow_add, <- (bpow_IZR (Zdigits2 m - 1)), <- (bpow_IZR (Zdigits2 m)) by lia.
  apply IZR_le in Hl. apply IZR_lt in Hu. pose proof (bpow_gt_0 e). nra.
Qed.

Lemma F2R_shift (m e k : Z) : (0 <= k)%Z -> F2R (m * 2 ^ k) e = F2R m (e + k).
Proof.
  intros Hk. unfold F2R. rewrite mult_IZR, bpow_IZR, (Z.add_comm e k), bpow_add by lia.
  ring.
Qed.

Lemma F2R_le (m n e : Z) : (m <= n)%Z -> F2R m e <= F2R n e.
Proof. intros H. unfold F2R. apply IZR_le in H. pose proof (bpow_gt_0 e). nra. Qed.

Lemma F2R_lt (m n e : Z) : (m < n)%Z -> F2R m e < F2R n e.
Proof. intros H. unfold F2R. apply IZR_lt in H. pose proof (bpow_gt_0 e). nra. Qed.

Lemma F2R_le_inv (m n e : Z) : F2R m e <= F2R n e -> (m <= n)%Z.
Proof.
  intros H. apply le_IZR. unfold F2R in H. pose proof (bpow_gt_0 e). nra.
Qed.

Lemma F2R_lt_inv (m n e : Z) : F2R m e < F2R n e -> (m < n)%Z.
Proof.
  intros H. apply lt_IZR. unfold F2R in H. pose proof (bpow_gt_0 e). nra.
Qed.

(** Truncating [k] bits keeps the value within one unit of the new last
    place. *)
Lemma F2R_truncate (m e k : Z) :
  (0 <= m)%Z -> (0 <= k)%Z ->
  F2R (m / 2 ^ k) (e + k) <= F2R m e < F2R (m / 2 ^ k + 1) (e + k).
Proof.
  intros Hm Hk. rewrite <- !F2R_shift by lia.
  pose proof (Z.pow_pos_nonneg 2 k ltac:(lia) Hk) as Hp.
  pose proof (Z.div_mod m (2 ^ k) ltac:(lia)) as Hdm.
  pose proof (Z.mod_pos_bound m (2 ^ k) Hp) as Hmod.
  split; [apply F2R_le | apply F2R_lt]; lia.
Qed.

Lemma F2R_pos (m : positive) (e : Z) : 0 < F2R (Z.pos m) e.
Proof.
  unfold F2R. pose proof (bpow_gt_0 e).
  assert (0 < IZR (Z.pos m)) by (apply IZR_lt; lia). nra.
Qed.

Lemma SF2R_abs (x : spec_float) : SF2R (SFabs x) = Rabs (SF2R x).
Proof.
  destruct x as [s|s| |s m e]; cbn [SFabs SF2R]; try (now rewrite Rabs_R0).
  pose proof (F2R_pos m e) as Hp.
  destruct s; cbn [cond_Zopp].
  - unfold F2R in *. rewrite opp_IZR. rewrite Rabs_left; lra.
  - rewrite Rabs_pos_eq; lra.
Qed.

Lemma SF2R_nonneg (x : spec_float) : is_nonneg_SF x = true -> 0 <= SF2R x.
Proof.
  destruct x as [s|s| |[|] m e]; try discriminate; intros _; cbn [SF2R cond_Zopp];
    try lra.
  pose proof (F2R_pos m e). lra.
Qed.

(** ** Numbers of the format *)

Lemma valid_finite_inv (s : bool) (m : positive) (e : Z) :
  valid_binary (S754_finite s m e) = true ->
  (Z.pos (digits2_pos m) <= 53
   /\ -1074 <= e <= 971
   /\ e = fexp prec emax (Z.pos (digits2_pos m) + e)
   /\ (-1074 < e -> 2 ^ 52 <= Z.pos m)
   /\ Z.pos m < 2 ^ 53)%Z.
Proof.
  cbn [SpecFloat.valid_binary]. unfold bounded, canonical_mantissa.
  intros H. apply andb_prop in H as [Hc Hb].
  apply Z.eqb_eq in Hc. apply Z.leb_le in Hb.
  change (emax - prec)%Z with 971%Z in Hb.
  pose proof (digits2_pos_bounds m) as [Hl Hu].
  rewrite fexp_spec in Hc.
  assert (Hd : (Z.pos (digits2_pos m) <= 53)%Z) by lia.
  split; [exact Hd|]. split; [lia|]. split; [rewrite fexp_spec; lia|]. split.
  - intros He. replace (Z.pos (digits2_pos m)) with 53%Z in Hl by lia. exact Hl.
  - apply Z.lt_le_trans with (1 := Hu). apply Z.pow_le_mono_r; lia.
Qed.

(** Among the numbers of the format the value grows with the exponent. *)
Lemma valid_exponent_lt (s1 s2 : bool) (m1 m2 : positive) (e1 e2 : Z) :
  valid_binary (S754_finite s1 m1 e1) = true ->
  valid_binary (S754_finite s2 m2 e2) = true ->
  (e1 < e2)%Z -> F2R (Z.pos m1) e1 < F2R (Z.pos m2) e2.
Proof.
  intros H1 H2 He.
  apply valid_finite_inv in H1 as (_ & Hr1 & _ & _ & Hu1).
  apply valid_finite_inv in H2 as (_ & Hr2 & _ & Hn2 & _).
  specialize (Hn2 ltac:(lia)).
  apply Rlt_le_trans with (F2R (2 ^ 53) e1); [apply F2R_lt; lia|].
  apply Rle_trans with (F2R (2 ^ 52) e2); [|apply F2R_le; lia].
  unfold F2R. rewrite !bpow_IZR, <- !bpow_add by lia. apply bpow_le. lia.
Qed.

Lemma valid_exponent_le (s1 s2 : bool) (m1 m2 : positive) (e1 e2 : Z) :
  valid_binary (S754_finite s1 m1 e1) = true ->
  valid_binary (S754_finite s2 m2 e2) = true ->
  F2R (Z.pos m1) e1 <= F2R (Z.pos m2) e2 -> (e1 <= e2)%Z.
Proof.
  intros H1 H2 H. destruct (Z.le_gt_cases e1 e2) as [|Hgt]; [assumption|].
  pose proof (valid_exponent_lt _ _ _ _ _ _ H2 H1 ltac:(lia)). lra.
Qed.

(** The comparison of two numbers that are not negative is that of their
    values. *)
Lemma SFltb_nonneg (x y : spec_float) :
  valid_binary x = true -> valid_binary y = true ->
  is_nonneg_SF x = true -> is_nonneg_SF y = true ->
  SFltb x y = true <-> SF2R x < SF2R y.
Proof.
  intros Vx Vy Nx Ny.
  destruct x as [sx|sx| |[|] mx ex]; try discriminate;
  destruct y as [sy|sy| |[|] my ey]; try discriminate;
    unfold SFltb; cbn [SFcompare SF2R cond_Zopp].
  - split; [discriminate | lra].
  - pose proof (F2R_pos my ey). split; [lra | reflexivity].
  - pose proof (F2R_pos mx ex). split; [discriminate | lra].
  - destruct (Z.compare_spec ex ey) as [->|Hlt|Hgt].
    + change (Pos.compare_cont Eq mx my) with (Pos.compare mx my).
      destruct (Pos.compare_spec mx my) as [->|Hm|Hm].
      * split; [discriminate | lra].
      * split; [intros _; apply F2R_lt; lia | reflexivity].
      * split; [discriminate|]. intros H. apply F2R_lt_inv in H. lia.
    + pose proof (valid_exponent_lt _ _ _ _ _ _ Vx Vy Hlt). split; [lra | reflexivity].
    + pose proof (valid_exponent_lt _ _ _ _ _ _ Vy Vx Hgt). split; [discriminate | lra].
Qed.

Lemma SFltb_nonneg_false (x y : spec_float) :
  valid_binary x = true -> valid_binary y = true ->
  is_nonneg_SF x = true -> is_nonneg_SF y = true ->
  SFltb x y = false <-> SF2R y <= SF2R x.
Proof.
  intros Vx Vy Nx Ny. pose proof (SFltb_nonneg _ _ Vx Vy Nx Ny) as H.
  destruct (SFltb x y).
  - split; [discriminate|]. intros Hle. pose proof (proj1 H eq_refl). lra.
  - split; [|reflexivity]. intros _.
    destruct (Rle_or_lt (SF2R y) (SF2R x)) as [|Hlt]; [assumption|].
    apply H in Hlt. discriminate.
Qed.

(** Between a number of the format and the next one there is no other. *)
Lemma valid_discrete (mc m : positive) (ec e : Z) :
  valid_binary (S754_finite false mc ec) = true ->
  valid_binary (S754_finite false m e) = true ->
  F2R (Z.pos mc) ec <= F2R (Z.pos m) e ->
  (m = mc /\ e = ec) \/ F2R (Z.pos mc + 1) ec <= F2R (Z.pos m) e.
Proof.
  intros Vc V H.
  pose proof (valid_exponent_le _ _ _ _ _ _ Vc V H) as He.
  destruct (Z.eq_dec ec e) as [<-|Hne].
  - apply F2R_le_inv in H.
    destruct (Z.eq_dec (Z.pos mc) (Z.pos m)) as [E|Hm].
    + left. split; [congruence | reflexivity].
    + right. apply F2R_le. lia.
  - right.
    apply valid_finite_inv in Vc as (_ & Hrc & _ & _ & Huc).
    apply valid_finite_inv in V as (_ & Hr & _ & Hn & _).
    specialize (Hn ltac:(lia)).
    apply Rle_trans with (F2R (2 ^ 53) ec); [apply F2R_le; lia|].
    apply Rle_trans with (F2R (2 ^ 52) e); [|apply F2R_le; lia].
    unfold F2R. rewrite !bpow_IZR, <- !bpow_add by lia. apply bpow_le. lia.
Qed.

(** ** Rounding never crosses a number of the format *)

(** The result of [binary_round_aux], as a value: between the truncated
    mantissa and its successor at the exponent of the format. *)
Lemma binary_round_aux_R (s : bool) (mx ex : Z) (lx : location) :
  (0 <= mx)%Z -> (ex <= fexp prec emax (Zdigits2 mx + ex))%Z ->
  let E := fexp prec emax (Zdigits2 mx + ex) in
  let m1 := (mx / 2 ^ (E - ex))%Z in
  let z := binary_round_aux prec emax s mx ex lx in
  (z = S754_zero s /\ m1 = 0%Z)
  \/ exists m' e',
       F2R m1 E <= F2R (Z.pos m') e' <= F2R (m1 + 1) E
       /\ ((z = S754_finite s m' e' /\ (e' <= 971)%Z)
           \/ (z = S754_infinity s /\ bpow 1024 <= F2R (Z.pos m') e')).
Proof.
  intros Hmx Hex E m1 z.
  destruct (binary_round_aux_spec s mx ex lx Hmx Hex)
    as (Hm1 & r & Hr & [[Hr0 Hz]|(m' & e' & He' & Hm' & Hcarry & Hz)]).
  - left. split; [exact Hz|].
    assert (0 <= m1)%Z by (apply Z.div_pos; [lia | apply Z.pow_pos_nonneg; lia]).
    fold E m1 in Hr. lia.
  - right. exists m', e'. fold E m1 in Hr, He', Hm', Hcarry, Hz.
    assert (Hv : F2R (Z.pos m') e' = F2R r E).
    { rewrite <- Hm', F2R_shift by lia. f_equal. lia. }
    split; [rewrite Hv; split; apply F2R_le; lia|].
    change (emax - prec)%Z with 971%Z in Hz.
    destruct (Z.leb_spec e' 971) as [Hle|Hgt]; [left; now split|].
    right. split; [exact Hz|].
    assert (Hbig : (2 ^ 52 <= Z.pos m')%Z).
    { destruct (Z.eq_dec e' (E + 1)) as [He1|He1]; [rewrite (Hcarry He1); lia|].
      replace e' with E in * by lia.
      rewrite Z.sub_diag in Hm'. simpl in Hm'.
      destruct (round_grid_normal mx ex Hmx Hex) as [Hgrid|Hn]; fold E in Hgrid || fold E m1 in Hn; lia. }
    apply Rle_trans with (F2R (2 ^ 52) e'); [|apply F2R_le; lia].
    unfold F2R. rewrite bpow_IZR, <- bpow_add by lia. apply bpow_le. lia.
Qed.

(** A number [c] of the format below the value being rounded stays below
    the result. *)
Lemma round_aux_low (s : bool) (mx ex : Z) (lx : location) (mc : positive) (ec : Z) :
  (0 <= mx)%Z -> (ex <= fexp prec emax (Zdigits2 mx + ex))%Z ->
  valid_binary (S754_finite false mc ec) = true ->
  F2R (Z.pos mc) ec < F2R (mx + 1) ex ->
  binary_round_aux prec emax s mx ex lx = S754_infinity s
  \/ exists m' e',
       binary_round_aux prec emax s mx ex lx = S754_finite s m' e'
       /\ F2R (Z.pos mc) ec <= F2R (Z.pos m') e'.
Proof.
  intros Hmx Hex Vc Hc.
  pose proof (binary_round_aux_R s mx ex lx Hmx Hex) as Hz. cbv zeta in Hz.
  pose proof (round_grid_normal mx ex Hmx Hex) as Hn.
  set (E := fexp prec emax (Zdigits2 mx + ex)) in *.
  set (m1 := (mx / 2 ^ (E - ex))%Z) in *.
  apply valid_finite_inv in Vc as (Hdc & Hrc & Hcan & _ & Huc).
  assert (Hlow : F2R (Z.pos mc) ec <= F2R m1 E).
  { assert (Hmag : (Z.pos (digits2_pos mc) + ec <= Zdigits2 mx + ex)%Z).
    { pose proof (F2R_digits (Z.pos mc) ec ltac:(lia)) as [Hl _].
      cbn [Zdigits2] in Hl.
      assert (Hup : F2R (mx + 1) ex <= bpow (Zdigits2 mx + ex)).
      { pose proof (Zdigits2_nonneg mx).
        rewrite bpow_add, <- bpow_IZR by lia. apply F2R_le.
        destruct (Z.eq_dec mx 0) as [->|Hne]; [simpl; lia|].
        pose proof (Zdigits2_bounds mx). lia. }
      assert (Hlt : bpow (Z.pos (digits2_pos mc) - 1 + ec) < bpow (Zdigits2 mx + ex)) by lra.
      apply bpow_lt_inv in Hlt. lia. }
    assert (HecE : (ec <= E)%Z) by (unfold E; rewrite fexp_spec in *; lia).
    destruct (Z.eq_dec ec E) as [Heq|Hne].
    - rewrite Heq in *. apply F2R_le. unfold m1.
      apply Z.div_le_lower_bound; [apply Z.pow_pos_nonneg; lia|].
      replace E with (ex + (E - ex))%Z in Hc at 1 by lia.
      rewrite <- F2R_shift in Hc by lia. apply F2R_lt_inv in Hc. lia.
    - destruct Hn as [Hgrid|Hn]; [lia|].
      pose proof (F2R_digits (Z.pos mc) ec ltac:(lia)) as [_ Hu].
      cbn [Zdigits2] in Hu.
      apply Rle_trans with (bpow (52 + E)).
      + apply Rlt_le. apply Rlt_le_trans with (1 := Hu). apply bpow_le. lia.
      + rewrite bpow_add, <- bpow_IZR by lia. apply F2R_le. exact Hn. }
  destruct Hz as [[Hz Hm0]|(m' & e' & Hv & [[Hz He']|[Hz _]])].
  - rewrite Hm0 in Hlow. pose proof (F2R_pos mc ec). unfold F2R in Hlow at 2.
    rewrite Rmult_0_l in Hlow. lra.
  - right. exists m', e'. split; [exact Hz | lra].
  - now left.
Qed.

(** The same for a power of two, which need not be a number of the
    format. *)
Lemma round_aux_low_pow2 (s : bool) (mx ex : Z) (lx : location) (j : Z) :
  (0 <= mx)%Z -> (ex <= fexp prec emax (Zdigits2 mx + ex))%Z ->
  (-1074 <= j)%Z ->
  bpow j < F2R (mx + 1) ex ->
  binary_round_aux prec emax s mx ex lx = S754_infinity s
  \/ exists m' e',
       binary_round_aux prec emax s mx ex lx = S754_finite s m' e'
       /\ bpow j <= F2R (Z.pos m') e'.
Proof.
  intros Hmx Hex Hj Hc.
  pose proof (binary_round_aux_R s mx ex lx Hmx Hex) as Hz. cbv zeta in Hz.
  pose proof (round_grid_normal mx ex Hmx Hex) as Hn.
  set (E := fexp prec emax (Zdigits2 mx + ex)) in *.
  set (m1 := (mx / 2 ^ (E - ex))%Z) in *.
  assert (Hlow : bpow j <= F2R m1 E).
  { assert (Hmag : (j < Zdigits2 mx + ex)%Z).
    { assert (Hup : F2R (mx + 1) ex <= bpow (Zdigits2 mx + ex)).
      { pose proof (Zdigits2_nonneg mx).
        rewrite bpow_add, <- bpow_IZR by lia. apply F2R_le.
        destruct (Z.eq_dec mx 0) as [->|Hne]; [simpl; lia|].
        pose proof (Zdigits2_bounds mx). lia. }
      apply bpow_lt_inv. lra. }
    destruct Hn as [Hgrid|Hn].
    - assert (HjE : (E <= j)%Z) by lia.
      replace j with ((j - E) + E)%Z by lia.
      rewrite bpow_add, <- bpow_IZR by lia. apply F2R_le. unfold m1.
      apply Z.div_le_lower_bound; [apply Z.pow_pos_nonneg; lia|].
      rewrite <- Z.pow_add_r by lia.
      replace j with ((E - ex + (j - E)) + ex)%Z in Hc by lia.
      rewrite bpow_add, <- bpow_IZR in Hc by lia.
      apply F2R_lt_inv in Hc. lia.
    - apply Rle_trans with (bpow (52 + E)).
      + apply bpow_le. unfold E. rewrite fexp_spec. lia.
      + rewrite bpow_add, <- bpow_IZR by lia. apply F2R_le. exact Hn. }
  destruct Hz as [[Hz Hm0]|(m' & e' & Hv & [[Hz He']|[Hz _]])].
  - rewrite Hm0 in Hlow. pose proof (bpow_gt_0 j). unfold F2R in Hlow.
    rewrite Rmult_0_l in Hlow. lra.
  - right. exists m', e'. split; [exact Hz | lra].
  - now left.
Qed.

(** A power of two above the value being rounded stays above the result,
    which is then finite unless that power is beyond the format. *)
Lemma round_aux_high (s : bool) (mx ex : Z) (lx : location) (j : Z) :
  (0 <= mx)%Z -> (ex <= fexp prec emax (Zdigits2 mx + ex))%Z ->
  (-1074 <= j)%Z ->
  F2R (mx + 1) ex <= bpow j ->
  binary_round_aux prec emax s mx ex lx = S754_zero s
  \/ (binary_round_aux prec emax s mx ex lx = S754_infinity s /\ (1024 <= j)%Z)
  \/ exists m' e',
       binary_round_aux prec emax s mx ex lx = S754_finite s m' e'
       /\ F2R (Z.pos m') e' <= bpow j.
Proof.
  intros Hmx Hex Hj Hc.
  pose proof (binary_round_aux_R s mx ex lx Hmx Hex) as Hz. cbv zeta in Hz.
  set (E := fexp prec emax (Zdigits2 mx + ex)) in *.
  set (m1 := (mx / 2 ^ (E - ex))%Z) in *.
  assert (Hhigh : F2R (m1 + 1) E <= bpow j).
  { assert (Hmag : (Zdigits2 mx + ex <= j)%Z).
    { destruct (Z.eq_dec mx 0) as [->|Hne].
      - simpl in Hc |- *. unfold F2R in Hc. rewrite Rmult_1_l in Hc.
        now apply bpow_le_inv.
      - pose proof (F2R_digits mx ex ltac:(lia)) as [Hl _].
        pose proof (F2R_lt mx (mx + 1) ex ltac:(lia)).
        assert (Hlt : bpow (Zdigits2 mx - 1 + ex) < bpow j) by lra.
        apply bpow_lt_inv in Hlt. lia. }
    pose proof (Zdigits2_nonneg mx).
    assert (HEj : (E <= j)%Z) by (unfold E; rewrite fexp_spec; lia).
    replace j with ((j - E) + E)%Z by lia.
    rewrite bpow_add, <- bpow_IZR by lia. apply F2R_le.
    assert (m1 < 2 ^ (j - E))%Z; [|lia].
    unfold m1. apply Z.div_lt_upper_bound; [apply Z.pow_pos_nonneg; lia|].
    rewrite <- Z.pow_add_r by lia.
    replace j with ((E - ex + (j - E)) + ex)%Z in Hc by lia.
    rewrite bpow_add, <- bpow_IZR in Hc by lia.
    apply F2R_le_inv in Hc. lia. }
  destruct Hz as [[Hz Hm0]|(m' & e' & Hv & [[Hz He']|[Hz Hbig]])].
  - now left.
  - right. right. exists m', e'. split; [exact Hz | lra].
  - right. left. split; [exact Hz|]. apply bpow_le_inv. lra.
Qed.

(** ** Bounds on a result *)

Lemma Rabs_SF2R_finite (s : bool) (m : positive) (e : Z) :
  Rabs (SF2R (S754_finite s m e)) = F2R (Z.pos m) e.
Proof. rewrite <- SF2R_abs. reflexivity. Qed.

Lemma at_least_of_round (c : R) (s : bool) (z : spec_float) :
  (z = S754_infinity s
   \/ exists m' e', z = S754_finite s m' e' /\ c <= F2R (Z.pos m') e') ->
  at_least c z.
Proof.
  intros [->|(m' & e' & -> & H)]; [left; now exists s|right].
  split; [reflexivity|]. now rewrite Rabs_SF2R_finite.
Qed.

Lemma at_most_of_round (j : Z) (s : bool) (z : spec_float) :
  (z = S754_zero s
   \/ (z = S754_infinity s /\ (1024 <= j)%Z)
   \/ exists m' e', z = S754_finite s m' e' /\ F2R (Z.pos m') e' <= bpow j) ->
  at_most j z.
Proof.
  intros [->|[[-> H]|(m' & e' & -> & H)]].
  - split; [|reflexivity]. intros _. cbn [SF2R]. rewrite Rabs_R0.
    apply Rlt_le, bpow_gt_0.
  - split; [discriminate | lia].
  - split; [|reflexivity]. intros _. now rewrite Rabs_SF2R_finite.
Qed.

Lemma at_most_zero (j : Z) (s : bool) : at_most j (S754_zero s).
Proof. apply at_most_of_round with s. now left. Qed.

Lemma at_most_finite (j : Z) (s : bool) (m : positive) (e : Z) :
  F2R (Z.pos m) e <= bpow j -> at_most j (S754_finite s m e).
Proof. intros H. apply at_most_of_round with s. right. right. now exists m, e. Qed.

Lemma at_least_weaken (c c' : R) (z : spec_float) :
  c' <= c -> at_least c z -> at_least c' z.
Proof. intros Hc [H|[Hf H]]; [now left | right; split; [exact Hf | lra]]. Qed.

(** ** Multiplication *)

Lemma SFmul_finite_inv (x y : spec_float) :
  is_finite_SF (SFmul prec emax x y) = true ->
  is_finite_SF x = true /\ is_finite_SF y = true.
Proof.
  destruct x as [sx|sx| |sx mx ex], y as [sy|sy| |sy my ey]; cbn [SFmul is_finite_SF];
    try discriminate; now split.
Qed.

Lemma Zdigits2_mul (mx my : positive) :
  (Z.pos (digits2_pos mx) + Z.pos (digits2_pos my) - 1
   <= Zdigits2 (Z.pos (mx * my)))%Z.
Proof.
  pose proof (digits2_pos_bounds mx) as [Hx _].
  pose proof (digits2_pos_bounds my) as [Hy _].
  assert (H : (2 ^ (Z.pos (digits2_pos mx) - 1 + (Z.pos (digits2_pos my) - 1))
               <= Z.pos (mx * my))%Z).
  { rewrite Z.pow_add_r by lia. rewrite Pos2Z.inj_mul.
    apply Z.mul_le_mono_nonneg; try lia; apply Z.pow_nonneg; lia. }
  apply Zdigits2_ge in H; lia.
Qed.

Lemma SFmul_exponent (sx sy : bool) (mx my : positive) (ex ey : Z) :
  valid_binary (S754_finite sx mx ex) = true ->
  valid_binary (S754_finite sy my ey) = true ->
  (ex + ey <= fexp prec emax (Zdigits2 (Z.pos (mx * my)) + (ex + ey)))%Z.
Proof.
  intros Vx Vy.
  apply valid_finite_inv in Vx as (Hdx & Hrx & Hcx & _ & _).
  apply valid_finite_inv in Vy as (Hdy & Hry & Hcy & _ & _).
  pose proof (Zdigits2_mul mx my). rewrite fexp_spec in *. lia.
Qed.

Lemma F2R_mul (mx my : positive) (ex ey : Z) :
  F2R (Z.pos (mx * my)) (ex + ey) = F2R (Z.pos mx) ex * F2R (Z.pos my) ey.
Proof. unfold F2R. rewrite Pos2Z.inj_mul, mult_IZR, bpow_add. ring. Qed.

Lemma Rabs_SF2R_mul (sx sy : bool) (mx my : positive) (ex ey : Z) :
  Rabs (SF2R (S754_finite sx mx ex) * SF2R (S754_finite sy my ey))
  = F2R (Z.pos (mx * my)) (ex + ey).
Proof. now rewrite Rabs_mult, !Rabs_SF2R_finite, F2R_mul. Qed.

Lemma Rabs_zero_mul_l (s : bool) (y : spec_float) :
  Rabs (SF2R (S754_zero s) * SF2R y) = 0.
Proof. cbn [SF2R]. rewrite Rmult_0_l. apply Rabs_R0. Qed.

Lemma Rabs_zero_mul_r (s : bool) (x : spec_float) :
  Rabs (SF2R x * SF2R (S754_zero s)) = 0.
Proof. cbn [SF2R]. rewrite Rmult_0_r. apply Rabs_R0. Qed.

Lemma SFmul_low (x y : spec_float) (mc : positive) (ec : Z) :
  valid_binary x = true -> valid_binary y = true ->
  is_finite_SF x = true -> is_finite_SF y = true ->
  valid_binary (S754_finite false mc ec) = true ->
  F2R (Z.pos mc) ec <= Rabs (SF2R x * SF2R y) ->
  at_least (F2R (Z.pos mc) ec) (SFmul prec emax x y).
Proof.
  intros Vx Vy Fx Fy Vc Hc. pose proof (F2R_pos mc ec) as Hpos.
  destruct x as [sx|sx| |sx mx ex]; try discriminate;
  destruct y as [sy|sy| |sy my ey]; try discriminate;
    try (rewrite Rabs_zero_mul_l in Hc; lra);
    try (rewrite Rabs_zero_mul_r in Hc; lra).
  rewrite Rabs_SF2R_mul in Hc. cbn [SFmul].
  apply at_least_of_round with (xorb sx sy).
  apply round_aux_low; [lia | now apply SFmul_exponent with sx sy | exact Vc |].
  apply Rle_lt_trans with (1 := Hc). apply F2R_lt. lia.
Qed.

Lemma SFmul_low_pow2 (x y : spec_float) (j : Z) :
  valid_binary x = true -> valid_binary y = true ->
  is_finite_SF x = true -> is_finite_SF y = true ->
  (-1074 <= j)%Z ->
  bpow j <= Rabs (SF2R x * SF2R y) ->
  at_least (bpow j) (SFmul prec emax x y).
Proof.
  intros Vx Vy Fx Fy Hj Hc. pose proof (bpow_gt_0 j) as Hpos.
  destruct x as [sx|sx| |sx mx ex]; try discriminate;
  destruct y as [sy|sy| |sy my ey]; try discriminate;
    try (rewrite Rabs_zero_mul_l in Hc; lra);
    try (rewrite Rabs_zero_mul_r in Hc; lra).
  rewrite Rabs_SF2R_mul in Hc. cbn [SFmul].
  apply at_least_of_round with (xorb sx sy).
  apply round_aux_low_pow2; [lia | now apply SFmul_exponent with sx sy | exact Hj |].
  apply Rle_lt_trans with (1 := Hc). apply F2R_lt. lia.
Qed.

Lemma F2R_succ_le_bpow_exp (m e j : Z) :
  (e <= j)%Z -> F2R m e < bpow j -> F2R (m + 1) e <= bpow j.
Proof.
  intros He H.
  replace j with ((j - e) + e)%Z in H |- * by lia.
  rewrite bpow_add, <- bpow_IZR in H |- * by lia.
  apply F2R_lt_inv in H. apply F2R_le. lia.
Qed.

Lemma F2R_succ_le_bpow (m e j : Z) :
  (0 < m)%Z -> F2R m e < bpow j -> F2R (m + 1) e <= bpow j.
Proof.
  intros Hm H. apply F2R_succ_le_bpow_exp; [|exact H].
  apply bpow_le_inv. pose proof (F2R_le 1 m e ltac:(lia)) as H1.
  unfold F2R in H1 at 1. rewrite Rmult_1_l in H1. lra.
Qed.

Lemma SFmul_high (x y : spec_float) (j : Z) :
  valid_binary x = true -> valid_binary y = true ->
  is_finite_SF x = true -> is_finite_SF y = true ->
  (-1074 <= j)%Z ->
  Rabs (SF2R x * SF2R y) < bpow j ->
  at_most j (SFmul prec emax x y).
Proof.
  intros Vx Vy Fx Fy Hj Hc. pose proof (bpow_gt_0 j) as Hpos.
  destruct x as [sx|sx| |sx mx ex]; try discriminate;
  destruct y as [sy|sy| |sy my ey]; try discriminate; cbn [SFmul];
    try apply at_most_zero.
  rewrite Rabs_SF2R_mul in Hc.
  apply at_most_of_round with (xorb sx sy).
  apply round_aux_high; [lia | now apply SFmul_exponent with sx sy | lia |].
  apply F2R_succ_le_bpow; [lia | exact Hc].
Qed.

Lemma binary_round_aux_sign (s : bool) (mx ex : Z) (lx : location) :
  (0 <= mx)%Z -> (ex <= fexp prec emax (Zdigits2 mx + ex))%Z ->
  binary_round_aux prec emax s mx ex lx = S754_zero s
  \/ binary_round_aux prec emax s mx ex lx = S754_infinity s
  \/ exists m e, binary_round_aux prec emax s mx ex lx = S754_finite s m e.
Proof.
  intros Hmx Hex.
  destruct (binary_round_aux_spec s mx ex lx Hmx Hex)
    as (_ & r & _ & [[_ Hz]|(m' & e' & _ & _ & _ & Hz)]); [now left|].
  right. rewrite Hz. destruct (_ <=? _)%Z; [right; now exists m', e' | now left].
Qed.

Lemma round_sign_nonneg (z : spec_float) :
  (z = S754_zero false \/ z = S754_infinity false
   \/ exists m e, z = S754_finite false m e) ->
  is_nonneg_SF z = true \/ z = S754_infinity false.
Proof. intros [->|[->|(m & e & ->)]]; [now left | now right | now left]. Qed.

(** A square is not negative. *)
Lemma SFmul_square_nonneg (x : spec_float) :
  valid_binary x = true -> is_finite_SF x = true ->
  is_nonneg_SF (SFmul prec emax x x) = true
  \/ SFmul prec emax x x = S754_infinity false.
Proof.
  destruct x as [sx|sx| |sx mx ex]; try discriminate; intros Vx _; cbn [SFmul].
  - left. now destruct sx.
  - replace (xorb sx sx) with false by now destruct sx.
    apply round_sign_nonneg, binary_round_aux_sign; [lia|].
    now apply SFmul_exponent with sx sx.
Qed.

(** ** Addition of numbers that are not negative *)

Lemma iter_xO (m d : positive) : Z.pos (Pos.iter xO m d) = (Z.pos m * 2 ^ Z.pos d)%Z.
Proof.
  induction d as [|d IH] using Pos.peano_ind.
  - simpl. lia.
  - rewrite Pos.iter_succ, Pos2Z.inj_xO, IH, Pos2Z.inj_succ, Z.pow_succ_r by lia. ring.
Qed.

Lemma shl_align_spec (mx : positive) (ex ex' : Z) :
  snd (shl_align mx ex ex') = Z.min ex ex'
  /\ Z.pos (fst (shl_align mx ex ex'))
     = (Z.pos mx * 2 ^ (ex - Z.min ex ex'))%Z.
Proof.
  unfold shl_align. destruct (ex' - ex)%Z as [|d|d] eqn:Hd; cbn [fst snd].
  - rewrite Z.min_l by lia. rewrite Z.sub_diag. simpl. lia.
  - rewrite Z.min_l by lia. rewrite Z.sub_diag. simpl. lia.
  - rewrite Z.min_r by lia. split; [reflexivity|].
    rewrite iter_xO. f_equal. f_equal. lia.
Qed.

Lemma Zdigits2_unique (m d : Z) : (2 ^ (d - 1) <= m < 2 ^ d)%Z -> (0 < d)%Z -> Zdigits2 m = d.
Proof.
  intros [Hl Hu] Hd.
  assert (0 < m)%Z by (pose proof (Z.pow_pos_nonneg 2 (d - 1)); lia).
  pose proof (Zdigits2_le m d ltac:(lia) ltac:(lia) Hu).
  pose proof (Zdigits2_ge m (d - 1) ltac:(lia) Hl). lia.
Qed.

Lemma Zdigits2_shift (m k : Z) :
  (0 < m)%Z -> (0 <= k)%Z -> Zdigits2 (m * 2 ^ k) = (Zdigits2 m + k)%Z.
Proof.
  intros Hm Hk. pose proof (Zdigits2_bounds m Hm) as [Hl Hu].
  pose proof (Zdigits2_pos m Hm).
  pose proof (Z.pow_pos_nonneg 2 k ltac:(lia) Hk).
  apply Zdigits2_unique; [|lia].
  replace (Zdigits2 m + k - 1)%Z with ((Zdigits2 m - 1) + k)%Z by lia.
  rewrite !Z.pow_add_r by lia. split; nia.
Qed.

(** [binary_round] is [binary_round_aux] on a mantissa of the same value
    that is long enough. *)
Lemma binary_round_aligned (s : bool) (m : positive) (e : Z) :
  exists mz ez,
    binary_round prec emax s m e
    = binary_round_aux prec emax s (Z.pos mz) ez loc_Exact
    /\ F2R (Z.pos mz) ez = F2R (Z.pos m) e
    /\ (ez <= fexp prec emax (Zdigits2 (Z.pos mz) + ez))%Z.
Proof.
  unfold binary_round.
  pose proof (shl_align_spec m e (fexp prec emax (Z.pos (digits2_pos m) + e)))
    as [He Hm].
  destruct (shl_align m e (fexp prec emax (Z.pos (digits2_pos m) + e))) as [mz ez].
  cbn [fst snd] in He, Hm. rewrite <- He in Hm.
  exists mz, ez. split; [reflexivity|].
  assert (Hle : (ez <= e)%Z) by lia.
  split.
  - rewrite Hm, F2R_shift by lia. f_equal. lia.
  - rewrite Hm, Zdigits2_shift by lia. cbn [Zdigits2].
    replace (Z.pos (digits2_pos m) + (e - ez) + ez)%Z
      with (Z.pos (digits2_pos m) + e)%Z by lia.
    lia.
Qed.

Lemma binary_round_low (s : bool) (m : positive) (e : Z) (mc : positive) (ec : Z) :
  valid_binary (S754_finite false mc ec) = true ->
  F2R (Z.pos mc) ec <= F2R (Z.pos m) e ->
  at_least (F2R (Z.pos mc) ec) (binary_round prec emax s m e).
Proof.
  intros Vc Hc. destruct (binary_round_aligned s m e) as (mz & ez & -> & Hv & He).
  apply at_least_of_round with s.
  apply round_aux_low; [lia | exact He | exact Vc |].
  rewrite <- Hv in Hc. apply Rle_lt_trans with (1 := Hc). apply F2R_lt. lia.
Qed.

Lemma binary_round_low_pow2 (s : bool) (m : positive) (e j : Z) :
  (-1074 <= j)%Z ->
  bpow j <= F2R (Z.pos m) e ->
  at_least (bpow j) (binary_round prec emax s m e).
Proof.
  intros Hj Hc. destruct (binary_round_aligned s m e) as (mz & ez & -> & Hv & He).
  apply at_least_of_round with s.
  apply round_aux_low_pow2; [lia | exact He | exact Hj |].
  rewrite <- Hv in Hc. apply Rle_lt_trans with (1 := Hc). apply F2R_lt. lia.
Qed.

Lemma binary_round_high (s : bool) (m : positive) (e j : Z) :
  (-1074 <= j)%Z ->
  F2R (Z.pos m) e < bpow j ->
  at_most j (binary_round prec emax s m e).
Proof.
  intros Hj Hc. destruct (binary_round_aligned s m e) as (mz & ez & -> & Hv & He).
  apply at_most_of_round with s.
  apply round_aux_high; [lia | exact He | lia |].
  rewrite <- Hv in Hc. apply F2R_succ_le_bpow; [lia | exact Hc].
Qed.

Lemma binary_round_sign (s : bool) (m : positive) (e : Z) :
  binary_round prec emax s m e = S754_zero s
  \/ binary_round prec emax s m e = S754_infinity s
  \/ exists m' e', binary_round prec emax s m e = S754_finite s m' e'.
Proof.
  destruct (binary_round_aligned s m e) as (mz & ez & -> & Hv & He).
  apply binary_round_aux_sign; [lia | exact He].
Qed.

Lemma SFadd_finite_inv (x y : spec_float) :
  is_finite_SF (SFadd prec emax x y) = true ->
  is_finite_SF x = true /\ is_finite_SF y = true.
Proof.
  destruct x as [sx|sx| |sx mx ex], y as [sy|sy| |sy my ey];
    cbn [SFadd is_finite_SF]; try discriminate; try (now split).
  destruct sx, sy; discriminate.
Qed.

(** The sum of two positive numbers is their exact sum, rounded. *)
Lemma SFadd_positive (mx my : positive) (ex ey : Z) :
  exists M ez,
    SFadd prec emax (S754_finite false mx ex) (S754_finite false my ey)
    = binary_round prec emax false M ez
    /\ F2R (Z.pos M) ez = F2R (Z.pos mx) ex + F2R (Z.pos my) ey.
Proof.
  cbn [SFadd cond_Zopp].
  pose proof (shl_align_spec mx ex (Z.min ex ey)) as [_ Hx].
  pose proof (shl_align_spec my ey (Z.min ex ey)) as [_ Hy].
  destruct (shl_align mx ex (Z.min ex ey)) as [mx' ex'].
  destruct (shl_align my ey (Z.min ex ey)) as [my' ey'].
  cbn [fst snd] in *.
  exists (mx' + my')%positive, (Z.min ex ey). split; [reflexivity|].
  rewrite Z.min_r in Hx by lia. rewrite Z.min_r in Hy by lia.
  unfold F2R at 1. rewrite Pos2Z.inj_add, plus_IZR, Rmult_plus_distr_r.
  change (IZR (Z.pos mx') * bpow (Z.min ex ey)) with (F2R (Z.pos mx') (Z.min ex ey)).
  change (IZR (Z.pos my') * bpow (Z.min ex ey)) with (F2R (Z.pos my') (Z.min ex ey)).
  rewrite Hx, Hy, !F2R_shift by lia.
  f_equal; f_equal; lia.
Qed.

Lemma SFadd_nonneg (x y : spec_float) :
  is_nonneg_SF x = true -> is_nonneg_SF y = true ->
  is_nonneg_SF (SFadd prec emax x y) = true
  \/ SFadd prec emax x y = S754_infinity false.
Proof.
  intros Nx Ny.
  destruct x as [sx|sx| |[|] mx ex]; try discriminate;
  destruct y as [sy|sy| |[|] my ey]; try discriminate.
  - left. destruct sx, sy; reflexivity.
  - now left.
  - now left.
  - destruct (SFadd_positive mx my ex ey) as (M & ez & -> & _).
    apply round_sign_nonneg, binary_round_sign.
Qed.

Lemma SFadd_low (x y : spec_float) (mc : positive) (ec : Z) :
  is_nonneg_SF x = true -> is_nonneg_SF y = true ->
  valid_binary (S754_finite false mc ec) = true ->
  F2R (Z.pos mc) ec <= SF2R x + SF2R y ->
  at_least (F2R (Z.pos mc) ec) (SFadd prec emax x y).
Proof.
  intros Nx Ny Vc Hc. pose proof (F2R_pos mc ec) as Hpos.
  destruct x as [sx|sx| |[|] mx ex]; try discriminate;
  destruct y as [sy|sy| |[|] my ey]; try discriminate; cbn [SF2R cond_Zopp] in Hc.
  - lra.
  - right. split; [reflexivity|]. cbn [SFadd]. rewrite Rabs_SF2R_finite. lra.
  - right. split; [reflexivity|]. cbn [SFadd]. rewrite Rabs_SF2R_finite. lra.
  - destruct (SFadd_positive mx my ex ey) as (M & ez & -> & Hv).
    apply binary_round_low; [exact Vc | lra].
Qed.

Lemma SFadd_low_pow2 (x y : spec_float) (j : Z) :
  is_nonneg_SF x = true -> is_nonneg_SF y = true ->
  (-1074 <= j)%Z ->
  bpow j <= SF2R x + SF2R y ->
  at_least (bpow j) (SFadd prec emax x y).
Proof.
  intros Nx Ny Hj Hc. pose proof (bpow_gt_0 j) as Hpos.
  destruct x as [sx|sx| |[|] mx ex]; try discriminate;
  destruct y as [sy|sy| |[|] my ey]; try discriminate; cbn [SF2R cond_Zopp] in Hc.
  - lra.
  - right. split; [reflexivity|]. cbn [SFadd]. rewrite Rabs_SF2R_finite. lra.
  - right. split; [reflexivity|]. cbn [SFadd]. rewrite Rabs_SF2R_finite. lra.
  - destruct (SFadd_positive mx my ex ey) as (M & ez & -> & Hv).
    apply binary_round_low_pow2; [exact Hj | lra].
Qed.

Lemma SFadd_high (x y : spec_float) (j : Z) :
  is_nonneg_SF x = true -> is_nonneg_SF y = true ->
  (-1074 <= j)%Z ->
  SF2R x + SF2R y < bpow j ->
  at_most j (SFadd prec emax x y).
Proof.
  intros Nx Ny Hj Hc. pose proof (bpow_gt_0 j) as Hpos.
  destruct x as [sx|sx| |[|] mx ex]; try discriminate;
  destruct y as [sy|sy| |[|] my ey]; try discriminate; cbn [SF2R cond_Zopp] in Hc.
  - destruct sx, sy; apply at_most_zero.
  - cbn [SFadd]. apply at_most_finite. lra.
  - cbn [SFadd]. apply at_most_finite. lra.
  - destruct (SFadd_positive mx my ex ey) as (M & ez & -> & Hv).
    apply binary_round_high; [exact Hj | lra].
Qed.

(** ** Square root *)

(** The integer square root that [SFsqrt] rounds: [q] is the integer
    square root of a mantissa [m'] with the value of the operand at the
    exponent [2 * e']. *)
Lemma SFsqrt_core_spec (mx : positive) (ex : Z) :
  exists q e' l m',
    SFsqrt_core_binary prec emax (Z.pos mx) ex = (q, e', l)
    /\ (0 < q)%Z
    /\ (q * q <= m' < (q + 1) * (q + 1))%Z
    /\ F2R m' (2 * e') = F2R (Z.pos mx) ex
    /\ (e' <= fexp prec emax (Zdigits2 q + e'))%Z.
Proof.
  unfold SFsqrt_core_binary.
  set (d := Zdigits2 (Z.pos mx)).
  set (e' := Z.min (fexp prec emax (Z.div2 (d + ex + 1))) (Z.div2 ex)).
  set (sh := (ex - 2 * e')%Z).
  assert (He1 : (e' <= fexp prec emax (Z.div2 (d + ex + 1)))%Z) by (unfold e'; lia).
  assert (Hsh : (0 <= sh)%Z) by (unfold sh, e'; zdiv).
  set (m' := match sh with
             | Z.pos _ => Z.shiftl (Z.pos mx) sh
             | 0%Z => Z.pos mx
             | Z.neg _ => 0%Z
             end).
  assert (Hm' : m' = (Z.pos mx * 2 ^ sh)%Z).
  { unfold m'. destruct sh as [|p|p] eqn:E; try lia.
    now rewrite Z.shiftl_mul_pow2 by lia. }
  clearbody m'.
  pose proof (Z.pow_pos_nonneg 2 sh ltac:(lia) Hsh) as Hpow.
  assert (Hpos : (0 < m')%Z) by nia.
  pose proof (Z.sqrtrem_sqrt m') as Hq.
  destruct (Z.sqrtrem m') as [q r]. cbn [fst] in Hq. subst q.
  pose proof (Z.sqrt_spec m' ltac:(lia)) as Hs. cbv zeta in Hs.
  unfold Z.succ in Hs.
  assert (Hd : Zdigits2 m' = (d + sh)%Z)
    by (rewrite Hm'; apply Zdigits2_shift; lia).
  pose proof (Zdigits2_bounds m' Hpos) as [Hl Hu].
  assert (Hdpos : (0 < d)%Z) by (unfold d; simpl; lia).
  set (h := Z.div2 (d + sh + 1)).
  assert (Hh : (2 * h <= d + sh + 1 < 2 * h + 2)%Z) by (unfold h; zdiv).
  assert (Hhe : Z.div2 (d + ex + 1) = (h + e')%Z) by (unfold h, sh; zdiv).
  clearbody h.
  assert (Hqlow : (2 ^ (h - 1) <= Z.sqrt m')%Z).
  { apply Z.sqrt_le_square; [lia | apply Z.pow_nonneg; lia|].
    rewrite <- Z.pow_add_r by lia.
    apply Z.le_trans with (2 := Hl). apply Z.pow_le_mono_r; lia. }
  assert (Hqpos : (0 < Z.sqrt m')%Z).
  { pose proof (Z.pow_pos_nonneg 2 (h - 1)). lia. }
  eexists (Z.sqrt m'), e', _, m'. split; [reflexivity|].
  split; [exact Hqpos|]. split; [lia|]. split.
  - rewrite Hm', F2R_shift by lia. f_equal. unfold sh. lia.
  - pose proof (Zdigits2_ge (Z.sqrt m') (h - 1) ltac:(lia) Hqlow).
    rewrite Hhe in He1. rewrite !fexp_spec in *. lia.
Qed.

Lemma F2R_square (m e : Z) : F2R m e * F2R m e = F2R (m * m) (2 * e).
Proof.
  unfold F2R. rewrite mult_IZR. replace (2 * e)%Z with (e + e)%Z by lia.
  rewrite bpow_add. ring.
Qed.

Lemma F2R_nonneg (m e : Z) : (0 <= m)%Z -> 0 <= F2R m e.
Proof.
  intros H. unfold F2R. apply IZR_le in H. pose proof (bpow_gt_0 e). nra.
Qed.

Lemma SFsqrt_finite_inv (x : spec_float) :
  is_finite_SF (SFsqrt prec emax x) = true -> is_nonneg_SF x = true.
Proof.
  destruct x as [sx|[|]| |[|] mx ex]; cbn [SFsqrt is_finite_SF is_nonneg_SF];
    try discriminate; reflexivity.
Qed.

Lemma SFsqrt_nonneg (x : spec_float) :
  is_nonneg_SF x = true ->
  is_nonneg_SF (SFsqrt prec emax x) = true
  \/ SFsqrt prec emax x = S754_infinity false.
Proof.
  destruct x as [sx|sx| |[|] mx ex]; try discriminate; intros _; [now left|].
  cbn [SFsqrt].
  destruct (SFsqrt_core_spec mx ex) as (q & e' & l & m' & -> & Hq & _ & _ & He).
  apply round_sign_nonneg, binary_round_aux_sign; [lia | exact He].
Qed.

Lemma SFsqrt_low (x : spec_float) (mc : positive) (ec : Z) :
  is_nonneg_SF x = true ->
  valid_binary (S754_finite false mc ec) = true ->
  F2R (Z.pos mc) ec * F2R (Z.pos mc) ec <= SF2R x ->
  at_least (F2R (Z.pos mc) ec) (SFsqrt prec emax x).
Proof.
  intros Nx Vc Hc. pose proof (F2R_pos mc ec) as Hpos.
  destruct x as [sx|sx| |[|] mx ex]; try discriminate; cbn [SF2R cond_Zopp] in Hc;
    [nra|].
  cbn [SFsqrt].
  destruct (SFsqrt_core_spec mx ex) as (q & e' & l & m' & -> & Hq & Hs & Hv & He).
  apply at_least_of_round with false.
  apply round_aux_low; [lia | exact He | exact Vc |].
  destruct (Rlt_or_le (F2R (Z.pos mc) ec) (F2R (q + 1) e')) as [|Hge]; [assumption|].
  exfalso.
  pose proof (F2R_nonneg (q + 1) e' ltac:(lia)) as H0.
  pose proof (F2R_lt m' ((q + 1) * (q + 1)) (2 * e') ltac:(lia)) as Hlt.
  rewrite <- F2R_square, Hv in Hlt. nra.
Qed.

Lemma bpow_double (j : Z) : bpow (2 * j) = bpow j * bpow j.
Proof. replace (2 * j)%Z with (j + j)%Z by lia. apply bpow_add. Qed.

Lemma SFsqrt_low_pow2 (x : spec_float) (j : Z) :
  is_nonneg_SF x = true ->
  (-1074 <= j)%Z ->
  bpow (2 * j) <= SF2R x ->
  at_least (bpow j) (SFsqrt prec emax x).
Proof.
  intros Nx Hj Hc. pose proof (bpow_gt_0 j) as Hpos. rewrite bpow_double in Hc.
  destruct x as [sx|sx| |[|] mx ex]; try discriminate; cbn [SF2R cond_Zopp] in Hc;
    [nra|].
  cbn [SFsqrt].
  destruct (SFsqrt_core_spec mx ex) as (q & e' & l & m' & -> & Hq & Hs & Hv & He).
  apply at_least_of_round with false.
  apply round_aux_low_pow2; [lia | exact He | exact Hj |].
  destruct (Rlt_or_le (bpow j) (F2R (q + 1) e')) as [|Hge]; [assumption|].
  exfalso.
  pose proof (F2R_nonneg (q + 1) e' ltac:(lia)) as H0.
  pose proof (F2R_lt m' ((q + 1) * (q + 1)) (2 * e') ltac:(lia)) as Hlt.
  rewrite <- F2R_square, Hv in Hlt. nra.
Qed.

Lemma SFsqrt_high (x : spec_float) (j : Z) :
  is_nonneg_SF x = true ->
  (-1074 <= j)%Z ->
  SF2R x < bpow (2 * j) ->
  at_most j (SFsqrt prec emax x).
Proof.
  intros Nx Hj Hc. pose proof (bpow_gt_0 j) as Hpos. rewrite bpow_double in Hc.
  destruct x as [sx|sx| |[|] mx ex]; try discriminate; cbn [SF2R cond_Zopp] in Hc.
  - cbn [SFsqrt]. apply at_most_zero.
  - cbn [SFsqrt].
    destruct (SFsqrt_core_spec mx ex) as (q & e' & l & m' & -> & Hq & Hs & Hv & He).
    apply at_most_of_round with false.
    apply round_aux_high; [lia | exact He | lia |].
    apply F2R_succ_le_bpow; [exact Hq|].
    destruct (Rlt_or_le (F2R q e') (bpow j)) as [|Hge]; [assumption|].
    exfalso.
    pose proof (F2R_le (q * q) m' (2 * e') ltac:(lia)) as Hle.
    rewrite <- F2R_square, Hv in Hle. nra.
Qed.

(** ** Division *)

(** The integer quotient that [SFdiv] rounds. *)
Lemma SFdiv_core_spec (mx my : positive) (ex ey : Z) :
  exists q e' l m',
    SFdiv_core_binary prec emax (Z.pos mx) ex (Z.pos my) ey = (q, e', l)
    /\ (0 <= q)%Z
    /\ (q * Z.pos my <= m' < (q + 1) * Z.pos my)%Z
    /\ F2R m' (e' + ey) = F2R (Z.pos mx) ex
    /\ (e' <= fexp prec emax (Zdigits2 (Z.pos mx) + ex - (Zdigits2 (Z.pos my) + ey)))%Z
    /\ (e' <= fexp prec emax (Zdigits2 q + e'))%Z.
Proof.
  unfold SFdiv_core_binary.
  set (d1 := Zdigits2 (Z.pos mx)). set (d2 := Zdigits2 (Z.pos my)).
  set (e' := Z.min (fexp prec emax (d1 + ex - (d2 + ey))) (ex - ey)).
  set (sh := (ex - ey - e')%Z).
  assert (He1 : (e' <= fexp prec emax (d1 + ex - (d2 + ey)))%Z) by (unfold e'; lia).
  assert (Hsh : (0 <= sh)%Z) by (unfold sh, e'; lia).
  set (m' := match sh with
             | Z.pos _ => Z.shiftl (Z.pos mx) sh
             | 0%Z => Z.pos mx
             | Z.neg _ => 0%Z
             end).
  assert (Hm' : m' = (Z.pos mx * 2 ^ sh)%Z).
  { unfold m'. destruct sh as [|p|p] eqn:E; try lia.
    now rewrite Z.shiftl_mul_pow2 by lia. }
  clearbody m'.
  pose proof (Z.pow_pos_nonneg 2 sh ltac:(lia) Hsh) as Hpow.
  assert (Hpos : (0 < m')%Z) by nia.
  pose proof (Z_div_mod m' (Z.pos my) ltac:(lia)) as Hdiv.
  destruct (Z.div_eucl m' (Z.pos my)) as [q r]. destruct Hdiv as [Hqr Hr].
  assert (Hq0 : (0 <= q)%Z) by nia.
  eexists q, e', _, m'. split; [reflexivity|].
  split; [exact Hq0|]. split; [nia|]. split.
  { rewrite Hm', F2R_shift by lia. f_equal. unfold sh. lia. }
  split; [exact He1|].
  destruct (Z.le_gt_cases e' (-1074)) as [Hle|Hgt]; [rewrite fexp_spec; lia|].
  pose proof (digits2_pos_bounds mx) as [Hl1 Hu1].
  pose proof (digits2_pos_bounds my) as [Hl2 Hu2].
  fold (Zdigits2 (Z.pos mx)) in Hl1, Hu1. fold (Zdigits2 (Z.pos my)) in Hl2, Hu2.
  fold d1 in Hl1, Hu1. fold d2 in Hl2, Hu2.
  assert (Hd1 : (0 < d1)%Z) by (unfold d1; simpl; lia).
  assert (Hd2 : (0 < d2)%Z) by (unfold d2; simpl; lia).
  rewrite fexp_spec in He1.
  set (t := (d1 - 1 + sh - d2)%Z).
  assert (Ht : (52 <= t)%Z) by (unfold t, sh; lia).
  assert (Hqlow : (2 ^ t <= q)%Z).
  { assert (H : (2 ^ t * Z.pos my <= m')%Z).
    { apply Z.le_trans with (2 ^ t * 2 ^ d2)%Z.
      - apply Z.mul_le_mono_nonneg_l; [apply Z.pow_nonneg; lia | lia].
      - rewrite <- Z.pow_add_r by lia. rewrite Hm'.
        replace (t + d2)%Z with ((d1 - 1) + sh)%Z by (unfold t; lia).
        rewrite Z.pow_add_r by lia.
        apply Z.mul_le_mono_nonneg_r; lia. }
    nia. }
  pose proof (Zdigits2_ge q t ltac:(lia) Hqlow).
  rewrite fexp_spec. unfold t, sh in *. lia.
Qed.

Lemma SFdiv_low_pow2 (x y : spec_float) (j : Z) :
  is_finite_SF x = true -> is_finite_SF y = true ->
  (-1074 <= j)%Z ->
  0 < Rabs (SF2R y) ->
  bpow j * Rabs (SF2R y) <= Rabs (SF2R x) ->
  at_least (bpow j) (SFdiv prec emax x y).
Proof.
  intros Fx Fy Hj Hy Hc. pose proof (bpow_gt_0 j) as Hpos.
  destruct y as [sy|sy| |sy my ey]; try discriminate;
    [cbn [SF2R] in Hy; rewrite Rabs_R0 in Hy; lra|].
  rewrite Rabs_SF2R_finite in Hy, Hc.
  destruct x as [sx|sx| |sx mx ex]; try discriminate;
    [cbn [SF2R] in Hc; rewrite Rabs_R0 in Hc; nra|].
  rewrite Rabs_SF2R_finite in Hc. cbn [SFdiv].
  destruct (SFdiv_core_spec mx my ex ey)
    as (q & e' & l & m' & -> & Hq & Hqm & Hv & _ & He).
  apply at_least_of_round with (xorb sx sy).
  apply round_aux_low_pow2; [exact Hq | exact He | exact Hj |].
  pose proof (F2R_lt m' ((q + 1) * Z.pos my) (e' + ey) ltac:(lia)) as Hlt.
  rewrite Hv in Hlt.
  assert (Hprod : F2R ((q + 1) * Z.pos my) (e' + ey) = F2R (q + 1) e' * F2R (Z.pos my) ey).
  { unfold F2R. rewrite mult_IZR, bpow_add. ring. }
  rewrite Hprod in Hlt. nra.
Qed.

Lemma SFdiv_high (x y : spec_float) (j : Z) :
  is_finite_SF x = true -> is_finite_SF y = true ->
  (-1074 <= j)%Z ->
  0 < Rabs (SF2R y) ->
  Rabs (SF2R x) < bpow j * Rabs (SF2R y) ->
  at_most j (SFdiv prec emax x y).
Proof.
  intros Fx Fy Hj Hy Hc. pose proof (bpow_gt_0 j) as Hpos.
  destruct y as [sy|sy| |sy my ey]; try discriminate;
    [cbn [SF2R] in Hy; rewrite Rabs_R0 in Hy; lra|].
  rewrite Rabs_SF2R_finite in Hy, Hc.
  destruct x as [sx|sx| |sx mx ex]; try discriminate.
  { cbn [SFdiv]. apply at_most_zero. }
  rewrite Rabs_SF2R_finite in Hc. cbn [SFdiv].
  destruct (SFdiv_core_spec mx my ex ey)
    as (q & e' & l & m' & -> & Hq & Hqm & Hv & He1 & He).
  apply at_most_of_round with (xorb sx sy).
  apply round_aux_high; [exact Hq | exact He | lia |].
  pose proof (F2R_digits (Z.pos mx) ex ltac:(lia)) as [Hlx _].
  pose proof (F2R_digits (Z.pos my) ey ltac:(lia)) as [_ Huy].
  pose proof (F2R_pos my ey) as Hypos.
  assert (HD : (Zdigits2 (Z.pos mx) + ex - (Zdigits2 (Z.pos my) + ey) <= j)%Z).
  { assert (Hlt : bpow (Zdigits2 (Z.pos mx) - 1 + ex)
                  < bpow (j + (Zdigits2 (Z.pos my) + ey))).
    { rewrite (bpow_add j). nra. }
    apply bpow_lt_inv in Hlt. lia. }
  apply F2R_succ_le_bpow_exp; [rewrite fexp_spec in He1; lia|].
  pose proof (F2R_le (q * Z.pos my) m' (e' + ey) ltac:(lia)) as Hle.
  rewrite Hv in Hle.
  assert (Hprod : F2R (q * Z.pos my) (e' + ey) = F2R q e' * F2R (Z.pos my) ey).
  { unfold F2R. rewrite mult_IZR, bpow_add. ring. }
  rewrite Hprod in Hle. nra.
Qed.

(** ** Thresholds *)

Lemma threshold_pos (c : R) : threshold c -> 0 < c.
Proof.
  intros [(j & _ & ->)|(mc & ec & _ & ->)]; [apply bpow_gt_0 | apply F2R_pos].
Qed.

Lemma threshold_bpow (j : Z) : (-1074 <= j)%Z -> threshold (bpow j).
Proof. intros H. left. now exists j. Qed.

Lemma SFmul_low_t (x y : spec_float) (c : R) :
  valid_binary x = true -> valid_binary y = true ->
  is_finite_SF x = true -> is_finite_SF y = true ->
  threshold c -> c <= Rabs (SF2R x * SF2R y) ->
  at_least c (SFmul prec emax x y).
Proof.
  intros Vx Vy Fx Fy [(j & Hj & ->)|(mc & ec & Vc & ->)] Hc.
  - now apply SFmul_low_pow2.
  - now apply SFmul_low.
Qed.

Lemma SFadd_low_t (x y : spec_float) (c : R) :
  is_nonneg_SF x = true -> is_nonneg_SF y = true ->
  threshold c -> c <= SF2R x + SF2R y ->
  at_least c (SFadd prec emax x y).
Proof.
  intros Nx Ny [(j & Hj & ->)|(mc & ec & Vc & ->)] Hc.
  - now apply SFadd_low_pow2.
  - now apply SFadd_low.
Qed.

Lemma SFsqrt_low_t (x : spec_float) (c : R) :
  is_nonneg_SF x = true ->
  threshold c -> c * c <= SF2R x ->
  at_least c (SFsqrt prec emax x).
Proof.
  intros Nx [(j & Hj & ->)|(mc & ec & Vc & ->)] Hc.
  - apply SFsqrt_low_pow2; [assumption..|]. now rewrite bpow_double.
  - now apply SFsqrt_low.
Qed.

(** ** Binary64 numbers *)

Lemma nonneg_finite (x : float) : nonneg x -> finite x.
Proof.
  unfold nonneg, finite. destruct (Prim2SF x) as [s|s| |[|] m e]; try discriminate;
    reflexivity.
Qed.

Lemma nonneg_B2R (x : float) : nonneg x -> 0 <= B2R x.
Proof. apply SF2R_nonneg. Qed.

Lemma nonneg_Rabs (x : float) : nonneg x -> Rabs (B2R x) = B2R x.
Proof. intros H. apply Rabs_pos_eq. now apply nonneg_B2R. Qed.

Lemma ge_ext_nonneg_ext (c : R) (x : float) : ge_ext c x -> nonneg_ext x.
Proof. intros [H|[H _]]; [now left | now right]. Qed.

Lemma ge_ext_finite (c : R) (x : float) : ge_ext c x -> finite x -> c <= B2R x.
Proof.
  intros [H|[_ H]] Hf; [|exact H]. unfold finite, is_plus_infinity in *. now rewrite H in Hf.
Qed.

Lemma nonneg_ext_finite (x : float) : nonneg_ext x -> finite x -> nonneg x.
Proof.
  intros [H|H] Hf; [|exact H]. unfold finite, is_plus_infinity in *. now rewrite H in Hf.
Qed.

Lemma ge_ext_weaken (c c' : R) (x : float) : c' <= c -> ge_ext c x -> ge_ext c' x.
Proof. intros Hc [H|[Hn H]]; [now left | right; split; [exact Hn | lra]]. Qed.

(** From a bound on the absolute value to a bound on a number that is not
    negative. *)
Lemma ge_ext_of_at_least (c : R) (x : float) :
  nonneg_ext x -> at_least c (Prim2SF x) -> ge_ext c x.
Proof.
  intros [Hp|Hn] Hc; [now left|]. right. split; [exact Hn|].
  destruct Hc as [[s Hs]|[_ Hc]].
  - unfold nonneg in Hn. rewrite Hs in Hn. discriminate.
  - fold (B2R x) in Hc. now rewrite nonneg_Rabs in Hc.
Qed.

(** *** Squares *)

Lemma square_nonneg_ext (x : float) : finite x -> nonneg_ext (x * x)%float.
Proof.
  intros Fx. unfold nonneg_ext, is_plus_infinity, nonneg. rewrite mul_spec.
  destruct (SFmul_square_nonneg (Prim2SF x) (Prim2SF_valid x) Fx) as [H|H];
    [now right | now left].
Qed.

Lemma square_low (x : float) (c : R) :
  finite x -> threshold c -> c <= B2R x * B2R x -> ge_ext c (x * x)%float.
Proof.
  intros Fx Tc Hc. apply ge_ext_of_at_least; [now apply square_nonneg_ext|].
  rewrite mul_spec. apply SFmul_low_t; try apply Prim2SF_valid; try assumption.
  fold (B2R x). rewrite Rabs_mult. pose proof (Rabs_pos (B2R x)).
  rewrite <- Rabs_mult, Rabs_pos_eq; [exact Hc | nra].
Qed.

Lemma mul_finite_inv (x y : float) : finite (x * y)%float -> finite x /\ finite y.
Proof. unfold finite. rewrite mul_spec. apply SFmul_finite_inv. Qed.

Lemma square_high (x : float) (j : Z) :
  finite (x * x)%float -> (-1074 <= 2 * j)%Z -> Rabs (B2R x) < bpow j ->
  B2R (x * x)%float <= bpow (2 * j).
Proof.
  intros Fq Hj Hx. destruct (mul_finite_inv x x Fq) as [Fx _].
  assert (H : at_most (2 * j) (Prim2SF (x * x)%float)).
  { rewrite mul_spec. apply SFmul_high; try apply Prim2SF_valid; try assumption.
    fold (B2R x). rewrite Rabs_mult, bpow_double.
    pose proof (Rabs_pos (B2R x)). pose proof (bpow_gt_0 j). nra. }
  destruct H as [H _]. specialize (H Fq). fold (B2R (x * x)%float) in H.
  pose proof (Rle_abs (B2R (x * x)%float)). lra.
Qed.

(** *** Sums *)

Lemma add_finite_inv (x y : float) : finite (x + y)%float -> finite x /\ finite y.
Proof. unfold finite. rewrite add_spec. apply SFadd_finite_inv. Qed.

Lemma add_nonneg_ext (x y : float) :
  nonneg_ext x -> nonneg_ext y -> nonneg_ext (x + y)%float.
Proof.
  unfold nonneg_ext, is_plus_infinity, nonneg. rewrite add_spec. unfold SF64add.
  intros [Hx|Hx] [Hy|Hy].
  - rewrite Hx, Hy. now left.
  - rewrite Hx. destruct (Prim2SF y) as [s|s| |[|] m e]; try discriminate; now left.
  - rewrite Hy. destruct (Prim2SF x) as [s|s| |[|] m e]; try discriminate; now left.
  - destruct (SFadd_nonneg _ _ Hx Hy) as [H|H]; [now right | now left].
Qed.

Lemma add_low_l (x y : float) (c : R) :
  threshold c -> ge_ext c x -> nonneg_ext y -> ge_ext c (x + y)%float.
Proof.
  intros Tc Hx Hy.
  assert (Hn : nonneg_ext (x + y)%float)
    by (apply add_nonneg_ext; [now apply ge_ext_nonneg_ext with c | exact Hy]).
  destruct Hx as [Hx|[Nx Hx]].
  { left. unfold is_plus_infinity in *. rewrite add_spec. unfold SF64add. rewrite Hx.
    destruct Hy as [Hy|Hy]; [unfold is_plus_infinity in Hy; now rewrite Hy|].
    unfold nonneg in Hy.
    destruct (Prim2SF y) as [s|s| |[|] m e]; try discriminate; reflexivity. }
  destruct Hy as [Hy|Ny].
  { left. unfold is_plus_infinity in *. rewrite add_spec. unfold SF64add. rewrite Hy.
    unfold nonneg in Nx.
    destruct (Prim2SF x) as [s|s| |[|] m e]; try discriminate; reflexivity. }
  apply ge_ext_of_at_least; [exact Hn|].
  rewrite add_spec. apply SFadd_low_t; try assumption.
  pose proof (nonneg_B2R y Ny). unfold B2R in *. lra.
Qed.

Lemma add_low_r (x y : float) (c : R) :
  threshold c -> nonneg_ext x -> ge_ext c y -> ge_ext c (x + y)%float.
Proof.
  intros Tc Hx Hy.
  assert (Hn : nonneg_ext (x + y)%float)
    by (apply add_nonneg_ext; [exact Hx | now apply ge_ext_nonneg_ext with c]).
  destruct Hy as [Hy|[Ny Hy]].
  { left. unfold is_plus_infinity in *. rewrite add_spec. unfold SF64add. rewrite Hy.
    destruct Hx as [Hx|Hx]; [unfold is_plus_infinity in Hx; now rewrite Hx|].
    unfold nonneg in Hx.
    destruct (Prim2SF x) as [s|s| |[|] m e]; try discriminate; reflexivity. }
  destruct Hx as [Hx|Nx].
  { left. unfold is_plus_infinity in *. rewrite add_spec. unfold SF64add. rewrite Hx.
    unfold nonneg in Ny.
    destruct (Prim2SF y) as [s|s| |[|] m e]; try discriminate; reflexivity. }
  apply ge_ext_of_at_least; [exact Hn|].
  rewrite add_spec. apply SFadd_low_t; try assumption.
  pose proof (nonneg_B2R x Nx). unfold B2R in *. lra.
Qed.

Lemma add_high (x y : float) (j : Z) :
  nonneg x -> nonneg y -> finite (x + y)%float -> (-1074 <= j)%Z ->
  B2R x + B2R y < bpow j ->
  B2R (x + y)%float <= bpow j.
Proof.
  intros Nx Ny Fs Hj H.
  assert (Hm : at_most j (Prim2SF (x + y)%float))
    by (rewrite add_spec; now apply SFadd_high).
  destruct Hm as [Hm _]. specialize (Hm Fs). fold (B2R (x + y)%float) in Hm.
  pose proof (Rle_abs (B2R (x + y)%float)). lra.
Qed.

(** A threshold at the value of a positive number. *)
Lemma threshold_B2R (x : float) : nonneg x -> 0 < B2R x -> threshold (B2R x).
Proof.
  intros Nx Hpos. right. unfold nonneg, B2R in *. pose proof (Prim2SF_valid x) as V.
  destruct (Prim2SF x) as [s|s| |[|] m e]; try discriminate;
    cbn [SF2R] in Hpos; try lra.
  exists m, e. now split.
Qed.

(** A finite sum of numbers that are not negative is at least each of
    them. *)
Lemma add_ge (x y : float) :
  nonneg x -> nonneg y -> finite (x + y)%float ->
  nonneg (x + y)%float /\ B2R x <= B2R (x + y)%float /\ B2R y <= B2R (x + y)%float.
Proof.
  intros Nx Ny Fs.
  assert (Ns : nonneg (x + y)%float).
  { apply nonneg_ext_finite; [|exact Fs]. apply add_nonneg_ext; now right. }
  pose proof (nonneg_B2R x Nx) as Hx. pose proof (nonneg_B2R y Ny) as Hy.
  pose proof (nonneg_B2R _ Ns) as Hs.
  split; [exact Ns|]. split.
  - destruct (Rle_lt_or_eq_dec _ _ Hx) as [Hpos|<-]; [|exact Hs].
    apply ge_ext_finite; [|exact Fs].
    apply add_low_l; [now apply threshold_B2R | right; split; [exact Nx | lra] | now right].
  - destruct (Rle_lt_or_eq_dec _ _ Hy) as [Hpos|<-]; [|exact Hs].
    apply ge_ext_finite; [|exact Fs].
    apply add_low_r; [now apply threshold_B2R | now right | right; split; [exact Ny | lra]].
Qed.

(** *** Square roots *)

Lemma sqrt_finite_inv (x : float) : finite (PrimFloat.sqrt x) -> nonneg x.
Proof. unfold finite, nonneg. rewrite sqrt_spec. apply SFsqrt_finite_inv. Qed.

Lemma sqrt_cases (x : float) : is_NaN (PrimFloat.sqrt x) \/ nonneg_ext (PrimFloat.sqrt x).
Proof.
  unfold is_NaN, nonneg_ext, is_plus_infinity, nonneg. rewrite sqrt_spec. unfold SF64sqrt.
  destruct (Prim2SF x) as [s|[|]| |[|] m e] eqn:E; cbn [SFsqrt];
    try (now left); try (right; now left); try (right; now right).
  right. destruct (SFsqrt_nonneg (S754_finite false m e) eq_refl) as [H|H];
    cbn [SFsqrt] in H; [now right | now left].
Qed.

Lemma sqrt_low (x : float) (c : R) :
  threshold c -> ge_ext (c * c) x -> ge_ext c (PrimFloat.sqrt x).
Proof.
  intros Tc [Hx|[Nx Hx]].
  - left. unfold is_plus_infinity in *. rewrite sqrt_spec. unfold SF64sqrt. now rewrite Hx.
  - apply ge_ext_of_at_least.
    + destruct (sqrt_cases x) as [Hn|Hn]; [|exact Hn].
      unfold is_NaN in Hn. rewrite sqrt_spec in Hn. unfold nonneg in Nx.
      unfold SF64sqrt in Hn.
      destruct (Prim2SF x) as [s|s| |[|] m e]; try discriminate.
      destruct (SFsqrt_nonneg (S754_finite false m e) eq_refl) as [H|H];
        rewrite Hn in H; discriminate.
    + rewrite sqrt_spec. now apply SFsqrt_low_t.
Qed.

Lemma sqrt_high (x : float) (j : Z) :
  nonneg x -> finite (PrimFloat.sqrt x) -> (-1074 <= j)%Z ->
  B2R x < bpow (2 * j) -> B2R (PrimFloat.sqrt x) <= bpow j.
Proof.
  intros Nx Fs Hj H.
  assert (Hm : at_most j (Prim2SF (PrimFloat.sqrt x)))
    by (rewrite sqrt_spec; now apply SFsqrt_high).
  destruct Hm as [Hm _]. specialize (Hm Fs). fold (B2R (PrimFloat.sqrt x)) in Hm.
  pose proof (Rle_abs (B2R (PrimFloat.sqrt x))). lra.
Qed.

(** *** Comparison *)

Lemma ltb_ge_ext (x e : float) (c : R) :
  ge_ext c x -> nonneg e -> B2R e <= c -> (x <? e)%float = false.
Proof.
  intros [Hx|[Nx Hx]] Ne Hc; rewrite ltb_spec.
  - unfold is_plus_infinity in Hx. rewrite Hx. unfold nonneg in Ne.
    destruct (Prim2SF e) as [s|s| |[|] m ee]; try discriminate; reflexivity.
  - apply SFltb_nonneg_false; try apply Prim2SF_valid; try assumption.
    unfold B2R in *. lra.
Qed.

Lemma ltb_nan (x e : float) : is_NaN x -> (x <? e)%float = false.
Proof. intros H. rewrite ltb_spec. unfold is_NaN in H. now rewrite H. Qed.

Lemma abs_nonneg (x : float) : finite x -> nonneg (PrimFloat.abs x).
Proof.
  unfold finite, nonneg. rewrite abs_spec.
  destruct (Prim2SF x) as [s|s| |s m e]; try discriminate; reflexivity.
Qed.

Lemma B2R_abs (x : float) : B2R (PrimFloat.abs x) = Rabs (B2R x).
Proof. unfold B2R. rewrite abs_spec. apply SF2R_abs. Qed.

(** *** Products and quotients *)

Lemma mul_high_abs (x y : float) (j : Z) :
  finite x -> finite y -> (-1074 <= j <= 1023)%Z ->
  Rabs (B2R x * B2R y) < bpow j ->
  finite (x * y)%float /\ Rabs (B2R (x * y)%float) <= bpow j.
Proof.
  intros Fx Fy Hj H.
  assert (Hm : at_most j (Prim2SF (x * y)%float)).
  { rewrite mul_spec. apply SFmul_high; try apply Prim2SF_valid; try assumption. lia. }
  destruct Hm as [Hm Hf]. specialize (Hf ltac:(lia)). split; [exact Hf | now apply Hm].
Qed.

Lemma mul_low_abs (x y : float) (j : Z) :
  finite x -> finite y -> (-1074 <= j)%Z ->
  bpow j <= Rabs (B2R x * B2R y) ->
  finite (x * y)%float -> bpow j <= Rabs (B2R (x * y)%float).
Proof.
  intros Fx Fy Hj H Fm.
  assert (Hm : at_least (bpow j) (Prim2SF (x * y)%float)).
  { rewrite mul_spec. apply SFmul_low_pow2; try apply Prim2SF_valid; assumption. }
  destruct Hm as [[s Hs]|[_ Hm]]; [|exact Hm].
  unfold finite in Fm. rewrite Hs in Fm. discriminate.
Qed.

Lemma div_high (x n : float) (j : Z) :
  finite x -> finite n -> 0 < Rabs (B2R n) -> (-1074 <= j <= 1023)%Z ->
  Rabs (B2R x) < bpow j * Rabs (B2R n) ->
  finite (x / n)%float /\ Rabs (B2R (x / n)%float) <= bpow j.
Proof.
  intros Fx Fn Hn Hj H.
  assert (Hm : at_most j (Prim2SF (x / n)%float)).
  { rewrite div_spec. apply SFdiv_high; try assumption. lia. }
  destruct Hm as [Hm Hf]. specialize (Hf ltac:(lia)). split; [exact Hf | now apply Hm].
Qed.

Lemma div_low (x n : float) (j : Z) :
  finite x -> finite n -> 0 < Rabs (B2R n) -> (-1074 <= j)%Z ->
  bpow j * Rabs (B2R n) <= Rabs (B2R x) ->
  finite (x / n)%float -> bpow j <= Rabs (B2R (x / n)%float).
Proof.
  intros Fx Fn Hn Hj H Fd.
  assert (Hm : at_least (bpow j) (Prim2SF (x / n)%float)).
  { rewrite div_spec. apply SFdiv_low_pow2; assumption. }
  destruct Hm as [[s Hs]|[_ Hm]]; [|exact Hm].
  unfold finite in Fd. rewrite Hs in Fd. discriminate.
Qed.

(** *** Zeros *)

Lemma is_signed_zero_finite (x : float) : is_signed_zero x -> finite x.
Proof. intros [s H]. unfold finite. now rewrite H. Qed.

Lemma is_signed_zero_B2R (x : float) : is_signed_zero x -> B2R x = 0.
Proof. intros [s H]. unfold B2R. now rewrite H. Qed.

Lemma mul_zero_l (x y : float) : is_signed_zero x -> finite y -> is_signed_zero (x * y)%float.
Proof.
  intros [s Hx] Fy. unfold is_signed_zero, finite in *. rewrite mul_spec. unfold SF64mul.
  rewrite Hx. destruct (Prim2SF y) as [sy|sy| |sy m e]; try discriminate;
    cbn [SFmul]; eexists; reflexivity.
Qed.

Lemma sub_zero_l (x y : float) :
  is_signed_zero x -> finite y ->
  finite (x - y)%float /\ Rabs (B2R (x - y)%float) = Rabs (B2R y).
Proof.
  intros [s Hx] Fy. unfold finite, B2R in *. rewrite sub_spec. unfold SF64sub.
  rewrite Hx. destruct (Prim2SF y) as [sy|sy| |sy m e]; try discriminate; cbn [SFsub].
  - split; [now destruct s, sy|]. now destruct s, sy.
  - split; [reflexivity|]. now rewrite !Rabs_SF2R_finite.
Qed.

Lemma sub_zero_r (x y : float) :
  finite x -> is_signed_zero y ->
  finite (x - y)%float /\ Rabs (B2R (x - y)%float) = Rabs (B2R x).
Proof.
  intros Fx [s Hy]. unfold finite, B2R in *. rewrite sub_spec. unfold SF64sub.
  rewrite Hy. destruct (Prim2SF x) as [sx|sx| |sx m e]; try discriminate; cbn [SFsub].
  - split; [now destruct sx, s|]. now destruct sx, s.
  - split; reflexivity.
Qed.

(** *** Not-a-number *)

Lemma div_nan_r (x n : float) : is_NaN n -> is_NaN (x / n)%float.
Proof.
  unfold is_NaN. intros H. rewrite div_spec. unfold SF64div. rewrite H.
  now destruct (Prim2SF x).
Qed.

Lemma mul_nan_r (x y : float) : is_NaN y -> is_NaN (x * y)%float.
Proof.
  unfold is_NaN. intros H. rewrite mul_spec. unfold SF64mul. rewrite H.
  now destruct (Prim2SF x).
Qed.

Lemma mul_nan_l (x y : float) : is_NaN x -> is_NaN (x * y)%float.
Proof.
  unfold is_NaN. intros H. rewrite mul_spec. unfold SF64mul. now rewrite H.
Qed.

Lemma sub_nan_r (x y : float) : is_NaN y -> is_NaN (x - y)%float.
Proof.
  unfold is_NaN. intros H. rewrite sub_spec. unfold SF64sub. rewrite H.
  now destruct (Prim2SF x).
Qed.

Lemma sub_nan_l (x y : float) : is_NaN x -> is_NaN (x - y)%float.
Proof.
  unfold is_NaN. intros H. rewrite sub_spec. unfold SF64sub. now rewrite H.
Qed.

Lemma add_nan_r (x y : float) : is_NaN y -> is_NaN (x + y)%float.
Proof.
  unfold is_NaN. intros H. rewrite add_spec. unfold SF64add. rewrite H.
  now destruct (Prim2SF x).
Qed.

Lemma add_nan_l (x y : float) : is_NaN x -> is_NaN (x + y)%float.
Proof.
  unfold is_NaN. intros H. rewrite add_spec. unfold SF64add. now rewrite H.
Qed.

Lemma sqrt_nan (x : float) : is_NaN x -> is_NaN (PrimFloat.sqrt x).
Proof.
  unfold is_NaN. intros H. rewrite sqrt_spec. unfold SF64sqrt. now rewrite H.
Qed.

(** *** Infinity *)

Lemma eqb_infinity (x : float) :
  (x =? infinity)%float = false -> ~ is_plus_infinity x.
Proof.
  rewrite eqb_spec. unfold is_plus_infinity. intros H E. rewrite E in H. discriminate.
Qed.

(** The magnitude of a finite number that is not zero. *)
Lemma finite_magnitude (x : float) :
  finite x -> 0 < Rabs (B2R x) ->
  exists J, bpow (J - 1) <= Rabs (B2R x) < bpow J.
Proof.
  unfold finite, B2R. intros Fx Hx.
  destruct (Prim2SF x) as [s|s| |s m e]; try discriminate.
  - cbn [SF2R] in Hx. rewrite Rabs_R0 in Hx. lra.
  - rewrite Rabs_SF2R_finite in *.
    exists (Zdigits2 (Z.pos m) + e)%Z.
    replace (Zdigits2 (Z.pos m) + e - 1)%Z with (Zdigits2 (Z.pos m) - 1 + e)%Z by lia.
    apply F2R_digits. lia.
Qed.

End Binary64.

Section Binary64Solver.
Local Open Scope R_scope.

(** ** The length of a vector in binary64 *)

Lemma linalg_norm_dot_from (v : list float) :
  np.linalg_norm v = PrimFloat.sqrt (dot_from 0%float v).
Proof. reflexivity. Qed.

Lemma dot_from_finite_inv (v : list float) :
  forall acc, finite (dot_from acc v) -> finite acc.
Proof.
  induction v as [|x v IH]; intros acc H; [exact H|].
  apply IH in H. now apply add_finite_inv in H.
Qed.

(** A finite sum of squares is at least its start and each of its
    squares, and every number squared is finite. *)
Lemma dot_from_finite (v : list float) :
  forall acc,
    finite (dot_from acc v) -> nonneg acc ->
    nonneg (dot_from acc v)
    /\ B2R acc <= B2R (dot_from acc v)
    /\ Forall (fun x => finite x /\ finite (x * x)%float
                        /\ B2R (x * x)%float <= B2R (dot_from acc v)) v.
Proof.
  induction v as [|x v IH]; intros acc Hf Hn.
  - split; [exact Hn|]. split; [apply Rle_refl | constructor].
  - change (dot_from acc (x :: v)) with (dot_from (acc + x * x)%float v) in *.
    assert (Hs := dot_from_finite_inv _ _ Hf).
    destruct (add_finite_inv _ _ Hs) as [_ Hq].
    destruct (mul_finite_inv _ _ Hq) as [Hx _].
    assert (Nq : nonneg (x * x)%float)
      by (apply nonneg_ext_finite; [now apply square_nonneg_ext | exact Hq]).
    destruct (add_ge _ _ Hn Nq Hs) as (Ns & Ha & Hb).
    destruct (IH _ Hf Ns) as (Nd & Hd & Hall).
    split; [exact Nd|]. split; [lra|].
    constructor; [split; [exact Hx | split; [exact Hq | lra]] | exact Hall].
Qed.

Lemma EPS_spec : Prim2SF 1e-9%float = S754_finite false 4835703278458517 (-82).
Proof. reflexivity. Qed.

Lemma EPS_nonneg : nonneg 1e-9%float.
Proof. reflexivity. Qed.

Lemma B2R_EPS : B2R 1e-9%float = F2R 4835703278458517 (-82).
Proof. reflexivity. Qed.

Lemma F2R_at_exponent (m e k : Z) : (0 <= k)%Z -> F2R m e = F2R (m * 2 ^ k) (e - k).
Proof. intros Hk. rewrite F2R_shift by lia. f_equal. lia. Qed.

(** The square of 1e-9 lies between its rounding and the next number. *)
Lemma EPS_square_below :
  F2R 4835703278458517 (-82) * F2R 4835703278458517 (-82)
  <= F2R (5192296858534828 + 1) (-112).
Proof.
  rewrite F2R_square. rewrite (F2R_at_exponent (5192296858534828 + 1) (-112) 52) by lia.
  apply F2R_le. apply Z.leb_le. vm_compute. reflexivity.
Qed.

Lemma EPS_succ_square_above :
  F2R (5192296858534828 + 1) (-112)
  <= F2R (4835703278458517 + 1) (-82) * F2R (4835703278458517 + 1) (-82).
Proof.
  rewrite F2R_square. rewrite (F2R_at_exponent (5192296858534828 + 1) (-112) 52) by lia.
  apply F2R_le. apply Z.leb_le. vm_compute. reflexivity.
Qed.

(** A sum of squares that is at least the number after the rounded square
    of 1e-9 has a square root of at least 1e-9. *)
Lemma sqrt_above_EPS (S : float) :
  nonneg S -> finite (PrimFloat.sqrt S) ->
  F2R (5192296858534828 + 1) (-112) <= B2R S ->
  B2R 1e-9%float <= B2R (PrimFloat.sqrt S).
Proof.
  intros NS Fn H. apply ge_ext_finite; [|exact Fn].
  apply sqrt_low.
  - apply threshold_B2R; [exact EPS_nonneg|]. rewrite B2R_EPS. apply F2R_pos.
  - right. split; [exact NS|]. rewrite B2R_EPS. pose proof EPS_square_below. lra.
Qed.

(** The guard on the height extent bounds the length of the axis: when
    the computed length is finite and [|dz| < 1e-9] is false, the length is
    at least 1e-9, and every component is finite. *)
Lemma norm_at_least_EPS (delta : list float) (dz : float) :
  In dz delta ->
  finite (np.linalg_norm delta) ->
  (PrimFloat.abs dz <? 1e-9)%float = false ->
  B2R 1e-9%float <= B2R (np.linalg_norm delta)
  /\ nonneg (dot_from 0%float delta)
  /\ Forall (fun x => finite x /\ finite (x * x)%float
                      /\ B2R (x * x)%float <= B2R (dot_from 0%float delta)) delta.
Proof.
  intros Hin Fn Hguard. rewrite linalg_norm_dot_from in *.
  set (S := dot_from 0%float delta) in *.
  assert (NS : nonneg S) by now apply sqrt_finite_inv.
  destruct (dot_from_finite delta 0%float (nonneg_finite _ NS) eq_refl)
    as (_ & _ & Hall).
  fold S in Hall. split; [|split; [exact NS | exact Hall]].
  rewrite Forall_forall in Hall. destruct (Hall dz Hin) as (Fz & Fq & Hz).
  (* the guard, as an inequality between values *)
  assert (Habs : F2R 4835703278458517 (-82) <= Rabs (B2R dz)).
  { rewrite <- B2R_abs, <- B2R_EPS. rewrite ltb_spec in Hguard.
    apply SFltb_nonneg_false in Hguard; try apply Prim2SF_valid;
      [exact Hguard | now apply abs_nonneg | exact EPS_nonneg]. }
  (* |dz| is 1e-9 or at least the next number *)
  assert (Hcases : (exists s, Prim2SF dz = S754_finite s 4835703278458517 (-82))
                   \/ F2R (4835703278458517 + 1) (-82) <= Rabs (B2R dz)).
  { pose proof (Prim2SF_valid dz) as V. unfold finite, B2R in *.
    destruct (Prim2SF dz) as [s|s| |s m e]; try discriminate.
    - cbn [SF2R] in Habs. rewrite Rabs_R0 in Habs.
      pose proof (F2R_pos 4835703278458517 (-82)). lra.
    - rewrite Rabs_SF2R_finite in *.
      destruct (valid_discrete 4835703278458517 m (-82) e eq_refl V Habs)
        as [[-> ->]|H]; [left; now exists s | right; exact H]. }
  destruct Hcases as [[s Hs]|Hbig].
  - (* dz * dz is the rounded square of 1e-9 *)
    assert (Hq : Prim2SF (dz * dz)%float = S754_finite false 5192296858534828 (-112)).
    { rewrite mul_spec, Hs. destruct s; vm_compute; reflexivity. }
    unfold B2R at 1 in Hz. rewrite Hq in Hz. cbn [SF2R cond_Zopp] in Hz.
    pose proof (Prim2SF_valid S) as VS.
    assert (HS : Prim2SF S = S754_finite false 5192296858534828 (-112)
                 \/ F2R (5192296858534828 + 1) (-112) <= B2R S).
    { unfold nonneg, B2R in *.
      destruct (Prim2SF S) as [sS|sS| |[|] mS eS]; try discriminate.
      - cbn [SF2R] in Hz. pose proof (F2R_pos 5192296858534828 (-112)). lra.
      - cbn [SF2R cond_Zopp] in *.
        destruct (valid_discrete 5192296858534828 mS (-112) eS eq_refl VS Hz)
          as [[-> ->]|H]; [now left | right; exact H]. }
    destruct HS as [HS|HS]; [|now apply sqrt_above_EPS].
    unfold B2R at 2. rewrite sqrt_spec, HS. apply Req_le. reflexivity.
  - apply sqrt_above_EPS; [exact NS | exact Fn|].
    apply Rle_trans with (2 := Hz).
    apply ge_ext_finite; [|exact Fq].
    apply square_low; [exact Fz | right; now exists 5192296858534829%positive, (-112)%Z|].
    apply Rle_trans with (1 := EPS_succ_square_above).
    pose proof (F2R_pos 4835703278458518 (-82)) as Hp.
    change (4835703278458517 + 1)%Z with 4835703278458518%Z in *.
    pose proof (Rabs_pos (B2R dz)).
    replace (B2R dz * B2R dz) with (Rabs (B2R dz) * Rabs (B2R dz)); [nra|].
    rewrite <- Rabs_mult. apply Rabs_pos_eq. nra.
Qed.

Lemma bpow_1 : bpow 1 = 2.
Proof. unfold bpow. simpl. ring. Qed.

Lemma bpow_succ (j : Z) : bpow (j + 1) = 2 * bpow j.
Proof. rewrite bpow_add, bpow_1. ring. Qed.

Lemma bpow_0 : bpow 0 = 1.
Proof. reflexivity. Qed.

Lemma B2R_one : B2R 1%float = 1.
Proof.
  assert (H : Prim2SF 1%float = S754_finite false 4503599627370496 (-52)) by reflexivity.
  unfold B2R. rewrite H. cbn [SF2R cond_Zopp].
  change 4503599627370496%Z with (2 ^ 52)%Z.
  unfold F2R. rewrite bpow_IZR, <- bpow_add by lia. reflexivity.
Qed.

Lemma finite_one : finite 1%float.
Proof. reflexivity. Qed.

Lemma is_signed_zero_zero : is_signed_zero 0%float.
Proof. now exists false. Qed.

Lemma EPS_below_eighth : B2R 1e-9%float <= bpow (-3).
Proof.
  rewrite B2R_EPS. replace (-3)%Z with (79 + -82)%Z by lia.
  rewrite bpow_add, <- bpow_IZR by lia. apply F2R_le. apply Z.leb_le. vm_compute. reflexivity.
Qed.

Lemma EPS_above : bpow (-30) <= B2R 1e-9%float.
Proof.
  rewrite B2R_EPS. replace (-30)%Z with (52 + -82)%Z by lia.
  rewrite bpow_add, <- bpow_IZR by lia. apply F2R_le. apply Z.leb_le. vm_compute. reflexivity.
Qed.

(** The length of a vector of three finite components, between the
    powers of two around its largest component. *)
Lemma norm3_bounds (x y z w : float) (J : Z) :
  finite (np.linalg_norm [x; y; z]) ->
  In w [x; y; z] ->
  (-500 <= J)%Z ->
  bpow (J - 1) <= Rabs (B2R w) ->
  (forall u, In u [x; y; z] -> Rabs (B2R u) < bpow J) ->
  bpow (J - 1) <= B2R (np.linalg_norm [x; y; z]) <= bpow (J + 2).
Proof.
  intros Fn Hw HJ Hlow Hhigh. rewrite linalg_norm_dot_from in *.
  assert (NS : nonneg (dot_from 0%float [x; y; z])) by now apply sqrt_finite_inv.
  destruct (dot_from_finite [x; y; z] 0%float (nonneg_finite _ NS) eq_refl)
    as (_ & _ & Hall).
  rewrite Forall_forall in Hall.
  split.
  - apply ge_ext_finite; [|exact Fn].
    apply sqrt_low; [apply threshold_bpow; lia|].
    right. split; [exact NS|].
    destruct (Hall w Hw) as (Fw & Fq & Hq).
    apply Rle_trans with (2 := Hq). rewrite <- bpow_double.
    apply ge_ext_finite; [|exact Fq].
    apply square_low; [exact Fw | apply threshold_bpow; lia|].
    rewrite bpow_double. pose proof (bpow_gt_0 (J - 1)).
    pose proof (Rabs_pos (B2R w)).
    replace (B2R w * B2R w) with (Rabs (B2R w) * Rabs (B2R w)); [nra|].
    rewrite <- Rabs_mult. apply Rabs_pos_eq. nra.
  - change (dot_from 0%float [x; y; z])
      with (0 + x * x + y * y + z * z)%float in *.
    assert (F3 := nonneg_finite _ NS).
    destruct (add_finite_inv _ _ F3) as [F2 Fz].
    destruct (add_finite_inv _ _ F2) as [F1 Fy].
    destruct (add_finite_inv _ _ F1) as [_ Fx].
    assert (Nx : nonneg (x * x)%float)
      by (apply nonneg_ext_finite; [apply square_nonneg_ext; now apply mul_finite_inv in Fx | exact Fx]).
    assert (Ny : nonneg (y * y)%float)
      by (apply nonneg_ext_finite; [apply square_nonneg_ext; now apply mul_finite_inv in Fy | exact Fy]).
    assert (Nz : nonneg (z * z)%float)
      by (apply nonneg_ext_finite; [apply square_nonneg_ext; now apply mul_finite_inv in Fz | exact Fz]).
    destruct (add_ge _ _ (eq_refl : nonneg 0%float) Nx F1) as (N1 & _ & _).
    destruct (add_ge _ _ N1 Ny F2) as (N2 & _ & _).
    pose proof (square_high x J Fx ltac:(lia) (Hhigh x ltac:(simpl; tauto))) as Hx.
    pose proof (square_high y J Fy ltac:(lia) (Hhigh y ltac:(simpl; tauto))) as Hy.
    pose proof (square_high z J Fz ltac:(lia) (Hhigh z ltac:(simpl; tauto))) as Hz.
    pose proof (bpow_gt_0 (2 * J)) as Hpos.
    assert (H1 : B2R (0 + x * x)%float <= bpow (2 * J + 1)).
    { apply add_high; [reflexivity | exact Nx | exact F1 | lia|].
      rewrite bpow_succ. change (B2R 0%float) with 0. lra. }
    assert (H2 : B2R (0 + x * x + y * y)%float <= bpow (2 * J + 2)).
    { apply add_high; [exact N1 | exact Ny | exact F2 | lia|].
      replace (2 * J + 2)%Z with (2 * J + 1 + 1)%Z by lia.
      rewrite bpow_succ. rewrite bpow_succ in H1 |- *. lra. }
    assert (H3 : B2R (0 + x * x + y * y + z * z)%float <= bpow (2 * J + 3)).
    { apply add_high; [exact N2 | exact Nz | exact F3 | lia|].
      replace (2 * J + 3)%Z with (2 * J + 1 + 1 + 1)%Z by lia.
      replace (2 * J + 2)%Z with (2 * J + 1 + 1)%Z in H2 by lia.
      rewrite !bpow_succ in *. lra. }
    apply sqrt_high; [exact NS | exact Fn | lia|].
    replace (2 * (J + 2))%Z with (2 * J + 3 + 1)%Z by lia.
    pose proof (bpow_gt_0 (2 * J + 3)). rewrite bpow_succ. lra.
Qed.

(** The components of the normalised axis vector are finite and at most 2
    in absolute value, and the one of largest absolute value is at least
    1/8. *)
Lemma direction_components (x y z w : float) :
  let n := np.linalg_norm [x; y; z] in
  finite n ->
  Forall finite [x; y; z] ->
  In w [x; y; z] ->
  bpow (-30) <= Rabs (B2R w) ->
  (forall u, In u [x; y; z] -> Rabs (B2R u) <= Rabs (B2R w)) ->
  (forall u, In u [x; y; z] ->
     finite (u / n)%float /\ Rabs (B2R (u / n)%float) <= bpow 1)
  /\ bpow (-3) <= Rabs (B2R (w / n)%float).
Proof.
  intros n Fn Hfin Hw Hlow Hmax.
  rewrite Forall_forall in Hfin.
  pose proof (bpow_gt_0 (-30)) as H30.
  destruct (finite_magnitude w (Hfin w Hw) ltac:(lra)) as (J & HJl & HJu).
  assert (HJ : (-500 <= J)%Z).
  { assert (H : bpow (-30) < bpow J) by lra. apply bpow_lt_inv in H. lia. }
  destruct (norm3_bounds x y z w J Fn Hw HJ HJl) as [Hnl Hnu].
  { intros u Hu. specialize (Hmax u Hu). lra. }
  fold n in Hnl, Hnu.
  pose proof (bpow_gt_0 (J - 1)) as HJpos.
  assert (Hn : Rabs (B2R n) = B2R n) by (apply Rabs_pos_eq; lra).
  assert (HJ1 : bpow J = 2 * bpow (J - 1)).
  { replace J with (J - 1 + 1)%Z at 1 by lia. apply bpow_succ. }
  assert (Hquot : forall u, In u [x; y; z] ->
            finite (u / n)%float /\ Rabs (B2R (u / n)%float) <= bpow 1).
  { intros u Hu. apply div_high; [now apply Hfin | exact Fn | lra | lia|].
    rewrite Hn, bpow_1. specialize (Hmax u Hu). lra. }
  split; [exact Hquot|].
  apply div_low; [now apply Hfin | exact Fn | lra | lia | | now apply Hquot].
  rewrite Hn.
  assert (H : bpow (-3) * bpow (J + 2) = bpow (J - 1)).
  { rewrite <- bpow_add. f_equal. lia. }
  pose proof (bpow_gt_0 (-3)). nra.
Qed.

(** A sum of squares of finite numbers is not negative, and at least a
    threshold that one of its squares reaches. *)
Lemma dot_from_ext (c : R) (v : list float) :
  threshold c -> Forall finite v ->
  forall acc,
    nonneg_ext acc ->
    nonneg_ext (dot_from acc v)
    /\ (ge_ext c acc -> ge_ext c (dot_from acc v))
    /\ (forall w, In w v -> c <= B2R w * B2R w -> ge_ext c (dot_from acc v)).
Proof.
  intros Tc Hfin. induction Hfin as [|x v Fx Hfin IH]; intros acc Hacc.
  - split; [exact Hacc|]. split; [trivial | intros w []].
  - change (dot_from acc (x :: v)) with (dot_from (acc + x * x)%float v).
    assert (Nq := square_nonneg_ext x Fx).
    assert (Ns : nonneg_ext (acc + x * x)%float) by now apply add_nonneg_ext.
    destruct (IH _ Ns) as (Hn & Hge & Hin).
    split; [exact Hn|]. split.
    + intros Ha. apply Hge. now apply add_low_l.
    + intros w [<-|Hw] Hc; [|now apply Hin with w].
      apply Hge. apply add_low_r; [exact Tc | exact Hacc|].
      now apply square_low.
Qed.

(** A vector of finite components, one of them at least 1/8 in absolute
    value, is not shorter than 1e-9. *)
Lemma norm_not_small (v : list float) (w : float) :
  Forall finite v -> In w v -> bpow (-3) <= Rabs (B2R w) ->
  (np.linalg_norm v <? 1e-9)%float = false.
Proof.
  intros Hfin Hw Hbig. rewrite linalg_norm_dot_from.
  apply ltb_ge_ext with (bpow (-3)); [|exact EPS_nonneg | exact EPS_below_eighth].
  apply sqrt_low; [apply threshold_bpow; lia|].
  destruct (dot_from_ext (bpow (-3) * bpow (-3)) v) with (acc := 0%float)
    as (_ & _ & H); [|exact Hfin | now right|].
  { rewrite <- bpow_double. apply threshold_bpow. lia. }
  apply H with w; [exact Hw|].
  pose proof (bpow_gt_0 (-3)). pose proof (Rabs_pos (B2R w)).
  replace (B2R w * B2R w) with (Rabs (B2R w) * Rabs (B2R w)); [nra|].
  rewrite <- Rabs_mult. apply Rabs_pos_eq. nra.
Qed.

(** The products and differences of a cross product with a unit vector of
    the frame. *)
Lemma one_times (d : float) :
  finite d -> Rabs (B2R d) <= bpow 1 ->
  finite (1 * d)%float
  /\ (bpow (-3) <= Rabs (B2R d) -> bpow (-3) <= Rabs (B2R (1 * d)%float)).
Proof.
  intros Fd Hd.
  assert (Habs : Rabs (B2R 1%float * B2R d) = Rabs (B2R d))
    by (rewrite B2R_one; f_equal; ring).
  destruct (mul_high_abs 1%float d 2 finite_one Fd ltac:(lia)) as [Fm _].
  { rewrite Habs. replace 2%Z with (1 + 1)%Z by lia. rewrite bpow_succ.
    pose proof (bpow_gt_0 1). lra. }
  split; [exact Fm|]. intros Hlow.
  apply mul_low_abs; [exact finite_one | exact Fd | lia | now rewrite Habs | exact Fm].
Qed.

Lemma zero_times (d : float) : finite d -> is_signed_zero (0 * d)%float.
Proof. apply mul_zero_l. exact is_signed_zero_zero. Qed.

Lemma cross_component_l (u d : float) :
  finite u -> finite d -> Rabs (B2R d) <= bpow 1 ->
  finite (0 * u - 1 * d)%float
  /\ (bpow (-3) <= Rabs (B2R d) -> bpow (-3) <= Rabs (B2R (0 * u - 1 * d)%float)).
Proof.
  intros Fu Fd Hd. destruct (one_times d Fd Hd) as [Fm Hm].
  destruct (sub_zero_l (0 * u)%float (1 * d)%float (zero_times u Fu) Fm) as [Fs Hs].
  split; [exact Fs|]. rewrite Hs. exact Hm.
Qed.

Lemma cross_component_r (u d : float) :
  finite u -> finite d -> Rabs (B2R d) <= bpow 1 ->
  finite (1 * d - 0 * u)%float
  /\ (bpow (-3) <= Rabs (B2R d) -> bpow (-3) <= Rabs (B2R (1 * d - 0 * u)%float)).
Proof.
  intros Fu Fd Hd. destruct (one_times d Fd Hd) as [Fm Hm].
  destruct (sub_zero_r (1 * d)%float (0 * u)%float Fm (zero_times u Fu)) as [Fs Hs].
  split; [exact Fs|]. rewrite Hs. exact Hm.
Qed.

Lemma cross_component_0 (u d : float) :
  finite u -> finite d -> finite (0 * u - 0 * d)%float.
Proof.
  intros Fu Fd.
  apply (sub_zero_l (0 * u)%float (0 * d)%float (zero_times u Fu)).
  apply is_signed_zero_finite. now apply zero_times.
Qed.

(** The computed length of a vector is not-a-number, plus infinity, or
    finite and not negative. *)
Lemma linalg_norm_cases (v : list float) :
  (np.linalg_norm v =? infinity)%float = false ->
  is_NaN (np.linalg_norm v) \/ nonneg (np.linalg_norm v).
Proof.
  intros Hinf. apply eqb_infinity in Hinf. rewrite linalg_norm_dot_from in *.
  destruct (sqrt_cases (dot_from 0%float v)) as [H|[H|H]];
    [now left | contradiction | now right].
Qed.

(** The first call of [normalize]: the length of the axis vector is not
    below 1e-9 when the guard on its height extent has passed and the
    length has not overflowed. *)
Lemma axis_not_small (delta : list float) (dz : float) :
  In dz delta ->
  (np.linalg_norm delta =? infinity)%float = false ->
  (PrimFloat.abs dz <? 1e-9)%float = false ->
  (np.linalg_norm delta <? 1e-9)%float = false.
Proof.
  intros Hin Hinf Hguard.
  destruct (linalg_norm_cases delta Hinf) as [Hnan|Hn]; [now apply ltb_nan|].
  destruct (norm_at_least_EPS delta dz Hin (nonneg_finite _ Hn) Hguard) as (H & _).
  apply ltb_ge_ext with (B2R 1e-9%float); [|exact EPS_nonneg | apply Rle_refl].
  right. now split.
Qed.

Lemma dot_from_nan (v : list float) :
  forall acc, is_NaN acc -> is_NaN (dot_from acc v).
Proof.
  induction v as [|x v IH]; intros acc H; [exact H|].
  apply IH. now apply add_nan_l.
Qed.

Lemma linalg_norm_nan (x : float) (v : list float) :
  is_NaN x -> is_NaN (np.linalg_norm (x :: v)).
Proof.
  intros H. rewrite linalg_norm_dot_from. apply sqrt_nan.
  change (dot_from 0%float (x :: v)) with (dot_from (0 + x * x)%float v).
  apply dot_from_nan, add_nan_r, mul_nan_l, H.
Qed.

(** The second call of [normalize]: when the cross product with the
    vertical is shorter than 1e-9, the cross product with the x axis is
    not, unless the length of the axis vector has overflowed. *)
Lemma radial_fallback_not_small (x y z : float) :
  let n := np.linalg_norm [x; y; z] in
  let d0 := (x / n)%float in
  let d1 := (y / n)%float in
  let d2 := (z / n)%float in
  (n =? infinity)%float = false ->
  (PrimFloat.abs z <? 1e-9)%float = false ->
  (np.linalg_norm [0 * d2 - 1 * d1; 1 * d0 - 0 * d2; 0 * d1 - 0 * d0]
   <? 1e-9)%float = true ->
  (np.linalg_norm [0 * d2 - 0 * d1; 0 * d0 - 1 * d2; 1 * d1 - 0 * d0]
   <? 1e-9)%float = false.
Proof.
  intros n d0 d1 d2 Hinf Hguard Hsmall.
  destruct (linalg_norm_cases [x; y; z] Hinf) as [Hnan|Hn]; fold n in Hnan || fold n in Hn.
  { (* a length that is not a number spreads to the cross product *)
    rewrite ltb_nan in Hsmall; [discriminate|].
    apply linalg_norm_nan, sub_nan_r, mul_nan_r. unfold d1. now apply div_nan_r. }
  assert (Fn := nonneg_finite _ Hn).
  destruct (norm_at_least_EPS [x; y; z] z ltac:(simpl; tauto) Fn Hguard)
    as (_ & _ & Hall).
  assert (Hfin : Forall finite [x; y; z]).
  { rewrite Forall_forall in *. intros u Hu. now destruct (Hall u Hu). }
  assert (Hz : bpow (-30) <= Rabs (B2R z)).
  { apply Rle_trans with (1 := EPS_above). rewrite <- B2R_abs.
    rewrite ltb_spec in Hguard.
    apply SFltb_nonneg_false in Hguard; try apply Prim2SF_valid;
      [exact Hguard | apply abs_nonneg | exact EPS_nonneg].
    rewrite Forall_forall in Hfin. apply Hfin. simpl; tauto. }
  (* the component of largest absolute value *)
  assert (Hmax : exists w, In w [x; y; z]
                           /\ forall u, In u [x; y; z] -> Rabs (B2R u) <= Rabs (B2R w)).
  { destruct (Rle_or_lt (Rabs (B2R x)) (Rabs (B2R y))) as [Hxy|Hxy];
    destruct (Rle_or_lt (Rabs (B2R y)) (Rabs (B2R z))) as [Hyz|Hyz];
    destruct (Rle_or_lt (Rabs (B2R x)) (Rabs (B2R z))) as [Hxz|Hxz];
      try lra;
      [exists z | exists y | exists y | exists z | exists x | exists x];
      (split; [simpl; tauto|]); intros u [<-|[<-|[<-|[]]]]; lra. }
  destruct Hmax as (w & Hw & Hmax).
  assert (Hwlow : bpow (-30) <= Rabs (B2R w)).
  { apply Rle_trans with (1 := Hz). apply Hmax. simpl; tauto. }
  destruct (direction_components x y z w Fn Hfin Hw Hwlow Hmax) as [Hd Hdw].
  fold n in Hd, Hdw.
  destruct (Hd x ltac:(simpl; tauto)) as [F0 B0]. fold d0 in F0, B0.
  destruct (Hd y ltac:(simpl; tauto)) as [F1 B1]. fold d1 in F1, B1.
  destruct (Hd z ltac:(simpl; tauto)) as [F2 B2]. fold d2 in F2, B2.
  destruct (cross_component_l d2 d1 F2 F1 B1) as [Fp0 Hp0].
  destruct (cross_component_r d2 d0 F2 F0 B0) as [Fp1 Hp1].
  pose proof (cross_component_0 d1 d0 F1 F0) as Fp2.
  pose proof (cross_component_0 d2 d1 F2 F1) as Ff0.
  destruct (cross_component_l d0 d2 F0 F2 B2) as [Ff1 Hf1].
  destruct (cross_component_r d0 d1 F0 F1 B1) as [Ff2 _].
  destruct Hw as [<-|[<-|[<-|[]]]]; fold d0 in Hdw || fold d1 in Hdw || fold d2 in Hdw.
  - rewrite (norm_not_small _ (1 * d0 - 0 * d2)%float) in Hsmall;
      [discriminate | repeat constructor; assumption | simpl; tauto | now apply Hp1].
  - rewrite (norm_not_small _ (0 * d2 - 1 * d1)%float) in Hsmall;
      [discriminate | repeat constructor; assumption | simpl; tauto | now apply Hp0].
  - apply (norm_not_small _ (0 * d0 - 1 * d2)%float);
      [repeat constructor; assumption | simpl; tauto | now apply Hf1].
Qed.

Lemma broadcast_raises {F : Type} {SF : Scalar F} (op : F -> F -> F) (a b : list F)
    (e : exn) :
  np.broadcast op a b = Raise e -> e = NumpyShapeError.
Proof.
  unfold np.broadcast.
  destruct (Nat.eqb _ _); [discriminate|].
  destruct a as [|x [|x' a]], b as [|y [|y' b]]; try discriminate; now intros [= <-].
Qed.

Lemma cross_returns {F : Type} {SF : Scalar F} (a b r : list F) :
  np.cross a b = Ok r -> exists b0 b1 b2, b = [b0; b1; b2].
Proof.
  unfold np.cross.
  destruct a as [|a0 [|a1 [|a2 [|a3 a]]]]; try discriminate;
  destruct b as [|b0 [|b1 [|b2 [|b3 b]]]]; try discriminate.
  intros _. now exists b0, b1, b2.
Qed.

Lemma cross_raises {F : Type} {SF : Scalar F} (a b : list F) (e : exn) :
  np.cross a b = Raise e -> e = NumpyShapeError.
Proof.
  unfold np.cross.
  destruct a as [|a0 [|a1 [|a2 [|a3 a]]]]; try (now intros [= <-]);
  destruct b as [|b0 [|b1 [|b2 [|b3 b]]]]; try (now intros [= <-]); discriminate.
Qed.

Lemma item_raises {F : Type} {SF : Scalar F} (v : list F) (i : nat) (e : exn) :
  np.item v i = Raise e -> e = IndexError.
Proof. unfold np.item. destruct (nth_error v i); [discriminate | now intros [= <-]]. Qed.

Lemma reaches_step_3_inv (target : float) (a b delta : list float) :
  reaches_step_3 target a b = Some delta ->
  np.subtract b a = Ok delta
  /\ exists dz, nth_error delta 2 = Some dz
                /\ (PrimFloat.abs dz <? 1e-9)%float = false.
Proof.
  unfold reaches_step_3.
  destruct (np.subtract b a) as [d|e]; [|discriminate].
  unfold np.item at 1. destruct (nth_error d 2) as [dz|] eqn:Hdz; [|discriminate].
  change (fltb (fabs dz) EPS) with (PrimFloat.abs dz <? 1e-9)%float.
  destruct (PrimFloat.abs dz <? 1e-9)%float eqn:Hguard; [discriminate|].
  destruct (np.item a 2) as [z0|e]; [|discriminate].
  destruct (_ || _); [discriminate|]. intros [= <-].
  split; [reflexivity|]. now exists dz.
Qed.

(** Both calls of [normalize] return for a member that reaches them with
    an axis length other than plus infinity. *)
Lemma normalize_calls_return_finite_length (target : float) (a b delta : list float) :
  reaches_step_3 target a b = Some delta ->
  (np.linalg_norm delta =? infinity)%float = false ->
  normalize delta = Ok (np.divide delta (np.linalg_norm delta))
  /\ forall primary,
       np.cross global_up (np.divide delta (np.linalg_norm delta)) = Ok primary ->
       exists secondary,
         (if fltb (np.linalg_norm primary) EPS
          then np.cross world_x (np.divide delta (np.linalg_norm delta))
          else Ok primary) = Ok secondary
         /\ normalize secondary
            = Ok (np.divide secondary (np.linalg_norm secondary)).
Proof.
  intros Hreach Hinf.
  apply reaches_step_3_inv in Hreach as (_ & dz & Hdz & Hguard).
  assert (Hfirst : (np.linalg_norm delta <? 1e-9)%float = false).
  { apply axis_not_small with dz; [now apply nth_error_In with 2%nat | assumption..]. }
  split.
  { unfold normalize.
    change (fltb (np.linalg_norm delta) EPS) with (np.linalg_norm delta <? 1e-9)%float.
    now rewrite Hfirst. }
  intros primary Hcross.
  destruct (cross_returns _ _ _ Hcross) as (d0 & d1 & d2 & Hd).
  destruct delta as [|x [|y [|z [|? ?]]]]; try discriminate.
  injection Hdz as <-.
  rewrite Hd in Hcross |- *. injection Hd as <- <- <-.
  injection Hcross as <-.
  set (n := np.linalg_norm [x; y; z]) in *.
  unfold normalize.
  change (@fltb float float_Scalar) with PrimFloat.ltb.
  change (@EPS float float_Scalar) with 1e-9%float.
  pose proof (radial_fallback_not_small x y z Hinf Hguard) as Hfall.
  cbv zeta in Hfall. fold n in Hfall.
  change (@fmul float float_Scalar) with PrimFloat.mul.
  change (@fsub float float_Scalar) with PrimFloat.sub.
  change (@fdiv float float_Scalar) with PrimFloat.div.
  change (@f_zero float float_Scalar) with 0%float.
  change (@f_one float float_Scalar) with 1%float.
  match goal with
  | |- context [if ?c then _ else _] => destruct c eqn:Hsmall
  end.
  - eexists. split; [reflexivity|].
    match goal with
    | |- (if ?c then _ else _) = _ =>
        assert (E : c = false) by exact (Hfall Hsmall); now rewrite E
    end.
  - eexists. split; [reflexivity|].
    match goal with
    | |- (if ?c then _ else _) = _ =>
        assert (E : c = false) by exact Hsmall; now rewrite E
    end.
Qed.

Lemma eqb_infinity_true (x : float) : (x =? infinity)%float = true -> is_plus_infinity x.
Proof.
  rewrite eqb_spec. unfold is_plus_infinity, SFeqb.
  change (Prim2SF infinity) with (S754_infinity false).
  destruct (Prim2SF x) as [s|[|]| |s m e]; cbn [SFcompare]; try discriminate;
    try reflexivity.
Qed.

Lemma ltb_infinity_EPS (x : float) : is_plus_infinity x -> (x <? 1e-9)%float = false.
Proof. intros Hx. rewrite ltb_spec. unfold is_plus_infinity in Hx. rewrite Hx. reflexivity. Qed.

Lemma is_finite_true (x : float) : PrimFloat.is_finite x = true -> finite x.
Proof.
  unfold PrimFloat.is_finite, PrimFloat.is_nan, PrimFloat.is_infinity, finite.
  rewrite !eqb_spec, abs_spec.
  change (Prim2SF infinity) with (S754_infinity false).
  destruct (Prim2SF x) as [s|s| |s m e]; try reflexivity.
  - destruct s; discriminate.
  - discriminate.
Qed.

Lemma SFeqb_refl_finite (s : bool) (m : positive) (e : Z) :
  SFeqb (S754_finite s m e) (S754_finite s m e) = true.
Proof.
  unfold SFeqb, SFcompare.
  destruct s; rewrite Z.compare_refl, Pos.compare_cont_refl; reflexivity.
Qed.

Lemma is_finite_false (x : float) :
  PrimFloat.is_finite x = false ->
  is_NaN x \/ exists s, Prim2SF x = S754_infinity s.
Proof.
  unfold PrimFloat.is_finite, PrimFloat.is_nan, PrimFloat.is_infinity, is_NaN.
  rewrite !eqb_spec, abs_spec.
  change (Prim2SF infinity) with (S754_infinity false).
  destruct (Prim2SF x) as [s|s| |s m e].
  - destruct s; discriminate.
  - intros _. right. now exists s.
  - intros _. now left.
  - rewrite SFeqb_refl_finite. discriminate.
Qed.

Lemma div_nan_l (x n : float) : is_NaN x -> is_NaN (x / n)%float.
Proof.
  unfold is_NaN. intros H. rewrite div_spec. unfold SF64div. now rewrite H.
Qed.

(** A component that is not finite, divided by an infinite length, is
    not a number. *)
Lemma direction_nan (x n : float) :
  is_plus_infinity n -> PrimFloat.is_finite x = false -> is_NaN (x / n)%float.
Proof.
  intros Hn Hx. destruct (is_finite_false x Hx) as [H|[s H]]; [now apply div_nan_l|].
  unfold is_NaN, is_plus_infinity in *. rewrite div_spec. unfold SF64div. now rewrite H, Hn.
Qed.

Lemma dot_from_nan_in (x : float) (v : list float) :
  In x v -> is_NaN x -> forall acc, is_NaN (dot_from acc v).
Proof.
  induction v as [|y v IH]; intros Hin Hx acc; [destruct Hin|].
  change (dot_from acc (y :: v)) with (dot_from (acc + y * y)%float v).
  destruct Hin as [->|Hin]; [|now apply IH].
  apply dot_from_nan, add_nan_r, mul_nan_l, Hx.
Qed.

Lemma linalg_norm_nan_in (x : float) (v : list float) :
  In x v -> is_NaN x -> is_NaN (np.linalg_norm v).
Proof.
  intros Hin Hx. rewrite linalg_norm_dot_from. apply sqrt_nan.
  now apply dot_from_nan_in with x.
Qed.

(** A direction with a component that is not a number has a cross product
    with the vertical whose length is not a number. *)
Lemma cross_up_nan (d0 d1 d2 : float) :
  is_NaN d0 \/ is_NaN d1 \/ is_NaN d2 ->
  is_NaN (np.linalg_norm [0 * d2 - 1 * d1; 1 * d0 - 0 * d2; 0 * d1 - 0 * d0]%float).
Proof.
  intros [H|[H|H]].
  - apply linalg_norm_nan_in with (1 * d0 - 0 * d2)%float; [simpl; tauto|].
    now apply sub_nan_l, mul_nan_r.
  - apply linalg_norm_nan_in with (0 * d2 - 1 * d1)%float; [simpl; tauto|].
    now apply sub_nan_r, mul_nan_r.
  - apply linalg_norm_nan_in with (0 * d2 - 1 * d1)%float; [simpl; tauto|].
    now apply sub_nan_l, mul_nan_r.
Qed.

(** Both calls of [normalize] return when the axis vector has a component
    that is not finite and a length of plus infinity: the direction has a
    component that is not a number, and no comparison with it holds. *)
Lemma normalize_calls_return_not_finite (delta : list float) :
  (np.linalg_norm delta =? infinity)%float = true ->
  forallb PrimFloat.is_finite delta = false ->
  normalize delta = Ok (np.divide delta (np.linalg_norm delta))
  /\ forall primary,
       np.cross global_up (np.divide delta (np.linalg_norm delta)) = Ok primary ->
       exists secondary,
         (if fltb (np.linalg_norm primary) EPS
          then np.cross world_x (np.divide delta (np.linalg_norm delta))
          else Ok primary) = Ok secondary
         /\ normalize secondary
            = Ok (np.divide secondary (np.linalg_norm secondary)).
Proof.
  intros Hinf Hfin. apply eqb_infinity_true in Hinf.
  split.
  { unfold normalize.
    change (fltb (np.linalg_norm delta) EPS) with (np.linalg_norm delta <? 1e-9)%float.
    now rewrite (ltb_infinity_EPS _ Hinf). }
  intros primary Hcross.
  destruct (cross_returns _ _ _ Hcross) as (d0 & d1 & d2 & Hd).
  destruct delta as [|x [|y [|z [|? ?]]]]; try discriminate.
  rewrite Hd in Hcross |- *. injection Hd as <- <- <-.
  injection Hcross as <-.
  set (n := np.linalg_norm [x; y; z]) in *.
  assert (Hnan : is_NaN (x / n)%float \/ is_NaN (y / n)%float \/ is_NaN (z / n)%float).
  { cbn [forallb] in Hfin. rewrite andb_true_r in Hfin.
    apply andb_false_iff in Hfin as [H|H]; [left; now apply direction_nan|].
    apply andb_false_iff in H as [H|H];
      [right; left; now apply direction_nan | right; right; now apply direction_nan]. }
  pose proof (ltb_nan _ 1e-9%float (cross_up_nan _ _ _ Hnan)) as Hprimary.
  unfold normalize.
  match goal with
  | |- context [if ?c then np.cross _ _ else _] =>
      assert (E : c = false) by exact Hprimary; rewrite E
  end.
  eexists. split; [reflexivity|].
  match goal with
  | |- (if ?c then _ else _) = _ =>
      assert (E' : c = false) by exact Hprimary; now rewrite E'
  end.
Qed.

(** Both calls of [normalize] return for a member that reaches them,
    unless the length of its axis vector has overflowed. *)
Lemma normalize_calls_return (target : float) (a b delta : list float) :
  reaches_step_3 target a b = Some delta ->
  axis_overflows delta = false ->
  normalize delta = Ok (np.divide delta (np.linalg_norm delta))
  /\ forall primary,
       np.cross global_up (np.divide delta (np.linalg_norm delta)) = Ok primary ->
       exists secondary,
         (if fltb (np.linalg_norm primary) EPS
          then np.cross world_x (np.divide delta (np.linalg_norm delta))
          else Ok primary) = Ok secondary
         /\ normalize secondary
            = Ok (np.divide secondary (np.linalg_norm secondary)).
Proof.
  intros Hreach Hover. unfold axis_overflows in Hover.
  destruct (np.linalg_norm delta =? infinity)%float eqn:Hinf.
  - now apply normalize_calls_return_not_finite.
  - now apply normalize_calls_return_finite_length with target a b.
Qed.

Lemma placement_on_axis_no_overflow (target : float) (column : IfcColumn)
    (a b : list float) :
  match reaches_step_3 target a b with
  | Some delta => axis_overflows delta = false
  | None => True
  end ->
  placement_on_axis target column a b <> Raise DegenerateVectorError.
Proof.
  destruct (reaches_step_3 target a b) as [delta|] eqn:Hreach.
  - intros Hinf.
    destruct (normalize_calls_return target a b delta Hreach Hinf) as [Hfirst Hsecond].
    unfold reaches_step_3 in Hreach. unfold placement_on_axis.
    destruct (np.subtract b a) as [d|e]; [|discriminate]. cbn [bind].
    destruct (np.item d 2) as [dz|e]; [|discriminate]. cbn [bind].
    destruct (fltb (fabs dz) EPS); [discriminate|].
    destruct (np.item a 2) as [z0|e]; [|discriminate]. cbn [bind].
    destruct (_ || _); [discriminate|]. injection Hreach as ->.
    rewrite Hfirst. cbn [bind].
    destruct (np.add a _) as [center|e] eqn:Hadd; cbn [bind].
    2:{ apply broadcast_raises in Hadd. subst e. discriminate. }
    destruct (np.cross global_up _) as [primary|e] eqn:Hcross; cbn [bind].
    2:{ apply cross_raises in Hcross. subst e. discriminate. }
    destruct (Hsecond primary eq_refl) as (secondary & -> & Hnorm). cbn [bind].
    rewrite Hnorm. cbn [bind].
    destruct (get_column_profile_info column) as [outer inner].
    destruct (np.add center _) as [ins|e] eqn:Hins; cbn [bind]; [discriminate|].
    apply broadcast_raises in Hins. subst e. discriminate.
  - intros _. unfold reaches_step_3 in Hreach. unfold placement_on_axis.
    destruct (np.subtract b a) as [d|e] eqn:Hsub; cbn [bind].
    2:{ apply broadcast_raises in Hsub. subst e. discriminate. }
    destruct (np.item d 2) as [dz|e] eqn:Hdz; cbn [bind].
    2:{ apply item_raises in Hdz. subst e. discriminate. }
    destruct (fltb (fabs dz) EPS); [discriminate|].
    destruct (np.item a 2) as [z0|e] eqn:Hz0; cbn [bind].
    2:{ apply item_raises in Hz0. subst e. discriminate. }
    destruct (_ || _); [discriminate|]. discriminate Hreach.
Qed.

Lemma collect_candidates_no_overflow (target : float) (columns : list IfcColumn) :
  no_axis_overflow target columns = true ->
  forall acc, collect_candidates target columns acc <> Raise DegenerateVectorError.
Proof.
  induction columns as [|c columns IH]; intros H acc; simpl; [discriminate|].
  simpl in H. apply andb_true_iff in H as [Hc H].
  destruct (get_column_axis_points c) as [[a b]|e] eqn:Hax.
  - assert (Hp : placement_on_axis target c a b <> Raise DegenerateVectorError).
    { apply placement_on_axis_no_overflow.
      destruct (reaches_step_3 target a b) as [delta|]; [|exact I].
      now apply negb_true_iff in Hc. }
    destruct (placement_on_axis target c a b) as [[p|]|e]; cbn [bind];
      [now apply IH | now apply IH|].
    intros [= ->]. now apply Hp.
  - rewrite get_column_axis_points_refines in Hax.
    rewrite (axisEndpoints_raises _ Hax). now apply IH.
Qed.

(** A member that reaches the normalisation is not skipped. *)
Lemma placement_on_axis_not_skipped {F : Type} {SF : Scalar F} (target : F)
    (column : IfcColumn) (a b delta : list F) :
  reaches_step_3 target a b = Some delta ->
  placement_on_axis target column a b <> Ok None.
Proof.
  unfold reaches_step_3, placement_on_axis.
  destruct (np.subtract b a) as [d|e]; [|discriminate]. cbn [bind].
  destruct (np.item d 2) as [dz|e]; [|discriminate]. cbn [bind].
  destruct (fltb (fabs dz) EPS); [discriminate|].
  destruct (np.item a 2) as [z0|e]; [|discriminate]. cbn [bind].
  destruct (_ || _); [discriminate|]. intros _.
  destruct (normalize d) as [direction|e]; cbn [bind]; [|discriminate].
  destruct (np.add a _) as [center|e]; cbn [bind]; [|discriminate].
  destruct (np.cross global_up direction) as [primary|e]; cbn [bind]; [|discriminate].
  destruct (if fltb _ EPS then _ else _) as [secondary|e]; cbn [bind]; [|discriminate].
  destruct (normalize secondary) as [radial|e]; cbn [bind]; [|discriminate].
  destruct (get_column_profile_info column) as [outer inner].
  destruct (np.add center _) as [ins|e]; cbn [bind]; discriminate.
Qed.

(** A member with end points of three coordinates that reaches the
    normalisation yields a candidate, unless its axis length overflows. *)
Lemma placement_on_axis_returns (target : float) (column : IfcColumn)
    (x0 y0 z0 x1 y1 z1 : float) (delta : list float) :
  reaches_step_3 target [x0; y0; z0] [x1; y1; z1] = Some delta ->
  axis_overflows delta = false ->
  exists p, placement_on_axis target column [x0; y0; z0] [x1; y1; z1] = Ok (Some p).
Proof.
  intros Hreach Hinf.
  pose proof (placement_on_axis_not_skipped target column _ _ _ Hreach) as Hskip.
  assert (Hno : placement_on_axis target column [x0; y0; z0] [x1; y1; z1]
                <> Raise DegenerateVectorError).
  { apply placement_on_axis_no_overflow. now rewrite Hreach. }
  destruct (placement_on_axis target column [x0; y0; z0] [x1; y1; z1])
    as [[p|]|e] eqn:Hp.
  - now exists p.
  - now elim Hskip.
  - apply placement_on_axis_raises in Hp. subst e. now elim Hno.
Qed.

(** C10 fails in binary64: the squared length of the axis of
    [overflow_column] overflows, the normalised direction is the zero
    vector, and the second call of normalize raises. *)
Lemma normalize_raises_on_overflow :
  compute_leg_placement [overflow_column] 3%float 0 = Raise DegenerateVectorError.
Proof. vm_compute. reflexivity. Qed.

(** C10, amended: in binary64 no call of [normalize] in the placement
    solver raises, unless the axis vector of a member that reaches step 3
    has finite components and a computed length that has overflowed to plus
    infinity.  For every other member that passes the two guards the first
    call returns, and so does the second, on whichever of the two cross
    products is taken; and [compute_leg_placement] does not raise the
    degenerate-vector error on a model in which no axis length overflows. *)
Theorem normalize_raises_only_on_overflow :
  (forall (target : float) (axis_start axis_end delta : list float),
      reaches_step_3 target axis_start axis_end = Some delta ->
      axis_overflows delta = false ->
      normalize delta = Ok (np.divide delta (np.linalg_norm delta))
      /\ forall primary,
           np.cross global_up (np.divide delta (np.linalg_norm delta)) = Ok primary ->
           exists secondary,
             (if fltb (np.linalg_norm primary) EPS
              then np.cross world_x (np.divide delta (np.linalg_norm delta))
              else Ok primary) = Ok secondary
             /\ normalize secondary
                = Ok (np.divide secondary (np.linalg_norm secondary)))
  /\ (forall (columns : list IfcColumn) (target : float) (index : Z),
        no_axis_overflow target columns = true ->
        compute_leg_placement columns target index <> Raise DegenerateVectorError).
Proof.
  split; [exact normalize_calls_return|].
  intros columns target index H.
  unfold compute_leg_placement.
  pose proof (collect_candidates_no_overflow target columns H []) as Hc.
  destruct (collect_candidates target columns []) as [cs|e]; cbn [bind].
  - destruct cs as [|c cs]; [discriminate|].
    destruct (_ || _); [discriminate|].
    destruct (nth_error _ _); discriminate.
  - intros [= ->]. now apply Hc.
Qed.

Lemma normalize_raises_only_on_overflow_witness :
  no_axis_overflow 3%float [scenario_column] = true
  /\ compute_leg_placement [scenario_column] 3%float 0 <> Raise DegenerateVectorError.
Proof.
  split; [vm_compute; reflexivity|].
  apply (proj2 normalize_raises_only_on_overflow). vm_compute. reflexivity.
Defined.

(** X7: in binary64, on a model of a schema whose columns have the inverse
    attribute [IsTypedBy], [compute_leg_placement] returns a placement for
    index 0 whenever every curve point has two or three coordinates, no
    axis length overflows and some member passes the two guards of the
    solver. *)
Theorem compute_leg_placement_returns (columns : list IfcColumn) (target : float)
    (column : IfcColumn) (a b delta : list float) :
  points_2d_or_3d columns = true ->
  no_axis_overflow target columns = true ->
  In column columns ->
  get_column_axis_points column = Ok (a, b) ->
  reaches_step_3 target a b = Some delta ->
  exists p, compute_leg_placement columns target 0 = Ok p.
Proof.
  intros H3 Hover Hin Hax Hreach.
  apply points_2d_or_3d_axes in H3.
  assert (Haccept : accepts target column = true).
  { unfold accepts. rewrite Hax.
    unfold axes_3d in H3. rewrite forallb_forall in H3. specialize (H3 _ Hin).
    rewrite Hax in H3. apply andb_true_iff in H3 as [Ha Hb].
    apply Nat.eqb_eq in Ha, Hb.
    destruct a as [|x0 [|y0 [|z0 [|? ?]]]]; try discriminate.
    destruct b as [|x1 [|y1 [|z1 [|? ?]]]]; try discriminate.
    unfold no_axis_overflow in Hover. rewrite forallb_forall in Hover.
    specialize (Hover _ Hin). rewrite Hax, Hreach in Hover.
    apply negb_true_iff in Hover.
    destruct (placement_on_axis_returns target column _ _ _ _ _ _ _ Hreach Hover)
      as [p ->].
    reflexivity. }
  unfold compute_leg_placement.
  pose proof (collect_candidates_no_overflow target columns Hover []) as Hno.
  destruct (collect_candidates target columns []) as [cs|e] eqn:Hc; cbn [bind].
  2:{ exfalso. apply Hno. f_equal. eapply collect_candidates_raises; eassumption. }
  destruct (collect_candidates_legs _ _ _ Hc) as (news & -> & Hlegs & _).
  cbn [app].
  assert (Hne : In column (filter (accepts target) columns))
    by (apply filter_In; now split).
  rewrite <- Hlegs in Hne.
  destruct news as [|p news]; [destruct Hne|].
  cbn [List.length]. eexists. reflexivity.
Qed.

Lemma compute_leg_placement_returns_witness :
  exists p, compute_leg_placement [scenario_column] 3%float 0 = Ok p.
Proof.
  apply (compute_leg_placement_returns [scenario_column] 3%float scenario_column
           [0; 0; 0]%float [0; 0; 6]%float [0; 0; 6]%float);
    try (vm_compute; reflexivity).
  now left.
Defined.

(** ** When the length of the axis overflows *)

Lemma div_by_infinity (x n : float) : finite x -> is_plus_infinity n -> is_signed_zero (x / n)%float.
Proof.
  unfold finite, is_plus_infinity, is_signed_zero. intros Fx Hn. rewrite div_spec. unfold SF64div.
  rewrite Hn. destruct (Prim2SF x) as [s|s| |s m e]; try discriminate;
    cbn [SFdiv]; eexists; reflexivity.
Qed.

Lemma mul_zero_r (x y : float) : finite x -> is_signed_zero y -> is_signed_zero (x * y)%float.
Proof.
  intros Fx [s Hy]. unfold is_signed_zero, finite in *. rewrite mul_spec. unfold SF64mul.
  rewrite Hy. destruct (Prim2SF x) as [sx|sx| |sx m e]; try discriminate;
    cbn [SFmul]; eexists; reflexivity.
Qed.

Lemma sub_zeros (x y : float) : is_signed_zero x -> is_signed_zero y -> is_signed_zero (x - y)%float.
Proof.
  intros [sx Hx] [sy Hy]. unfold is_signed_zero. rewrite sub_spec. unfold SF64sub.
  rewrite Hx, Hy. destruct sx, sy; eexists; reflexivity.
Qed.

Lemma add_zeros (x y : float) : is_signed_zero x -> is_signed_zero y -> is_signed_zero (x + y)%float.
Proof.
  intros [sx Hx] [sy Hy]. unfold is_signed_zero. rewrite add_spec. unfold SF64add.
  rewrite Hx, Hy. destruct sx, sy; eexists; reflexivity.
Qed.

Lemma sqrt_zero (x : float) : is_signed_zero x -> is_signed_zero (PrimFloat.sqrt x).
Proof.
  intros [s Hx]. unfold is_signed_zero. rewrite sqrt_spec. unfold SF64sqrt.
  rewrite Hx. eexists; reflexivity.
Qed.

Lemma ltb_zero_EPS (x : float) : is_signed_zero x -> (x <? 1e-9)%float = true.
Proof. intros [s Hx]. rewrite ltb_spec, Hx. reflexivity. Qed.

Lemma dot_from_zeros (v : list float) :
  Forall is_signed_zero v -> forall acc, is_signed_zero acc -> is_signed_zero (dot_from acc v).
Proof.
  induction 1 as [|x v Hx Hv IH]; intros acc Ha; [exact Ha|].
  apply IH. apply add_zeros; [exact Ha|].
  apply mul_zero_r; [now apply is_signed_zero_finite | exact Hx].
Qed.

(** A vector of zeros is shorter than 1e-9. *)
Lemma linalg_norm_zeros (v : list float) :
  Forall is_signed_zero v -> (np.linalg_norm v <? 1e-9)%float = true.
Proof.
  intros H. apply ltb_zero_EPS. rewrite linalg_norm_dot_from.
  apply sqrt_zero, dot_from_zeros; [exact H | exact is_signed_zero_zero].
Qed.

Lemma cross_of_zeros (c0 c1 u v : float) :
  finite c0 -> finite c1 -> is_signed_zero u -> is_signed_zero v ->
  is_signed_zero (c0 * u - c1 * v)%float.
Proof. intros. apply sub_zeros; now apply mul_zero_r. Qed.

(** X26: in binary64 a member with end points of three coordinates that
    passes the two guards with an axis vector of finite components whose
    computed length has overflowed makes the solver raise: the normalised
    direction is the zero vector, both cross products are zero and the
    second call of [normalize] raises the degenerate-vector error. *)
Theorem placement_on_axis_raises_on_overflow (target : float) (column : IfcColumn)
    (x0 y0 z0 x1 y1 z1 : float) (delta : list float) :
  reaches_step_3 target [x0; y0; z0] [x1; y1; z1] = Some delta ->
  axis_overflows delta = true ->
  placement_on_axis target column [x0; y0; z0] [x1; y1; z1]
  = Raise DegenerateVectorError.
Proof.
  intros Hreach Hover. apply andb_true_iff in Hover as [Hinf Hfin].
  apply eqb_infinity_true in Hinf.
  assert (Hfinite : Forall finite delta).
  { rewrite forallb_forall in Hfin. apply Forall_forall.
    intros u Hu. now apply is_finite_true, Hfin. }
  clear Hfin. rename Hfinite into Hfin.
  unfold reaches_step_3 in Hreach. unfold placement_on_axis.
  change (np.subtract [x1; y1; z1] [x0; y0; z0])
    with (Ok (A:=list float) [(x1 - x0)%float; (y1 - y0)%float; (z1 - z0)%float]) in *.
  cbn [bind np.item nth_error] in *.
  destruct (fltb (fabs (z1 - z0)%float) EPS); [discriminate|].
  destruct (_ || _); [discriminate|]. injection Hreach as <-.
  set (dx := (x1 - x0)%float) in *. set (dy := (y1 - y0)%float) in *.
  set (dz := (z1 - z0)%float) in *.
  set (n := np.linalg_norm [dx; dy; dz]) in *.
  inversion Hfin as [|? ? Fx Hfin1]; subst.
  inversion Hfin1 as [|? ? Fy Hfin2]; subst.
  inversion Hfin2 as [|? ? Fz _]; subst.
  assert (Z0 : is_signed_zero (dx / n)%float) by now apply div_by_infinity.
  assert (Z1 : is_signed_zero (dy / n)%float) by now apply div_by_infinity.
  assert (Z2 : is_signed_zero (dz / n)%float) by now apply div_by_infinity.
  assert (Hprimary :
    (np.linalg_norm [0 * (dz / n) - 1 * (dy / n); 1 * (dx / n) - 0 * (dz / n);
                     0 * (dy / n) - 0 * (dx / n)] <? 1e-9)%float = true).
  { apply linalg_norm_zeros.
    repeat constructor; apply cross_of_zeros; try assumption; reflexivity. }
  assert (Hfallback :
    (np.linalg_norm [0 * (dz / n) - 0 * (dy / n); 0 * (dx / n) - 1 * (dz / n);
                     1 * (dy / n) - 0 * (dx / n)] <? 1e-9)%float = true).
  { apply linalg_norm_zeros.
    repeat constructor; apply cross_of_zeros; try assumption; reflexivity. }
  unfold normalize at 1.
  destruct (fltb (np.linalg_norm [dx; dy; dz]) EPS); [reflexivity|].
  cbn [bind np.divide map np.scale].
  match goal with
  | |- context [np.add ?u ?v] =>
      let r := eval cbv [np.add np.broadcast List.length Nat.eqb combine map fst snd]
               in (np.add u v) in
      change (np.add u v) with r
  end.
  cbn [bind np.cross global_up].
  match goal with
  | |- context [if ?c then _ else Ok ?p] =>
      assert (E : c = true) by exact Hprimary; rewrite E
  end.
  cbn [bind np.cross world_x]. unfold normalize.
  match goal with
  | |- context [if ?c then Raise _ else _] =>
      assert (E' : c = true) by exact Hfallback; rewrite E'
  end.
  reflexivity.
Qed.

Lemma placement_on_axis_raises_on_overflow_witness :
  placement_on_axis 3%float overflow_column [0; 0; 0]%float [0; 0; 1e200]%float
  = Raise DegenerateVectorError.
Proof.
  apply (placement_on_axis_raises_on_overflow 3%float overflow_column
           0 0 0 0 0 1e200 [0; 0; 1e200]%float).
  - vm_compute. reflexivity.
  - vm_compute. reflexivity.
Defined.

End Binary64Solver.

Set Implicit Arguments.

(** * What the steps of the pipeline leave alone *)

Section FrameFacts.
Context {schema : Schema} {guid : GuidSource}.

Lemma map_fst_update (m : file) (h : handle) (f : entity -> entity) :
  map fst (update m h f) = map fst m.
Proof.
  unfold update. rewrite map_map. apply map_ext.
  intros [k e]; simpl. now destruct (Nat.eqb k h).
Qed.

(** X12: after [attach_to_container] the product is among the related
    elements of the container's first containment relation.  The call
    leaves every entity of the model as it was, except that relation when
    the product is appended to it; it removes nothing, leaves the
    migrator's manifest alone, and draws an identifier only when it has to
    create the relation. *)
Theorem attach_to_container_frame (s : session) (container product : handle) :
  let s1 := attach_to_container s container product in
  In product (container_elements (model s1) container)
  /\ (forall h e, by_id (model s) h = Some e ->
        by_id (model s1) h = Some e
        \/ ((exists rest, ContainsElements (model s) container = h :: rest)
            /\ by_id (model s1) h
               = Some (set_attr e "RelatedElements"
                         (VRefs (RelatedElements (model s) h ++ [product])))))
  /\ migrated_ids s1 = migrated_ids s
  /\ removals s1 = removals s
  /\ guid_calls s1 = match ContainsElements (model s) container with
                     | [] => S (guid_calls s)
                     | _ :: _ => guid_calls s
                     end.
Proof.
  intros s1.
  destruct (ContainsElements (model s) container) as [|relation rest] eqn:Hc.
  - destruct (attach_created s container product Hc) as (Hm & Hc1 & Hr1).
    fold s1 in Hm, Hc1, Hr1.
    split; [|split; [|split; [|split]]].
    + unfold container_elements. rewrite Hc1, Hr1. now left.
    + intros h e He. left. rewrite Hm, by_id_app, He. reflexivity.
    + unfold s1, attach_to_container. rewrite Hc. reflexivity.
    + unfold s1, attach_to_container. rewrite Hc. reflexivity.
    + unfold s1, attach_to_container. rewrite Hc. reflexivity.
  - destruct (attach_existing s container product Hc) as (Hc1 & Hr1).
    fold s1 in Hc1, Hr1.
    split; [|split; [|split; [|split]]].
    + unfold container_elements. rewrite Hc1, Hr1.
      destruct (existsb (Nat.eqb product) (RelatedElements (model s) relation)) eqn:Hin.
      * now apply existsb_eqb_In.
      * apply in_or_app. right. now left.
    + intros h e He. unfold s1, attach_to_container. rewrite Hc.
      destruct (existsb (Nat.eqb product) (RelatedElements (model s) relation));
        [now left|].
      simpl. rewrite by_id_update.
      destruct (Nat.eqb_spec h relation) as [->|Hne]; [|now left].
      right. split; [now exists rest|]. now rewrite He.
    + unfold s1, attach_to_container. rewrite Hc.
      now destruct (existsb _ _).
    + unfold s1, attach_to_container. rewrite Hc.
      now destruct (existsb _ _).
    + unfold s1, attach_to_container. rewrite Hc.
      now destruct (existsb _ _).
Qed.

Lemma refresh_loop_frame (l : list handle) :
  forall s,
    map fst (model (refresh_loop l s)) = map fst (model s)
    /\ migrated_ids (refresh_loop l s) = migrated_ids s
    /\ removals (refresh_loop l s) = removals s.
Proof.
  induction l as [|t l IH]; intros s; [now repeat split|].
  rewrite refresh_loop_cons.
  destruct (is_root (model s) t); [|apply IH].
  destruct (IH (with_model (snd (guid_new s))
                  (update (model s) t
                     (fun e => set_attr e "GlobalId"
                                 (VStr (guid_of_call (guid_calls s)))))))
    as (Hm & Hi & Hr).
  rewrite Hm, Hi, Hr. simpl. now rewrite map_fst_update.
Qed.

Lemma stamp_of_none (m : file) (l : list handle) (h : handle) :
  ~ In h l \/ is_root m h = false ->
  forall n, stamp_of m l n h = None.
Proof.
  intros Hout. induction l as [|t l IH]; intros n; simpl; [reflexivity|].
  assert (Hrest : ~ In h l \/ is_root m h = false).
  { destruct Hout as [Hn|Hr]; [left; intros Hin; apply Hn; now right | now right]. }
  destruct (is_root m t) eqn:Ht; [|now apply IH].
  rewrite (IH Hrest).
  destruct (Nat.eqb_spec t h) as [->|Hne]; [|reflexivity].
  destruct Hout as [Hn|Hr]; [exfalso; apply Hn; now left | congruence].
Qed.

(** X13: [refresh_migrated_root_guids] keeps the entities of the model
    and their order, their classes and every attribute other than
    [GlobalId]; an entity that is not in the migrator's manifest, or is not
    an [IfcRoot], is left exactly as it was.  It draws one identifier for
    each manifest entry that resolves to a root entity. *)
Theorem refresh_migrated_root_guids_frame (s : session) :
  let s' := refresh_migrated_root_guids s in
  map fst (model s') = map fst (model s)
  /\ migrated_ids s' = migrated_ids s
  /\ removals s' = removals s
  /\ guid_calls s'
     = guid_calls s
       + List.length (filter (is_root (model s)) (map snd (migrated_ids s)))
  /\ forall h,
       match by_id (model s) h with
       | None => by_id (model s') h = None
       | Some e =>
           exists e',
             by_id (model s') h = Some e'
             /\ ifc_class e' = ifc_class e
             /\ (forall name, name <> "GlobalId" -> get_attr e' name = get_attr e name)
             /\ (~ In h (map snd (migrated_ids s)) \/ is_a e "IfcRoot" = false ->
                 e' = e)
       end.
Proof.
  intros s'. unfold s', refresh_migrated_root_guids.
  destruct (refresh_loop_frame (map snd (migrated_ids s)) s) as (Hm & Hi & Hr).
  destruct (refresh_loop_spec (map snd (migrated_ids s)) s) as [Hcalls Hid].
  split; [exact Hm|]. split; [exact Hi|]. split; [exact Hr|]. split; [exact Hcalls|].
  intros h. rewrite Hid.
  destruct (by_id (model s) h) as [e|] eqn:He.
  - destruct (stamp_of (model s) (map snd (migrated_ids s)) (guid_calls s) h)
      as [k|] eqn:Hk.
    + eexists. split; [reflexivity|]. split; [reflexivity|]. split.
      * intros name Hne. now apply get_attr_set_other.
      * intros Hout. rewrite stamp_of_none in Hk; [discriminate|].
        destruct Hout as [Hn|Hroot]; [now left | right].
        unfold is_root. now rewrite He.
    + exists e. repeat split.
  - now destruct (stamp_of _ _ _ h).
Qed.

(** *** Removal of an entity without referrer *)

Lemma detach_value_unreferenced (h : handle) (v : value) :
  value_refers h v = false -> detach_value h v = v.
Proof.
  destruct v as [| | |r|rs]; simpl; try reflexivity.
  - intros ->. reflexivity.
  - intros H. f_equal. induction rs as [|r rs IH]; [reflexivity|].
    simpl in H |- *. apply orb_false_iff in H as [Hr Hrs].
    rewrite Nat.eqb_sym, Hr. simpl. now rewrite IH.
Qed.

Lemma detach_unreferenced (h : handle) (e : entity) :
  refers_to h e = false -> detach h e = e.
Proof.
  destruct e as [cls attrs]. unfold refers_to, detach. simpl. intros H. f_equal.
  induction attrs as [|[name v] attrs IH]; [reflexivity|].
  simpl in H |- *. apply orb_false_iff in H as [Hv Hrest].
  now rewrite detach_value_unreferenced, IH.
Qed.

Lemma get_inverse_nil (m : file) (h : handle) :
  get_inverse m h = [] ->
  forall p, In p m -> refers_to h (snd p) = false.
Proof.
  unfold get_inverse. intros H p Hin.
  destruct (refers_to h (snd p)) eqn:E; [|reflexivity].
  assert (Hp : In (fst p) (map fst (filter (fun q => refers_to h (snd q)) m))).
  { apply in_map, filter_In. now split. }
  rewrite H in Hp. contradiction.
Qed.

Lemma remove_orphan (m : file) (h : handle) :
  get_inverse m h = [] ->
  remove m h = filter (fun p => negb (Nat.eqb (fst p) h)) m.
Proof.
  intros H. unfold remove.
  rewrite <- (map_id (filter _ m)) at 2.
  apply map_ext_in. intros [k e] Hin. apply filter_In in Hin as [Hin _].
  pose proof (get_inverse_nil _ _ H _ Hin) as Hno. simpl in Hno |- *.
  now rewrite detach_unreferenced by exact Hno.
Qed.

Lemma by_id_filter_out (m : file) (h h' : handle) :
  by_id (filter (fun p => negb (Nat.eqb (fst p) h)) m) h'
  = if Nat.eqb h' h then None else by_id m h'.
Proof.
  unfold by_id. induction m as [|[k e] m IH]; simpl.
  - now destruct (Nat.eqb h' h).
  - destruct (Nat.eqb_spec k h) as [->|Hk]; simpl.
    + rewrite IH.
      destruct (Nat.eqb_spec h h') as [<-|Hne]; [now rewrite Nat.eqb_refl | reflexivity].
    + destruct (Nat.eqb_spec k h') as [->|Hk'].
      * destruct (Nat.eqb_spec h' h); [congruence | reflexivity].
      * exact IH.
Qed.

Lemma by_id_remove_orphan (m : file) (h h' : handle) :
  get_inverse m h = [] ->
  by_id (remove m h) h' = if Nat.eqb h' h then None else by_id m h'.
Proof. intros H. rewrite remove_orphan by exact H. apply by_id_filter_out. Qed.

Lemma value_refers_in (h : handle) (v : value) :
  In h (value_refs v) -> value_refers h v = true.
Proof.
  destruct v as [| | |r|rs]; simpl; try contradiction.
  - intros [->|[]]. apply Nat.eqb_refl.
  - intros Hin. now apply existsb_eqb_In.
Qed.

Lemma closed_remove_orphan (m : file) (h : handle) :
  get_inverse m h = [] -> closed m -> closed (remove m h).
Proof.
  intros Horphan Hclosed. rewrite remove_orphan by exact Horphan.
  intros k e a r Hin Ha Hr.
  apply filter_In in Hin as [Hin _].
  pose proof (Hclosed _ _ _ _ Hin Ha Hr) as Hres.
  apply in_map_iff in Hres as [[k' e'] [Hk' Hin']]. simpl in Hk'. subst k'.
  apply in_map_iff. exists (r, e'). split; [reflexivity|].
  apply filter_In. split; [exact Hin'|]. simpl.
  destruct (Nat.eqb_spec r h) as [->|]; [|reflexivity].
  exfalso.
  pose proof (get_inverse_nil _ _ Horphan _ Hin) as Hno. simpl in Hno.
  unfold refers_to in Hno.
  assert (Hyes : existsb (fun a0 => value_refers h (snd a0)) (attributes e) = true).
  { apply existsb_exists. exists a. split; [exact Ha | now apply value_refers_in]. }
  congruence.
Qed.

(** X14: [remove_if_orphan] removes at most the entity it is given, and
    only when nothing in the model refers to it; every other handle
    resolves to the same entity as before, the manifest is left alone, and
    a model without dangling references stays without. *)
Theorem remove_if_orphan_frame (role : chain_role) (s : session)
    (entity : option handle) :
  let s' := remove_if_orphan role s entity in
  (forall h, entity <> Some h -> by_id (model s') h = by_id (model s) h)
  /\ (forall h, entity = Some h ->
        match get_inverse (model s) h with
        | [] => by_id (model s') h = None
        | _ :: _ => s' = s
        end)
  /\ migrated_ids s' = migrated_ids s
  /\ guid_calls s' = guid_calls s
  /\ (closed (model s) -> closed (model s')).
Proof.
  intros s'. unfold s', remove_if_orphan.
  destruct entity as [x|]; [|repeat split; auto; discriminate].
  destruct (get_inverse (model s) x) as [|r rs] eqn:Hinv.
  - split; [|split; [|split; [|split]]]; try reflexivity.
    + intros h Hne. simpl. rewrite by_id_remove_orphan by exact Hinv.
      destruct (Nat.eqb_spec h x); [congruence | reflexivity].
    + intros h [= <-]. rewrite Hinv. simpl.
      rewrite by_id_remove_orphan by exact Hinv. now rewrite Nat.eqb_refl.
    + intros Hc. simpl. now apply closed_remove_orphan.
  - split; [|split; [|split; [|split]]]; try reflexivity; auto.
    intros h [= <-]. now rewrite Hinv.
Qed.

End FrameFacts.

Lemma closedb_closed (m : file) : closedb m = true -> closed m.
Proof.
  unfold closedb, closed. rewrite forallb_forall.
  intros H h e a r Hin Ha Hr.
  specialize (H _ Hin). simpl in H.
  rewrite forallb_forall in H. specialize (H _ Ha).
  rewrite forallb_forall in H. specialize (H _ Hr).
  apply existsb_exists in H as [x [Hx Heq]].
  apply Nat.eqb_eq in Heq. now subst.
Qed.

Lemma remove_if_orphan_frame_witness :
  closed (model twin_record_example)
  /\ get_inverse (model twin_record_example) 8 = []
  /\ closed (model (remove_if_orphan HistoryRecord twin_record_example (Some 8))).
Proof.
  assert (H : closed (model twin_record_example))
    by (apply closedb_closed; vm_compute; reflexivity).
  split; [exact H|]. split; [reflexivity|].
  exact (proj2 (proj2 (proj2 (proj2
           (remove_if_orphan_frame HistoryRecord twin_record_example (Some 8))))) H).
Defined.

(** ** What the harmonizer leaves alone *)

Section HarmonizeFrame.
Context {schema : Schema} {guid : GuidSource}.

Lemma only_removes_refl (m : file) : only_removes m m.
Proof. intros h. now left. Qed.

Lemma only_removes_trans (m1 m2 m3 : file) :
  only_removes m1 m2 -> only_removes m2 m3 -> only_removes m1 m3.
Proof.
  intros H12 H23 h. destruct (H23 h) as [E|E]; [rewrite E; apply H12 | now right].
Qed.

Lemma only_removes_model_remove (role : chain_role) (h : handle) (s : session) :
  get_inverse (model s) h = [] ->
  only_removes (model s) (model (model_remove role h s)).
Proof.
  intros Hinv h'. simpl. rewrite by_id_remove_orphan by exact Hinv.
  destruct (Nat.eqb h' h); [now right | now left].
Qed.

Lemma only_removes_orphan (role : chain_role) (s : session) (entity : option handle) :
  only_removes (model s) (model (remove_if_orphan role s entity)).
Proof.
  unfold remove_if_orphan.
  destruct entity as [h|]; [|apply only_removes_refl].
  destruct (get_inverse (model s) h) eqn:Hinv; [|apply only_removes_refl].
  now apply only_removes_model_remove.
Qed.

Lemma only_removes_obsolete (toh : handle) (s : session) (owner_history : handle) :
  only_removes (model s) (model (remove_obsolete toh s owner_history)).
Proof.
  unfold remove_obsolete.
  destruct (Nat.eqb owner_history toh); [apply only_removes_refl|].
  destruct (get_inverse (model s) owner_history) eqn:Hinv; [|apply only_removes_refl].
  repeat (eapply only_removes_trans; [|apply only_removes_orphan]).
  now apply only_removes_model_remove.
Qed.

Lemma closed_model_remove (role : chain_role) (h : handle) (s : session) :
  get_inverse (model s) h = [] -> closed (model s) ->
  closed (model (model_remove role h s)).
Proof. intros Hinv Hc. simpl. now apply closed_remove_orphan. Qed.

Lemma closed_orphan (role : chain_role) (s : session) (entity : option handle) :
  closed (model s) -> closed (model (remove_if_orphan role s entity)).
Proof.
  intros Hc. unfold remove_if_orphan.
  destruct entity as [h|]; [|exact Hc].
  destruct (get_inverse (model s) h) eqn:Hinv; [|exact Hc].
  now apply closed_model_remove.
Qed.

Lemma closed_obsolete (toh : handle) (s : session) (owner_history : handle) :
  closed (model s) -> closed (model (remove_obsolete toh s owner_history)).
Proof.
  intros Hc. unfold remove_obsolete.
  destruct (Nat.eqb owner_history toh); [exact Hc|].
  destruct (get_inverse (model s) owner_history) eqn:Hinv; [|exact Hc].
  repeat apply closed_orphan. now apply closed_model_remove.
Qed.

Lemma manifest_orphan (role : chain_role) (s : session) (entity : option handle) :
  migrated_ids (remove_if_orphan role s entity) = migrated_ids s
  /\ guid_calls (remove_if_orphan role s entity) = guid_calls s.
Proof.
  unfold remove_if_orphan. destruct entity as [h|]; [|now split].
  destruct (get_inverse (model s) h); now split.
Qed.

Lemma manifest_obsolete (toh : handle) (s : session) (owner_history : handle) :
  migrated_ids (remove_obsolete toh s owner_history) = migrated_ids s
  /\ guid_calls (remove_obsolete toh s owner_history) = guid_calls s.
Proof.
  unfold remove_obsolete.
  destruct (Nat.eqb owner_history toh); [now split|].
  destruct (get_inverse (model s) owner_history); [|now split].
  repeat match goal with
         | |- context [remove_if_orphan ?r ?s0 ?e] =>
             destruct (manifest_orphan r s0 e) as [-> ->]
         end.
  now split.
Qed.

(** The loop over the collected owner histories. *)
Lemma remove_obsolete_fold (toh : handle) (l : list handle) :
  forall s,
    only_removes (model s) (model (fold_left (remove_obsolete toh) l s))
    /\ (closed (model s) -> closed (model (fold_left (remove_obsolete toh) l s)))
    /\ migrated_ids (fold_left (remove_obsolete toh) l s) = migrated_ids s
    /\ guid_calls (fold_left (remove_obsolete toh) l s) = guid_calls s.
Proof.
  induction l as [|x l IH]; intros s; simpl.
  - split; [apply only_removes_refl|]. now repeat split.
  - destruct (IH (remove_obsolete toh s x)) as (Hr & Hc & Hi & Hg).
    destruct (manifest_obsolete toh s x) as [Hi0 Hg0].
    split; [|split; [|split]].
    + eapply only_removes_trans; [apply only_removes_obsolete | exact Hr].
    + intros H. now apply Hc, closed_obsolete.
    + now rewrite Hi.
    + now rewrite Hg.
Qed.

Lemma in_assign (attrs : list (string * value)) (name : string) (v : value)
    (a : string * value) :
  In a (assign attrs name v) -> a = (name, v) \/ In a attrs.
Proof.
  induction attrs as [|b attrs IH]; simpl.
  - intros [<-|[]]. now left.
  - destruct (String.eqb (fst b) name).
    + intros [<-|Hin]; [now left | right; now right].
    + intros [<-|Hin]; [right; now left|].
      destruct (IH Hin) as [E|Hin']; [now left | right; now right].
Qed.

Lemma closed_retarget_step (m : file) (x toh : handle) :
  closed m -> In toh (map fst m) ->
  closed (update m x (fun e => set_attr e "OwnerHistory" (VRef toh))).
Proof.
  intros Hc Htoh k e a r Hin Ha Hr. rewrite map_fst_update.
  unfold update in Hin. apply in_map_iff in Hin as [[k0 e0] [Heq Hin]].
  simpl in Heq. destruct (Nat.eqb k0 x).
  - injection Heq as <- <-. simpl in Ha.
    apply in_assign in Ha as [->|Ha].
    + simpl in Hr. destruct Hr as [<-|[]]. exact Htoh.
    + exact (Hc _ _ _ _ Hin Ha Hr).
  - injection Heq as <- <-. exact (Hc _ _ _ _ Hin Ha Hr).
Qed.

Lemma closed_retarget (toh : handle) (l : list handle) :
  forall m acc,
    closed m -> In toh (map fst m) ->
    closed (fst (retarget_loop toh l m acc)).
Proof.
  induction l as [|x l IH]; intros m acc Hc Htoh; simpl; [exact Hc|].
  destruct (by_id m x) as [e|]; [|now apply IH].
  destruct (is_a e "IfcRoot"); [|now apply IH].
  apply IH; [now apply closed_retarget_step | now rewrite map_fst_update].
Qed.

(** The model the second loop leaves: the owner history of the root
    entities it visits is the target's record, nothing else changes. *)
Lemma retarget_loop_by_id (toh : handle) (l : list handle) :
  forall m acc h,
    by_id (fst (retarget_loop toh l m acc)) h
    = option_map (fun e => if existsb (Nat.eqb h) l && is_a e "IfcRoot"
                           then set_attr e "OwnerHistory" (VRef toh)
                           else e)
                 (by_id m h).
Proof.
  induction l as [|x l IH]; intros m acc h.
  - simpl. now destruct (by_id m h).
  - cbn [retarget_loop existsb].
    destruct (by_id m x) as [e|] eqn:Hx.
    + destruct (is_a e "IfcRoot") eqn:Hroot.
      * rewrite IH, by_id_update.
        destruct (Nat.eqb_spec h x) as [->|Hne].
        -- rewrite Hx. cbn [option_map orb andb]. rewrite is_a_set_attr, Hroot.
           f_equal. destruct (existsb (Nat.eqb x) l); cbn [andb];
             [apply set_attr_twice | reflexivity].
        -- reflexivity.
      * rewrite IH.
        destruct (Nat.eqb_spec h x) as [->|Hne]; [|reflexivity].
        rewrite Hx. cbn [option_map]. now rewrite Hroot, !andb_false_r.
    + rewrite IH.
      destruct (Nat.eqb_spec h x) as [->|Hne]; [|reflexivity].
      now rewrite Hx.
Qed.

Lemma existsb_filter_member (g : handle -> bool) (l : list handle) (h : handle) :
  g h = true ->
  existsb (Nat.eqb h) (filter g l) = existsb (Nat.eqb h) l.
Proof.
  intros Hg. induction l as [|x l IH]; [reflexivity|].
  simpl. destruct (g x) eqn:Hx; simpl; [now rewrite IH|].
  destruct (Nat.eqb_spec h x) as [->|_]; [congruence | exact IH].
Qed.

(** The model the harmonizer leaves, entity by entity. *)
Lemma harmonize_by_id (iteration : list handle -> list handle) (s : session)
    (toh h : handle) (e' : entity) :
  by_id (model (harmonize_migrated_owner_history iteration s (Some toh))) h = Some e' ->
  exists e,
    by_id (model s) h = Some e
    /\ e' = (if existsb (Nat.eqb h) (map snd (migrated_ids s)) && is_a e "IfcRoot"
             then set_attr e "OwnerHistory" (VRef toh)
             else e).
Proof.
  intros He'. unfold harmonize_migrated_owner_history in He'.
  pose proof (retarget_loop_by_id toh (migrated_entities s) (model s) [] h) as Hm1.
  destruct (retarget_loop toh (migrated_entities s) (model s) []) as [m1 histories].
  simpl in Hm1.
  destruct (remove_obsolete_fold toh (iteration histories) (with_model s m1))
    as (Hr & _).
  destruct (Hr h) as [E|E]; [|congruence].
  rewrite He' in E. simpl in E. rewrite Hm1 in E.
  destruct (by_id (model s) h) as [e|] eqn:He; [|discriminate].
  exists e. split; [reflexivity|].
  simpl in E. injection E as ->.
  unfold migrated_entities. rewrite existsb_filter_member; [reflexivity|].
  now rewrite He.
Qed.

Lemma harmonize_manifest (iteration : list handle -> list handle) (s : session)
    (target_owner_history : option handle) :
  migrated_ids (harmonize_migrated_owner_history iteration s target_owner_history)
  = migrated_ids s
  /\ guid_calls (harmonize_migrated_owner_history iteration s target_owner_history)
     = guid_calls s.
Proof.
  unfold harmonize_migrated_owner_history.
  destruct target_owner_history as [toh|]; [|now split].
  destruct (retarget_loop toh (migrated_entities s) (model s) []) as [m1 histories].
  destruct (remove_obsolete_fold toh (iteration histories) (with_model s m1))
    as (_ & _ & -> & ->).
  now split.
Qed.

Lemma harmonize_owner_history (iteration : list handle -> list handle) (s : session)
    (toh h : handle) (e' : entity) :
  In h (map snd (migrated_ids s)) ->
  by_id (model (harmonize_migrated_owner_history iteration s (Some toh))) h = Some e' ->
  is_a e' "IfcRoot" = true ->
  get_attr e' "OwnerHistory" = VRef toh.
Proof.
  intros Hin He' Hroot.
  destruct (harmonize_by_id _ _ _ _ He') as (e & He & ->).
  assert (Hex : existsb (Nat.eqb h) (map snd (migrated_ids s)) = true)
    by now apply existsb_eqb_In.
  rewrite Hex in Hroot |- *. cbn [andb] in Hroot |- *.
  destruct (is_a e "IfcRoot") eqn:Hr.
  - apply get_attr_set_same.
  - congruence.
Qed.

(** X15: [harmonize_migrated_owner_history] changes one thing in the
    entities it keeps: the [OwnerHistory] of the root entities of the
    migrator's manifest, which it sets to the target's record.  Every
    entity of the resulting model was in the model before, with the same
    handle, the same class and the same other attributes; the manifest is
    left alone and no identifier is drawn.  Without a target record the
    call changes nothing. *)
Theorem harmonize_changes_only_owner_history
    (iteration : list handle -> list handle) (s : session) (toh : handle) :
  let s' := harmonize_migrated_owner_history iteration s (Some toh) in
  (forall h e', by_id (model s') h = Some e' ->
     exists e,
       by_id (model s) h = Some e
       /\ e' = (if existsb (Nat.eqb h) (map snd (migrated_ids s)) && is_a e "IfcRoot"
                then set_attr e "OwnerHistory" (VRef toh)
                else e))
  /\ (forall h e', In h (map snd (migrated_ids s)) ->
        by_id (model s') h = Some e' ->
        is_a e' "IfcRoot" = true ->
        get_attr e' "OwnerHistory" = VRef toh)
  /\ migrated_ids s' = migrated_ids s
  /\ guid_calls s' = guid_calls s
  /\ harmonize_migrated_owner_history iteration s None = s.
Proof.
  intros s'. split; [|split; [|split; [|split]]].
  - intros h e'. apply harmonize_by_id.
  - intros h e'. apply harmonize_owner_history.
  - apply harmonize_manifest.
  - apply harmonize_manifest.
  - reflexivity.
Qed.

(** X16: on a model in which every reference resolves and which holds
    the target's record, [harmonize_migrated_owner_history] leaves a model
    in which every reference resolves. *)
Theorem harmonize_leaves_no_dangling_reference
    (iteration : list handle -> list handle) (s : session) (toh : handle) :
  closed (model s) ->
  In toh (map fst (model s)) ->
  closed (model (harmonize_migrated_owner_history iteration s (Some toh))).
Proof.
  intros Hc Htoh. unfold harmonize_migrated_owner_history.
  pose proof (closed_retarget toh (migrated_entities s) [] Hc Htoh) as Hm1.
  destruct (retarget_loop toh (migrated_entities s) (model s) []) as [m1 histories].
  simpl in Hm1.
  destruct (remove_obsolete_fold toh (iteration histories) (with_model s m1))
    as (_ & Hclosed & _).
  now apply Hclosed.
Qed.

End HarmonizeFrame.

Lemma harmonize_changes_only_owner_history_witness :
  by_id (model (harmonize_migrated_owner_history (fun l => l) migrated_example (Some 5))) 9
  = Some (mk_entity "IfcCommunicationsAppliance"
            [("GlobalId", VStr "donor-antenna"); ("OwnerHistory", VRef 5)])
  /\ get_attr (mk_entity "IfcCommunicationsAppliance"
                 [("GlobalId", VStr "donor-antenna"); ("OwnerHistory", VRef 5)])
              "OwnerHistory" = VRef 5.
Proof.
  assert (H : by_id (model (harmonize_migrated_owner_history (fun l => l)
                              migrated_example (Some 5))) 9
              = Some (mk_entity "IfcCommunicationsAppliance"
                        [("GlobalId", VStr "donor-antenna"); ("OwnerHistory", VRef 5)]))
    by (vm_compute; reflexivity).
  split; [exact H|].
  apply (proj1 (proj2 (@harmonize_changes_only_owner_history ifc4_fragment
                         (fun l => l) migrated_example 5)) 9 _).
  - vm_compute. tauto.
  - exact H.
  - vm_compute. reflexivity.
Defined.

Lemma harmonize_leaves_no_dangling_reference_witness :
  closed (model migrated_example)
  /\ In 5 (map fst (model migrated_example))
  /\ closed (model (harmonize_migrated_owner_history (fun l => l) migrated_example (Some 5)))
  /\ map fst (model (harmonize_migrated_owner_history (fun l => l) migrated_example (Some 5)))
     = [1; 2; 3; 4; 5; 6; 7; 8; 9].
Proof.
  assert (Hc : closed (model migrated_example))
    by (apply closedb_closed; vm_compute; reflexivity).
  assert (Hin : In 5 (map fst (model migrated_example))) by (vm_compute; tauto).
  split; [exact Hc|]. split; [exact Hin|]. split; [|vm_compute; reflexivity].
  exact (@harmonize_leaves_no_dangling_reference ifc4_fragment (fun l => l)
           migrated_example 5 Hc Hin).
Defined.

(* ================================================================== *)
(** * The local frame of the antenna *)

(** In binary64, with the world frame as reference: orthogonal
    orientation vectors give the placement, parallel ones are refused. *)
Lemma create_axis_placement_in_binary64 :
  create_axis_placement (fun _ : unit => identity4) (fun m => Some m) None
                        [1; 2; 3]%float [1; 0; 0]%float [0; 0; 1]%float
  = Built {| Location := [1; 2; 3]%float;
             Axis := [0; 0; 1]%float;
             RefDirection := [1; 0; 0]%float |}
  /\ create_axis_placement (fun _ : unit => identity4) (fun m => Some m) None
                           [1; 2; 3]%float [0; 0; 2]%float [0; 0; 1]%float
     = Failed ParallelOrientationError.
Proof. split; vm_compute; reflexivity. Qed.

(* ================================================================== *)
(** * The relations the rewirer creates *)

Section RewireFrame.
Context {schema : Schema} {guid : GuidSource}.

Section AnyMigratorGuids.
Variable migrate_entity : handle -> M handle.
Hypothesis migrate_entity_guids :
  forall h s t s', migrate_entity h s = Some (t, s') -> guid_calls s' = guid_calls s.

Lemma migrate_refs_guids (hs : list handle) (s s' : session) (ts : list handle) :
  migrate_refs migrate_entity hs s = Some (ts, s') -> guid_calls s' = guid_calls s.
Proof.
  revert s ts; induction hs as [|h hs IH]; intros s ts; simpl.
  - now intros [= _ <-].
  - unfold mbind.
    destruct (migrate_entity h s) as [[t s1]|] eqn:E1; [|discriminate].
    destruct (migrate_refs migrate_entity hs s1) as [[ts' s2]|] eqn:E2; [|discriminate].
    intros [= _ <-].
    rewrite (IH _ _ E2). eapply migrate_entity_guids; eassumption.
Qed.

Lemma migrate_value_guids (v v' : value) (s s' : session) :
  migrate_value migrate_entity v s = Some (v', s') -> guid_calls s' = guid_calls s.
Proof.
  destruct v as [| | |h|hs]; simpl; unfold ret, mbind;
    try (now intros [= _ <-]).
  - destruct (migrate_entity h s) as [[t s1]|] eqn:E; [|discriminate].
    intros [= _ <-]. eapply migrate_entity_guids; eassumption.
  - destruct (migrate_refs migrate_entity hs s) as [[ts s1]|] eqn:E; [|discriminate].
    intros [= _ <-]. eapply migrate_refs_guids; eassumption.
Qed.

Lemma migrate_attributes_guids (target : handle) (attrs : list (string * value))
    (s s' : session) (u : unit) :
  migrate_attributes migrate_entity target attrs s = Some (u, s') ->
  guid_calls s' = guid_calls s.
Proof.
  revert s; induction attrs as [|a attrs IH]; intros s; simpl.
  - now intros [= _ <-].
  - unfold mbind.
    destruct (migrate_value migrate_entity (snd a) s) as [[v s1]|] eqn:E1; [|discriminate].
    unfold set_target_attr at 1.
    intros E3. rewrite (IH _ E3). simpl. eapply migrate_value_guids; eassumption.
Qed.

End AnyMigratorGuids.

(** The migrator draws no identifier. *)
Lemma migrate_guids (source : file) (fuel : nat) :
  forall element s t s',
    migrate source fuel element s = Some (t, s') -> guid_calls s' = guid_calls s.
Proof.
  induction fuel as [|fuel IH]; intros element s t s'; simpl; [discriminate|].
  destruct (dict_get (migrated_ids s) element) as [t0|]; [now intros [= _ <-]|].
  destruct (by_id source element) as [e|]; [|discriminate].
  set (s1 := {| model := _; migrated_ids := _; guid_calls := _;
                cloned := _; removals := _ |}).
  destruct (migrate_attributes _ _ _ s1) as [[[] s2]|] eqn:Hattrs; [|discriminate].
  intros [= _ <-].
  apply migrate_attributes_guids in Hattrs; [exact Hattrs|].
  intros h0 sa ta sb Hm. exact (IH _ _ _ _ Hm).
Qed.

Variable source_model : file.
Variable fuel : nat.
Variables source_antenna target_antenna : handle.

(** What the loop over the related objects of a material association
    collects: the target antenna for the source antenna, the clone for a
    type object, nothing for anything else. *)
Lemma related_loop_collects (objects : list handle) :
  forall acc res s s',
    related_loop source_model fuel source_antenna target_antenna objects acc s
    = Some (res, s') ->
    guid_calls s' = guid_calls s
    /\ exists news,
         res = acc ++ news
         /\ (In source_antenna objects -> In target_antenna news)
         /\ forall o, In o news ->
              o = target_antenna
              \/ exists source_related e,
                   In source_related objects
                   /\ by_id source_model source_related = Some e
                   /\ is_a e "IfcTypeObject" = true
                   /\ dict_get (migrated_ids s') source_related = Some o.
Proof.
  induction objects as [|x objects IH]; intros acc res s s'; simpl.
  - intros [= <- <-]. split; [reflexivity|]. exists [].
    rewrite app_nil_r. split; [reflexivity|]. split; [intros [] | intros o []].
  - destruct (Nat.eqb_spec x source_antenna) as [->|Hne].
    + intros H. destruct (IH _ _ _ _ H) as (Hg & news & -> & Hant & Hall).
      split; [exact Hg|]. exists (target_antenna :: news).
      split; [now rewrite <- app_assoc|]. split; [intros _; now left|].
      intros o [<-|Ho]; [now left|].
      destruct (Hall o Ho) as [->|(sr & e & Hin & He & Ht & Hd)]; [now left|].
      right. exists sr, e. split; [now right | now repeat split].
    + destruct (by_id source_model x) as [e|] eqn:Hx; [|discriminate].
      destruct (is_a e "IfcTypeObject") eqn:Htype.
      * unfold mbind.
        destruct (migrate source_model fuel x s) as [[t s1]|] eqn:Hm; [|discriminate].
        intros H. destruct (IH _ _ _ _ H) as (Hg & news & -> & Hant & Hall).
        assert (Hg1 := Hm). apply migrate_guids in Hg1.
        apply migrate_grows in Hm as [_ Hcached].
        apply related_loop_grows in H as [Hgrows _].
        split; [congruence|]. exists (t :: news).
        split; [now rewrite <- app_assoc|]. split.
        -- intros [E|Hin]; [congruence | right; now apply Hant].
        -- intros o [<-|Ho].
           ++ right. exists x, e. split; [now left|]. split; [exact Hx|].
              split; [exact Htype|]. now apply (proj1 Hgrows).
           ++ destruct (Hall o Ho) as [->|(sr & e0 & Hin & He & Ht & Hd)]; [now left|].
              right. exists sr, e0. split; [now right | now repeat split].
      * intros H. destruct (IH _ _ _ _ H) as (Hg & news & -> & Hant & Hall).
        split; [exact Hg|]. exists news. split; [reflexivity|]. split.
        -- intros [E|Hin]; [congruence | now apply Hant].
        -- intros o Ho.
           destruct (Hall o Ho) as [->|(sr & e0 & Hin & He & Ht & Hd)]; [now left|].
           right. exists sr, e0. split; [now right | now repeat split].
Qed.

Lemma related_images_grows (ids ids' : list (handle * handle))
    (objects objs : list handle) :
  (forall k t, dict_get ids k = Some t -> dict_get ids' k = Some t) ->
  related_images source_model source_antenna target_antenna ids objects = Some objs ->
  related_images source_model source_antenna target_antenna ids' objects = Some objs.
Proof.
  intros Hids. revert objs; induction objects as [|x objects IH]; intros objs; simpl.
  - trivial.
  - destruct (related_images _ _ _ ids objects) as [images|]; [|discriminate].
    rewrite (IH _ eq_refl).
    destruct (Nat.eqb x source_antenna); [trivial|].
    destruct (by_id source_model x) as [e|]; [|discriminate].
    destruct (is_a e "IfcTypeObject"); [|trivial].
    destruct (dict_get ids x) as [t|] eqn:Hx; [|discriminate].
    now rewrite (Hids _ _ Hx).
Qed.

(** The loop over the related objects appends exactly their images. *)
Lemma related_loop_images (objects : list handle) :
  forall acc res s s',
    related_loop source_model fuel source_antenna target_antenna objects acc s
    = Some (res, s') ->
    exists news,
      res = acc ++ news
      /\ related_images source_model source_antenna target_antenna
                        (migrated_ids s') objects = Some news.
Proof.
  induction objects as [|x objects IH]; intros acc res s s'; simpl.
  - intros [= <- <-]. exists []. now rewrite app_nil_r.
  - destruct (Nat.eqb_spec x source_antenna) as [->|Hne].
    + intros H. destruct (IH _ _ _ _ H) as (news & -> & Himg).
      exists (target_antenna :: news). rewrite Himg.
      split; [now rewrite <- app_assoc | reflexivity].
    + destruct (by_id source_model x) as [e|] eqn:Hx; [|discriminate].
      destruct (is_a e "IfcTypeObject") eqn:Htype.
      * unfold mbind.
        destruct (migrate source_model fuel x s) as [[t s1]|] eqn:Hm; [|discriminate].
        intros H. destruct (IH _ _ _ _ H) as (news & -> & Himg).
        apply migrate_grows in Hm as [_ Hcached].
        apply related_loop_grows in H as [Hgrows _].
        exists (t :: news). rewrite Himg, (proj1 Hgrows _ _ Hcached).
        split; [now rewrite <- app_assoc | reflexivity].
      * intros H. destruct (IH _ _ _ _ H) as (news & -> & Himg).
        exists news. now rewrite Himg.
Qed.

Lemma create_relation_guids (name : string) (owner_history : value) (rel : entity)
    (links : list (string * value)) (s s' : session) (h : handle) :
  create_relation name owner_history rel links s = Some (h, s') ->
  guid_calls s' = S (guid_calls s).
Proof. unfold create_relation. simpl. now intros [= _ <-]. Qed.

(** One step of the loop over the inverse relations: the relation it
    creates, the identifier it draws, and the type cache it keeps. *)
Lemma rewire_step (owner_history : value) (cache cache' : list (handle * handle))
    (relation : handle) (created : option handle) (s s' : session) :
  rewire source_model fuel source_antenna target_antenna owner_history cache relation s
  = Some ((cache', created), s') ->
  (forall k t, dict_get cache k = Some t -> dict_get (migrated_ids s) k = Some t) ->
  (forall k t, dict_get cache' k = Some t -> dict_get (migrated_ids s') k = Some t)
  /\ match created with
     | None => guid_calls s' = guid_calls s
     | Some h =>
         guid_calls s' = S (guid_calls s)
         /\ exists rel name relating objs source_relating v,
              by_id source_model relation = Some rel
              /\ In (name, relating) rewired_kinds
              /\ is_a rel name = true
              /\ get_attr rel relating = VRef source_relating
              /\ dict_get (migrated_ids s') source_relating = Some v
              /\ objs <> []
              /\ (name <> "IfcRelAssociatesMaterial" -> objs = [target_antenna])
              /\ (name = "IfcRelAssociatesMaterial" ->
                  related_images source_model source_antenna target_antenna
                                 (migrated_ids s')
                                 (refs_of (get_attr rel "RelatedObjects")) = Some objs)
              /\ by_id (model s') h
                 = Some (rewired_relation (guid_calls s) owner_history rel
                                          name relating objs v)
     end.
Proof.
  unfold rewire.
  destruct (by_id source_model relation) as [rel|] eqn:Hrel; [|discriminate].
  destruct (is_a rel "IfcRelDefinesByType") eqn:Htype.
  { destruct (get_attr rel "RelatingType") as [| | |source_type|] eqn:Hrt;
      try discriminate.
    unfold mbind.
    destruct (dict_get cache source_type) as [target_type|] eqn:Hhit.
    - unfold ret at 1.
      destruct (create_relation _ _ _ _ s) as [[h s1]|] eqn:Hc; [|discriminate].
      intros [= <- <- <-] Hcache.
      assert (Hg := Hc). apply create_relation_guids in Hg.
      apply create_relation_spec in Hc as (Hgrows & _ & Hh).
      split; [intros k t Hk; apply (proj1 Hgrows); now apply Hcache|].
      split; [exact Hg|].
      exists rel, "IfcRelDefinesByType", "RelatingType", [target_antenna],
             source_type, target_type.
      split; [reflexivity|]. split; [now left|]. split; [exact Htype|].
      split; [exact Hrt|].
      split; [apply (proj1 Hgrows); now apply Hcache|].
      split; [discriminate|]. split; [reflexivity|].
      split; [discriminate | exact Hh].
    - destruct (migrate source_model fuel source_type s) as [[t s1]|] eqn:Hm;
        [|discriminate].
      unfold ret at 1.
      destruct (create_relation _ _ _ _ s1) as [[h s2]|] eqn:Hc; [|discriminate].
      intros [= <- <- <-] Hcache.
      assert (Hg := Hc). apply create_relation_guids in Hg.
      assert (Hg1 := Hm). apply migrate_guids in Hg1.
      apply migrate_grows in Hm as [Hgrows1 Hcached].
      apply create_relation_spec in Hc as (Hgrows & _ & Hh).
      split.
      { intros k t0. simpl. rewrite dict_get_set.
        destruct (Nat.eqb_spec source_type k) as [<-|Hne].
        - intros [= <-]. now apply (proj1 Hgrows).
        - intros Hk. apply (proj1 Hgrows), (proj1 Hgrows1). now apply Hcache. }
      split; [congruence|].
      exists rel, "IfcRelDefinesByType", "RelatingType", [target_antenna],
             source_type, t.
      split; [reflexivity|]. split; [now left|]. split; [exact Htype|].
      split; [exact Hrt|].
      split; [now apply (proj1 Hgrows)|].
      split; [discriminate|]. split; [reflexivity|].
      split; [discriminate|].
      rewrite Hh, Hg1. reflexivity. }
  destruct (is_a rel "IfcRelDefinesByProperties") eqn:Hprops.
  { destruct (get_attr rel "RelatingPropertyDefinition") as [| | |source_pset|] eqn:Hrp;
      try discriminate.
    unfold mbind.
    destruct (migrate source_model fuel source_pset s) as [[t s1]|] eqn:Hm;
      [|discriminate].
    destruct (create_relation _ _ _ _ s1) as [[h s2]|] eqn:Hc; [|discriminate].
    intros [= <- <- <-] Hcache.
    assert (Hg := Hc). apply create_relation_guids in Hg.
    assert (Hg1 := Hm). apply migrate_guids in Hg1.
    apply migrate_grows in Hm as [Hgrows1 Hcached].
    apply create_relation_spec in Hc as (Hgrows & _ & Hh).
    split; [intros k t0 Hk; apply (proj1 Hgrows), (proj1 Hgrows1); now apply Hcache|].
    split; [congruence|].
    exists rel, "IfcRelDefinesByProperties", "RelatingPropertyDefinition",
           [target_antenna], source_pset, t.
    split; [reflexivity|]. split; [right; now left|]. split; [exact Hprops|].
    split; [exact Hrp|].
    split; [now apply (proj1 Hgrows)|].
    split; [discriminate|]. split; [reflexivity|].
    split; [discriminate|].
    rewrite Hh, Hg1. reflexivity. }
  destruct (is_a rel "IfcRelAssociatesMaterial") eqn:Hmat.
  2:{ intros [= <- <- <-] Hcache. split; [exact Hcache | reflexivity]. }
  destruct (get_attr rel "RelatingMaterial") as [| | |source_material|] eqn:Hrm;
    try discriminate.
  unfold mbind.
  destruct (migrate source_model fuel source_material s) as [[t s1]|] eqn:Hm;
    [|discriminate].
  destruct (related_loop _ _ _ _ _ _ s1) as [[related s2]|] eqn:Hl; [|discriminate].
  assert (Hg1 := Hm). apply migrate_guids in Hg1.
  apply migrate_grows in Hm as [Hgrows1 Hcached].
  assert (Hl' := Hl). apply related_loop_collects in Hl'.
  destruct Hl' as (Hg2 & _).
  assert (Himg := Hl). apply related_loop_images in Himg.
  destruct Himg as (news & Hnews & Himg).
  simpl in Hnews. subst news.
  apply related_loop_grows in Hl as [Hgrows2 _].
  destruct related as [|r0 related].
  - intros [= <- <- <-] Hcache.
    split; [intros k t0 Hk; apply (proj1 Hgrows2), (proj1 Hgrows1); now apply Hcache|].
    congruence.
  - destruct (create_relation _ _ _ _ s2) as [[h s3]|] eqn:Hc; [|discriminate].
    intros [= <- <- <-] Hcache.
    assert (Hg := Hc). apply create_relation_guids in Hg.
    apply create_relation_spec in Hc as (Hgrows & _ & Hh).
    split.
    { intros k t0 Hk.
      apply (proj1 Hgrows), (proj1 Hgrows2), (proj1 Hgrows1). now apply Hcache. }
    split; [congruence|].
    exists rel, "IfcRelAssociatesMaterial", "RelatingMaterial", (r0 :: related),
           source_material, t.
    split; [reflexivity|]. split; [do 2 right; now left|]. split; [exact Hmat|].
    split; [exact Hrm|].
    split; [apply (proj1 Hgrows), (proj1 Hgrows2), Hcached|].
    split; [discriminate|]. split; [congruence|].
    split.
    + intros _. eapply related_images_grows; [exact (proj1 Hgrows) | exact Himg].
    + rewrite Hh, Hg2, Hg1. reflexivity.
Qed.

End RewireFrame.

Section RewireLoopFrame.
Context {schema : Schema} {guid : GuidSource}.
Variable source_model : file.
Variable fuel : nat.
Variables source_antenna target_antenna : handle.

Lemma created_for_grows (owner_history : value) (s s' : session) (k : nat)
    (r r' : handle) :
  grows s s' ->
  created_for source_model source_antenna target_antenna owner_history s k r r' ->
  created_for source_model source_antenna target_antenna owner_history s' k r r'.
Proof.
  intros (Hids & Hframe & _)
         (rel & name & relating & objs & src & v & Hrel & Hkind & Hisa & Hattr & Hv
          & Hne & Hone & Hall & Hby).
  exists rel, name, relating, objs, src, v.
  split; [exact Hrel|]. split; [exact Hkind|]. split; [exact Hisa|].
  split; [exact Hattr|]. split; [now apply Hids|]. split; [exact Hne|].
  split; [exact Hone|]. split; [|now apply Hframe].
  intros Hname. eapply related_images_grows; [exact Hids | now apply Hall].
Qed.

(** The loop over the inverse relations draws one identifier for each
    relation it creates, in the order in which it creates them. *)
Lemma rewire_loop_creates (owner_history : value) (relations : list handle) :
  forall cache s s' rewired,
    rewire_loop source_model fuel source_antenna target_antenna owner_history
                cache relations s = Some (rewired, s') ->
    (forall k t, dict_get cache k = Some t -> dict_get (migrated_ids s) k = Some t) ->
    guid_calls s' = guid_calls s + List.length rewired
    /\ forall i r r',
         nth_error rewired i = Some (r, r') ->
         In r relations
         /\ created_for source_model source_antenna target_antenna owner_history s'
                        (guid_calls s + i) r r'.
Proof.
  induction relations as [|x relations IH]; intros cache s s' rewired; simpl.
  - intros [= <- <-] _. split; [simpl; lia|]. intros [|i] r r'; discriminate.
  - unfold mbind.
    destruct (rewire _ _ _ _ _ cache x s) as [[[cache1 created] s1]|] eqn:Hstep;
      [|discriminate].
    destruct (rewire_loop _ _ _ _ _ _ relations s1) as [[rest s2]|] eqn:Hrest;
      [|discriminate].
    intros [= <- <-] Hcache. cbn [fst snd] in *.
    assert (Hs := Hstep). apply rewire_step in Hs; [|exact Hcache].
    destruct Hs as [Hcache1 Hcreated].
    destruct (IH _ _ _ _ Hrest Hcache1) as [Hcalls Hall].
    assert (Hgrows := Hrest). apply rewire_loop_spec in Hgrows as [Hgrows _].
    simpl. destruct created as [h|].
    + destruct Hcreated as [Hg Hnew].
      split; [simpl; lia|].
      intros [|i] r r' Hn; simpl in Hn.
      * injection Hn as <- <-. split; [now left|].
        rewrite Nat.add_0_r. eapply created_for_grows; [exact Hgrows|].
        destruct Hnew as (rel & name & relating & objs & src & v & Hnew).
        now exists rel, name, relating, objs, src, v.
      * destruct (Hall _ _ _ Hn) as [Hin Hc]. split; [now right|].
        replace (guid_calls s + S i) with (guid_calls s1 + i) by lia. exact Hc.
    + split; [lia|].
      intros i r r' Hn. destruct (Hall _ _ _ Hn) as [Hin Hc]. split; [now right|].
      now rewrite <- Hcreated.
Qed.

Lemma copy_inverse_relations_rewires (s s' : session) (u : unit) :
  copy_inverse_relations source_model fuel source_antenna target_antenna s
  = Some (u, s') ->
  exists rewired,
    rewire_relations source_model fuel source_antenna target_antenna s
    = Some (rewired, s').
Proof.
  unfold copy_inverse_relations, mbind.
  destruct (rewire_relations _ _ _ _ s) as [[rewired s1]|]; [|discriminate].
  intros [= _ <-]. now exists rewired.
Qed.

(** X21: every relation that [copy_inverse_relations] creates is the copy
    of an inverse relation of the source antenna of one of the three kinds
    it handles: it has that class, the owner history chosen at the start
    (the target model's first record, else that of the target antenna), the
    name and the description of the source relation, and an identifier of
    its own, drawn in the order of creation; it relates its objects to the
    migrator's clone of the relating entity.  For the two defining
    relations the target antenna is the one related object.  For a
    material association the related objects are exactly, in the order of
    the source relation, the target antenna for each occurrence of the
    source antenna and the migrator's clone for each other related object
    that is a type object; every other related object is left out, and the
    relation is created only when this list is not empty.  The call draws
    exactly one identifier for each relation it creates. *)
Theorem copy_inverse_relations_creates (s s' : session) (u : unit) :
  copy_inverse_relations source_model fuel source_antenna target_antenna s
  = Some (u, s') ->
  exists rewired,
    rewire_relations source_model fuel source_antenna target_antenna s
    = Some (rewired, s')
    /\ guid_calls s' = guid_calls s + List.length rewired
    /\ forall i r r',
         nth_error rewired i = Some (r, r') ->
         In r (get_inverse source_model source_antenna)
         /\ created_for source_model source_antenna target_antenna
                        (owner_history_or (model s) target_antenna) s'
                        (guid_calls s + i) r r'.
Proof.
  intros H. apply copy_inverse_relations_rewires in H as [rewired H].
  exists rewired. split; [exact H|].
  unfold rewire_relations in H.
  apply rewire_loop_creates in H; [exact H|].
  intros k t. discriminate.
Qed.

(** X22: [copy_inverse_relations] only adds to the target model: every
    entity the model held before the call, the target antenna included, is
    still there under its handle and unchanged; the migrator's manifest
    keeps every entry it had, and no identifier is given back. *)
Theorem copy_inverse_relations_only_adds (s s' : session) (u : unit) :
  copy_inverse_relations source_model fuel source_antenna target_antenna s
  = Some (u, s') ->
  (forall h e, by_id (model s) h = Some e -> by_id (model s') h = Some e)
  /\ (forall k t, dict_get (migrated_ids s) k = Some t ->
                  dict_get (migrated_ids s') k = Some t)
  /\ (cache_consistent s -> cache_consistent s')
  /\ guid_calls s <= guid_calls s'.
Proof.
  intros H. apply copy_inverse_relations_rewires in H as [rewired H].
  unfold rewire_relations in H.
  assert (Hc := H). apply rewire_loop_creates in Hc; [|intros k t; discriminate].
  apply rewire_loop_spec in H as ((Hids & Hframe & Hcons) & _).
  split; [exact Hframe|]. split; [exact Hids|]. split; [exact Hcons|].
  destruct Hc as [-> _]. lia.
Qed.

End RewireLoopFrame.

Lemma copy_inverse_relations_creates_witness :
  copy_inverse_relations donor_example 20 20 9 antenna_session
  = Some (tt, rewired_session)
  /\ exists rewired,
       rewire_relations donor_example 20 20 9 antenna_session
       = Some (rewired, rewired_session)
       /\ guid_calls rewired_session
          = guid_calls antenna_session + List.length rewired.
Proof.
  assert (H : copy_inverse_relations donor_example 20 20 9 antenna_session
              = Some (tt, rewired_session)) by (vm_compute; reflexivity).
  split; [exact H|].
  destruct (@copy_inverse_relations_creates ifc4_fragment stroke_guids
              donor_example 20 20 9 antenna_session rewired_session tt H)
    as (rewired & Hr & Hg & _).
  exists rewired. now split.
Defined.

Lemma copy_inverse_relations_only_adds_witness :
  copy_inverse_relations donor_example 20 20 9 antenna_session
  = Some (tt, rewired_session)
  /\ (forall h e, by_id (model antenna_session) h = Some e ->
                  by_id (model rewired_session) h = Some e).
Proof.
  assert (H : copy_inverse_relations donor_example 20 20 9 antenna_session
              = Some (tt, rewired_session)) by (vm_compute; reflexivity).
  split; [exact H|].
  exact (proj1 (@copy_inverse_relations_only_adds ifc4_fragment stroke_guids
                  donor_example 20 20 9 antenna_session rewired_session tt H)).
Defined.

(* ================================================================== *)
(** * The last steps of [main], composed *)

Section FinishFacts.
Context {schema : Schema} {guid : GuidSource}.

Lemma attach_manifest (s : session) (container product : handle) :
  migrated_ids (attach_to_container s container product) = migrated_ids s
  /\ guid_calls s <= guid_calls (attach_to_container s container product).
Proof.
  unfold attach_to_container.
  destruct (ContainsElements (model s) container) as [|relation rest].
  - simpl. split; [reflexivity | lia].
  - destruct (existsb _ _); simpl; split; (reflexivity || lia).
Qed.

Lemma attach_by_id (s : session) (container product h : handle) (e : entity) :
  by_id (model s) h = Some e ->
  exists e',
    by_id (model (attach_to_container s container product)) h = Some e'
    /\ ifc_class e' = ifc_class e
    /\ forall name, name <> "RelatedElements" -> get_attr e' name = get_attr e name.
Proof.
  intros He. unfold attach_to_container.
  destruct (ContainsElements (model s) container) as [|relation rest].
  - simpl. rewrite by_id_app, He. now exists e.
  - destruct (existsb _ _); [now exists e|].
    simpl. rewrite by_id_update, He.
    destruct (Nat.eqb h relation); [|now exists e].
    eexists. split; [reflexivity|]. split; [reflexivity|].
    intros name Hne. now apply get_attr_set_other.
Qed.

Lemma refresh_by_id_outside (s : session) (h : handle) :
  ~ In h (map snd (migrated_ids s)) ->
  by_id (model (refresh_migrated_root_guids s)) h = by_id (model s) h.
Proof.
  intros Hout. unfold refresh_migrated_root_guids.
  destruct (refresh_loop_spec (map snd (migrated_ids s)) s) as [_ Hid].
  rewrite Hid, stamp_of_none; [reflexivity | now left].
Qed.

(** X23: the last steps of [main], from the rewiring of the relations to
    the final identifier of the antenna, taken together.  When they
    complete with a target owner history, at least one identifier was
    drawn and the antenna carries the last one; the migrator's manifest
    kept its entries; every root entity of the manifest that is in the
    model refers to the target's owner history; and an entity that was in
    the model before, is not in the manifest and is not the antenna, is
    either gone or has its class and all its attributes as before, except
    for [RelatedElements]. *)
Theorem finish_insertion_composed (iteration : list handle -> list handle)
    (source_model : file) (fuel : nat)
    (source_antenna target_antenna target_container toh : handle)
    (s s' : session) (u : unit) :
  finish_insertion iteration source_model fuel source_antenna target_antenna
                   target_container (Some toh) s = Some (u, s') ->
  guid_calls s < guid_calls s'
  /\ (exists e, by_id (model s') target_antenna = Some e
                /\ get_attr e "GlobalId" = VStr (guid_of_call (guid_calls s' - 1)))
  /\ (forall k t, dict_get (migrated_ids s) k = Some t ->
                  dict_get (migrated_ids s') k = Some t)
  /\ (forall h e, In h (map snd (migrated_ids s')) ->
                  by_id (model s') h = Some e ->
                  is_a e "IfcRoot" = true ->
                  get_attr e "OwnerHistory" = VRef toh)
  /\ (forall h e e', by_id (model s) h = Some e ->
                     ~ In h (map snd (migrated_ids s')) ->
                     h <> target_antenna ->
                     by_id (model s') h = Some e' ->
                     ifc_class e' = ifc_class e
                     /\ forall name, name <> "RelatedElements" ->
                                     get_attr e' name = get_attr e name).
Proof.
  unfold finish_insertion, mbind.
  destruct (copy_inverse_relations _ _ _ _ s) as [[[] s1]|] eqn:Hcopy; [|discriminate].
  set (s2 := attach_to_container s1 target_container target_antenna).
  set (s3 := refresh_migrated_root_guids s2).
  set (s4 := harmonize_migrated_owner_history iteration s3 (Some toh)).
  cbn [guid_new model].
  destruct (by_id (model s4) target_antenna) as [antenna|] eqn:Hantenna; [|discriminate].
  intros [= _ <-].
  assert (Hadds := Hcopy). apply copy_inverse_relations_rewires in Hadds as [rewired Hr].
  unfold rewire_relations in Hr.
  assert (Hc := Hr). apply rewire_loop_creates in Hc; [|intros k t; discriminate].
  destruct Hc as [Hcalls1 _].
  apply rewire_loop_spec in Hr as ((Hids & Hframe & _) & _).
  destruct (attach_manifest s1 target_container target_antenna) as [Hm2 Hg2].
  fold s2 in Hm2, Hg2.
  destruct (refresh_loop_frame (map snd (migrated_ids s2)) s2) as (_ & Hm3 & _).
  destruct (refresh_loop_spec (map snd (migrated_ids s2)) s2) as [Hg3 _].
  fold (refresh_migrated_root_guids s2) in Hm3, Hg3. fold s3 in Hm3, Hg3.
  destruct (harmonize_manifest iteration s3 (Some toh)) as [Hm4 Hg4].
  fold s4 in Hm4, Hg4.
  cbn [guid_calls migrated_ids with_model model].
  split; [lia|]. split; [|split; [|split]].
  - rewrite by_id_update, Nat.eqb_refl, Hantenna. cbn [option_map].
    eexists. split; [reflexivity|]. rewrite get_attr_set_same.
    do 3 f_equal. lia.
  - intros k t Hk. rewrite Hm4, Hm3, Hm2. now apply Hids.
  - intros h e Hin He Hroot. rewrite Hm4 in Hin.
    rewrite by_id_update in He.
    destruct (Nat.eqb h target_antenna).
    + destruct (by_id (model s4) h) as [e4|] eqn:He4; [|discriminate].
      injection He as <-. rewrite is_a_set_attr in Hroot.
      rewrite get_attr_set_other by discriminate.
      eapply harmonize_owner_history; eassumption.
    + eapply harmonize_owner_history; eassumption.
  - intros h e e' He Hout Hne He'.
    rewrite Hm4, Hm3 in Hout.
    rewrite by_id_update in He'.
    destruct (Nat.eqb_spec h target_antenna); [contradiction|].
    apply harmonize_by_id in He' as (e3 & He3 & ->).
    assert (Hnot : existsb (Nat.eqb h) (map snd (migrated_ids s3)) = false).
    { destruct (existsb _ _) eqn:E; [|reflexivity].
      apply existsb_eqb_In in E. rewrite Hm3 in E. contradiction. }
    rewrite Hnot. cbn [andb].
    unfold s3 in He3. rewrite refresh_by_id_outside in He3 by exact Hout.
    apply Hframe in He.
    destruct (attach_by_id s1 target_container target_antenna _ He)
      as (e2 & He2 & Hclass & Hattrs).
    fold s2 in He2. rewrite He2 in He3. injection He3 as <-.
    now split.
Qed.

End FinishFacts.

Lemma finish_insertion_composed_witness :
  exists s',
    finish_insertion (fun l => l) donor_example 20 20 9 6 (Some 5) antenna_session
    = Some (tt, s')
    /\ guid_calls antenna_session < guid_calls s'.
Proof.
  destruct (finish_insertion (fun l => l) donor_example 20 20 9 6 (Some 5) antenna_session)
    as [[[] s']|] eqn:H; [|vm_compute in H; discriminate].
  exists s'. split; [reflexivity|].
  exact (proj1 (@finish_insertion_composed ifc4_fragment stroke_guids (fun l => l)
                  donor_example 20 20 9 6 5 antenna_session s' tt H)).
Defined.
